(** * ankerl::unordered_dense: the robin-hood index over a dense value array

    A shallow embedding of [include/ankerl/unordered_dense.h] (version 0.0.1)
    and the properties of its table that the specification states.

    Conventions of the embedding.
    - Unsigned machine integers are [Z] with the wrap-around written out
      ([u8], [u32], [u64]).
    - The metadata array [m_buckets_start .. m_buckets_end) is a [list Bucket];
      the empty list is the pair of null pointers of a table that never
      allocated.  A [Bucket*] is the [nat] offset from [m_buckets_start].
    - An iterator is the [Z] offset from [begin()]; [end()] is the size.
    - A member function that changes the table returns the new table.
    - [result] is the outcome of a call: a value, a thrown C++ exception, or
      [Undefined] when the call has undefined behaviour (a read outside an
      array, an over-wide shift, a missing [return]) or when one of its loops
      does not stop within the step bound given to it.
    - [m_max_load_factor] is a binary float, kept as the dyadic rational it
      denotes; it is only ever multiplied by a power of two, which is exact. *)

From Stdlib Require Import ZArith Lia String.
From stdpp Require Import base tactics option list numbers.

Local Open Scope Z_scope.

(** ** Outcomes of calls *)

Inductive exception : Type :=
  | out_of_range (what : string).

Inductive result (A : Type) : Type :=
  | Ok (a : A)
  | Throw (e : exception)
  | Undefined.
Arguments Ok {A} a.
Arguments Throw {A} e.
Arguments Undefined {A}.

#[global] Instance result_ret : MRet result := @Ok.
#[global] Instance result_bind : MBind result := λ A B f m,
  match m with
  | Ok a => f a
  | Throw e => Throw e
  | Undefined => Undefined
  end.

(** [l[i]] for a [std::vector] or a raw array: reading outside is undefined. *)
Definition deref {A : Type} (l : list A) (i : nat) : result A :=
  match l !! i with
  | Some x => Ok x
  | None => Undefined
  end.

Definition at_index {A : Type} (l : list A) (i : Z) : result A :=
  if i <? 0 then Undefined else deref l (Z.to_nat i).

(** [std::vector::pop_back]; undefined on an empty vector. *)
Definition pop_back {A : Type} (l : list A) : result (list A) :=
  match l with
  | [] => Undefined
  | _ => Ok (take (length l - 1)%nat l)
  end.

(** ** Fixed-width unsigned integers *)

Definition u8 (x : Z) : Z := x mod 2 ^ 8.
Definition u32 (x : Z) : Z := x mod 2 ^ 32.
Definition u64 (x : Z) : Z := x mod 2 ^ 64.

(** ** Binary floats as dyadic rationals *)

(** The float [mantissa * 2 ^ binexp]. *)
Record dyadic : Type := mk_dyadic { mantissa : Z; binexp : Z }.

(** [0.8] rounded to binary32, the initial [m_max_load_factor]. *)
Definition float_0_8 : dyadic := mk_dyadic 13421773 (-24).

(** The product of the power of two [2 ^ k] (an integer converted to float)
    and a float: only the exponent moves. *)
Definition mul_pow2 (k : Z) (x : dyadic) : dyadic :=
  mk_dyadic (mantissa x) (binexp x + k).

(** [static_cast<uint64_t>(x)]: truncation toward zero, undefined when the
    truncated value is not a [uint64_t]. *)
Definition float_to_uint64 (x : dyadic) : result Z :=
  let v := if 0 <=? binexp x then mantissa x * 2 ^ binexp x
           else Z.quot (mantissa x) (2 ^ (- binexp x)) in
  if (0 <=? v) && (v <? 2 ^ 64) then Ok v else Undefined.

(** ** wyhash: the multiply-and-xor mix *)

Module wyhash.

(** [mum(&a, &b)], the [__uint128_t] branch: the pair of new [*a], [*b]. *)
Definition mum (a b : Z) : Z * Z :=
  let r := a * b in
  (u64 r, u64 (Z.shiftr r 64)).

Definition mix (a b : Z) : Z :=
  let '(a, b) := mum a b in
  Z.lxor a b.

(** [mum(&a, &b)], the branch without a 128-bit type, on 32-bit halves. *)
Definition mum_portable (a b : Z) : Z * Z :=
  let ha := Z.shiftr a 32 in
  let hb := Z.shiftr b 32 in
  let la := u32 a in
  let lb := u32 b in
  let rh := u64 (ha * hb) in
  let rm0 := u64 (ha * lb) in
  let rm1 := u64 (hb * la) in
  let rl := u64 (la * lb) in
  let t := u64 (rl + u64 (Z.shiftl rm0 32)) in
  let c := if t <? rl then 1 else 0 in
  let lo := u64 (t + u64 (Z.shiftl rm1 32)) in
  let c := u64 (c + (if lo <? t then 1 else 0)) in
  let hi := u64 (rh + Z.shiftr rm0 32 + Z.shiftr rm1 32 + c) in
  (lo, hi).

(** [mix] where [mum] is compiled to its portable branch. *)
Definition mix_portable (a b : Z) : Z :=
  let '(a, b) := mum_portable a b in
  Z.lxor a b.

(** The bytes of a key are a [list Z]; a pointer into them is the offset
    from the first.  [read_le key p n] is what [memcpy] of [n] bytes from
    [p] leaves in a zeroed integer of a little-endian machine. *)
Fixpoint read_le (key : list Z) (p : Z) (n : nat) : result Z :=
  match n with
  | O => Ok 0
  | S n' =>
      b ← at_index key p;
      rest ← read_le key (p + 1) n';
      Ok (Z.lor b (Z.shiftl rest 8))
  end.

(** The keys whose elements are values of [uint8_t]. *)
Definition bytes (key : list Z) : Prop := Forall (λ b, 0 ≤ b < 2 ^ 8) key.

Definition r8 (key : list Z) (p : Z) : result Z := read_le key p 8.
Definition r4 (key : list Z) (p : Z) : result Z := read_le key p 4.

(** Reads 1, 2, or 3 bytes. *)
Definition r3 (key : list Z) (p : Z) (k : Z) : result Z :=
  b0 ← at_index key p;
  b1 ← at_index key (p + Z.shiftr k 1);
  b2 ← at_index key (p + (k - 1));
  Ok (Z.lor (Z.lor (Z.shiftl b0 16) (Z.shiftl b1 8)) b2).

Definition secret0 : Z := 0xa0761d6478bd642f.
Definition secret1 : Z := 0xe7037ed1a0b428db.
Definition secret2 : Z := 0x8ebc6af09c88c6e3.
Definition secret3 : Z := 0x589965cc75374cc3.

Section hash.

(** [mix] as it is compiled: over one branch of [mum] or the other. *)
Variable mix : Z → Z → Z.

(** The [do]-[while] over blocks of 48 bytes: the pointer, the bytes left
    and the three seeds when it stops. *)
Fixpoint hash_loop48 (fuel : nat) (key : list Z) (p i seed see1 see2 : Z)
    : result (Z * Z * Z * Z * Z) :=
  match fuel with
  | O => Undefined
  | S fuel' =>
      x0 ← r8 key p;
      x1 ← r8 key (p + 8);
      let seed := mix (Z.lxor x0 secret1) (Z.lxor x1 seed) in
      x2 ← r8 key (p + 16);
      x3 ← r8 key (p + 24);
      let see1 := mix (Z.lxor x2 secret2) (Z.lxor x3 see1) in
      x4 ← r8 key (p + 32);
      x5 ← r8 key (p + 40);
      let see2 := mix (Z.lxor x4 secret3) (Z.lxor x5 see2) in
      let p := p + 48 in
      let i := i - 48 in
      if 48 <? i then hash_loop48 fuel' key p i seed see1 see2
      else Ok (p, i, seed, see1, see2)
  end.

(** The [while] over blocks of 16 bytes. *)
Fixpoint hash_loop16 (fuel : nat) (key : list Z) (p i seed : Z) : result (Z * Z * Z) :=
  match fuel with
  | O => Undefined
  | S fuel' =>
      if 16 <? i then
        x0 ← r8 key p;
        x1 ← r8 key (p + 8);
        let seed := mix (Z.lxor x0 secret1) (Z.lxor x1 seed) in
        hash_loop16 fuel' key (p + 16) (i - 16) seed
      else Ok (p, i, seed)
  end.

(** [hash(key, len)] for the [len] bytes of [key]. *)
Definition hash (key : list Z) : result Z :=
  let len := Z.of_nat (length key) in
  let p := 0 in
  let seed := secret0 in
  abs ←
    (if len <=? 16 then
       if 4 <=? len then
         let o := Z.shiftl (Z.shiftr len 3) 2 in
         x0 ← r4 key p;
         x1 ← r4 key (p + o);
         y0 ← r4 key (p + len - 4);
         y1 ← r4 key (p + len - 4 - o);
         Ok (Z.lor (u64 (Z.shiftl x0 32)) x1, Z.lor (u64 (Z.shiftl y0 32)) y1, seed)
       else if 0 <? len then
         a ← r3 key p len;
         Ok (a, 0, seed)
       else Ok (0, 0, seed)
     else
       let i := len in
       pis ←
         (if 48 <? i then
            r ← hash_loop48 (length key) key p i seed seed seed;
            let '(p, i, seed, see1, see2) := r in
            Ok (p, i, Z.lxor seed (Z.lxor see1 see2))
          else Ok (p, i, seed));
       let '(p, i, seed) := pis in
       pis ← hash_loop16 (S (length key)) key p i seed;
       let '(p, i, seed) := pis in
       a ← r8 key (p + i - 16);
       b ← r8 key (p + i - 8);
       Ok (a, b, seed));
  let '(a, b, seed) := abs in
  Ok (mix (Z.lxor secret1 len) (mix (Z.lxor a secret1) (Z.lxor b seed))).

End hash.

End wyhash.

(** ** The table *)

Record Bucket : Type := mk_Bucket {
  dist_and_fingerprint : Z;   (* uint32_t *)
  value_idx : Z               (* uint32_t *)
}.

Definition BUCKET_DIST_INC : Z := Z.shiftl 1 8.
Definition BUCKET_FINGERPRINT_MASK : Z := BUCKET_DIST_INC - 1.
Definition INITIAL_SHIFTS : Z := 64 - 3.

(** [next(bucket)] on offsets into an array of [length bs] buckets. *)
Definition next (bs : list Bucket) (bucket : nat) : nat :=
  if decide (S bucket = length bs) then 0%nat else S bucket.

(** The longest run the loops over the metadata are given: one lap around
    the array and the closing test. *)
Definition lap (bs : list Bucket) : nat := S (length bs).

Definition dist_and_fingerprint_from_hash (hash : Z) : Z :=
  u32 (Z.lor BUCKET_DIST_INC (Z.land hash BUCKET_FINGERPRINT_MASK)).

Definition calc_num_buckets (shifts : Z) : result Z :=
  let amount := u32 (64 - shifts) in
  if amount <? 64 then Ok (u64 (Z.shiftl 1 amount)) else Undefined.

(** The outcome of the probe of [emplace] and [do_try_emplace]. *)
Inductive probe : Type :=
  | Found (bucket : Bucket)
  | Vacant (dist_and_fingerprint : Z) (bucket : nat).

Section table.

Context {Key T : Type}.

(** [Hash], its [is_avalanching] tag, [KeyEqual], and [operator==] of the
    mapped type. *)
Variable m_hash : Key → Z.
Variable is_avalanching : bool.
Variable m_equal : Key → Key → bool.
Variable mapped_eq : T → T → bool.

(** [value_type] is the pair of key and mapped value; an [iterator] is the
    offset from [begin()]. *)
Local Abbreviation value_type := (Key * T)%type.
Local Abbreviation iterator := Z.

Record table : Type := mk_table {
  m_values : list value_type;
  m_buckets : list Bucket;
  m_max_bucket_capacity : Z;     (* uint32_t *)
  m_max_load_factor : dyadic;    (* float *)
  m_shifts : Z                   (* uint8_t *)
}.

Definition set_values (t : table) (vs : list value_type) : table :=
  mk_table vs (m_buckets t) (m_max_bucket_capacity t) (m_max_load_factor t) (m_shifts t).
Definition set_buckets (t : table) (bs : list Bucket) : table :=
  mk_table (m_values t) bs (m_max_bucket_capacity t) (m_max_load_factor t) (m_shifts t).
Definition set_shifts (t : table) (s : Z) : table :=
  mk_table (m_values t) (m_buckets t) (m_max_bucket_capacity t) (m_max_load_factor t) s.

Definition get_key (vt : value_type) : Key := fst vt.

Definition mixed_hash (key : Key) : Z :=
  if is_avalanching then u64 (m_hash key)
  else wyhash.mix (u64 (m_hash key)) 0x9E3779B97F4A7C15.

Definition bucket_from_hash (t : table) (hash : Z) : nat :=
  Z.to_nat (Z.shiftr hash (m_shifts t)).

Definition begin_ (t : table) : iterator := 0.
Definition end_ (t : table) : iterator := Z.of_nat (length (m_values t)).
Definition empty (t : table) : bool := bool_decide (m_values t = []).
Definition size (t : table) : Z := Z.of_nat (length (m_values t)).
Definition max_size (t : table) : Z := 2 ^ 32 - 1.
Definition bucket_count (t : table) : Z := Z.of_nat (length (m_buckets t)).
Definition max_load_factor (t : table) : dyadic := m_max_load_factor t.

Fixpoint next_while_less_loop (fuel : nat) (bs : list Bucket)
    (daf : Z) (bucket : nat) : result (Z * nat) :=
  match fuel with
  | O => Undefined
  | S fuel' =>
      b ← deref bs bucket;
      if daf <? dist_and_fingerprint b then
        next_while_less_loop fuel' bs (u32 (daf + BUCKET_DIST_INC)) (next bs bucket)
      else Ok (daf, bucket)
  end.

Definition next_while_less (t : table) (key : Key) : result (Z * nat) :=
  let hash := mixed_hash key in
  let daf := dist_and_fingerprint_from_hash hash in
  let bucket := bucket_from_hash t hash in
  next_while_less_loop (lap (m_buckets t)) (m_buckets t) daf bucket.

Fixpoint place_and_shift_up_loop (fuel : nat) (bs : list Bucket)
    (bucket : Bucket) (place : nat) : result (list Bucket) :=
  match fuel with
  | O => Undefined
  | S fuel' =>
      p ← deref bs place;
      if negb (0 =? dist_and_fingerprint p) then
        (* bucket = std::exchange of the slot at place with bucket *)
        let bs' := <[place := bucket]> bs in
        let bucket' :=
          mk_Bucket (u32 (dist_and_fingerprint p + BUCKET_DIST_INC)) (value_idx p) in
        place_and_shift_up_loop fuel' bs' bucket' (next bs place)
      else Ok (<[place := bucket]> bs)
  end.

Definition place_and_shift_up (t : table) (bucket : Bucket) (place : nat) : result table :=
  bs ← place_and_shift_up_loop (lap (m_buckets t)) (m_buckets t) bucket place;
  Ok (set_buckets t bs).

(** [calc_num_buckets(shifts) * max_load_factor()] cast to [uint64_t]. *)
Definition scaled_capacity (mlf : dyadic) (shifts : Z) : result Z :=
  let amount := u32 (64 - shifts) in
  if amount <? 64 then float_to_uint64 (mul_pow2 amount mlf) else Undefined.

Fixpoint calc_shifts_for_size_loop (fuel : nat) (mlf : dyadic) (shifts s : Z) : result Z :=
  match fuel with
  | O => Undefined
  | S fuel' =>
      c ← scaled_capacity mlf shifts;
      if c <? s then calc_shifts_for_size_loop fuel' mlf (u8 (shifts - 1)) s
      else Ok shifts
  end.

(** The loop leaves the defined range of the shift after [INITIAL_SHIFTS]
    decrements, so that many steps and the closing test are all it can use. *)
Definition calc_shifts_for_size (t : table) (s : Z) : result Z :=
  calc_shifts_for_size_loop 62 (max_load_factor t) INITIAL_SHIFTS s.

Definition is_full (t : table) : bool := m_max_bucket_capacity t <=? size t.

Definition deallocate_buckets (t : table) : table :=
  mk_table (m_values t) [] 0 (m_max_load_factor t) (m_shifts t).

(** Allocation itself is taken to succeed. *)
Definition allocate_and_clear_buckets (t : table) : result table :=
  let amount := u32 (64 - m_shifts t) in
  if amount <? 64 then
    let num_buckets := u64 (Z.shiftl 1 amount) in
    c ← float_to_uint64 (mul_pow2 amount (max_load_factor t));
    Ok (mk_table (m_values t)
          (replicate (Z.to_nat num_buckets) (mk_Bucket 0 0))
          (u32 c) (m_max_load_factor t) (m_shifts t))
  else Undefined.

Definition clear_buckets (t : table) : table :=
  set_buckets t (replicate (length (m_buckets t)) (mk_Bucket 0 0)).

(** The [for] loop of [fill_buckets_from_values], [todo] rounds from
    [value_idx] on. *)
Fixpoint fill_buckets_loop (todo : nat) (value_idx : Z) (t : table) : result table :=
  match todo with
  | O => Ok t
  | S todo' =>
      vt ← at_index (m_values t) value_idx;
      '(daf, bucket) ← next_while_less t (get_key vt);
      t' ← place_and_shift_up t (mk_Bucket daf value_idx) bucket;
      fill_buckets_loop todo' (u32 (value_idx + 1)) t'
  end.

Definition fill_buckets_from_values (t : table) : result table :=
  let end_idx := u32 (size t) in
  fill_buckets_loop (Z.to_nat end_idx) 0 t.

Definition init_from_values (t : table) : result table :=
  if negb (empty t) then
    shifts ← calc_shifts_for_size t (size t);
    t1 ← allocate_and_clear_buckets (set_shifts t shifts);
    fill_buckets_from_values t1
  else Ok t.

Definition increase_size (t : table) : result table :=
  let t1 := set_shifts t (u8 (m_shifts t - 1)) in
  let t2 := deallocate_buckets t1 in
  t3 ← allocate_and_clear_buckets t2;
  fill_buckets_from_values t3.

(** The first loop of [do_erase]: the pair of [bucket] and the array when
    it stops. *)
Fixpoint shift_down_loop (fuel : nat) (bs : list Bucket)
    (bucket next_bucket : nat) : result (list Bucket * nat) :=
  match fuel with
  | O => Undefined
  | S fuel' =>
      nb ← deref bs next_bucket;
      if BUCKET_DIST_INC * 2 <=? dist_and_fingerprint nb then
        let bs' :=
          <[bucket := mk_Bucket (u32 (dist_and_fingerprint nb - BUCKET_DIST_INC))
                                (value_idx nb)]> bs in
        shift_down_loop fuel' bs' next_bucket (next bs next_bucket)
      else Ok (bs, bucket)
  end.

(** The loops of [do_erase] and [erase(iterator)] that walk to the bucket
    holding a given [value_idx]. *)
Fixpoint seek_value_idx_loop (fuel : nat) (bs : list Bucket)
    (idx : Z) (bucket : nat) : result nat :=
  match fuel with
  | O => Undefined
  | S fuel' =>
      b ← deref bs bucket;
      if negb (idx =? value_idx b) then seek_value_idx_loop fuel' bs idx (next bs bucket)
      else Ok bucket
  end.

Definition do_erase (t : table) (bucket : nat) : result table :=
  let bs := m_buckets t in
  b ← deref bs bucket;
  let value_idx_to_remove := value_idx b in
  '(bs1, bucket1) ← shift_down_loop (lap bs) bs bucket (next bs bucket);
  let bs2 := <[bucket1 := mk_Bucket 0 0]> bs1 in
  if negb (value_idx_to_remove =? u64 (size t - 1)) then
    _ ← at_index (m_values t) value_idx_to_remove;
    back ← at_index (m_values t) (size t - 1);
    (* val = std::move(m_values.back()) *)
    let vals := <[Z.to_nat value_idx_to_remove := back]> (m_values t) in
    let mh := mixed_hash (get_key back) in
    let start := bucket_from_hash t mh in
    let values_idx_back := u32 (size t - 1) in
    bucket2 ← seek_value_idx_loop (lap bs2) bs2 values_idx_back start;
    b2 ← deref bs2 bucket2;
    let bs3 := <[bucket2 := mk_Bucket (dist_and_fingerprint b2) value_idx_to_remove]> bs2 in
    vals' ← pop_back vals;
    Ok (set_values (set_buckets t bs3) vals')
  else
    vals' ← pop_back (m_values t);
    Ok (set_values (set_buckets t bs2) vals').

(** [daf == bucket->dist_and_fingerprint && m_equal(key, get_key(m_values[bucket->value_idx]))],
    the right operand read only when the left holds. *)
Definition bucket_holds (vals : list value_type) (key : Key) (daf : Z) (b : Bucket)
    : result bool :=
  if daf =? dist_and_fingerprint b then
    vt ← at_index vals (value_idx b);
    Ok (m_equal key (get_key vt))
  else Ok false.

Fixpoint do_erase_key_loop (fuel : nat) (vals : list value_type) (bs : list Bucket)
    (key : Key) (daf : Z) (bucket : nat) : result (Z * nat) :=
  match fuel with
  | O => Undefined
  | S fuel' =>
      b ← deref bs bucket;
      if daf =? dist_and_fingerprint b then
        vt ← at_index vals (value_idx b);
        if negb (m_equal key (get_key vt)) then
          do_erase_key_loop fuel' vals bs key (u32 (daf + BUCKET_DIST_INC)) (next bs bucket)
        else Ok (daf, bucket)
      else Ok (daf, bucket)
  end.

Definition do_erase_key (t : table) (key : Key) : result (table * Z) :=
  '(daf, bucket) ← next_while_less t key;
  '(daf, bucket) ← do_erase_key_loop (lap (m_buckets t)) (m_values t) (m_buckets t)
                     key daf bucket;
  b ← deref (m_buckets t) bucket;
  if negb (daf =? dist_and_fingerprint b) then Ok (t, 0)
  else
    t' ← do_erase t bucket;
    Ok (t', 1).

(** The probe loop that [do_try_emplace] and [emplace] both spell out. *)
Fixpoint probe_loop (fuel : nat) (vals : list value_type) (bs : list Bucket)
    (key : Key) (daf : Z) (bucket : nat) : result probe :=
  match fuel with
  | O => Undefined
  | S fuel' =>
      b ← deref bs bucket;
      if daf <=? dist_and_fingerprint b then
        hit ← bucket_holds vals key daf b;
        if (hit : bool) then Ok (Found b)
        else probe_loop fuel' vals bs key (u32 (daf + BUCKET_DIST_INC)) (next bs bucket)
      else Ok (Vacant daf bucket)
  end.

Definition do_try_emplace (t : table) (key : Key) (args : T)
    : result (table * (iterator * bool)) :=
  t ← (if is_full t then increase_size t else Ok t);
  let hash := mixed_hash key in
  let daf := dist_and_fingerprint_from_hash hash in
  let bucket := bucket_from_hash t hash in
  r ← probe_loop (lap (m_buckets t)) (m_values t) (m_buckets t) key daf bucket;
  match r with
  | Found b => Ok (t, (begin_ t + value_idx b, false))
  | Vacant daf bucket =>
      let t1 := set_values t (m_values t ++ [(key, args)]) in
      let value_idx := u32 (u32 (size t1) - 1) in
      t2 ← place_and_shift_up t1 (mk_Bucket daf value_idx) bucket;
      Ok (t2, (begin_ t2 + value_idx, true))
  end.

Definition try_emplace (t : table) (key : Key) (args : T)
    : result (table * (iterator * bool)) :=
  do_try_emplace t key args.

Definition do_insert_or_assign (t : table) (key : Key) (mapped : T)
    : result (table * (iterator * bool)) :=
  it_isinserted ← try_emplace t key mapped;
  let '(t1, (it, inserted)) := it_isinserted in
  if negb inserted then
    vt ← at_index (m_values t1) it;
    Ok (set_values t1 (<[Z.to_nat it := (fst vt, mapped)]> (m_values t1)), (it, inserted))
  else Ok (t1, (it, inserted)).

Definition insert_or_assign (t : table) (key : Key) (mapped : T)
    : result (table * (iterator * bool)) :=
  do_insert_or_assign t key mapped.

(** The [do]-[while] of [do_find]. *)
Fixpoint do_find_loop (fuel : nat) (vals : list value_type) (bs : list Bucket)
    (key : Key) (daf : Z) (bucket : nat) : result iterator :=
  match fuel with
  | O => Undefined
  | S fuel' =>
      b ← deref bs bucket;
      hit ← bucket_holds vals key daf b;
      if (hit : bool) then Ok (0 + value_idx b)
      else
        let daf' := u32 (daf + BUCKET_DIST_INC) in
        let bucket' := next bs bucket in
        b' ← deref bs bucket';
        if daf' <=? dist_and_fingerprint b' then do_find_loop fuel' vals bs key daf' bucket'
        else Ok (Z.of_nat (length vals))
  end.

Definition do_find (t : table) (key : Key) : result iterator :=
  if empty t then Ok (end_ t)
  else
    let vals := m_values t in
    let bs := m_buckets t in
    let mh := mixed_hash key in
    let daf := dist_and_fingerprint_from_hash mh in
    let bucket := bucket_from_hash t mh in
    b ← deref bs bucket;
    hit ← bucket_holds vals key daf b;
    if (hit : bool) then Ok (begin_ t + value_idx b)
    else
      let daf := u32 (daf + BUCKET_DIST_INC) in
      let bucket := next bs bucket in
      b ← deref bs bucket;
      hit ← bucket_holds vals key daf b;
      if (hit : bool) then Ok (begin_ t + value_idx b)
      else
        let daf := u32 (daf + BUCKET_DIST_INC) in
        let bucket := next bs bucket in
        do_find_loop (lap bs) vals bs key daf bucket.

Definition find (t : table) (key : Key) : result iterator := do_find t key.

Definition count (t : table) (key : Key) : result Z :=
  it ← find t key;
  Ok (if it =? end_ t then 0 else 1).

(** [contains] is declared with the result type [size_t]: the truth value
    of the comparison converts to 1 or 0. *)
Definition contains (t : table) (key : Key) : result Z :=
  it ← find t key;
  Ok (if negb (it =? end_ t) then 1 else 0).

Definition at_ (t : table) (key : Key) : result T :=
  it ← find t key;
  if negb (end_ t =? it) then
    vt ← at_index (m_values t) it;
    Ok (snd vt)
  else Throw (out_of_range "ankerl::unordered_dense::map::at(): key not found").

(** [table(size_t bucket_count, hash, equal, alloc)]: the parameter has no
    name in the source and is not read. *)
Definition table_ctor (bucket_count : Z) : table :=
  mk_table [] [] 0 float_0_8 INITIAL_SHIFTS.

(** [table(table const& other)]. *)
Definition table_copy (other : table) : result table :=
  init_from_values
    (mk_table (m_values other) [] 0 (m_max_load_factor other) INITIAL_SHIFTS).

Definition clear (t : table) : table :=
  clear_buckets (set_values t []).

Definition emplace (t : table) (args : value_type) : result (table * (iterator * bool)) :=
  t ← (if is_full t then increase_size t else Ok t);
  (* first emplace the object back. If the key is already there, pop it. *)
  let t1 := set_values t (m_values t ++ [args]) in
  val ← at_index (m_values t1) (size t1 - 1);
  let hash := mixed_hash (get_key val) in
  let daf := dist_and_fingerprint_from_hash hash in
  let bucket := bucket_from_hash t1 hash in
  r ← probe_loop (lap (m_buckets t1)) (m_values t1) (m_buckets t1) (get_key val) daf bucket;
  match r with
  | Found b =>
      vals ← pop_back (m_values t1);
      let t2 := set_values t1 vals in
      Ok (t2, (begin_ t2 + value_idx b, false))
  | Vacant daf bucket =>
      let value_idx := u32 (u32 (size t1) - 1) in
      t2 ← place_and_shift_up t1 (mk_Bucket daf value_idx) bucket;
      Ok (t2, (begin_ t2 + value_idx, true))
  end.

Definition insert (t : table) (value : value_type) : result (table * (iterator * bool)) :=
  emplace t value.

(** [insert(first, last)] over a sequence of values. *)
Fixpoint insert_range (t : table) (values : list value_type) : result table :=
  match values with
  | [] => Ok t
  | v :: rest =>
      '(t', _) ← insert t v;
      insert_range t' rest
  end.

(** [erase(iterator it)]. *)
Definition erase (t : table) (it : iterator) : result (table * iterator) :=
  vt ← at_index (m_values t) it;
  let hash := mixed_hash (fst vt) in
  let bucket := bucket_from_hash t hash in
  let value_idx_to_remove := u32 (it - begin_ t) in
  bucket ← seek_value_idx_loop (lap (m_buckets t)) (m_buckets t) value_idx_to_remove bucket;
  t' ← do_erase t bucket;
  Ok (t', it).

(** The two loops of [erase(first, last)]. *)
Fixpoint erase_forward_loop (fuel : nat) (t : table) (first mid : iterator) : result table :=
  match fuel with
  | O => Undefined
  | S fuel' =>
      if negb (first =? mid) then
        '(t', _) ← erase t first;
        erase_forward_loop fuel' t' (first + 1) mid
      else Ok t
  end.

Fixpoint erase_backward_loop (fuel : nat) (t : table) (last mid : iterator) : result table :=
  match fuel with
  | O => Undefined
  | S fuel' =>
      if negb (last =? mid) then
        '(t', _) ← erase t (last - 1);
        erase_backward_loop fuel' t' (last - 1) mid
      else Ok t
  end.

(** The statements of [erase(first, last)], up to its closing brace. *)
Definition erase_range_statements (t : table) (first last : iterator) : result table :=
  let first_to_last := last - first in
  let last_to_end := end_ t - last in
  let mid := first + Z.min first_to_last last_to_end in
  t1 ← erase_forward_loop (S (length (m_values t))) t first mid;
  erase_backward_loop (S (length (m_values t))) t1 last mid.

(** [erase(const_iterator first, const_iterator last) -> iterator]: control
    reaches the closing brace without a [return]. *)
Definition erase_range (t : table) (first last : iterator) : result (table * iterator) :=
  _ ← erase_range_statements t first last;
  Undefined.

(** [erase(Key const& key)]. *)
Definition erase_key (t : table) (key : Key) : result (table * Z) :=
  do_erase_key t key.

Definition rehash (t : table) (count : Z) : result table :=
  shifts ← calc_shifts_for_size t count;
  if negb (shifts =? m_shifts t) then
    let t1 := set_shifts t shifts in
    let t2 := deallocate_buckets t1 in
    (* m_values.shrink_to_fit() leaves the elements as they are *)
    t3 ← allocate_and_clear_buckets t2;
    fill_buckets_from_values t3
  else Ok t.

Definition reserve (t : table) (capa : Z) : result table :=
  shifts ← calc_shifts_for_size t capa;
  if shifts <? m_shifts t then
    let t1 := set_shifts t shifts in
    let t2 := deallocate_buckets t1 in
    t3 ← allocate_and_clear_buckets t2;
    fill_buckets_from_values t3
  else Ok t.

(** The [for] loop of [operator==] over the entries of [b]. *)
Fixpoint equal_entries (a : table) (b_entries : list value_type) : result bool :=
  match b_entries with
  | [] => Ok true
  | b_entry :: rest =>
      it ← find a (get_key b_entry);
      if end_ a =? it then Ok false
      else
        vt ← at_index (m_values a) it;
        if negb (mapped_eq (snd b_entry) (snd vt)) then Ok false
        else equal_entries a rest
  end.

(** [operator==(a, b)]; [same_object] is the outcome of [&a == &b]. *)
Definition table_eq (same_object : bool) (a b : table) : result bool :=
  if same_object then Ok true
  else if negb (size a =? size b) then Ok false
  else equal_entries a (m_values b).

(** [equal_range(key)]. *)
Definition equal_range (t : table) (key : Key) : result (iterator * iterator) :=
  it ← do_find t key;
  Ok (it, if it =? end_ t then end_ t else it + 1).

(** [operator[](key)]: the table afterwards and the mapped value that the
    returned reference designates.  [try_emplace(key)] has no arguments for
    the mapped value, which it value-initialises: [value_init] is [T()]. *)
Definition index_op (value_init : T) (t : table) (key : Key) : result (table * T) :=
  r ← try_emplace t key value_init;
  let '(t1, (it, _)) := r in
  vt ← at_index (m_values t1) it;
  Ok (t1, snd vt).

(** [operator!=(a, b)]. *)
Definition table_ne (same_object : bool) (a b : table) : result bool :=
  r ← table_eq same_object a b;
  Ok (negb r).

(** [table(first, last, bucket_count, ...)] and
    [table(ilist, bucket_count, ...)]. *)
Definition table_from_range (values : list value_type) (bucket_count : Z) : result table :=
  insert_range (table_ctor bucket_count) values.

(** [operator=(table const& other)]; [same_object] is the outcome of
    [&other == this]. *)
Definition copy_assign (same_object : bool) (t other : table) : result table :=
  if negb same_object then
    let t1 := deallocate_buckets t in
    init_from_values
      (mk_table (m_values other) (m_buckets t1) (m_max_bucket_capacity t1)
         (m_max_load_factor other) INITIAL_SHIFTS)
  else Ok t.

(** [operator=(std::initializer_list<value_type> ilist)]. *)
Definition assign_list (t : table) (ilist : list value_type) : result table :=
  insert_range (clear t) ilist.

(** [std::erase_if(map, pred)]: the loop from the back to the front, and
    the difference of the sizes that it returns, in [size_t]. *)
Fixpoint erase_if_loop (fuel : nat) (pred : value_type → bool) (t : table)
    (back_it : iterator) : result table :=
  match fuel with
  | O => Undefined
  | S fuel' =>
      if negb (begin_ t =? back_it) then
        let back_it := back_it - 1 in
        vt ← at_index (m_values t) back_it;
        if pred vt then
          '(t', _) ← erase t back_it;
          erase_if_loop fuel' pred t' back_it
        else erase_if_loop fuel' pred t back_it
      else Ok t
  end.

Definition erase_if (t : table) (pred : value_type → bool) : result (table * Z) :=
  let old_size := size t in
  t' ← erase_if_loop (S (length (m_values t))) pred t (end_ t);
  Ok (t', u64 (size t' - old_size)).

End table.

(** * Facts about the vocabulary of the embedding *)

Ltac rsimpl := cbn [mbind result_bind mret result_ret].

(** ** The steps of [next] around an array of [n] buckets *)

Definition nextn (n i : nat) : nat := if decide (S i = n) then 0%nat else S i.

(** The bucket [j] steps of [next] after bucket [i]. *)
Fixpoint walk (n i j : nat) : nat :=
  match j with
  | O => i
  | S j' => nextn n (walk n i j')
  end.

Section facts.

Lemma bind_Ok {A B : Type} (m : result A) (f : A → result B) (b : B) :
  m ≫= f = Ok b ↔ ∃ a, m = Ok a ∧ f a = Ok b.
Proof.
  destruct m as [a| |]; simpl; split.
  - intros H. by exists a.
  - by intros (a' & [= <-] & H).
  - discriminate.
  - by intros (a' & [=] & H).
  - discriminate.
  - by intros (a' & [=] & H).
Qed.

Lemma bind_not_Throw {A B : Type} (m : result A) (f : A → result B) :
  (∀ e, m ≠ Throw e) → (∀ a e, f a ≠ Throw e) → ∀ e, m ≫= f ≠ Throw e.
Proof.
  intros Hm Hf e. destruct m as [a|e0|]; simpl; [apply Hf | | discriminate].
  exfalso. by apply (Hm e0).
Qed.

Lemma deref_Ok {A : Type} (l : list A) (i : nat) (x : A) :
  deref l i = Ok x ↔ l !! i = Some x.
Proof. unfold deref. destruct (l !! i); naive_solver. Qed.

Lemma deref_lookup {A : Type} (l : list A) (i : nat) (x : A) :
  l !! i = Some x → deref l i = Ok x.
Proof. apply deref_Ok. Qed.

Lemma deref_not_Throw {A : Type} (l : list A) (i : nat) (e : exception) :
  deref l i ≠ Throw e.
Proof. unfold deref. destruct (l !! i); discriminate. Qed.

Lemma at_index_Ok {A : Type} (l : list A) (i : Z) (x : A) :
  at_index l i = Ok x ↔ 0 ≤ i ∧ l !! Z.to_nat i = Some x.
Proof.
  unfold at_index. destruct (Z.ltb_spec i 0).
  - split; [discriminate | lia].
  - rewrite deref_Ok. split; [by intros ?|by intros [_ ?]].
Qed.

Lemma at_index_lookup {A : Type} (l : list A) (i : nat) (x : A) :
  l !! i = Some x → at_index l (Z.of_nat i) = Ok x.
Proof. intros H. apply at_index_Ok. rewrite Nat2Z.id. split; [lia | done]. Qed.

Lemma at_index_not_Throw {A : Type} (l : list A) (i : Z) (e : exception) :
  at_index l i ≠ Throw e.
Proof. unfold at_index. destruct (i <? 0); [discriminate | apply deref_not_Throw]. Qed.

Lemma pop_back_app {A : Type} (l : list A) (x : A) : pop_back (l ++ [x]) = Ok l.
Proof.
  unfold pop_back. destruct (l ++ [x]) eqn:E.
  - destruct l; discriminate.
  - rewrite <- E. f_equal. rewrite length_app. simpl.
    replace (length l + 1 - 1)%nat with (length l) by lia.
    by rewrite take_app_length.
Qed.

Lemma pop_back_not_Throw {A : Type} (l : list A) (e : exception) : pop_back l ≠ Throw e.
Proof. destruct l; discriminate. Qed.

(** ** Machine arithmetic *)

Lemma u32_small (x : Z) : 0 ≤ x < 2 ^ 32 → u32 x = x.
Proof. intros. unfold u32. by apply Z.mod_small. Qed.

Lemma u64_small (x : Z) : 0 ≤ x < 2 ^ 64 → u64 x = x.
Proof. intros. unfold u64. by apply Z.mod_small. Qed.

Lemma u8_small (x : Z) : 0 ≤ x < 2 ^ 8 → u8 x = x.
Proof. intros. unfold u8. by apply Z.mod_small. Qed.

Lemma u64_range (x : Z) : 0 ≤ u64 x < 2 ^ 64.
Proof. unfold u64. apply Z.mod_pos_bound. lia. Qed.

Lemma BUCKET_DIST_INC_val : BUCKET_DIST_INC = 256.
Proof. reflexivity. Qed.

Lemma dist_and_fingerprint_from_hash_val (h : Z) :
  dist_and_fingerprint_from_hash h = 256 + h mod 256.
Proof.
  unfold dist_and_fingerprint_from_hash, BUCKET_FINGERPRINT_MASK.
  rewrite BUCKET_DIST_INC_val.
  change (256 - 1) with (Z.ones 8). rewrite Z.land_ones by lia.
  change (2 ^ 8) with 256.
  assert (0 ≤ h mod 256 < 256) as Hr by (apply Z.mod_pos_bound; lia).
  assert (Z.land 256 (h mod 256) = 0) as Hd.
  { apply Z.bits_inj'. intros k Hk. rewrite Z.land_spec, Z.bits_0.
    destruct (decide (k = 8)) as [->|Hne].
    - replace (Z.testbit (h mod 256) 8) with false; [by rewrite andb_false_r|].
      symmetry. change 256 with (2 ^ 8). apply Z.mod_pow2_bits_high. lia.
    - replace (Z.testbit 256 k) with false; [done|].
      symmetry. change 256 with (2 ^ 8). apply Z.pow2_bits_false. lia. }
  rewrite <- Z.lxor_lor by done. rewrite <- Z.add_nocarry_lxor by done.
  apply u32_small. lia.
Qed.

Lemma lxor_u64_range (a b : Z) : 0 ≤ a < 2 ^ 64 → 0 ≤ b < 2 ^ 64 → 0 ≤ Z.lxor a b < 2 ^ 64.
Proof.
  intros Ha Hb. split; [apply Z.lxor_nonneg; lia|].
  destruct (decide (Z.lxor a b = 0)) as [->|Hne]; [lia|].
  apply Z.log2_lt_pow2; [assert (0 ≤ Z.lxor a b) by (apply Z.lxor_nonneg; lia); lia|].
  eapply Z.le_lt_trans; [apply Z.log2_lxor; lia|].
  apply Z.max_lub_lt.
  - destruct (decide (a = 0)) as [->|]; [simpl; lia|]. apply Z.log2_lt_pow2; lia.
  - destruct (decide (b = 0)) as [->|]; [simpl; lia|]. apply Z.log2_lt_pow2; lia.
Qed.

Lemma mix_range (a b : Z) : 0 ≤ wyhash.mix a b < 2 ^ 64.
Proof.
  unfold wyhash.mix, wyhash.mum. apply lxor_u64_range; apply u64_range.
Qed.

(** ** Walking around the array *)

Lemma next_nextn (bs : list Bucket) (i : nat) : next bs i = nextn (length bs) i.
Proof. reflexivity. Qed.

Lemma nextn_lt (n i : nat) : (0 < n)%nat → (nextn n i < n ∨ n ≤ i)%nat.
Proof. unfold nextn. case_decide; lia. Qed.

Lemma walk_closed (n i j : nat) :
  (i < n)%nat → (j ≤ n)%nat →
  walk n i j = if decide (i + j < n)%nat then (i + j)%nat else (i + j - n)%nat.
Proof.
  intros Hi. induction j as [|j IH]; intros Hj.
  - simpl. case_decide; lia.
  - simpl. rewrite IH by lia. unfold nextn. repeat case_decide; lia.
Qed.

Lemma walk_add (n i a b : nat) : walk n i (a + b) = walk n (walk n i a) b.
Proof.
  induction b as [|b IH]; simpl.
  - by rewrite Nat.add_0_r.
  - rewrite Nat.add_succ_r. simpl. by rewrite IH.
Qed.

Lemma walk_S_l (n i j : nat) : walk n i (S j) = walk n (nextn n i) j.
Proof. change (S j) with (1 + j)%nat. by rewrite walk_add. Qed.

Lemma walk_lt (n i j : nat) : (i < n)%nat → (walk n i j < n)%nat.
Proof.
  intros Hi. induction j as [|j IH]; simpl; [done|].
  unfold nextn. case_decide; lia.
Qed.

Lemma walk_lap (n i : nat) : (i < n)%nat → walk n i n = i.
Proof. intros Hi. rewrite walk_closed by lia. case_decide; lia. Qed.

Lemma walk_inj (n i a b : nat) :
  (i < n)%nat → (a < n)%nat → (b < n)%nat → walk n i a = walk n i b → a = b.
Proof.
  intros Hi Ha Hb. rewrite !walk_closed by lia. repeat case_decide; lia.
Qed.

Lemma walk_reach (n i e : nat) :
  (i < n)%nat → (e < n)%nat → ∃ j, (j < n)%nat ∧ walk n i j = e.
Proof.
  intros Hi He. destruct (decide (i ≤ e)%nat).
  - exists (e - i)%nat. split; [lia|]. rewrite walk_closed by lia. case_decide; lia.
  - exists (n + e - i)%nat. split; [lia|]. rewrite walk_closed by lia. case_decide; lia.
Qed.

(** Past [i], every bucket is reached again within a lap. *)
Lemma walk_reach_pos (n i e : nat) :
  (i < n)%nat → (e < n)%nat → ∃ j, (1 ≤ j ≤ n)%nat ∧ walk n i j = e.
Proof.
  intros Hi He. destruct (walk_reach n i e Hi He) as (j & Hj & Hw).
  destruct j as [|j].
  - exists n. split; [lia|]. rewrite walk_lap by done. by simpl in Hw.
  - exists (S j). split; [lia|done].
Qed.

Lemma walk_back (n i j : nat) :
  (i < n)%nat → (j ≤ n)%nat → walk n (walk n i j) (n - j) = i.
Proof.
  intros Hi Hj. rewrite <- walk_add. replace (j + (n - j))%nat with n by lia.
  by apply walk_lap.
Qed.

End facts.

(** * wyhash *)

Section wyhash_facts.

Import wyhash.

(** An addition of two [M]-ary digits wraps exactly when the sum is below
    a summand, the test the portable [mum] uses for its carries. *)
Lemma add_carry (M x y : Z) :
  0 ≤ x < M → 0 ≤ y < M →
  x + y = (x + y) mod M + (if (x + y) mod M <? x then 1 else 0) * M.
Proof.
  intros Hx Hy. destruct (Z_lt_ge_dec (x + y) M).
  - rewrite Z.mod_small by lia. destruct (Z.ltb_spec (x + y) x); lia.
  - replace ((x + y) mod M) with (x + y - M).
    + destruct (Z.ltb_spec (x + y - M) x); lia.
    + apply Z.mod_unique with 1; lia.
Qed.

Lemma shiftl32_u64 (x : Z) : u64 (x * 2 ^ 32) = (x mod 2 ^ 32) * 2 ^ 32.
Proof.
  unfold u64. change (2 ^ 64) with (2 ^ 32 * 2 ^ 32).
  rewrite Z.mul_mod_distr_r by lia. reflexivity.
Qed.

Lemma mum_portable_eq (a b : Z) :
  0 ≤ a < 2 ^ 64 → 0 ≤ b < 2 ^ 64 → mum_portable a b = mum a b.
Proof.
  intros Ha Hb. unfold mum_portable, mum. cbv zeta.
  rewrite !Z.shiftr_div_pow2, !Z.shiftl_mul_pow2 by lia.
  unfold u32.
  pose proof (Z.div_mod a (2 ^ 32) ltac:(lia)) as Ea.
  pose proof (Z.div_mod b (2 ^ 32) ltac:(lia)) as Eb.
  pose proof (Z.mod_pos_bound a (2 ^ 32) ltac:(lia)) as Hla.
  pose proof (Z.mod_pos_bound b (2 ^ 32) ltac:(lia)) as Hlb.
  assert (0 ≤ a / 2 ^ 32 < 2 ^ 32) as Hha
    by (split; [apply Z.div_pos; lia | apply Z.div_lt_upper_bound; lia]).
  assert (0 ≤ b / 2 ^ 32 < 2 ^ 32) as Hhb
    by (split; [apply Z.div_pos; lia | apply Z.div_lt_upper_bound; lia]).
  set (ha := a / 2 ^ 32) in *. set (la := a mod 2 ^ 32) in *.
  set (hb := b / 2 ^ 32) in *. set (lb := b mod 2 ^ 32) in *.
  clearbody ha la hb lb.
  assert (∀ x y, 0 ≤ x < 2 ^ 32 → 0 ≤ y < 2 ^ 32 → 0 ≤ x * y < 2 ^ 64) as Hprod.
  { intros x y Hx Hy. change (2 ^ 64) with (2 ^ 32 * 2 ^ 32). nia. }
  pose proof (Hprod ha hb Hha Hhb) as Hrh.
  pose proof (Hprod ha lb Hha Hlb) as Hrm0.
  pose proof (Hprod hb la Hhb Hla) as Hrm1.
  pose proof (Hprod la lb Hla Hlb) as Hrl.
  rewrite (Z.mod_small _ _ Hrh : u64 (ha * hb) = _).
  rewrite (Z.mod_small _ _ Hrm0 : u64 (ha * lb) = _).
  rewrite (Z.mod_small _ _ Hrm1 : u64 (hb * la) = _).
  rewrite (Z.mod_small _ _ Hrl : u64 (la * lb) = _).
  rewrite !shiftl32_u64.
  pose proof (Z.div_mod (ha * lb) (2 ^ 32) ltac:(lia)) as E0.
  pose proof (Z.div_mod (hb * la) (2 ^ 32) ltac:(lia)) as E1.
  pose proof (Z.mod_pos_bound (ha * lb) (2 ^ 32) ltac:(lia)) as Hm0l.
  pose proof (Z.mod_pos_bound (hb * la) (2 ^ 32) ltac:(lia)) as Hm1l.
  assert (0 ≤ ha * lb / 2 ^ 32 < 2 ^ 32) as Hm0h
    by (split; [apply Z.div_pos; lia | apply Z.div_lt_upper_bound; lia]).
  assert (0 ≤ hb * la / 2 ^ 32 < 2 ^ 32) as Hm1h
    by (split; [apply Z.div_pos; lia | apply Z.div_lt_upper_bound; lia]).
  set (m0h := ha * lb / 2 ^ 32) in *. set (m0l := (ha * lb) mod 2 ^ 32) in *.
  set (m1h := hb * la / 2 ^ 32) in *. set (m1l := (hb * la) mod 2 ^ 32) in *.
  clearbody m0h m0l m1h m1l.
  pose proof (add_carry (2 ^ 64) (la * lb) (m0l * 2 ^ 32) Hrl ltac:(lia)) as C1.
  fold (u64 (la * lb + m0l * 2 ^ 32)) in C1 |- *.
  pose proof (u64_range (la * lb + m0l * 2 ^ 32)) as Ht.
  set (t := u64 (la * lb + m0l * 2 ^ 32)) in *. clearbody t.
  pose proof (add_carry (2 ^ 64) t (m1l * 2 ^ 32) Ht ltac:(lia)) as C2.
  fold (u64 (t + m1l * 2 ^ 32)) in C2 |- *.
  pose proof (u64_range (t + m1l * 2 ^ 32)) as Hlo.
  set (lo := u64 (t + m1l * 2 ^ 32)) in *. clearbody lo.
  set (c1 := if t <? la * lb then 1 else 0) in *.
  set (c2 := if lo <? t then 1 else 0) in *.
  assert (0 ≤ c1 ≤ 1) as Hc1 by (subst c1; destruct (_ <? _); lia).
  assert (0 ≤ c2 ≤ 1) as Hc2 by (subst c2; destruct (_ <? _); lia).
  clearbody c1 c2.
  rewrite (Z.mod_small (c1 + c2) (2 ^ 64) ltac:(lia) : u64 (c1 + c2) = c1 + c2).
  assert (a * b = lo + (ha * hb + m0h + m1h + (c1 + c2)) * 2 ^ 64) as Hab.
  { subst a b. change (2 ^ 64) with (2 ^ 32 * 2 ^ 32) in *. nia. }
  assert (0 ≤ a * b < 2 ^ 64 * 2 ^ 64) as Hr by nia.
  assert (0 ≤ ha * hb + m0h + m1h + (c1 + c2) < 2 ^ 64) as HH by nia.
  rewrite Hab. f_equal.
  - unfold u64. rewrite Z.mod_add by lia. symmetry. apply Z.mod_small. lia.
  - rewrite Z.div_add by lia. rewrite (Z.div_small lo) by lia.
    rewrite Z.add_0_l. reflexivity.
Qed.

(** The portable branch of [mum], which multiplies the 32-bit halves and
    adds the carries by hand, computes the same two words as the 128-bit
    multiplication, for all 64-bit operands. *)
Theorem mum_portable_mum (a b : Z) :
  0 ≤ a < 2 ^ 64 → 0 ≤ b < 2 ^ 64 → mum_portable a b = mum a b.
Proof. apply mum_portable_eq. Qed.

Lemma mix_portable_eq (a b : Z) :
  0 ≤ a < 2 ^ 64 → 0 ≤ b < 2 ^ 64 → mix_portable a b = mix a b.
Proof. intros Ha Hb. unfold mix_portable, mix. by rewrite mum_portable_eq. Qed.

(** ** Every read of [hash] falls inside the key *)

Lemma at_index_in_bounds {A : Type} (l : list A) (p : Z) :
  0 ≤ p < Z.of_nat (length l) → ∃ x, at_index l p = Ok x.
Proof.
  intros Hp. destruct (lookup_lt_is_Some_2 l (Z.to_nat p)) as [x Hx]; [lia|].
  exists x. apply at_index_Ok. split; [lia | done].
Qed.

Lemma read_le_in_bounds (key : list Z) (n : nat) (p : Z) :
  0 ≤ p → p + Z.of_nat n ≤ Z.of_nat (length key) → ∃ v, read_le key p n = Ok v.
Proof.
  revert p. induction n as [|n IH]; intros p Hp Hn.
  - by eexists.
  - cbn [read_le].
    destruct (at_index_in_bounds key p) as [b ->]; [lia|].
    destruct (IH (p + 1)) as [v ->]; [lia | lia |].
    by eexists.
Qed.

Lemma r8_in_bounds (key : list Z) (p : Z) :
  0 ≤ p → p + 8 ≤ Z.of_nat (length key) → ∃ v, r8 key p = Ok v.
Proof. intros. apply read_le_in_bounds; lia. Qed.

Lemma r4_in_bounds (key : list Z) (p : Z) :
  0 ≤ p → p + 4 ≤ Z.of_nat (length key) → ∃ v, r4 key p = Ok v.
Proof. intros. apply read_le_in_bounds; lia. Qed.

Lemma r3_in_bounds (key : list Z) (k : Z) :
  1 ≤ k ≤ Z.of_nat (length key) → ∃ v, r3 key 0 k = Ok v.
Proof.
  intros Hk. unfold r3.
  assert (0 ≤ Z.shiftr k 1 < k) as Hs.
  { rewrite Z.shiftr_div_pow2 by lia. change (2 ^ 1) with 2.
    split; [apply Z.div_pos; lia | apply Z.div_lt; lia]. }
  destruct (at_index_in_bounds key 0) as [b0 ->]; [lia|].
  destruct (at_index_in_bounds key (0 + Z.shiftr k 1)) as [b1 ->]; [lia|].
  destruct (at_index_in_bounds key (0 + (k - 1))) as [b2 ->]; [lia|].
  by eexists.
Qed.

Section branch.

Variable mix0 : Z → Z → Z.

Lemma hash_loop48_in_bounds (key : list Z) (fuel : nat) (p i seed see1 see2 : Z) :
  0 ≤ p → p + i = Z.of_nat (length key) → 48 < i → i ≤ 48 * Z.of_nat fuel →
  ∃ p' i' seed' see1' see2',
    hash_loop48 mix0 fuel key p i seed see1 see2 = Ok (p', i', seed', see1', see2') ∧
    0 ≤ p' ∧ p' + i' = Z.of_nat (length key) ∧ 0 < i' ≤ 48.
Proof.
  revert p i seed see1 see2.
  induction fuel as [|fuel IH]; intros p i seed see1 see2 Hp Hpi Hi Hfuel; [lia|].
  cbn [hash_loop48].
  destruct (r8_in_bounds key p) as [x0 ->]; [lia | lia |].
  destruct (r8_in_bounds key (p + 8)) as [x1 ->]; [lia | lia |].
  destruct (r8_in_bounds key (p + 16)) as [x2 ->]; [lia | lia |].
  destruct (r8_in_bounds key (p + 24)) as [x3 ->]; [lia | lia |].
  destruct (r8_in_bounds key (p + 32)) as [x4 ->]; [lia | lia |].
  destruct (r8_in_bounds key (p + 40)) as [x5 ->]; [lia | lia |].
  cbn [mbind result_bind]. cbv zeta.
  destruct (Z.ltb_spec 48 (i - 48)).
  - apply IH; lia.
  - eexists _, _, _, _, _. split; [reflexivity | lia].
Qed.

Lemma hash_loop16_in_bounds (key : list Z) (fuel : nat) (p i seed : Z) :
  0 ≤ p → p + i = Z.of_nat (length key) → 0 < i → i ≤ 16 * Z.of_nat fuel →
  ∃ p' i' seed',
    hash_loop16 mix0 fuel key p i seed = Ok (p', i', seed') ∧
    0 ≤ p' ∧ p' + i' = Z.of_nat (length key) ∧ 0 < i' ≤ 16.
Proof.
  revert p i seed.
  induction fuel as [|fuel IH]; intros p i seed Hp Hpi Hi Hfuel; [lia|].
  cbn [hash_loop16].
  destruct (Z.ltb_spec 16 i).
  - destruct (r8_in_bounds key p) as [x0 ->]; [lia | lia |].
    destruct (r8_in_bounds key (p + 8)) as [x1 ->]; [lia | lia |].
    cbn [mbind result_bind]. cbv zeta. apply IH; lia.
  - eexists _, _, _. split; [reflexivity | lia].
Qed.

Lemma hash_returns (key : list Z) :
  ∃ a b, hash mix0 key = Ok (mix0 a b).
Proof.
  unfold hash. cbv zeta.
  remember (Z.of_nat (length key)) as len eqn:Elen.
  assert (0 ≤ len) as Hlen by lia.
  destruct (Z.leb_spec len 16) as [H16|H16].
  - destruct (Z.leb_spec 4 len) as [H4|H4].
    + assert (Z.shiftl (Z.shiftr len 3) 2 = len / 8 * 4) as ->.
      { rewrite Z.shiftl_mul_pow2, Z.shiftr_div_pow2 by lia. reflexivity. }
      assert (0 ≤ len / 8 * 4 ∧ len / 8 * 4 + 4 ≤ len) as [Ho1 Ho2].
      { pose proof (Z.div_mod len 8 ltac:(lia)).
        pose proof (Z.mod_pos_bound len 8 ltac:(lia)).
        assert (0 ≤ len / 8) by (apply Z.div_pos; lia).
        assert (len / 8 ≤ 2) by (apply Z.div_le_upper_bound; lia).
        lia. }
      destruct (r4_in_bounds key 0) as [x0 ->]; [lia | lia |].
      destruct (r4_in_bounds key (0 + len / 8 * 4)) as [x1 ->]; [lia | lia |].
      destruct (r4_in_bounds key (0 + len - 4)) as [y0 ->]; [lia | lia |].
      destruct (r4_in_bounds key (0 + len - 4 - len / 8 * 4)) as [y1 ->]; [lia | lia |].
      cbn [mbind result_bind]. by eexists _, _.
    + destruct (Z.ltb_spec 0 len) as [H0|H0].
      * destruct (r3_in_bounds key len) as [a ->]; [lia|].
        cbn [mbind result_bind]. by eexists _, _.
      * cbn [mbind result_bind]. by eexists _, _.
  - assert (∃ p i seed,
        (if 48 <? len
         then r ← hash_loop48 mix0 (length key) key 0 len secret0 secret0 secret0;
              (let '(p, i, seed, see1, see2) := r in
               Ok (p, i, Z.lxor seed (Z.lxor see1 see2)))
         else Ok (0, len, secret0)) = Ok (p, i, seed) ∧
        0 ≤ p ∧ p + i = len ∧ 0 < i ≤ 48) as (p & i & seed & -> & Hp & Hpi & Hi).
    { destruct (Z.ltb_spec 48 len) as [H48|H48].
      - destruct (hash_loop48_in_bounds key (length key) 0 len secret0 secret0 secret0)
          as (p & i & s & s1 & s2 & -> & ? & ? & ?); [lia | lia | lia | lia |].
        cbn [mbind result_bind]. eexists _, _, _. split; [reflexivity | lia].
      - eexists _, _, _. split; [reflexivity | lia]. }
    cbn [mbind result_bind].
    destruct (hash_loop16_in_bounds key (S (length key)) p i seed)
      as (p' & i' & seed' & -> & Hp' & Hpi' & Hi'); [lia | lia | lia | lia |].
    cbn [mbind result_bind].
    destruct (r8_in_bounds key (p' + i' - 16)) as [a ->]; [lia | lia |].
    destruct (r8_in_bounds key (p' + i' - 8)) as [b ->]; [lia | lia |].
    cbn [mbind result_bind]. by eexists _, _.
Qed.

End branch.

(** [hash(key, len)] reads no byte outside the [len] bytes of the key,
    whatever the length, ends, and its result is a [uint64_t]. *)
Theorem hash_in_bounds (key : list Z) :
  ∃ h, hash mix key = Ok h ∧ 0 ≤ h < 2 ^ 64.
Proof.
  destruct (hash_returns mix key) as (a & b & ->).
  eexists. split; [reflexivity | apply mix_range].
Qed.

(** ** The hash does not depend on the branch of [mum] *)

Lemma lor_range (n a b : Z) :
  0 ≤ n → 0 ≤ a < 2 ^ n → 0 ≤ b < 2 ^ n → 0 ≤ Z.lor a b < 2 ^ n.
Proof.
  intros Hn Ha Hb.
  assert (0 ≤ Z.lor a b) as Hnn by (apply Z.lor_nonneg; lia).
  split; [done|].
  destruct (decide (Z.lor a b = 0)) as [->|Hne]; [lia|].
  assert (0 < n).
  { destruct (decide (n = 0)) as [->|]; [|lia].
    assert (a = 0) as -> by lia. assert (b = 0) as -> by lia. done. }
  apply Z.log2_lt_pow2; [lia|].
  rewrite Z.log2_lor by lia.
  apply Z.max_lub_lt.
  - destruct (decide (a = 0)) as [->|]; [simpl; lia|]. apply Z.log2_lt_pow2; lia.
  - destruct (decide (b = 0)) as [->|]; [simpl; lia|]. apply Z.log2_lt_pow2; lia.
Qed.

Lemma at_index_byte (key : list Z) (p b : Z) :
  bytes key → at_index key p = Ok b → 0 ≤ b < 2 ^ 8.
Proof.
  intros Hkey Hb. apply at_index_Ok in Hb as [_ Hb].
  by apply (Forall_lookup_1 _ _ _ _ Hkey Hb).
Qed.

Lemma read_le_range (key : list Z) (n : nat) (p v : Z) :
  bytes key → read_le key p n = Ok v → 0 ≤ v < 2 ^ (8 * Z.of_nat n).
Proof.
  intros Hkey. revert p v. induction n as [|n IH]; intros p v Hv.
  - injection Hv as <-. simpl. lia.
  - cbn [read_le] in Hv.
    apply bind_Ok in Hv as (b & Hb & Hv). apply bind_Ok in Hv as (rest & Hrest & Hv).
    injection Hv as <-.
    apply at_index_byte in Hb; [|done]. apply IH in Hrest.
    rewrite Z.shiftl_mul_pow2 by lia.
    replace (8 * Z.of_nat (S n)) with (8 * Z.of_nat n + 8) by lia.
    rewrite Z.pow_add_r by lia.
    assert (0 < 2 ^ (8 * Z.of_nat n)) by (apply Z.pow_pos_nonneg; lia).
    rewrite <- Z.pow_add_r by lia.
    apply lor_range; [lia | |].
    + split; [lia|]. eapply Z.lt_le_trans; [apply Hb|]. apply Z.pow_le_mono_r; lia.
    + rewrite Z.pow_add_r by lia. nia.
Qed.

Lemma r8_range (key : list Z) (p v : Z) :
  bytes key → r8 key p = Ok v → 0 ≤ v < 2 ^ 64.
Proof. intros Hkey Hv. by apply (read_le_range key 8 p v). Qed.

Lemma r4_range (key : list Z) (p v : Z) :
  bytes key → r4 key p = Ok v → 0 ≤ v < 2 ^ 32.
Proof. intros Hkey Hv. by apply (read_le_range key 4 p v). Qed.

Lemma r3_range (key : list Z) (p k v : Z) :
  bytes key → r3 key p k = Ok v → 0 ≤ v < 2 ^ 64.
Proof.
  intros Hkey Hv. unfold r3 in Hv.
  apply bind_Ok in Hv as (b0 & Hb0 & Hv). apply bind_Ok in Hv as (b1 & Hb1 & Hv).
  apply bind_Ok in Hv as (b2 & Hb2 & Hv). injection Hv as <-.
  apply at_index_byte in Hb0, Hb1, Hb2; [|done..].
  rewrite !Z.shiftl_mul_pow2 by lia.
  apply lor_range; [lia | apply lor_range; [lia | lia | lia] | lia].
Qed.

Lemma r4_pair_range (x0 x1 : Z) :
  0 ≤ x0 < 2 ^ 32 → 0 ≤ x1 < 2 ^ 32 → 0 ≤ Z.lor (u64 (Z.shiftl x0 32)) x1 < 2 ^ 64.
Proof. intros H0 H1. apply lor_range; [lia | apply u64_range | lia]. Qed.

Lemma secret_range :
  0 ≤ secret0 < 2 ^ 64 ∧ 0 ≤ secret1 < 2 ^ 64 ∧ 0 ≤ secret2 < 2 ^ 64 ∧
  0 ≤ secret3 < 2 ^ 64.
Proof. by vm_compute. Qed.

Definition seeds_in_range (r : result (Z * Z * Z)) : Prop :=
  ∀ p i seed, r = Ok (p, i, seed) → 0 ≤ seed < 2 ^ 64.

Ltac read r8_eq :=
  match goal with
  | |- context [mbind _ (?f ?key ?p)] =>
      let x := fresh "x" in
      destruct (f key p) as [x| |] eqn:r8_eq; cbn [mbind result_bind];
      [|by split..]
  end.

Lemma hash_loop48_branch (key : list Z) (fuel : nat) (p i seed see1 see2 : Z) :
  bytes key →
  0 ≤ seed < 2 ^ 64 → 0 ≤ see1 < 2 ^ 64 → 0 ≤ see2 < 2 ^ 64 →
  hash_loop48 mix_portable fuel key p i seed see1 see2 =
    hash_loop48 mix fuel key p i seed see1 see2 ∧
  ∀ p' i' seed' see1' see2',
    hash_loop48 mix fuel key p i seed see1 see2 = Ok (p', i', seed', see1', see2') →
    0 ≤ seed' < 2 ^ 64 ∧ 0 ≤ see1' < 2 ^ 64 ∧ 0 ≤ see2' < 2 ^ 64.
Proof.
  intros Hkey. destruct secret_range as (_ & Hs1 & Hs2 & Hs3).
  revert p i seed see1 see2.
  induction fuel as [|fuel IH]; intros p i seed see1 see2 Hseed Hsee1 Hsee2; [by split|].
  cbn [hash_loop48].
  read E0. read E1. read E2. read E3. read E4. read E5.
  cbv zeta.
  apply r8_range in E0, E1, E2, E3, E4, E5; [|done..].
  rewrite !mix_portable_eq by (apply lxor_u64_range; assumption).
  destruct (48 <? i - 48).
  - apply IH; apply mix_range.
  - split; [done|]. intros p' i' seed' see1' see2' [= <- <- <- <- <-].
    repeat split; apply mix_range.
Qed.

Lemma hash_loop16_branch (key : list Z) (fuel : nat) (p i seed : Z) :
  bytes key → 0 ≤ seed < 2 ^ 64 →
  hash_loop16 mix_portable fuel key p i seed = hash_loop16 mix fuel key p i seed ∧
  seeds_in_range (hash_loop16 mix fuel key p i seed).
Proof.
  intros Hkey. destruct secret_range as (_ & Hs1 & _).
  revert p i seed.
  induction fuel as [|fuel IH]; intros p i seed Hseed; [by split|].
  cbn [hash_loop16]. destruct (16 <? i).
  - read E0. read E1. cbv zeta.
    apply r8_range in E0, E1; [|done..].
    rewrite mix_portable_eq by (apply lxor_u64_range; assumption).
    apply IH. apply mix_range.
  - split; [done|]. by intros p' i' seed' [= <- <- <-].
Qed.

(** On every key of bytes, shorter than [2 ^ 64], [hash] compiled with the
    portable branch of [mum] returns what it returns with the 128-bit
    branch: every operand that reaches [mum] is a 64-bit word. *)
Theorem hash_portable (key : list Z) :
  bytes key → Z.of_nat (length key) < 2 ^ 64 →
  hash mix_portable key = hash mix key.
Proof.
  intros Hkey Hlen. destruct secret_range as (Hs0 & Hs1 & _).
  assert (∀ abs : result (Z * Z * Z),
    (∀ a b seed, abs = Ok (a, b, seed) →
                 0 ≤ a < 2 ^ 64 ∧ 0 ≤ b < 2 ^ 64 ∧ 0 ≤ seed < 2 ^ 64) →
    (r ← abs; let '(a, b, seed) := r in
     Ok (mix_portable (Z.lxor secret1 (Z.of_nat (length key)))
           (mix_portable (Z.lxor a secret1) (Z.lxor b seed)))) =
    (r ← abs; let '(a, b, seed) := r in
     Ok (mix (Z.lxor secret1 (Z.of_nat (length key)))
           (mix (Z.lxor a secret1) (Z.lxor b seed))))) as Hfinal.
  { intros [[[a b] seed]| |] Habs; cbn [mbind result_bind]; [|done..].
    destruct (Habs a b seed eq_refl) as (Ha & Hb & Hseed).
    rewrite (mix_portable_eq (Z.lxor a secret1)) by (apply lxor_u64_range; assumption).
    rewrite mix_portable_eq; [done | apply lxor_u64_range; [done | lia] | apply mix_range]. }
  unfold hash. cbv zeta.
  destruct (Z.of_nat (length key) <=? 16).
  - apply Hfinal. intros a b seed Habs.
    destruct (4 <=? Z.of_nat (length key)).
    + apply bind_Ok in Habs as (x0 & Hx0 & Habs). apply bind_Ok in Habs as (x1 & Hx1 & Habs).
      apply bind_Ok in Habs as (y0 & Hy0 & Habs). apply bind_Ok in Habs as (y1 & Hy1 & Habs).
      injection Habs as <- <- <-.
      apply r4_range in Hx0, Hx1, Hy0, Hy1; [|done..].
      split; [by apply r4_pair_range|]. split; [by apply r4_pair_range|done].
    + destruct (0 <? Z.of_nat (length key)).
      * apply bind_Ok in Habs as (a' & Ha' & Habs). injection Habs as <- <- <-.
        apply r3_range in Ha'; [|done]. split; [done|]. split; [lia|done].
      * injection Habs as <- <- <-. split; [lia|]. split; [lia|done].
  - set (pre (mix0 : Z → Z → Z) :=
           if 48 <? Z.of_nat (length key)
           then r ← hash_loop48 mix0 (length key) key 0 (Z.of_nat (length key))
                      secret0 secret0 secret0;
                (let '(p, i, seed, see1, see2) := r in
                 Ok (p, i, Z.lxor seed (Z.lxor see1 see2)))
           else Ok (0, Z.of_nat (length key), secret0)).
    assert (pre mix_portable = pre mix ∧ seeds_in_range (pre mix)) as [Epre Hpre].
    { subst pre. cbv beta. destruct (48 <? Z.of_nat (length key)).
      - destruct (hash_loop48_branch key (length key) 0 (Z.of_nat (length key))
                    secret0 secret0 secret0 Hkey Hs0 Hs0 Hs0) as [-> Hr].
        split; [done|]. intros p i seed Hrun.
        apply bind_Ok in Hrun as ([[[[p' i'] s] s1] s2] & Hloop & Hrun).
        injection Hrun as <- <- <-.
        destruct (Hr _ _ _ _ _ Hloop) as (? & ? & ?).
        apply lxor_u64_range; [done|]. by apply lxor_u64_range.
      - split; [done|]. by intros p i seed [= <- <- <-]. }
    fold (pre mix_portable). fold (pre mix). rewrite Epre.
    destruct (pre mix) as [[[p i] seed]| |] eqn:E; cbn [mbind result_bind]; [|done..].
    specialize (Hpre p i seed eq_refl).
    destruct (hash_loop16_branch key (S (length key)) p i seed Hkey Hpre) as [-> Hr].
    destruct (hash_loop16 mix (S (length key)) key p i seed) as [[[p' i'] seed']| |] eqn:E16;
      cbn [mbind result_bind]; [|done..].
    specialize (Hr p' i' seed' eq_refl).
    apply (Hfinal (a ← r8 key (p' + i' - 16); b ← r8 key (p' + i' - 8); Ok (a, b, seed'))).
    intros a b seed0 Habs.
    apply bind_Ok in Habs as (a' & Ha' & Habs). apply bind_Ok in Habs as (b' & Hb' & Habs).
    injection Habs as <- <- <-.
    apply r8_range in Ha', Hb'; [|done..]. done.
Qed.

End wyhash_facts.

(** * The invariant of the metadata array *)

Section index.

Context {Key T : Type}.
Variable m_hash : Key → Z.
Variable is_avalanching : bool.
Variable m_equal : Key → Key → bool.

Local Abbreviation table := (@table Key T).
Local Abbreviation mixed_hash := (mixed_hash m_hash is_avalanching).

(** The home bucket, the fingerprint, and the packed word of a key that
    sits [d - 1] buckets after its home. *)
Definition home (s : Z) (k : Key) : nat := Z.to_nat (Z.shiftr (mixed_hash k) s).
Definition fingerprint (k : Key) : Z := mixed_hash k mod 256.
Definition daf_at (d : nat) (k : Key) : Z := 256 * Z.of_nat d + fingerprint k.

(** The metadata [bs] index the keys [keyof v] of the value positions
    [v < m], under the shift amount [s]. *)
Record binv (s : Z) (bs : list Bucket) (keyof : nat → option Key) (m : nat) : Prop := {
  binv_size : Z.of_nat (length bs) = 2 ^ (64 - s);
  binv_shifts : 41 ≤ s ≤ 61;
  binv_live : ∀ v k, keyof v = Some k → (v < m)%nat;
  binv_room : (m < length bs)%nat;
  binv_home : ∀ i b, bs !! i = Some b → dist_and_fingerprint b ≠ 0 →
    ∃ v k d, value_idx b = Z.of_nat v ∧ keyof v = Some k ∧
             (1 ≤ d ≤ length bs)%nat ∧ dist_and_fingerprint b = daf_at d k ∧
             walk (length bs) (home s k) (d - 1) = i;
  binv_slot : ∀ v k, keyof v = Some k →
    ∃ i b, bs !! i = Some b ∧ dist_and_fingerprint b ≠ 0 ∧ value_idx b = Z.of_nat v;
  binv_inj : ∀ i j bi bj, bs !! i = Some bi → bs !! j = Some bj →
    dist_and_fingerprint bi ≠ 0 → dist_and_fingerprint bj ≠ 0 →
    value_idx bi = value_idx bj → i = j;
  binv_rh : ∀ i b b', bs !! i = Some b → bs !! nextn (length bs) i = Some b' →
    512 ≤ dist_and_fingerprint b' →
    dist_and_fingerprint b' ≤ dist_and_fingerprint b + 256;
  binv_keys : ∀ v1 v2 k, keyof v1 = Some k → keyof v2 = Some k → v1 = v2
}.

Lemma mixed_hash_range (k : Key) : 0 ≤ mixed_hash k < 2 ^ 64.
Proof.
  unfold mixed_hash. destruct is_avalanching; [apply u64_range | apply mix_range].
Qed.

Lemma fingerprint_range (k : Key) : 0 ≤ fingerprint k < 256.
Proof. unfold fingerprint. apply Z.mod_pos_bound. lia. Qed.

Lemma daf_at_first (k : Key) :
  dist_and_fingerprint_from_hash (mixed_hash k) = daf_at 1 k.
Proof. rewrite dist_and_fingerprint_from_hash_val. unfold daf_at, fingerprint. lia. Qed.

Lemma daf_at_S (d : nat) (k : Key) : daf_at (S d) k = daf_at d k + 256.
Proof. unfold daf_at. lia. Qed.

Lemma daf_at_inj (d1 d2 : nat) (k1 k2 : Key) :
  daf_at d1 k1 = daf_at d2 k2 → d1 = d2 ∧ fingerprint k1 = fingerprint k2.
Proof.
  unfold daf_at. pose proof (fingerprint_range k1). pose proof (fingerprint_range k2). lia.
Qed.

Lemma daf_at_mono (d1 d2 : nat) (k : Key) : (d1 ≤ d2)%nat → daf_at d1 k ≤ daf_at d2 k.
Proof. unfold daf_at. lia. Qed.

Lemma home_lt (s : Z) (n : nat) (k : Key) :
  0 ≤ s ≤ 64 → Z.of_nat n = 2 ^ (64 - s) → (home s k < n)%nat.
Proof.
  intros Hs Hn. unfold home. pose proof (mixed_hash_range k) as Hr.
  rewrite Z.shiftr_div_pow2 by lia.
  assert (0 < 2 ^ s) by (apply Z.pow_pos_nonneg; lia).
  assert (mixed_hash k / 2 ^ s < 2 ^ (64 - s)).
  { apply Z.div_lt_upper_bound; [lia|].
    rewrite <- Z.pow_add_r by lia. replace (s + (64 - s)) with 64 by lia. lia. }
  assert (0 ≤ mixed_hash k / 2 ^ s) by (apply Z.div_pos; lia).
  lia.
Qed.

Section binv_facts.

Context {s : Z} {bs : list Bucket} {keyof : nat → option Key} {m : nat}.
Hypothesis HI : binv s bs keyof m.

Lemma binv_length_bounds : 8 ≤ Z.of_nat (length bs) ≤ 2 ^ 23.
Proof.
  rewrite (binv_size _ _ _ _ HI). pose proof (binv_shifts _ _ _ _ HI).
  split.
  - change 8 with (2 ^ 3). apply Z.pow_le_mono_r; lia.
  - apply Z.pow_le_mono_r; lia.
Qed.

Lemma binv_home_lt (k : Key) : (home s k < length bs)%nat.
Proof.
  apply home_lt; [pose proof (binv_shifts _ _ _ _ HI); lia | apply (binv_size _ _ _ _ HI)].
Qed.

Lemma binv_lookup (i : nat) : (i < length bs)%nat → ∃ b, bs !! i = Some b.
Proof. intros Hi. by apply lookup_lt_is_Some in Hi as [b Hb]; eauto. Qed.

Lemma binv_daf_cases (i : nat) (b : Bucket) :
  bs !! i = Some b → dist_and_fingerprint b = 0 ∨ 256 ≤ dist_and_fingerprint b.
Proof.
  intros Hb. destruct (decide (dist_and_fingerprint b = 0)) as [|Hne]; [by left|right].
  destruct (binv_home _ _ _ _ HI i b Hb Hne) as (v & k & d & _ & _ & Hd & -> & _).
  unfold daf_at. pose proof (fingerprint_range k). lia.
Qed.

(** Fewer live value positions than buckets: some bucket is empty. *)
Lemma binv_has_empty : ∃ e b, bs !! e = Some b ∧ dist_and_fingerprint b = 0.
Proof.
  destruct (decide (Forall (λ b, dist_and_fingerprint b ≠ 0) bs)) as [Hall|Hex].
  - exfalso. pose proof (binv_room _ _ _ _ HI) as Hroom.
    set (vs := (λ b, Z.to_nat (value_idx b)) <$> bs).
    assert (NoDup vs) as Hnd.
    { apply NoDup_alt. intros i j x Hi Hj. unfold vs in Hi, Hj.
      rewrite list_lookup_fmap in Hi, Hj.
      destruct (bs !! i) as [bi|] eqn:Ei; [|done].
      destruct (bs !! j) as [bj|] eqn:Ej; [|done]. simpl in *.
      assert (dist_and_fingerprint bi ≠ 0) as Hi0.
      { eapply Forall_lookup_1 in Hall; [|exact Ei]. done. }
      assert (dist_and_fingerprint bj ≠ 0) as Hj0.
      { eapply Forall_lookup_1 in Hall; [|exact Ej]. done. }
      destruct (binv_home _ _ _ _ HI i bi Ei Hi0) as (vi & ? & ? & Hvi & _).
      destruct (binv_home _ _ _ _ HI j bj Ej Hj0) as (vj & ? & ? & Hvj & _).
      apply (binv_inj _ _ _ _ HI i j bi bj); try done.
      rewrite Hvi, Hvj in *. simplify_eq. rewrite !Nat2Z.id in *. congruence. }
    assert (vs ⊆+ seq 0 m) as Hsub.
    { apply NoDup_submseteq; [done|]. intros x Hx. unfold vs in Hx.
      apply list_elem_of_fmap in Hx as (b & -> & Hb).
      apply list_elem_of_lookup in Hb as [i Hi].
      assert (dist_and_fingerprint b ≠ 0) as Hb0.
      { eapply Forall_lookup_1 in Hall; [|exact Hi]. done. }
      destruct (binv_home _ _ _ _ HI i b Hi Hb0) as (v & k & ? & Hv & Hk & _).
      apply (binv_live _ _ _ _ HI) in Hk. rewrite Hv, Nat2Z.id.
      apply elem_of_seq. lia. }
    apply submseteq_length in Hsub. unfold vs in Hsub.
    rewrite length_fmap, length_seq in Hsub. lia.
  - apply not_Forall_Exists in Hex; [|apply _].
    apply list.Exists_exists in Hex as (b & Hb & Hz).
    apply list_elem_of_lookup in Hb as [e He].
    exists e, b. split; [done|]. by destruct (decide (dist_and_fingerprint b = 0)).
Qed.

(** Robin-hood order: on the way from a key's home to a bucket that holds
    it at distance [d], every bucket holds at least the word sought there. *)
Lemma binv_path_ge (h : nat) (d : nat) (x : Z) (i : nat) (b : Bucket) :
  (h < length bs)%nat → (1 ≤ d)%nat → 0 ≤ x →
  bs !! i = Some b → 256 * Z.of_nat d + x ≤ dist_and_fingerprint b →
  walk (length bs) h (d - 1) = i →
  ∀ j, (j < d)%nat →
    ∃ b', bs !! walk (length bs) h j = Some b' ∧
          256 * Z.of_nat (S j) + x ≤ dist_and_fingerprint b'.
Proof.
  intros Hh Hd Hx Hb Hdaf Hw j Hj.
  remember (d - 1 - j)%nat as c eqn:Hc. revert j Hj Hc.
  induction c as [|c IH]; intros j Hj Hc.
  - assert (j = d - 1)%nat as -> by lia. rewrite Hw. exists b. split; [done|]. lia.
  - destruct (IH (S j)) as (b1 & Hb1 & Hge1); [lia..|].
    destruct (binv_lookup (walk (length bs) h j)) as [b0 Hb0]; [by apply walk_lt|].
    exists b0. split; [done|].
    pose proof (binv_rh _ _ _ _ HI _ _ _ Hb0 Hb1). lia.
Qed.

(** A bucket's distance from its home is less than a lap. *)
Lemma binv_home_strict (i : nat) (b : Bucket) :
  bs !! i = Some b → dist_and_fingerprint b ≠ 0 →
  ∃ v k d, value_idx b = Z.of_nat v ∧ keyof v = Some k ∧
           (1 ≤ d < length bs)%nat ∧ dist_and_fingerprint b = daf_at d k ∧
           walk (length bs) (home s k) (d - 1) = i.
Proof.
  intros Hb Hne.
  destruct (binv_home _ _ _ _ HI i b Hb Hne) as (v & k & d & Hv & Hk & Hd & Hdaf & Hw).
  exists v, k, d. repeat split; try done; try lia.
  destruct binv_has_empty as (e & be & He & Hz).
  destruct (walk_reach (length bs) (home s k) e) as (j & Hj & Hwj);
    [apply binv_home_lt | by eapply lookup_lt_Some |].
  destruct (decide (j < d)%nat) as [Hlt|]; [|lia].
  destruct (binv_path_ge (home s k) d (fingerprint k) i b) with (j := j)
    as (b' & Hb' & Hge); try done; try lia.
  - apply binv_home_lt.
  - pose proof (fingerprint_range k). lia.
  - rewrite Hdaf. unfold daf_at. lia.
  - rewrite Hwj in Hb'. simplify_eq. pose proof (fingerprint_range k). lia.
Qed.

Lemma binv_daf_bound (i : nat) (b : Bucket) :
  bs !! i = Some b → 0 ≤ dist_and_fingerprint b < 2 ^ 31.
Proof.
  intros Hb. destruct (decide (dist_and_fingerprint b = 0)) as [->|Hne]; [lia|].
  destruct (binv_home_strict i b Hb Hne) as (v & k & d & _ & _ & Hd & -> & _).
  pose proof binv_length_bounds. pose proof (fingerprint_range k). unfold daf_at. lia.
Qed.

End binv_facts.

Lemma nextn_lt' (n i : nat) : (i < n)%nat → (nextn n i < n)%nat.
Proof. unfold nextn. case_decide; lia. Qed.

Lemma walk_ne_start (n i j : nat) :
  (i < n)%nat → (1 ≤ j < n)%nat → walk n i j ≠ i.
Proof.
  intros Hi Hj Heq. assert (j = 0)%nat; [|lia].
  apply (walk_inj n i j 0); try lia. done.
Qed.

Lemma place_and_shift_up_loop_spec (m0 : nat) :
  ∀ (fuel : nat) (bs : list Bucket) (c : Bucket) (q : nat),
  (q < length bs)%nat → (m0 < length bs)%nat → (m0 < fuel)%nat →
  (∀ j, (j < m0)%nat → ∃ b, bs !! walk (length bs) q j = Some b ∧
        dist_and_fingerprint b ≠ 0 ∧ 0 ≤ dist_and_fingerprint b < 2 ^ 31) →
  (∃ b, bs !! walk (length bs) q m0 = Some b ∧ dist_and_fingerprint b = 0) →
  ∃ bs', place_and_shift_up_loop fuel bs c q = Ok bs' ∧ length bs' = length bs ∧
    bs' !! q = Some c ∧
    (∀ j, (j < m0)%nat → ∃ b, bs !! walk (length bs) q j = Some b ∧
       bs' !! walk (length bs) q (S j) =
         Some (mk_Bucket (dist_and_fingerprint b + 256) (value_idx b))) ∧
    (∀ i, (∀ j, (j ≤ m0)%nat → i ≠ walk (length bs) q j) → bs' !! i = bs !! i).
Proof.
  induction m0 as [|m0 IH]; intros fuel bs c q Hq Hm Hfuel Hocc Hemp.
  - destruct Hemp as (b & Hb & Hz). simpl in Hb.
    destruct fuel as [|fuel]; [lia|]. cbn [place_and_shift_up_loop].
    rewrite (deref_lookup _ _ _ Hb). rsimpl. rewrite Hz. simpl.
    eexists. split; [done|]. rewrite length_insert. split; [done|].
    split; [by apply list_lookup_insert_eq|]. split; [intros; lia|].
    intros i Hi. apply list_lookup_insert_ne. specialize (Hi 0%nat). simpl in Hi.
    intros ->. by apply Hi.
  - destruct (Hocc 0%nat) as (b0 & Hb0 & Hne0 & Hr0); [lia|]. simpl in Hb0.
    destruct fuel as [|fuel]; [lia|]. cbn [place_and_shift_up_loop].
    rewrite (deref_lookup _ _ _ Hb0). rsimpl.
    destruct (Z.eqb_spec 0 (dist_and_fingerprint b0)) as [|_]; [lia|]. cbn [negb].
    rewrite BUCKET_DIST_INC_val, u32_small by lia. rewrite next_nextn.
    set (bs1 := <[q:=c]> bs).
    set (c1 := mk_Bucket _ _).
    assert (length bs1 = length bs) as Hlen by apply length_insert.
    destruct (IH fuel bs1 c1 (nextn (length bs) q)) as (bs' & Hrun & Hlen' & Hq' & Hsh & Hfar).
    + rewrite Hlen. by apply nextn_lt'.
    + lia.
    + lia.
    + intros j Hj. rewrite Hlen, <- walk_S_l.
      destruct (Hocc (S j)) as (b & Hb & Hb'); [lia|].
      exists b. split; [|done]. unfold bs1.
      rewrite list_lookup_insert_ne; [done|]. intros Heq. symmetry in Heq.
      revert Heq. apply walk_ne_start; lia.
    + rewrite Hlen, <- walk_S_l. destruct Hemp as (b & Hb & Hz).
      exists b. split; [|done]. unfold bs1.
      rewrite list_lookup_insert_ne; [done|]. intros Heq. symmetry in Heq.
      revert Heq. apply walk_ne_start; lia.
    + exists bs'. split; [done|]. split; [lia|]. rewrite Hlen in *.
      split; [|split].
      * rewrite Hfar.
        -- unfold bs1. by apply list_lookup_insert_eq.
        -- intros j Hj. rewrite <- walk_S_l. intros Heq. symmetry in Heq.
           revert Heq. apply walk_ne_start; lia.
      * intros j Hj. destruct j as [|j].
        -- exists b0. split; [done|]. simpl. done.
        -- destruct (Hsh j) as (b & Hb & Hb'); [lia|].
           rewrite <- walk_S_l in Hb, Hb'.
           exists b. split; [|done]. unfold bs1 in Hb.
           rewrite list_lookup_insert_ne in Hb; [done|]. intros Heq. symmetry in Heq.
           revert Heq. apply walk_ne_start; lia.
      * intros i Hi. rewrite Hfar.
        -- unfold bs1. apply list_lookup_insert_ne. intros ->.
           by apply (Hi 0%nat); [lia|].
        -- intros j Hj. rewrite <- walk_S_l. apply Hi. lia.
Qed.

Lemma least_witness (P : nat → Prop) `{∀ j, Decision (P j)} (j : nat) :
  P j → ∃ m0, (m0 ≤ j)%nat ∧ P m0 ∧ ∀ i, (i < m0)%nat → ¬ P i.
Proof.
  assert ((∃ m0, (m0 ≤ j)%nat ∧ P m0 ∧ ∀ i, (i < m0)%nat → ¬ P i) ∨
          (∀ i, (i ≤ j)%nat → ¬ P i)) as [Hl|Hr]; [|done|].
  - induction j as [|j [IH|IH]].
    + destruct (decide (P 0%nat)) as [HP|HP].
      * left. exists 0%nat. split; [lia|]. split; [done|]. intros; lia.
      * right. intros i Hi. by replace i with 0%nat by lia.
    + left. destruct IH as (m0 & ? & ? & ?). exists m0. repeat split; try done. lia.
    + destruct (decide (P (S j))) as [HP|HP].
      * left. exists (S j). repeat split; try done. intros i Hi. apply IH. lia.
      * right. intros i Hi. destruct (decide (i = S j)) as [->|]; [done|]. apply IH. lia.
  - intros HP. by apply Hr in HP.
Qed.

Lemma first_empty (bs : list Bucket) (q : nat) :
  (q < length bs)%nat →
  (∃ e b, bs !! e = Some b ∧ dist_and_fingerprint b = 0) →
  ∃ m0, (m0 < length bs)%nat ∧
    (∃ b, bs !! walk (length bs) q m0 = Some b ∧ dist_and_fingerprint b = 0) ∧
    ∀ j, (j < m0)%nat →
      ∃ b, bs !! walk (length bs) q j = Some b ∧ dist_and_fingerprint b ≠ 0.
Proof.
  intros Hq (e & be & He & Hz).
  destruct (walk_reach (length bs) q e) as (je & Hje & Hw); [done|by eapply lookup_lt_Some|].
  set (P := λ j, dist_and_fingerprint <$> bs !! walk (length bs) q j = Some 0).
  destruct (least_witness P je) as (m0 & Hm0 & HP & Hmin).
  { unfold P. rewrite Hw, He. simpl. by rewrite Hz. }
  exists m0. split; [lia|]. split.
  - unfold P in HP. destruct (bs !! walk (length bs) q m0) as [b|]; [|done].
    exists b. split; [done|]. simpl in HP. congruence.
  - intros j Hj. specialize (Hmin j Hj). unfold P in Hmin.
    destruct (lookup_lt_is_Some_2 bs (walk (length bs) q j)) as [b Hb]; [by apply walk_lt|].
    exists b. split; [done|]. intros Hz'. apply Hmin. rewrite Hb. simpl. by rewrite Hz'.
Qed.
Lemma nextn_inj (n i1 i2 : nat) :
  (i1 < n)%nat → (i2 < n)%nat → nextn n i1 = nextn n i2 → i1 = i2.
Proof. unfold nextn. repeat case_decide; lia. Qed.

(** Placing a new key where its probe stopped keeps the invariant. *)
Lemma place_binv (s : Z) (bs : list Bucket) (keyof keyof' : nat → option Key)
    (m m' : nat) (k : Key) (vnew d q : nat) :
  binv s bs keyof m →
  keyof vnew = None → keyof' vnew = Some k → (∀ v, v ≠ vnew → keyof' v = keyof v) →
  (∀ v, keyof v ≠ Some k) →
  (m ≤ m')%nat → (vnew < m')%nat → (m' < length bs)%nat →
  (1 ≤ d)%nat → walk (length bs) (home s k) (d - 1) = q →
  (∀ b, bs !! q = Some b → dist_and_fingerprint b ≤ daf_at d k) →
  (∀ j b, (S j < d)%nat → bs !! walk (length bs) (home s k) j = Some b →
          daf_at (S j) k ≤ dist_and_fingerprint b) →
  ∃ bs', place_and_shift_up_loop (lap bs) bs (mk_Bucket (daf_at d k) (Z.of_nat vnew)) q
           = Ok bs' ∧
         binv s bs' keyof' m'.
Proof.
  intros HI Hnew Hnew' Hold Hfresh Hmm Hvm Hroom Hd Hq Hhere Hpath.
  set (n := length bs) in *.
  pose proof (binv_home_lt HI k) as Hh. fold n in Hh.
  assert (q < n)%nat as Hqn by (rewrite <- Hq; by apply walk_lt).
  pose proof (binv_has_empty HI) as Hemp.
  destruct (first_empty bs q Hqn Hemp) as (m0 & Hm0 & (be & Hbe & Hbez) & Hocc). fold n in Hm0, Hbe, Hocc.
  (* the new key's distance stays within a lap *)
  assert (d ≤ n)%nat as Hdn.
  { destruct (decide (d ≤ n)%nat) as [|Hgt]; [done|exfalso].
    destruct Hemp as (e & b & He & Hz).
    destruct (walk_reach n (home s k) e) as (j & Hj & Hw); [done|by eapply lookup_lt_Some|].
    subst e. specialize (Hpath j b ltac:(lia) He).
    unfold daf_at in Hpath. pose proof (fingerprint_range k). lia. }
  set (c := mk_Bucket (daf_at d k) (Z.of_nat vnew)).
  destruct (place_and_shift_up_loop_spec m0 (lap bs) bs c q)
    as (bs' & Hrun & Hlen & Hc & Hsh & Hfar); try done.
  { unfold lap. fold n. lia. }
  { intros j Hj. destruct (Hocc j Hj) as (b & Hb & Hne). exists b. repeat split; try done.
    - by eapply (binv_daf_bound HI).
    - by eapply (binv_daf_bound HI). }
  { by exists be. }
  fold n in Hlen, Hsh, Hfar.
  exists bs'. split; [done|].
  (* the new array, read by the offset from [q] *)
  assert (∀ j b', (j < n)%nat → bs' !! walk n q j = Some b' →
            (j = 0%nat ∧ b' = c) ∨
            (∃ j0 b, j = S j0 ∧ (j0 < m0)%nat ∧ bs !! walk n q j0 = Some b ∧
                     dist_and_fingerprint b ≠ 0 ∧
                     b' = mk_Bucket (dist_and_fingerprint b + 256) (value_idx b)) ∨
            ((m0 < j)%nat ∧ bs !! walk n q j = Some b')) as Hview.
  { intros j b' Hj Hb'. destruct j as [|j0].
    - left. simpl in Hb'. split; [done|congruence].
    - destruct (decide (j0 < m0)%nat) as [Hlt|Hge].
      + right; left. destruct (Hsh j0 Hlt) as (b & Hb & Hb2).
        destruct (Hocc j0 Hlt) as (b2 & Hb3 & Hne). simplify_eq.
        exists j0, b. repeat split; try done.
      + right; right. split; [lia|]. rewrite <- Hb'. symmetry. apply Hfar.
        intros j Hjm Heq. apply walk_inj in Heq; try done; lia. }
  assert (∀ i b', bs' !! i = Some b' → ∃ j, (j < n)%nat ∧ walk n q j = i) as Hoff.
  { intros i b' Hi. apply walk_reach; [done|]. rewrite <- Hlen. by eapply lookup_lt_Some. }
  split.
  - rewrite Hlen. apply (binv_size _ _ _ _ HI).
  - apply (binv_shifts _ _ _ _ HI).
  - intros v k' Hk'. destruct (decide (v = vnew)) as [->|Hne]; [done|].
    rewrite Hold in Hk' by done. apply (binv_live _ _ _ _ HI) in Hk'. lia.
  - by rewrite Hlen.
  - (* home *)
    intros i b' Hi Hne. rewrite Hlen. fold n.
    destruct (Hoff i b' Hi) as (j & Hj & <-).
    destruct (Hview j b' Hj Hi) as [[-> ->]|[(j0 & b & -> & Hj0 & Hb & Hbne & ->)|[Hjm Hb]]].
    + exists vnew, k, d. simpl. repeat split; try done.
    + destruct (binv_home_strict HI _ b Hb Hbne) as (v & k0 & d0 & Hv & Hk0 & Hd0 & Hdaf & Hw).
      fold n in Hd0, Hw.
      exists v, k0, (S d0). simpl. repeat split; try done; try lia.
      * rewrite Hold; [done|]. intros ->. congruence.
      * rewrite Hdaf. by rewrite daf_at_S.
      * rewrite Nat.sub_0_r. replace d0 with (S (d0 - 1)) by lia. simpl. by rewrite Hw.
    + destruct (binv_home _ _ _ _ HI _ b' Hb Hne) as (v & k0 & d0 & Hv & Hk0 & Hd0 & Hdaf & Hw).
      exists v, k0, d0. repeat split; try done; try lia.
      rewrite Hold; [done|]. intros ->. congruence.
  - (* slot *)
    intros v k' Hk'. destruct (decide (v = vnew)) as [->|Hne].
    + exists q, c. repeat split; try done. simpl. unfold daf_at.
      pose proof (fingerprint_range k). lia.
    + rewrite Hold in Hk' by done.
      destruct (binv_slot _ _ _ _ HI v k' Hk') as (i & b & Hb & Hbne & Hbv).
      destruct (walk_reach n q i) as (j & Hj & <-); [done|by eapply lookup_lt_Some|].
      destruct (decide (j < m0)%nat) as [Hlt|Hge].
      * destruct (Hsh j Hlt) as (b2 & Hb2 & Hb2'). simplify_eq.
        eexists _, _. split; [exact Hb2'|]. simpl. split; [|done].
        pose proof (binv_daf_bound HI _ _ Hb). lia.
      * assert (j ≠ m0) by (intros ->; congruence).
        exists (walk n q j), b. repeat split; try done. rewrite <- Hb. apply Hfar.
        intros j' Hj' Heq. apply walk_inj in Heq; try done; lia.
  -
    (* inj *)
    assert (∀ j b', (j < n)%nat → bs' !! walk n q j = Some b' →
              dist_and_fingerprint b' ≠ 0 →
              (j = 0%nat ∧ b' = c) ∨
              ∃ jo bo, bs !! walk n q jo = Some bo ∧ dist_and_fingerprint bo ≠ 0 ∧
                       value_idx bo = value_idx b' ∧ (jo < n)%nat ∧
                       ((j = S jo ∧ (jo < m0)%nat) ∨ (j = jo ∧ (m0 < j)%nat))) as Horigin.
    { intros j b' Hj Hb' Hnz.
      destruct (Hview j b' Hj Hb') as [?|[(j0 & b & -> & Hj0 & Hb & Hbne & ->)|[Hjm Hb]]].
      - by left.
      - right. exists j0, b. repeat split; try done; try lia.
      - right. exists j, b'. repeat split; try done. by right. }
    intros i1 i2 b1 b2 H1 H2 Hne1 Hne2 Hveq.
    destruct (Hoff i1 b1 H1) as (j1 & Hj1 & <-).
    destruct (Hoff i2 b2 H2) as (j2 & Hj2 & <-).
    destruct (Horigin j1 b1 Hj1 H1 Hne1) as [[-> ->]|(jo1 & bo1 & Ho1 & Hone1 & Hov1 & Hjo1 & Hrel1)];
    destruct (Horigin j2 b2 Hj2 H2 Hne2) as [[-> ->]|(jo2 & bo2 & Ho2 & Hone2 & Hov2 & Hjo2 & Hrel2)].
    + done.
    + exfalso. destruct (binv_home _ _ _ _ HI _ bo2 Ho2 Hone2) as (v & k0 & ? & Hv & Hk0 & _).
      simpl in Hveq. assert (v = vnew) by lia. congruence.
    + exfalso. destruct (binv_home _ _ _ _ HI _ bo1 Ho1 Hone1) as (v & k0 & ? & Hv & Hk0 & _).
      simpl in Hveq. assert (v = vnew) by lia. congruence.
    + assert (walk n q jo1 = walk n q jo2) as Heq.
      { apply (binv_inj _ _ _ _ HI _ _ bo1 bo2); try done. congruence. }
      apply walk_inj in Heq; try done. f_equal. lia.
  -
    (* robin-hood order *)
    intros i b b' Hb Hb' Hge. rewrite Hlen in Hb'. fold n in Hb'.
    destruct (Hoff i b Hb) as (j & Hj & <-).
    change (nextn n (walk n q j)) with (walk n q (S j)) in Hb'.
    assert (∀ jo bo bo', bs !! walk n q jo = Some bo → bs !! walk n q (S jo) = Some bo' →
              512 ≤ dist_and_fingerprint bo' →
              dist_and_fingerprint bo' ≤ dist_and_fingerprint bo + 256) as Hrh.
    { intros jo bo bo' Ho Ho'. by apply (binv_rh _ _ _ _ HI (walk n q jo)). }
    destruct (decide (S j = n)) as [Hwrap|Hnowrap].
    + rewrite Hwrap, walk_lap in Hb' by done. assert (b' = c) as -> by congruence.
      simpl in *. assert (2 ≤ d)%nat as Hd2.
      { unfold daf_at in Hge. pose proof (fingerprint_range k). lia. }
      destruct (lookup_lt_is_Some_2 bs (walk n q j)) as [bo Hbo]; [by apply walk_lt|].
      assert (walk n (home s k) (d - 2) = walk n q j) as Hprev.
      { apply (nextn_inj n); [by apply walk_lt..|].
        change (walk n (home s k) (S (d - 2)) = walk n q (S j)).
        rewrite Hwrap, walk_lap by done. rewrite <- Hq. f_equal. lia. }
      pose proof (Hpath (d - 2)%nat bo ltac:(lia)) as Hpo. rewrite Hprev in Hpo.
      specialize (Hpo Hbo). replace (S (d - 2)) with (d - 1)%nat in Hpo by lia.
      assert (daf_at d k = daf_at (d - 1) k + 256) as Hdd.
      { replace d with (S (d - 1)) at 1 by lia. apply daf_at_S. }
      destruct (Hview j b Hj Hb) as [[-> ->]|[(j0 & b0 & -> & Hj0 & Hb0 & Hb0ne & ->)|[Hjm Hbu]]].
      * pose proof (binv_length_bounds HI). lia.
      * assert (m0 = S j0) as -> by lia. simplify_eq.
        unfold daf_at in Hpo. pose proof (fingerprint_range k). lia.
      * simplify_eq. lia.
    + destruct (Hview (S j) b' ltac:(lia) Hb')
        as [[? _]|[(j0 & b0 & Hj0e & Hj0 & Hb0 & Hb0ne & ->)|[Hjm Hbu']]]; [lia| |].
      * assert (j0 = j) as -> by lia. simpl in *.
        destruct (Hview j b Hj Hb) as [[-> ->]|[(j1 & b1 & -> & Hj1 & Hb1 & Hb1ne & ->)|[Hjm Hbu]]].
        -- simpl. specialize (Hhere b0 Hb0). lia.
        -- simpl. pose proof (binv_daf_cases HI _ _ Hb1) as [|]; [done|].
           destruct (decide (512 ≤ dist_and_fingerprint b0)) as [Hbig|]; [|lia].
           pose proof (Hrh j1 b1 b0 Hb1 Hb0 Hbig). lia.
        -- lia.
      * destruct (Hview j b Hj Hb) as [[-> ->]|[(j1 & b1 & -> & Hj1 & Hb1 & Hb1ne & ->)|[Hjm' Hbu]]].
        -- assert (m0 = 0)%nat as -> by lia. simpl in Hbe.
           pose proof (Hrh 0%nat be b' Hbe Hbu' Hge). lia.
        -- assert (m0 = S j1) as -> by lia.
           pose proof (Hrh (S j1) be b' Hbe Hbu' Hge). lia.
        -- by apply (Hrh j).
  - (* keys *)
    intros v1 v2 k0 H1 H2.
    destruct (decide (v1 = vnew)) as [->|Hn1]; destruct (decide (v2 = vnew)) as [->|Hn2];
      try done.
    + rewrite Hold in H2 by done. rewrite Hnew' in H1. simplify_eq. by destruct (Hfresh v2).
    + rewrite Hold in H1 by done. rewrite Hnew' in H2. simplify_eq. by destruct (Hfresh v1).
    + rewrite Hold in H1, H2 by done. by eapply (binv_keys _ _ _ _ HI).
Qed.

(** ** The probes *)

Hypothesis m_equal_spec : ∀ x y : Key, m_equal x y = true ↔ x = y.

Local Abbreviation bucket_holds := (bucket_holds m_equal).
Local Abbreviation probe_loop := (probe_loop m_equal).
Local Abbreviation do_find_loop := (do_find_loop m_equal).
Local Abbreviation do_erase_key_loop := (do_erase_key_loop m_equal).

(** The key at value position [v] of the value array. *)
Definition keyof_values (vals : list (Key * T)) (v : nat) : option Key :=
  fst <$> vals !! v.

Section probes.

Context {s : Z} {bs : list Bucket} {keyof : nat → option Key} {m : nat}.
Hypothesis HI : binv s bs keyof m.
Variable vals : list (Key * T).
Hypothesis Hvals : ∀ v k, keyof v = Some k → ∃ x, vals !! v = Some (k, x).

Lemma daf_at_step (j : nat) (k : Key) :
  (j ≤ length bs)%nat → u32 (daf_at j k + BUCKET_DIST_INC) = daf_at (S j) k.
Proof.
  intros Hj. rewrite BUCKET_DIST_INC_val, daf_at_S. apply u32_small.
  pose proof (binv_length_bounds HI). pose proof (fingerprint_range k).
  unfold daf_at. lia.
Qed.

Lemma bucket_holds_spec (i : nat) (b : Bucket) (k : Key) (daf : Z) :
  bs !! i = Some b → daf ≠ 0 →
  ∃ hit, bucket_holds vals k daf b = Ok hit ∧
    (hit = true ↔ daf = dist_and_fingerprint b ∧
                  ∃ v, value_idx b = Z.of_nat v ∧ keyof v = Some k).
Proof.
  intros Hb Hdaf. unfold bucket_holds.
  destruct (Z.eqb_spec daf (dist_and_fingerprint b)) as [Heq|Hne].
  - destruct (binv_home _ _ _ _ HI i b Hb) as (v & k0 & d & Hv & Hk0 & _); [congruence|].
    destruct (Hvals v k0 Hk0) as [x Hx].
    rewrite Hv, (at_index_lookup _ _ _ Hx). rsimpl. eexists. split; [done|].
    unfold get_key. simpl. rewrite m_equal_spec. split.
    + intros ->. split; [done|]. by exists v.
    + intros (_ & v' & Hv' & Hk'). assert (v' = v) as -> by lia. congruence.
  - exists false. split; [done|]. split; [done|]. by intros [? _].
Qed.

(** A key that is indexed sits at the end of a run of buckets that each
    hold at least the word sought there. *)
Lemma binv_present (v : nat) (k : Key) :
  keyof v = Some k →
  ∃ d b, (1 ≤ d < length bs)%nat ∧
    bs !! walk (length bs) (home s k) (d - 1) = Some b ∧
    dist_and_fingerprint b = daf_at d k ∧ value_idx b = Z.of_nat v ∧
    ∀ j, (j < d)%nat → ∃ b', bs !! walk (length bs) (home s k) j = Some b' ∧
                              daf_at (S j) k ≤ dist_and_fingerprint b'.
Proof.
  intros Hk. destruct (binv_slot _ _ _ _ HI v k Hk) as (i & b & Hb & Hne & Hv).
  destruct (binv_home_strict HI i b Hb Hne) as (v' & k' & d & Hv' & Hk' & Hd & Hdaf & Hw).
  assert (v' = v) as -> by lia. assert (k' = k) as -> by congruence.
  exists d, b. rewrite Hw. repeat split; try done; try lia.
  intros j Hj.
  destruct (binv_path_ge HI (home s k) d (fingerprint k) i b) with (j := j)
    as (b' & Hb' & Hge); try done; try lia.
  - apply (binv_home_lt HI).
  - pose proof (fingerprint_range k). lia.
  - rewrite Hdaf. unfold daf_at. lia.
  - exists b'. split; [done|]. unfold daf_at. lia.
Qed.

(** What the probe of [emplace] and [do_try_emplace] has established when
    it stops at distance [d] without a hit. *)
Definition vacant_at (k : Key) (d : nat) (q : nat) : Prop :=
  (1 ≤ d ≤ length bs)%nat ∧ q = walk (length bs) (home s k) (d - 1) ∧
  (∀ b, bs !! q = Some b → dist_and_fingerprint b < daf_at d k) ∧
  (∀ j b, (S j < d)%nat → bs !! walk (length bs) (home s k) j = Some b →
     daf_at (S j) k ≤ dist_and_fingerprint b ∧
     (dist_and_fingerprint b = daf_at (S j) k →
      ∀ v, value_idx b = Z.of_nat v → keyof v ≠ Some k)).

Lemma probe_loop_S (fuel : nat) (k : Key) (daf : Z) (bucket : nat) :
  probe_loop (S fuel) vals bs k daf bucket =
  (b ← deref bs bucket;
   if daf <=? dist_and_fingerprint b then
     hit ← bucket_holds vals k daf b;
     if (hit : bool) then Ok (Found b)
     else probe_loop fuel vals bs k (u32 (daf + BUCKET_DIST_INC)) (next bs bucket)
   else Ok (Vacant daf bucket)).
Proof. reflexivity. Qed.

Lemma probe_loop_from (k : Key) (m0 : nat) :
  (m0 < length bs)%nat →
  (∃ b, bs !! walk (length bs) (home s k) m0 = Some b ∧ dist_and_fingerprint b = 0) →
  ∀ c j fuel, c = (m0 - j)%nat → (j ≤ m0)%nat → (m0 - j < fuel)%nat →
  (∀ j' b, (j' < j)%nat → bs !! walk (length bs) (home s k) j' = Some b →
     daf_at (S j') k ≤ dist_and_fingerprint b ∧
     (dist_and_fingerprint b = daf_at (S j') k →
      ∀ v, value_idx b = Z.of_nat v → keyof v ≠ Some k)) →
  ∃ r, probe_loop fuel vals bs k (daf_at (S j) k) (walk (length bs) (home s k) j) = Ok r ∧
    match r with
    | Found b => ∃ i v, bs !! i = Some b ∧ dist_and_fingerprint b ≠ 0 ∧
                        value_idx b = Z.of_nat v ∧ keyof v = Some k
    | Vacant daf q => ∃ d, daf = daf_at d k ∧ vacant_at k d q
    end.
Proof.
  intros Hm0 (be & Hbe & Hbez). set (n := length bs) in *. set (h := home s k) in *.
  assert (h < n)%nat as Hh by apply (binv_home_lt HI).
  induction c as [|c IH]; intros j fuel Hc Hj Hfuel Hpast.
  - assert (j = m0) as -> by lia. destruct fuel as [|fuel]; [lia|].
    rewrite probe_loop_S. rewrite (deref_lookup _ _ _ Hbe). rsimpl.
    destruct (Z.leb_spec (daf_at (S m0) k) (dist_and_fingerprint be)) as [Hle|Hgt].
    { unfold daf_at in Hle. pose proof (fingerprint_range k). lia. }
    eexists. split; [done|]. exists (S m0). split; [done|].
    unfold vacant_at. fold n h. rewrite Nat.sub_succ, Nat.sub_0_r.
    split; [lia|]. split; [done|]. split.
    + intros b Hb. simplify_eq. unfold daf_at. pose proof (fingerprint_range k). lia.
    + intros j b Hjlt. apply Hpast. lia.
  - destruct fuel as [|fuel]; [lia|].
    destruct (lookup_lt_is_Some_2 bs (walk n h j)) as [b Hb]; [by apply walk_lt|].
    rewrite probe_loop_S. rewrite (deref_lookup _ _ _ Hb). rsimpl.
    destruct (Z.leb_spec (daf_at (S j) k) (dist_and_fingerprint b)) as [Hle|Hgt].
    + destruct (bucket_holds_spec _ b k (daf_at (S j) k) Hb) as (hit & -> & Hhit).
      { unfold daf_at. pose proof (fingerprint_range k). lia. }
      rsimpl. destruct hit.
      * eexists. split; [done|]. destruct Hhit as [(Hdaf & v & Hv & Hk) _]; [done|].
        exists (walk n h j), v. repeat split; try done. rewrite <- Hdaf.
        unfold daf_at. pose proof (fingerprint_range k). lia.
      * rewrite daf_at_step by (fold n; lia). rewrite next_nextn. fold n.
        change (nextn n (walk n h j)) with (walk n h (S j)).
        apply IH; try lia.
        intros j' b' Hj' Hb'. destruct (decide (j' = j)) as [->|Hne].
        -- simplify_eq. split; [done|]. intros Hdaf v Hv Hk.
           assert (false = true); [|done]. apply Hhit. split; [done|]. by exists v.
        -- apply Hpast; [lia|done].
    + eexists. split; [done|]. exists (S j). split; [done|].
      unfold vacant_at. fold n h. rewrite Nat.sub_succ, Nat.sub_0_r.
      split; [lia|]. split; [done|]. split.
      * intros b' Hb'. simplify_eq. lia.
      * intros j' b' Hjlt. apply Hpast. lia.
Qed.

Lemma vacant_absent (k : Key) (d q : nat) : vacant_at k d q → ∀ v, keyof v ≠ Some k.
Proof.
  intros (Hd & -> & Hq & Hpast) v Hk.
  destruct (binv_present v k Hk) as (dv & bv & Hdv & Hbv & Hdaf & Hv & Hpath).
  destruct (decide (d ≤ dv)%nat) as [Hle|Hgt].
  - destruct (Hpath (d - 1)%nat) as (b' & Hb' & Hge); [lia|].
    specialize (Hq b' Hb'). replace (S (d - 1)) with d in Hge by lia. lia.
  - destruct (Hpast (dv - 1)%nat bv) as [_ Hno]; [lia|done|].
    replace (S (dv - 1)) with dv in Hno by lia. by apply (Hno Hdaf v).
Qed.

Lemma probe_loop_spec (k : Key) :
  ∃ r, probe_loop (lap bs) vals bs k (daf_at 1 k) (home s k) = Ok r ∧
    match r with
    | Found b => ∃ i v, bs !! i = Some b ∧ dist_and_fingerprint b ≠ 0 ∧
                        value_idx b = Z.of_nat v ∧ keyof v = Some k
    | Vacant daf q => ∃ d, daf = daf_at d k ∧ vacant_at k d q
    end.
Proof.
  destruct (first_empty bs (home s k)) as (m0 & Hm0 & Hemp & _).
  { apply (binv_home_lt HI). }
  { apply (binv_has_empty HI). }
  apply (probe_loop_from k m0 Hm0 Hemp m0 0%nat (lap bs)); [lia|lia|unfold lap; lia|].
  intros; lia.
Qed.

(** What [next_while_less] has established when it stops at distance [d]. *)
Definition stopped_at (k : Key) (d : nat) (q : nat) : Prop :=
  (1 ≤ d ≤ length bs)%nat ∧ q = walk (length bs) (home s k) (d - 1) ∧
  (∀ b, bs !! q = Some b → dist_and_fingerprint b ≤ daf_at d k) ∧
  (∀ j b, (S j < d)%nat → bs !! walk (length bs) (home s k) j = Some b →
     daf_at (S j) k < dist_and_fingerprint b).

Lemma next_while_less_loop_S (fuel : nat) (daf : Z) (bucket : nat) :
  next_while_less_loop (S fuel) bs daf bucket =
  (b ← deref bs bucket;
   if daf <? dist_and_fingerprint b then
     next_while_less_loop fuel bs (u32 (daf + BUCKET_DIST_INC)) (next bs bucket)
   else Ok (daf, bucket)).
Proof. reflexivity. Qed.

Lemma next_while_less_loop_from (k : Key) (m0 : nat) :
  (m0 < length bs)%nat →
  (∃ b, bs !! walk (length bs) (home s k) m0 = Some b ∧ dist_and_fingerprint b = 0) →
  ∀ c j fuel, c = (m0 - j)%nat → (j ≤ m0)%nat → (m0 - j < fuel)%nat →
  (∀ j' b, (j' < j)%nat → bs !! walk (length bs) (home s k) j' = Some b →
     daf_at (S j') k < dist_and_fingerprint b) →
  ∃ d q, next_while_less_loop fuel bs (daf_at (S j) k) (walk (length bs) (home s k) j)
           = Ok (daf_at d k, q) ∧ stopped_at k d q.
Proof.
  intros Hm0 (be & Hbe & Hbez). set (n := length bs) in *. set (h := home s k) in *.
  assert (h < n)%nat as Hh by apply (binv_home_lt HI).
  induction c as [|c IH]; intros j fuel Hc Hj Hfuel Hpast.
  - assert (j = m0) as -> by lia. destruct fuel as [|fuel]; [lia|].
    rewrite next_while_less_loop_S. rewrite (deref_lookup _ _ _ Hbe). rsimpl.
    destruct (Z.ltb_spec (daf_at (S m0) k) (dist_and_fingerprint be)) as [Hlt|Hge].
    { unfold daf_at in Hlt. pose proof (fingerprint_range k). lia. }
    exists (S m0), (walk n h m0). split; [done|].
    unfold stopped_at. fold n h. rewrite Nat.sub_succ, Nat.sub_0_r.
    split; [lia|]. split; [done|]. split.
    + intros b Hb. simplify_eq. lia.
    + intros j b Hjlt. apply Hpast. lia.
  - destruct fuel as [|fuel]; [lia|].
    destruct (lookup_lt_is_Some_2 bs (walk n h j)) as [b Hb]; [by apply walk_lt|].
    rewrite next_while_less_loop_S. rewrite (deref_lookup _ _ _ Hb). rsimpl.
    destruct (Z.ltb_spec (daf_at (S j) k) (dist_and_fingerprint b)) as [Hlt|Hge].
    + rewrite daf_at_step by (fold n; lia). rewrite next_nextn. fold n.
      change (nextn n (walk n h j)) with (walk n h (S j)).
      apply IH; try lia.
      intros j' b' Hj' Hb'. destruct (decide (j' = j)) as [->|Hne].
      * by simplify_eq.
      * apply Hpast; [lia|done].
    + exists (S j), (walk n h j). split; [done|].
      unfold stopped_at. fold n h. rewrite Nat.sub_succ, Nat.sub_0_r.
      split; [lia|]. split; [done|]. split.
      * intros b' Hb'. by simplify_eq.
      * intros j' b' Hjlt. apply Hpast. lia.
Qed.

Lemma next_while_less_loop_spec (k : Key) :
  ∃ d q, next_while_less_loop (lap bs) bs (daf_at 1 k) (home s k) = Ok (daf_at d k, q) ∧
         stopped_at k d q.
Proof.
  destruct (first_empty bs (home s k)) as (m0 & Hm0 & Hemp & _).
  { apply (binv_home_lt HI). }
  { apply (binv_has_empty HI). }
  apply (next_while_less_loop_from k m0 Hm0 Hemp m0 0%nat (lap bs));
    [lia|lia|unfold lap; lia|].
  intros; lia.
Qed.

Lemma do_find_loop_S (fuel : nat) (k : Key) (daf : Z) (bucket : nat) :
  do_find_loop (S fuel) vals bs k daf bucket =
  (b ← deref bs bucket;
   hit ← bucket_holds vals k daf b;
   if (hit : bool) then Ok (0 + value_idx b)
   else
     let daf' := u32 (daf + BUCKET_DIST_INC) in
     let bucket' := next bs bucket in
     b' ← deref bs bucket';
     if daf' <=? dist_and_fingerprint b' then do_find_loop fuel vals bs k daf' bucket'
     else Ok (Z.of_nat (length vals))).
Proof. reflexivity. Qed.

Lemma daf_at_pos (d : nat) (k : Key) : (1 ≤ d)%nat → daf_at d k ≠ 0.
Proof. unfold daf_at. pose proof (fingerprint_range k). lia. Qed.

(** A hit of [bucket_holds] on an indexed key names its value position. *)
Lemma bucket_holds_hit (i : nat) (b : Bucket) (k : Key) (daf : Z) (v : nat) :
  bs !! i = Some b → daf ≠ 0 → keyof v = Some k →
  bucket_holds vals k daf b = Ok true → value_idx b = Z.of_nat v.
Proof.
  intros Hb Hdaf Hk Hhit.
  destruct (bucket_holds_spec i b k daf Hb Hdaf) as (hit & Hrun & Hiff).
  rewrite Hrun in Hhit. simplify_eq.
  destruct Hiff as [(_ & v' & Hv' & Hk') _]; [done|].
  rewrite Hv'. f_equal. by apply (binv_keys _ _ _ _ HI v' v k).
Qed.

Lemma do_find_loop_hit (k : Key) (v d : nat) (b : Bucket) :
  keyof v = Some k → (1 ≤ d < length bs)%nat →
  bs !! walk (length bs) (home s k) (d - 1) = Some b →
  dist_and_fingerprint b = daf_at d k → value_idx b = Z.of_nat v →
  (∀ j, (j < d)%nat → ∃ b', bs !! walk (length bs) (home s k) j = Some b' ∧
                            daf_at (S j) k ≤ dist_and_fingerprint b') →
  ∀ c j fuel, c = (d - 1 - j)%nat → (j < d)%nat → (d - 1 - j < fuel)%nat →
  do_find_loop fuel vals bs k (daf_at (S j) k) (walk (length bs) (home s k) j)
    = Ok (Z.of_nat v).
Proof.
  intros Hk Hd Hb Hdaf Hv Hpath. set (n := length bs) in *. set (h := home s k) in *.
  induction c as [|c IH]; intros j fuel Hc Hj Hfuel.
  - assert (j = d - 1)%nat as -> by lia. destruct fuel as [|fuel]; [lia|].
    rewrite do_find_loop_S, (deref_lookup _ _ _ Hb). rsimpl.
    replace (S (d - 1)) with d by lia.
    destruct (bucket_holds_spec _ b k (daf_at d k) Hb) as (hit & -> & Hhit);
      [apply daf_at_pos; lia|].
    rsimpl. destruct hit.
    + by rewrite Hv.
    + assert (false = true); [|done]. apply Hhit. split; [done|]. by exists v.
  - destruct fuel as [|fuel]; [lia|].
    destruct (Hpath j Hj) as (b0 & Hb0 & Hge0).
    rewrite do_find_loop_S, (deref_lookup _ _ _ Hb0). rsimpl.
    destruct (bucket_holds_spec _ b0 k (daf_at (S j) k) Hb0) as (hit & Hrun & Hhit);
      [apply daf_at_pos; lia|].
    rewrite Hrun. rsimpl. destruct hit.
    + f_equal. rewrite Z.add_0_l.
      apply (bucket_holds_hit _ b0 k (daf_at (S j) k) v Hb0); [apply daf_at_pos; lia|done..].
    + cbv zeta. rewrite daf_at_step by (fold n; lia). rewrite next_nextn. fold n.
      change (nextn n (walk n h j)) with (walk n h (S j)).
      destruct (Hpath (S j)) as (b1 & Hb1 & Hge1); [lia|].
      rewrite (deref_lookup _ _ _ Hb1). rsimpl.
      destruct (Z.leb_spec (daf_at (S (S j)) k) (dist_and_fingerprint b1)); [|lia].
      apply IH; lia.
Qed.

Lemma do_find_loop_miss (k : Key) :
  (∀ v, keyof v ≠ Some k) →
  ∀ c j fuel, c = (length bs - j)%nat → (S j ≤ length bs)%nat → (length bs - j < fuel)%nat →
  do_find_loop fuel vals bs k (daf_at (S j) k) (walk (length bs) (home s k) j)
    = Ok (Z.of_nat (length vals)).
Proof.
  intros Hno. set (n := length bs) in *. set (h := home s k) in *.
  assert (h < n)%nat as Hh by apply (binv_home_lt HI).
  induction c as [|c IH]; intros j fuel Hc Hj Hfuel; [lia|].
  destruct fuel as [|fuel]; [lia|].
  destruct (lookup_lt_is_Some_2 bs (walk n h j)) as [b Hb]; [by apply walk_lt|].
  rewrite do_find_loop_S, (deref_lookup _ _ _ Hb). rsimpl.
  destruct (bucket_holds_spec _ b k (daf_at (S j) k) Hb) as (hit & Hrun & Hhit);
    [apply daf_at_pos; lia|].
  rewrite Hrun. rsimpl. destruct hit.
  { destruct Hhit as [(_ & v & _ & Hk) _]; [done|]. by destruct (Hno v). }
  cbv zeta. rewrite daf_at_step by (fold n; lia). rewrite next_nextn. fold n.
  change (nextn n (walk n h j)) with (walk n h (S j)).
  destruct (lookup_lt_is_Some_2 bs (walk n h (S j))) as [b1 Hb1]; [by apply walk_lt|].
  rewrite (deref_lookup _ _ _ Hb1). rsimpl.
  destruct (Z.leb_spec (daf_at (S (S j)) k) (dist_and_fingerprint b1)) as [Hle|]; [|done].
  assert (dist_and_fingerprint b1 ≠ 0) as Hne.
  { unfold daf_at in Hle. pose proof (fingerprint_range k). lia. }
  destruct (binv_home_strict HI _ b1 Hb1 Hne) as (v1 & k1 & d1 & _ & _ & Hd1 & Hdaf1 & _).
  fold n in Hd1. rewrite Hdaf1 in Hle.
  assert (S (S j) ≤ d1)%nat.
  { unfold daf_at in Hle. pose proof (fingerprint_range k). pose proof (fingerprint_range k1).
    lia. }
  apply IH; lia.
Qed.

Lemma do_erase_key_loop_S (fuel : nat) (k : Key) (daf : Z) (bucket : nat) :
  do_erase_key_loop (S fuel) vals bs k daf bucket =
  (b ← deref bs bucket;
   if daf =? dist_and_fingerprint b then
     vt ← at_index vals (value_idx b);
     if negb (m_equal k (get_key vt)) then
       do_erase_key_loop fuel vals bs k (u32 (daf + BUCKET_DIST_INC)) (next bs bucket)
     else Ok (daf, bucket)
   else Ok (daf, bucket)).
Proof. reflexivity. Qed.

(** The second loop of [do_erase_key] reads the key of an occupied bucket. *)
Lemma bucket_key (i : nat) (b : Bucket) :
  bs !! i = Some b → dist_and_fingerprint b ≠ 0 →
  ∃ v k0 x, value_idx b = Z.of_nat v ∧ keyof v = Some k0 ∧
            at_index vals (value_idx b) = Ok (k0, x).
Proof.
  intros Hb Hne.
  destruct (binv_home _ _ _ _ HI i b Hb Hne) as (v & k0 & d & Hv & Hk0 & _).
  destruct (Hvals v k0 Hk0) as [x Hx].
  exists v, k0, x. repeat split; try done. rewrite Hv. by apply at_index_lookup.
Qed.

Lemma do_erase_key_loop_live (k : Key) (v d : nat) (b : Bucket) :
  keyof v = Some k → (1 ≤ d < length bs)%nat →
  bs !! walk (length bs) (home s k) (d - 1) = Some b →
  dist_and_fingerprint b = daf_at d k → value_idx b = Z.of_nat v →
  (∀ j, (j < d)%nat → ∃ b', bs !! walk (length bs) (home s k) j = Some b' ∧
                            daf_at (S j) k ≤ dist_and_fingerprint b') →
  ∀ c j fuel, c = (d - 1 - j)%nat → (j < d)%nat → (d - 1 - j < fuel)%nat →
  (∀ b', bs !! walk (length bs) (home s k) j = Some b' →
         dist_and_fingerprint b' ≤ daf_at (S j) k) →
  do_erase_key_loop fuel vals bs k (daf_at (S j) k) (walk (length bs) (home s k) j)
    = Ok (daf_at d k, walk (length bs) (home s k) (d - 1)).
Proof.
  intros Hk Hd Hb Hdaf Hv Hpath. set (n := length bs) in *. set (h := home s k) in *.
  assert (h < n)%nat as Hh by apply (binv_home_lt HI).
  induction c as [|c IH]; intros j fuel Hc Hj Hfuel Hle.
  - assert (j = d - 1)%nat as -> by lia. destruct fuel as [|fuel]; [lia|].
    rewrite do_erase_key_loop_S, (deref_lookup _ _ _ Hb). rsimpl.
    replace (S (d - 1)) with d by lia. rewrite Hdaf, Z.eqb_refl.
    destruct (bucket_key _ b Hb) as (v' & k0 & x & Hv' & Hk0 & ->).
    { rewrite Hdaf. apply daf_at_pos. lia. }
    assert (v' = v) as -> by lia. assert (k0 = k) as -> by congruence.
    rsimpl. unfold get_key. simpl.
    replace (m_equal k k) with true; [done|]. symmetry. by apply m_equal_spec.
  - destruct fuel as [|fuel]; [lia|].
    destruct (Hpath j Hj) as (b0 & Hb0 & Hge0). specialize (Hle b0 Hb0).
    rewrite do_erase_key_loop_S, (deref_lookup _ _ _ Hb0). rsimpl.
    assert (dist_and_fingerprint b0 = daf_at (S j) k) as Hdaf0 by lia.
    rewrite Hdaf0, Z.eqb_refl.
    destruct (bucket_key _ b0 Hb0) as (v0 & k0 & x & Hv0 & Hk0 & ->).
    { rewrite Hdaf0. apply daf_at_pos. lia. }
    rsimpl. unfold get_key. simpl.
    destruct (m_equal k k0) eqn:Heq.
    + exfalso. apply m_equal_spec in Heq as <-.
      assert (v0 = v) as -> by (by apply (binv_keys _ _ _ _ HI v0 v k)).
      assert (walk n h j = walk n h (d - 1)) as Hpos.
      { apply (binv_inj _ _ _ _ HI _ _ b0 b); try done.
        - rewrite Hdaf0. apply daf_at_pos. lia.
        - rewrite Hdaf. apply daf_at_pos. lia.
        - congruence. }
      apply walk_inj in Hpos; try done; lia.
    + cbn [negb]. rewrite daf_at_step by (fold n; lia). rewrite next_nextn. fold n.
      change (nextn n (walk n h j)) with (walk n h (S j)).
      apply IH; try lia.
      intros b1 Hb1.
      destruct (decide (512 ≤ dist_and_fingerprint b1)) as [Hbig|Hsmall].
      * pose proof (binv_rh _ _ _ _ HI (walk n h j) b0 b1 Hb0 Hb1 Hbig).
        rewrite daf_at_S. lia.
      * unfold daf_at. pose proof (fingerprint_range k). lia.
Qed.

Lemma do_erase_key_loop_absent (k : Key) :
  (∀ v, keyof v ≠ Some k) →
  ∀ c j fuel, c = (length bs - j)%nat → (S j ≤ length bs)%nat → (length bs - j < fuel)%nat →
  ∃ daf q b,
    do_erase_key_loop fuel vals bs k (daf_at (S j) k) (walk (length bs) (home s k) j)
      = Ok (daf, q) ∧
    bs !! q = Some b ∧ daf ≠ dist_and_fingerprint b.
Proof.
  intros Hno. set (n := length bs) in *. set (h := home s k) in *.
  assert (h < n)%nat as Hh by apply (binv_home_lt HI).
  induction c as [|c IH]; intros j fuel Hc Hj Hfuel; [lia|].
  destruct fuel as [|fuel]; [lia|].
  destruct (lookup_lt_is_Some_2 bs (walk n h j)) as [b Hb]; [by apply walk_lt|].
  rewrite do_erase_key_loop_S, (deref_lookup _ _ _ Hb). rsimpl.
  destruct (Z.eqb_spec (daf_at (S j) k) (dist_and_fingerprint b)) as [Heq|Hne].
  - assert (dist_and_fingerprint b ≠ 0) as Hnz.
    { rewrite <- Heq. apply daf_at_pos. lia. }
    destruct (bucket_key _ b Hb Hnz) as (v0 & k0 & x & Hv0 & Hk0 & ->).
    rsimpl. unfold get_key. simpl.
    destruct (m_equal k k0) eqn:Hmeq.
    { apply m_equal_spec in Hmeq as <-. by destruct (Hno v0). }
    cbn [negb]. rewrite daf_at_step by (fold n; lia). rewrite next_nextn. fold n.
    change (nextn n (walk n h j)) with (walk n h (S j)).
    destruct (binv_home_strict HI _ b Hb Hnz) as (v1 & k1 & d1 & _ & _ & Hd1 & Hdaf1 & _).
    fold n in Hd1. rewrite Hdaf1 in Heq. apply daf_at_inj in Heq as [<- _].
    apply IH; lia.
  - exists (daf_at (S j) k), (walk n h j), b. done.
Qed.

Lemma seek_value_idx_loop_S (fuel : nat) (idx : Z) (bucket : nat) :
  seek_value_idx_loop (S fuel) bs idx bucket =
  (b ← deref bs bucket;
   if negb (idx =? value_idx b) then seek_value_idx_loop fuel bs idx (next bs bucket)
   else Ok bucket).
Proof. reflexivity. Qed.

(** Walking from the home of the key at value position [v] reaches the
    bucket that holds [v]. *)
Lemma seek_value_idx_loop_spec (k : Key) (v : nat) :
  keyof v = Some k →
  ∃ q b, seek_value_idx_loop (lap bs) bs (Z.of_nat v) (home s k) = Ok q ∧
         bs !! q = Some b ∧ dist_and_fingerprint b ≠ 0 ∧ value_idx b = Z.of_nat v.
Proof.
  intros Hk. destruct (binv_present v k Hk) as (d & b & Hd & Hb & Hdaf & Hv & Hpath).
  set (n := length bs) in *. set (h := home s k) in *.
  assert (h < n)%nat as Hh by apply (binv_home_lt HI).
  assert (dist_and_fingerprint b ≠ 0) as Hnz by (rewrite Hdaf; apply daf_at_pos; lia).
  exists (walk n h (d - 1)), b. repeat split; try done.
  assert (∀ c j fuel, c = (d - 1 - j)%nat → (j < d)%nat → (d - 1 - j < fuel)%nat →
            seek_value_idx_loop fuel bs (Z.of_nat v) (walk n h j) = Ok (walk n h (d - 1)))
    as Hloop.
  { induction c as [|c IH]; intros j fuel Hc Hj Hfuel.
    - assert (j = d - 1)%nat as -> by lia. destruct fuel as [|fuel]; [lia|].
      rewrite seek_value_idx_loop_S, (deref_lookup _ _ _ Hb). rsimpl.
      by rewrite Hv, Z.eqb_refl.
    - destruct fuel as [|fuel]; [lia|].
      destruct (Hpath j Hj) as (b0 & Hb0 & Hge0).
      rewrite seek_value_idx_loop_S, (deref_lookup _ _ _ Hb0). rsimpl.
      destruct (Z.eqb_spec (Z.of_nat v) (value_idx b0)) as [Heq|Hne].
      + exfalso. assert (walk n h j = walk n h (d - 1)) as Hpos.
        { apply (binv_inj _ _ _ _ HI _ _ b0 b); try done; [|congruence].
          unfold daf_at in Hge0. pose proof (fingerprint_range k). lia. }
        apply walk_inj in Hpos; try done; lia.
      + cbn [negb]. rewrite next_nextn. fold n.
        change (nextn n (walk n h j)) with (walk n h (S j)). apply IH; lia. }
  apply (Hloop (d - 1)%nat 0%nat); [lia|lia|unfold lap; fold n; lia].
Qed.

End probes.

(** * The invariant of the table *)

Local Abbreviation next_while_less := (next_while_less m_hash is_avalanching).
Local Abbreviation fill_buckets_loop := (fill_buckets_loop m_hash is_avalanching).
Local Abbreviation fill_buckets_from_values := (fill_buckets_from_values m_hash is_avalanching).
Local Abbreviation init_from_values := (init_from_values m_hash is_avalanching).
Local Abbreviation increase_size := (increase_size m_hash is_avalanching).
Local Abbreviation do_erase := (do_erase m_hash is_avalanching).
Local Abbreviation table_copy := (table_copy m_hash is_avalanching).
Local Abbreviation erase := (erase m_hash is_avalanching).
Local Abbreviation erase_forward_loop := (erase_forward_loop m_hash is_avalanching).
Local Abbreviation erase_backward_loop := (erase_backward_loop m_hash is_avalanching).
Local Abbreviation erase_range_statements := (erase_range_statements m_hash is_avalanching).
Local Abbreviation erase_range := (erase_range m_hash is_avalanching).
Local Abbreviation rehash := (rehash m_hash is_avalanching).
Local Abbreviation reserve := (reserve m_hash is_avalanching).
Local Abbreviation do_erase_key := (do_erase_key m_hash is_avalanching m_equal).
Local Abbreviation do_try_emplace := (do_try_emplace m_hash is_avalanching m_equal).
Local Abbreviation try_emplace := (try_emplace m_hash is_avalanching m_equal).
Local Abbreviation do_insert_or_assign := (do_insert_or_assign m_hash is_avalanching m_equal).
Local Abbreviation insert_or_assign := (insert_or_assign m_hash is_avalanching m_equal).
Local Abbreviation do_find := (do_find m_hash is_avalanching m_equal).
Local Abbreviation find := (find m_hash is_avalanching m_equal).
Local Abbreviation count := (count m_hash is_avalanching m_equal).
Local Abbreviation contains := (contains m_hash is_avalanching m_equal).
Local Abbreviation at_ := (at_ m_hash is_avalanching m_equal).
Local Abbreviation emplace := (emplace m_hash is_avalanching m_equal).
Local Abbreviation insert := (insert m_hash is_avalanching m_equal).
Local Abbreviation insert_range := (insert_range m_hash is_avalanching m_equal).
Local Abbreviation erase_key := (erase_key m_hash is_avalanching m_equal).
Local Abbreviation table_ctor := (@table_ctor Key T).

(** A load factor strictly between nothing and one bucket per entry. *)
Definition lf_ok (x : dyadic) : Prop :=
  0 ≤ mantissa x ∧ binexp x < 0 ∧ mantissa x < 2 ^ (- binexp x).

(** The states of a table: before the first allocation, and with metadata
    that index the value array. *)
Definition unallocated (t : table) : Prop :=
  m_values t = [] ∧ m_buckets t = [] ∧ m_max_bucket_capacity t = 0 ∧
  m_shifts t = INITIAL_SHIFTS.

Definition allocated (t : table) : Prop :=
  binv (m_shifts t) (m_buckets t) (keyof_values (m_values t)) (length (m_values t)) ∧
  0 ≤ m_max_bucket_capacity t < Z.of_nat (length (m_buckets t)) ∧
  scaled_capacity (m_max_load_factor t) (m_shifts t) = Ok (m_max_bucket_capacity t).

Definition Inv (t : table) : Prop :=
  lf_ok (m_max_load_factor t) ∧ (unallocated t ∨ allocated t).

(** Growing stays below the bucket count at which a distance would no
    longer fit its field. *)
Definition can_grow (t : table) : Prop :=
  is_full t = true → 42 ≤ m_shifts t.

Lemma keyof_values_Some (vals : list (Key * T)) (v : nat) (k : Key) :
  keyof_values vals v = Some k ↔ ∃ x, vals !! v = Some (k, x).
Proof.
  unfold keyof_values. destruct (vals !! v) as [[k0 x]|]; simpl; split.
  - intros [= ->]. by exists x.
  - by intros (x' & [= -> ->]).
  - done.
  - by intros (x' & ?).
Qed.

Lemma float_to_uint64_scaled (x : dyadic) (a : Z) :
  lf_ok x → 0 ≤ a < 64 →
  ∃ c, float_to_uint64 (mul_pow2 a x) = Ok c ∧ 0 ≤ c < 2 ^ a.
Proof.
  intros (Hm & He & Hlt) Ha. unfold float_to_uint64, mul_pow2. simpl.
  set (M := mantissa x) in *. set (e := binexp x) in *.
  assert (0 < 2 ^ a) by (apply Z.pow_pos_nonneg; lia).
  assert (2 ^ a < 2 ^ 64) by (apply Z.pow_lt_mono_r; lia).
  assert (∀ v, 0 ≤ v < 2 ^ a → (0 <=? v) && (v <? 2 ^ 64) = true) as Hin.
  { intros v Hv. apply andb_true_intro. split; [apply Z.leb_le | apply Z.ltb_lt]; lia. }
  destruct (Z.leb_spec 0 (e + a)) as [Hpos|Hneg].
  - assert (0 < 2 ^ (e + a)) by (apply Z.pow_pos_nonneg; lia).
    assert (2 ^ (- e) * 2 ^ (e + a) = 2 ^ a) as Hpow.
    { rewrite <- Z.pow_add_r by lia. f_equal. lia. }
    assert (0 ≤ M * 2 ^ (e + a) < 2 ^ a) as Hr by nia.
    rewrite (Hin _ Hr). by eexists.
  - assert (0 < 2 ^ (- (e + a))) by (apply Z.pow_pos_nonneg; lia).
    assert (2 ^ a * 2 ^ (- (e + a)) = 2 ^ (- e)) as Hpow.
    { rewrite <- Z.pow_add_r by lia. f_equal. lia. }
    rewrite Z.quot_div_nonneg by lia.
    assert (0 ≤ M / 2 ^ (- (e + a)) < 2 ^ a) as Hr.
    { split; [apply Z.div_pos; lia|]. apply Z.div_lt_upper_bound; [lia|]. lia. }
    rewrite (Hin _ Hr). by eexists.
Qed.

Lemma pow2_to_nat (a : Z) : 0 ≤ a → Z.of_nat (Z.to_nat (2 ^ a)) = 2 ^ a.
Proof. intros. apply Z2Nat.id. apply Z.pow_nonneg. lia. Qed.

Lemma allocate_and_clear_buckets_spec (t : table) :
  lf_ok (m_max_load_factor t) → 1 ≤ m_shifts t ≤ 61 →
  ∃ c, allocate_and_clear_buckets t =
         Ok (mk_table (m_values t)
               (replicate (Z.to_nat (2 ^ (64 - m_shifts t))) (mk_Bucket 0 0))
               (u32 c) (m_max_load_factor t) (m_shifts t)) ∧
       scaled_capacity (m_max_load_factor t) (m_shifts t) = Ok c ∧
       0 ≤ c < 2 ^ (64 - m_shifts t).
Proof.
  intros Hlf Hs. unfold allocate_and_clear_buckets, scaled_capacity.
  rewrite (u32_small (64 - m_shifts t)) by lia.
  destruct (Z.ltb_spec (64 - m_shifts t) 64); [|lia].
  destruct (float_to_uint64_scaled (m_max_load_factor t) (64 - m_shifts t) Hlf)
    as (c & Hc & Hr); [lia|].
  unfold max_load_factor. rewrite Hc. rsimpl.
  assert (2 ^ (64 - m_shifts t) < 2 ^ 64) by (apply Z.pow_lt_mono_r; lia).
  rewrite Z.shiftl_1_l. rewrite u64_small by lia.
  by exists c.
Qed.

Lemma binv_replicate (s : Z) :
  41 ≤ s ≤ 61 →
  binv s (replicate (Z.to_nat (2 ^ (64 - s))) (mk_Bucket 0 0)) (keyof_values []) 0.
Proof.
  intros Hs. set (n := Z.to_nat (2 ^ (64 - s))).
  assert (Z.of_nat n = 2 ^ (64 - s)) as Hn by (apply pow2_to_nat; lia).
  assert (2 ^ 3 ≤ 2 ^ (64 - s)) by (apply Z.pow_le_mono_r; lia).
  assert (∀ i b, replicate n (mk_Bucket 0 0) !! i = Some b → dist_and_fingerprint b = 0)
    as Hz.
  { intros i b Hb. apply lookup_replicate in Hb as [-> _]. done. }
  split.
  - by rewrite length_replicate.
  - done.
  - intros v k Hk. unfold keyof_values in Hk. by rewrite lookup_nil in Hk.
  - rewrite length_replicate. lia.
  - intros i b Hb Hne. by apply Hz in Hb.
  - intros v k Hk. unfold keyof_values in Hk. by rewrite lookup_nil in Hk.
  - intros i j bi bj Hi _ Hne. by apply Hz in Hi.
  - intros i b b' _ Hb' Hge. apply Hz in Hb'. lia.
  - intros v1 v2 k Hk. unfold keyof_values in Hk. by rewrite lookup_nil in Hk.
Qed.

Lemma next_while_less_spec (t : table) (keyof : nat → option Key) (m : nat) (k : Key) :
  binv (m_shifts t) (m_buckets t) keyof m →
  ∃ d q, next_while_less t k = Ok (daf_at d k, q) ∧
         @stopped_at (m_shifts t) (m_buckets t) k d q.
Proof.
  intros HI. unfold next_while_less. rewrite daf_at_first.
  apply (next_while_less_loop_spec HI k).
Qed.

Lemma fill_buckets_loop_spec (vals : list (Key * T)) (cap : Z) (mlf : dyadic) (s : Z) :
  (∀ v1 v2 k, keyof_values vals v1 = Some k → keyof_values vals v2 = Some k → v1 = v2) →
  ∀ todo i bs,
  (todo + i = length vals)%nat → (length vals < length bs)%nat →
  binv s bs (keyof_values (take i vals)) i →
  ∃ bs', fill_buckets_loop todo (Z.of_nat i) (mk_table vals bs cap mlf s)
           = Ok (mk_table vals bs' cap mlf s) ∧
         length bs' = length bs ∧
         binv s bs' (keyof_values vals) (length vals).
Proof.
  intros Huniq. induction todo as [|todo IH]; intros i bs Hi Hroom HI.
  - simpl in Hi. subst i. rewrite firstn_all in HI. exists bs. done.
  - destruct (lookup_lt_is_Some_2 vals i) as [[k x] Hkx]; [lia|].
    cbn [fill_buckets_loop]. cbn [m_values].
    rewrite (at_index_lookup _ _ _ Hkx). rsimpl. unfold get_key. cbn [fst].
    destruct (next_while_less_spec (mk_table vals bs cap mlf s) _ _ k HI)
      as (d & q & -> & Hstop).
    rsimpl. cbn [m_shifts m_buckets] in Hstop.
    destruct Hstop as (Hd & -> & Hhere & Hpast).
    destruct (place_binv s bs (keyof_values (take i vals)) (keyof_values (take (S i) vals))
                i (S i) k i d (walk (length bs) (home s k) (d - 1)) HI)
      as (bs' & Hrun & HI'); try done; try lia.
    + unfold keyof_values. rewrite lookup_take_ge; [done|lia].
    + unfold keyof_values. rewrite lookup_take_lt by lia. by rewrite Hkx.
    + intros v Hv. unfold keyof_values. destruct (decide (v < i)%nat).
      * rewrite !lookup_take_lt by lia. done.
      * rewrite !lookup_take_ge by lia. done.
    + intros v Hv. apply keyof_values_Some in Hv as [x' Hx'].
      apply lookup_take_Some in Hx' as [Hx' Hlt].
      assert (v = i); [|lia]. apply (Huniq v i k); apply keyof_values_Some; eauto.
    + intros j b Hj Hb. specialize (Hpast j b Hj Hb). lia.
    + unfold place_and_shift_up. cbn [m_buckets]. rewrite Hrun. rsimpl.
      unfold set_buckets. cbn [m_values m_max_bucket_capacity m_max_load_factor m_shifts].
      assert (length bs' = length bs) as Hlen.
      { apply Nat2Z.inj. rewrite (binv_size _ _ _ _ HI'), (binv_size _ _ _ _ HI). done. }
      rewrite u32_small.
      2:{ pose proof (binv_length_bounds HI). lia. }
      replace (Z.of_nat i + 1) with (Z.of_nat (S i)) by lia.
      destruct (IH (S i) bs') as (bs'' & Hrun' & Hlen' & HI''); try done; try lia.
      exists bs''. split; [done|]. split; [lia|done].
Qed.

Lemma Inv_values_unique (t : table) :
  Inv t →
  ∀ v1 v2 k, keyof_values (m_values t) v1 = Some k →
             keyof_values (m_values t) v2 = Some k → v1 = v2.
Proof.
  intros [_ [(Hv & _)|[HI _]]] v1 v2 k H1 H2.
  - rewrite Hv in H1. unfold keyof_values in H1. by rewrite lookup_nil in H1.
  - by apply (binv_keys _ _ _ _ HI v1 v2 k).
Qed.

(** Rebuilding the metadata for a given shift amount. *)
Lemma rebuild_spec (t : table) (s : Z) :
  lf_ok (m_max_load_factor t) → 41 ≤ s ≤ 61 →
  (Z.of_nat (length (m_values t)) < 2 ^ (64 - s)) →
  (∀ v1 v2 k, keyof_values (m_values t) v1 = Some k →
              keyof_values (m_values t) v2 = Some k → v1 = v2) →
  ∃ t', (t1 ← allocate_and_clear_buckets (deallocate_buckets (set_shifts t s));
         fill_buckets_from_values t1) = Ok t' ∧
        m_values t' = m_values t ∧ m_shifts t' = s ∧
        m_max_load_factor t' = m_max_load_factor t ∧
        Z.of_nat (length (m_buckets t')) = 2 ^ (64 - s) ∧
        allocated t'.
Proof.
  intros Hlf Hs Hroom Huniq.
  destruct (allocate_and_clear_buckets_spec (deallocate_buckets (set_shifts t s)))
    as (c & -> & Hexact & Hc); [done|simpl; lia|].
  rsimpl. cbn [deallocate_buckets set_shifts m_values m_max_load_factor m_shifts]
    in Hc, Hexact |- *.
  unfold fill_buckets_from_values, size. cbn [m_values].
  assert (2 ^ (64 - s) ≤ 2 ^ 23) by (apply Z.pow_le_mono_r; lia).
  rewrite u32_small by lia. rewrite Nat2Z.id.
  set (bs0 := replicate _ _).
  assert (Z.of_nat (length bs0) = 2 ^ (64 - s)) as Hlen0.
  { unfold bs0. rewrite length_replicate. apply pow2_to_nat. lia. }
  rewrite (u32_small c) by lia.
  destruct (fill_buckets_loop_spec (m_values t) c (m_max_load_factor t) s Huniq
              (length (m_values t)) 0%nat bs0) as (bs' & Hrun & Hlen & HI); [lia|lia|..].
  { rewrite take_0. by apply binv_replicate. }
  change (Z.of_nat 0) with 0 in Hrun. rewrite Hrun.
  eexists. split; [done|]. cbn [m_values m_shifts m_max_load_factor m_buckets].
  do 3 (split; [done|]). split; [lia|]. split; [done|].
  cbn [m_max_bucket_capacity m_buckets m_max_load_factor m_shifts].
  split; [rewrite Hlen; lia|done].
Qed.

Lemma pow2_double (a : Z) : 0 ≤ a → 2 ^ (a + 1) = 2 * 2 ^ a.
Proof. intros. rewrite Z.pow_add_r by lia. lia. Qed.

(** The first statement of [emplace] and [do_try_emplace]. *)
Lemma grow_if_full_spec (t : table) :
  Inv t → can_grow t →
  ∃ t0, (if is_full t then increase_size t else Ok t) = Ok t0 ∧
        m_values t0 = m_values t ∧
        m_max_load_factor t0 = m_max_load_factor t ∧
        allocated t0 ∧
        (length (m_values t) + 1 < length (m_buckets t0))%nat ∧
        m_shifts t - 1 ≤ m_shifts t0 ≤ m_shifts t.
Proof.
  intros [Hlf Hst] Hgrow. unfold can_grow in Hgrow.
  destruct (is_full t) eqn:Hfull.
  - specialize (Hgrow eq_refl).
    assert (m_shifts t ≤ 61 ∧
            Z.of_nat (length (m_values t)) + 1 ≤ 2 ^ (64 - m_shifts t)) as [Hs Hsz].
    { destruct Hst as [(Hv & _ & _ & Hs)|[HI _]].
      - rewrite Hv, Hs. unfold INITIAL_SHIFTS. simpl. lia.
      - pose proof (binv_shifts _ _ _ _ HI). pose proof (binv_room _ _ _ _ HI).
        pose proof (binv_size _ _ _ _ HI). lia. }
    unfold increase_size. rewrite u8_small by lia.
    assert (2 ^ (64 - (m_shifts t - 1)) = 2 * 2 ^ (64 - m_shifts t)) as Hdbl.
    { replace (64 - (m_shifts t - 1)) with (64 - m_shifts t + 1) by lia.
      apply pow2_double. lia. }
    destruct (rebuild_spec t (m_shifts t - 1)) as (t' & -> & Hv' & Hs' & Hlf' & Hn' & Ha');
      [done|lia|lia|by apply Inv_values_unique|].
    exists t'. do 4 (split; [done|]). lia.
  - exists t. do 3 (split; [done|]). split; [|split; [|lia]].
    + destruct Hst as [(Hv & _ & Hc & _)|Ha]; [|done].
      unfold is_full, size in Hfull. rewrite Hv, Hc in Hfull. done.
    + unfold is_full, size in Hfull. apply Z.leb_gt in Hfull.
      destruct Hst as [(Hv & _ & Hc & _)|(_ & Hc & _)]; [|lia].
      rewrite Hv, Hc in Hfull. simpl in Hfull. lia.
Qed.

Lemma set_values_id (t : table) : set_values t (m_values t) = t.
Proof. by destruct t. Qed.

Lemma Inv_key_index (t : table) (i j : nat) (k : Key) (x y : T) :
  Inv t → m_values t !! i = Some (k, x) → m_values t !! j = Some (k, y) → i = j.
Proof.
  intros HI Hi Hj. apply (Inv_values_unique t HI i j k); apply keyof_values_Some; eauto.
Qed.

(** The probe of an insertion, on a table with room for one more entry:
    a hit on the bucket of the key when the value array holds it, and
    otherwise a place where the new bucket keeps the invariant. *)
Lemma insert_probe_spec (t0 : table) (vals' : list (Key * T)) (k : Key) (x : T) :
  allocated t0 →
  (length (m_values t0) + 1 < length (m_buckets t0))%nat →
  (∀ v e, m_values t0 !! v = Some e → vals' !! v = Some e) →
  ∃ r, probe_loop (lap (m_buckets t0)) vals' (m_buckets t0) k
         (dist_and_fingerprint_from_hash (mixed_hash k))
         (bucket_from_hash t0 (mixed_hash k)) = Ok r ∧
    match r with
    | Found b => ∃ i x0, m_values t0 !! i = Some (k, x0) ∧ value_idx b = Z.of_nat i
    | Vacant daf q =>
        (∀ i x0, m_values t0 !! i ≠ Some (k, x0)) ∧
        ∃ bs', place_and_shift_up_loop (lap (m_buckets t0)) (m_buckets t0)
                 (mk_Bucket daf (Z.of_nat (length (m_values t0)))) q = Ok bs' ∧
               length bs' = length (m_buckets t0) ∧
               binv (m_shifts t0) bs' (keyof_values (m_values t0 ++ [(k, x)]))
                    (S (length (m_values t0)))
    end.
Proof.
  intros (HI & Hcap & _) Hroom Hsub. rewrite daf_at_first.
  change (bucket_from_hash t0 (mixed_hash k)) with (home (m_shifts t0) k).
  assert (∀ v k0, keyof_values (m_values t0) v = Some k0 → ∃ x0, vals' !! v = Some (k0, x0))
    as Hvals.
  { intros v k0 Hk0. apply keyof_values_Some in Hk0 as [x0 Hx0]. exists x0. by apply Hsub. }
  destruct (probe_loop_spec HI vals' Hvals k) as (r & Hrun & Hr).
  exists r. split; [done|]. destruct r as [b|daf q].
  - destruct Hr as (i & v & Hb & Hne & Hv & Hk). apply keyof_values_Some in Hk as [x0 Hx0].
    by exists v, x0.
  - destruct Hr as (d & -> & Hvac). pose proof (vacant_absent HI k d q Hvac) as Habs.
    split.
    { intros i x0 Hi. apply (Habs i). apply keyof_values_Some. by exists x0. }
    destruct Hvac as (Hd & -> & Hhere & Hpast).
    destruct (place_binv (m_shifts t0) (m_buckets t0) (keyof_values (m_values t0))
                (keyof_values (m_values t0 ++ [(k, x)]))
                (length (m_values t0)) (S (length (m_values t0))) k
                (length (m_values t0)) d
                (walk (length (m_buckets t0)) (home (m_shifts t0) k) (d - 1)) HI)
      as (bs' & Hrun' & HI'); try done; try lia.
    + unfold keyof_values. by rewrite lookup_ge_None_2.
    + unfold keyof_values. by rewrite lookup_app_r, Nat.sub_diag.
    + intros v Hv. unfold keyof_values. destruct (decide (v < length (m_values t0))%nat).
      * by rewrite lookup_app_l.
      * rewrite (lookup_ge_None_2 (m_values t0) v) by lia.
        rewrite lookup_ge_None_2; [done|]. rewrite length_app. simpl. lia.
    + intros b Hb. specialize (Hhere b Hb). lia.
    + intros j b Hj Hb. by apply (Hpast j b Hj Hb).
    + exists bs'. split; [done|]. split; [|done].
      apply Nat2Z.inj. rewrite (binv_size _ _ _ _ HI'), (binv_size _ _ _ _ HI). done.
Qed.

(** ** Lookup *)

Lemma do_find_present (t : table) (i : nat) (k : Key) (x : T) :
  Inv t → m_values t !! i = Some (k, x) → do_find t k = Ok (Z.of_nat i).
Proof.
  intros [_ [(Hv & _)|[HI _]]] Hi; [by rewrite Hv in Hi|].
  unfold do_find, empty. rewrite bool_decide_eq_false_2 by (by intros Hnil; rewrite Hnil in Hi).
  cbv zeta. rewrite daf_at_first.
  change (bucket_from_hash t (mixed_hash k)) with (home (m_shifts t) k).
  set (bs := m_buckets t) in *. set (s := m_shifts t) in *. set (vals := m_values t) in *.
  set (n := length bs). set (h := home s k).
  assert (∀ v k0, keyof_values vals v = Some k0 → ∃ x0, vals !! v = Some (k0, x0)) as Hvals.
  { intros v k0 Hk0. by apply keyof_values_Some. }
  assert (keyof_values vals i = Some k) as Hk by (apply keyof_values_Some; eauto).
  destruct (binv_present HI i k Hk) as (d & b & Hd & Hb & Hdaf & Hbv & Hpath).
  fold n h in Hd, Hb, Hpath.
  assert (∀ j b0, (j < d)%nat → bs !! walk n h j = Some b0 →
            ∃ hit, bucket_holds vals k (daf_at (S j) k) b0 = Ok hit ∧
                   (hit = true → value_idx b0 = Z.of_nat i) ∧
                   (hit = false → S j ≠ d)) as Hstep.
  { intros j b0 Hj Hb0.
    destruct (bucket_holds_spec HI vals Hvals _ b0 k (daf_at (S j) k) Hb0) as (hit & Hrun & Hhit);
      [apply daf_at_pos; lia|].
    exists hit. split; [done|]. split.
    - intros ->. apply (bucket_holds_hit HI vals Hvals _ b0 k (daf_at (S j) k) i Hb0);
        [apply daf_at_pos; lia|done..].
    - intros -> Heq. assert (false = true); [|done]. apply Hhit.
      replace (d - 1)%nat with j in Hb by lia. simplify_eq.
      split; [by rewrite Hdaf|]. by exists i. }
  destruct (Hpath 0%nat) as (b0 & Hb0 & _); [lia|]. simpl in Hb0.
  rewrite (deref_lookup _ _ _ Hb0). rsimpl.
  destruct (Hstep 0%nat b0) as (hit0 & -> & Hyes0 & Hno0); [lia|done|]. rsimpl.
  destruct hit0; [by rewrite Hyes0|]. specialize (Hno0 eq_refl).
  rewrite (daf_at_step HI) by (fold n; lia). rewrite ?next_nextn. fold n.
  change (nextn n h) with (walk n h 1).
  destruct (Hpath 1%nat) as (b1 & Hb1 & _); [lia|].
  rewrite (deref_lookup _ _ _ Hb1). rsimpl.
  destruct (Hstep 1%nat b1) as (hit1 & -> & Hyes1 & Hno1); [lia|done|]. rsimpl.
  destruct hit1; [by rewrite Hyes1|]. specialize (Hno1 eq_refl).
  rewrite (daf_at_step HI) by (fold n; lia). rewrite ?next_nextn. fold n.
  change (nextn n (walk n h 1)) with (walk n h 2).
  apply (do_find_loop_hit HI vals Hvals k i d b Hk Hd Hb Hdaf Hbv Hpath (d - 1 - 2)%nat);
    [done|lia|unfold lap; fold n; lia].
Qed.

Lemma do_find_absent (t : table) (k : Key) :
  Inv t → (∀ i x, m_values t !! i ≠ Some (k, x)) → do_find t k = Ok (end_ t).
Proof.
  intros [_ Hst] Habs. unfold do_find, empty. case_bool_decide as Hnil; [done|].
  destruct Hst as [(Hv & _)|[HI _]]; [done|].
  cbv zeta. rewrite daf_at_first.
  change (bucket_from_hash t (mixed_hash k)) with (home (m_shifts t) k).
  set (bs := m_buckets t) in *. set (s := m_shifts t) in *. set (vals := m_values t) in *.
  set (n := length bs). set (h := home s k).
  assert (h < n)%nat as Hh by apply (binv_home_lt HI).
  pose proof (binv_length_bounds HI) as Hn. fold n in Hn.
  assert (∀ v k0, keyof_values vals v = Some k0 → ∃ x0, vals !! v = Some (k0, x0)) as Hvals.
  { intros v k0 Hk0. by apply keyof_values_Some. }
  assert (∀ v, keyof_values vals v ≠ Some k) as Hno.
  { intros v Hv. apply keyof_values_Some in Hv as [x Hx]. by apply (Habs v x). }
  assert (∀ j b0, (0 < S j)%nat → bs !! walk n h j = Some b0 →
            bucket_holds vals k (daf_at (S j) k) b0 = Ok false) as Hstep.
  { intros j b0 Hj Hb0.
    destruct (bucket_holds_spec HI vals Hvals _ b0 k (daf_at (S j) k) Hb0) as (hit & Hrun & Hhit);
      [apply daf_at_pos; lia|].
    destruct hit; [|done]. destruct Hhit as [(_ & v & _ & Hk) _]; [done|]. by destruct (Hno v). }
  destruct (lookup_lt_is_Some_2 bs h) as [b0 Hb0]; [done|].
  rewrite (deref_lookup _ _ _ Hb0). rsimpl.
  rewrite (Hstep 0%nat b0) by (done || lia). rsimpl.
  rewrite (daf_at_step HI) by (fold n; lia). rewrite ?next_nextn. fold n.
  change (nextn n h) with (walk n h 1).
  destruct (lookup_lt_is_Some_2 bs (walk n h 1)) as [b1 Hb1]; [by apply walk_lt|].
  rewrite (deref_lookup _ _ _ Hb1). rsimpl.
  rewrite (Hstep 1%nat b1) by (done || lia). rsimpl.
  rewrite (daf_at_step HI) by (fold n; lia). rewrite ?next_nextn. fold n.
  change (nextn n (walk n h 1)) with (walk n h 2).
  apply (do_find_loop_miss HI vals Hvals k Hno (n - 2)%nat); [done|lia|unfold lap; fold n; lia].
Qed.

(** ** Insertion *)

Lemma u32_size_pred (n : nat) : Z.of_nat n < 2 ^ 23 → u32 (u32 (Z.of_nat (S n)) - 1) = Z.of_nat n.
Proof. intros. rewrite (u32_small (Z.of_nat (S n))) by lia. rewrite u32_small; lia. Qed.

Lemma allocated_size_bound (t : table) : allocated t → Z.of_nat (length (m_values t)) < 2 ^ 23.
Proof.
  intros [HI _]. pose proof (binv_length_bounds HI). pose proof (binv_room _ _ _ _ HI). lia.
Qed.

Lemma emplace_present (t : table) (i : nat) (k : Key) (x x0 : T) :
  Inv t → can_grow t → m_values t !! i = Some (k, x0) →
  ∃ t', emplace t (k, x) = Ok (t', (Z.of_nat i, false)) ∧
        m_values t' = m_values t ∧ Inv t' ∧
        m_shifts t - 1 ≤ m_shifts t' ≤ m_shifts t ∧
        m_max_load_factor t' = m_max_load_factor t.
Proof.
  intros HI Hgrow Hi.
  destruct (grow_if_full_spec t HI Hgrow) as (t0 & Hrun & Hv0 & Hlf0 & Ha0 & Hroom & Hsh).
  unfold emplace. rewrite Hrun. rsimpl. cbv zeta.
  unfold size. cbn [set_values m_values m_buckets].
  rewrite length_app. cbn [length].
  replace (Z.of_nat (length (m_values t0) + 1) - 1) with (Z.of_nat (length (m_values t0))) by lia.
  rewrite (at_index_lookup _ _ (k, x)) by (by rewrite lookup_app_r, Nat.sub_diag).
  rsimpl. unfold get_key. cbn [fst].
  destruct (insert_probe_spec t0 (m_values t0 ++ [(k, x)]) k x Ha0) as (r & Hprobe & Hr).
  { rewrite Hv0. lia. }
  { intros v e He. by rewrite lookup_app_l by (by eapply lookup_lt_Some). }
  change (bucket_from_hash (set_values t0 _) (mixed_hash k))
    with (bucket_from_hash t0 (mixed_hash k)).
  rewrite Hprobe. rsimpl. destruct r as [b|daf q].
  - destruct Hr as (i' & x' & Hi' & Hb). rewrite Hv0 in Hi'.
    assert (i' = i) as -> by (by eapply Inv_key_index).
    rewrite pop_back_app. rsimpl. unfold begin_. rewrite Hb.
    change (set_values (set_values t0 _) (m_values t0)) with (set_values t0 (m_values t0)).
    rewrite set_values_id. eexists. split; [done|]. split; [done|].
    split; [|by split]. split; [rewrite Hlf0; apply HI|]. by right.
  - destruct Hr as [Habs _]. rewrite Hv0 in Habs. by destruct (Habs i x0).
Qed.

Lemma emplace_absent (t : table) (k : Key) (x : T) :
  Inv t → can_grow t → (∀ i x0, m_values t !! i ≠ Some (k, x0)) →
  ∃ t', emplace t (k, x) = Ok (t', (size t, true)) ∧
        m_values t' = m_values t ++ [(k, x)] ∧ Inv t' ∧
        m_shifts t - 1 ≤ m_shifts t' ≤ m_shifts t ∧
        m_max_load_factor t' = m_max_load_factor t.
Proof.
  intros HI Hgrow Habs.
  destruct (grow_if_full_spec t HI Hgrow) as (t0 & Hrun & Hv0 & Hlf0 & Ha0 & Hroom & Hsh).
  unfold emplace. rewrite Hrun. rsimpl. cbv zeta.
  unfold size. cbn [set_values m_values m_buckets].
  pose proof (allocated_size_bound t0 Ha0) as Hsz.
  rewrite length_app. cbn [length].
  replace (Z.of_nat (length (m_values t0) + 1) - 1) with (Z.of_nat (length (m_values t0))) by lia.
  rewrite (at_index_lookup _ _ (k, x)) by (by rewrite lookup_app_r, Nat.sub_diag).
  rsimpl. unfold get_key. cbn [fst].
  destruct (insert_probe_spec t0 (m_values t0 ++ [(k, x)]) k x Ha0) as (r & Hprobe & Hr).
  { rewrite Hv0. lia. }
  { intros v e He. by rewrite lookup_app_l by (by eapply lookup_lt_Some). }
  change (bucket_from_hash (set_values t0 _) (mixed_hash k))
    with (bucket_from_hash t0 (mixed_hash k)).
  rewrite Hprobe. rsimpl. destruct r as [b|daf q].
  - destruct Hr as (i' & x' & Hi' & Hb). rewrite Hv0 in Hi'. by destruct (Habs i' x').
  - destruct Hr as (_ & bs' & Hplace & Hlen & HI').
    replace (length (m_values t0) + 1)%nat with (S (length (m_values t0))) by lia.
    rewrite u32_size_pred by done.
    unfold place_and_shift_up. cbn [m_buckets set_values]. rewrite Hplace. rsimpl.
    unfold begin_, size.
    exists (set_buckets (set_values t0 (m_values t0 ++ [(k, x)])) bs').
    split; [by rewrite Hv0|]. unfold Inv, allocated.
    cbn [set_buckets set_values m_values m_buckets m_shifts m_max_bucket_capacity
         m_max_load_factor].
    split; [by rewrite Hv0|]. split; [|by split].
    split; [rewrite Hlf0; apply HI|]. right. split; [|split].
    + rewrite length_app. cbn [length].
      by replace (length (m_values t0) + 1)%nat with (S (length (m_values t0))) by lia.
    + rewrite Hlen. apply Ha0.
    + apply Ha0.
Qed.

Lemma try_emplace_present (t : table) (i : nat) (k : Key) (x x0 : T) :
  Inv t → can_grow t → m_values t !! i = Some (k, x0) →
  ∃ t', try_emplace t k x = Ok (t', (Z.of_nat i, false)) ∧
        m_values t' = m_values t ∧ Inv t' ∧
        m_shifts t - 1 ≤ m_shifts t' ≤ m_shifts t ∧
        m_max_load_factor t' = m_max_load_factor t.
Proof.
  intros HI Hgrow Hi.
  destruct (grow_if_full_spec t HI Hgrow) as (t0 & Hrun & Hv0 & Hlf0 & Ha0 & Hroom & Hsh).
  unfold try_emplace, do_try_emplace. rewrite Hrun. rsimpl. cbv zeta.
  destruct (insert_probe_spec t0 (m_values t0) k x Ha0) as (r & Hprobe & Hr).
  { rewrite Hv0. lia. }
  { done. }
  rewrite Hprobe. rsimpl. destruct r as [b|daf q].
  - destruct Hr as (i' & x' & Hi' & Hb). rewrite Hv0 in Hi'.
    assert (i' = i) as -> by (by eapply Inv_key_index).
    unfold begin_. rewrite Hb. exists t0. split; [done|]. split; [done|].
    split; [|by split]. split; [rewrite Hlf0; apply HI|]. by right.
  - destruct Hr as [Habs _]. rewrite Hv0 in Habs. by destruct (Habs i x0).
Qed.

Lemma try_emplace_absent (t : table) (k : Key) (x : T) :
  Inv t → can_grow t → (∀ i x0, m_values t !! i ≠ Some (k, x0)) →
  ∃ t', try_emplace t k x = Ok (t', (size t, true)) ∧
        m_values t' = m_values t ++ [(k, x)] ∧ Inv t' ∧
        m_shifts t - 1 ≤ m_shifts t' ≤ m_shifts t ∧
        m_max_load_factor t' = m_max_load_factor t.
Proof.
  intros HI Hgrow Habs.
  destruct (grow_if_full_spec t HI Hgrow) as (t0 & Hrun & Hv0 & Hlf0 & Ha0 & Hroom & Hsh).
  unfold try_emplace, do_try_emplace. rewrite Hrun. rsimpl. cbv zeta.
  pose proof (allocated_size_bound t0 Ha0) as Hsz.
  destruct (insert_probe_spec t0 (m_values t0) k x Ha0) as (r & Hprobe & Hr).
  { rewrite Hv0. lia. }
  { done. }
  rewrite Hprobe. rsimpl. destruct r as [b|daf q].
  - destruct Hr as (i' & x' & Hi' & Hb). rewrite Hv0 in Hi'. by destruct (Habs i' x').
  - destruct Hr as (_ & bs' & Hplace & Hlen & HI').
    unfold size. cbn [set_values m_values]. rewrite length_app. cbn [length].
    replace (length (m_values t0) + 1)%nat with (S (length (m_values t0))) by lia.
    rewrite u32_size_pred by done.
    unfold place_and_shift_up. cbn [m_buckets set_values]. rewrite Hplace. rsimpl.
    unfold begin_.
    exists (set_buckets (set_values t0 (m_values t0 ++ [(k, x)])) bs').
    split; [by rewrite Hv0|]. unfold Inv, allocated.
    cbn [set_buckets set_values m_values m_buckets m_shifts m_max_bucket_capacity
         m_max_load_factor].
    split; [by rewrite Hv0|]. split; [|by split].
    split; [rewrite Hlf0; apply HI|]. right. split; [|split].
    + rewrite length_app. cbn [length].
      by replace (length (m_values t0) + 1)%nat with (S (length (m_values t0))) by lia.
    + rewrite Hlen. apply Ha0.
    + apply Ha0.
Qed.

(** ** Erasure *)

Lemma shift_down_loop_S (fuel : nat) (bs : list Bucket) (bucket next_bucket : nat) :
  shift_down_loop (S fuel) bs bucket next_bucket =
  (nb ← deref bs next_bucket;
   if BUCKET_DIST_INC * 2 <=? dist_and_fingerprint nb then
     let bs' :=
       <[bucket := mk_Bucket (u32 (dist_and_fingerprint nb - BUCKET_DIST_INC))
                             (value_idx nb)]> bs in
     shift_down_loop fuel bs' next_bucket (next bs next_bucket)
   else Ok (bs, bucket)).
Proof. reflexivity. Qed.

(** The backward shift over the [m1] buckets after [p] that are away from
    their homes. *)
Lemma shift_down_loop_spec (m1 : nat) :
  ∀ (fuel : nat) (bs : list Bucket) (p : nat),
  (p < length bs)%nat → (S m1 < length bs)%nat → (m1 < fuel)%nat →
  (∀ j, (1 ≤ j ≤ m1)%nat → ∃ b, bs !! walk (length bs) p j = Some b ∧
        512 ≤ dist_and_fingerprint b < 2 ^ 32) →
  (∃ b, bs !! walk (length bs) p (S m1) = Some b ∧ dist_and_fingerprint b < 512) →
  ∃ bs1, shift_down_loop fuel bs p (nextn (length bs) p)
           = Ok (bs1, walk (length bs) p m1) ∧
    length bs1 = length bs ∧
    (∀ j, (j < m1)%nat → ∃ b, bs !! walk (length bs) p (S j) = Some b ∧
       bs1 !! walk (length bs) p j =
         Some (mk_Bucket (dist_and_fingerprint b - 256) (value_idx b))) ∧
    (∀ i, (∀ j, (j < m1)%nat → i ≠ walk (length bs) p j) → bs1 !! i = bs !! i).
Proof.
  induction m1 as [|m1 IH]; intros fuel bs p Hp Hm Hfuel Hfar Hstop.
  - destruct Hstop as (b & Hb & Hlt). simpl in Hb.
    destruct fuel as [|fuel]; [lia|].
    rewrite shift_down_loop_S, (deref_lookup _ _ _ Hb). rsimpl.
    rewrite BUCKET_DIST_INC_val.
    destruct (Z.leb_spec (256 * 2) (dist_and_fingerprint b)); [lia|].
    exists bs. split; [done|]. split; [done|]. split; [intros; lia|done].
  - destruct (Hfar 1%nat) as (b1 & Hb1 & Hr1); [lia|]. simpl in Hb1.
    destruct fuel as [|fuel]; [lia|].
    rewrite shift_down_loop_S, (deref_lookup _ _ _ Hb1). rsimpl.
    rewrite BUCKET_DIST_INC_val.
    destruct (Z.leb_spec (256 * 2) (dist_and_fingerprint b1)); [|lia].
    cbv zeta. rewrite u32_small by lia. rewrite next_nextn.
    set (bs' := <[p:=_]> bs).
    assert (length bs' = length bs) as Hlen by apply length_insert.
    set (n := length bs) in *. set (p' := nextn n p).
    assert (p' < n)%nat as Hp' by (by apply nextn_lt').
    assert (∀ j, walk n p' j = walk n p (S j)) as Hw.
    { intros j. symmetry. apply walk_S_l. }
    assert (∀ j, (1 ≤ j < n)%nat → bs' !! walk n p j = bs !! walk n p j) as Hsame.
    { intros j Hj. unfold bs'. apply list_lookup_insert_ne. intros Heq. symmetry in Heq.
      revert Heq. by apply walk_ne_start. }
    destruct (IH fuel bs' p') as (bs1 & Hrun & Hlen1 & Hsh & Hrest).
    + by rewrite Hlen.
    + rewrite Hlen. lia.
    + lia.
    + rewrite Hlen. intros j Hj. rewrite Hw, Hsame by lia. apply Hfar. lia.
    + rewrite Hlen, Hw, Hsame by lia. done.
    + rewrite Hlen in Hrun, Hsh, Hrest. rewrite Hw in Hrun.
      exists bs1. split; [done|]. split; [lia|]. split.
      * intros j Hj. destruct j as [|j].
        -- exists b1. split; [done|]. simpl. rewrite Hrest.
           ++ unfold bs'. apply list_lookup_insert_eq. done.
           ++ intros j Hj'. rewrite Hw. intros Heq. symmetry in Heq.
              revert Heq. apply walk_ne_start; lia.
        -- destruct (Hsh j) as (b & Hb & Hb'); [lia|].
           rewrite !Hw in Hb. rewrite Hw in Hb'. rewrite Hsame in Hb by lia.
           exists b. done.
      * intros i Hi. rewrite Hrest.
        -- unfold bs'. apply list_lookup_insert_ne. intros ->.
           by apply (Hi 0%nat); [lia|].
        -- intros j Hj. rewrite Hw. apply Hi. lia.
Qed.

(** Taking the bucket at [p] out and closing the gap keeps the invariant
    for the remaining value positions. *)
Lemma unplace_binv (s : Z) (bs : list Bucket) (keyof keyof' : nat → option Key)
    (m m' : nat) (p : nat) (b : Bucket) (r : nat) :
  binv s bs keyof m →
  bs !! p = Some b → dist_and_fingerprint b ≠ 0 → value_idx b = Z.of_nat r →
  keyof' r = None → (∀ v, v ≠ r → keyof' v = keyof v) →
  (∀ v k, keyof' v = Some k → (v < m')%nat) → (m' < length bs)%nat →
  ∃ bs1 p1, shift_down_loop (lap bs) bs p (next bs p) = Ok (bs1, p1) ∧
    binv s (<[p1 := mk_Bucket 0 0]> bs1) keyof' m'.
Proof.
  intros HI Hb Hbne Hbv Hgone Hkeep Hlive' Hroom'.
  set (n := length bs) in *.
  assert (p < n)%nat as Hp by (by eapply lookup_lt_Some).
  pose proof (binv_has_empty HI) as (e & be & Hbe & Hbez).
  destruct (walk_reach n p e) as (je & Hje & Hwe); [done|by eapply lookup_lt_Some|].
  assert (1 ≤ je)%nat as Hje1.
  { destruct je; [|lia]. simpl in Hwe. subst e. congruence. }
  set (P := λ j, ∃ b', bs !! walk n p (S j) = Some b' ∧ dist_and_fingerprint b' < 512).
  assert (∀ j, Decision (P j)) as Hdec.
  { intros j. unfold P. destruct (bs !! walk n p (S j)) as [b'|].
    - destruct (decide (dist_and_fingerprint b' < 512)) as [Hlt|Hge].
      + left. by exists b'.
      + right. intros (b'' & [= <-] & ?). done.
    - right. by intros (b'' & [=] & ?). }
  destruct (least_witness P (je - 1)%nat) as (m1 & Hm1 & (bstop & Hbstop & Hstoplt) & Hmin).
  { exists be. replace (S (je - 1)) with je by lia. rewrite Hwe. split; [done|lia]. }
  assert (∀ j, (1 ≤ j ≤ m1)%nat → ∃ b', bs !! walk n p j = Some b' ∧
            512 ≤ dist_and_fingerprint b' < 2 ^ 32) as Hfar.
  { intros j Hj.
    destruct (lookup_lt_is_Some_2 bs (walk n p j)) as [b' Hb']; [by apply walk_lt|].
    exists b'. split; [done|]. pose proof (binv_daf_bound HI _ _ Hb').
    split; [|lia]. destruct (decide (512 ≤ dist_and_fingerprint b')) as [|Hlt]; [done|].
    exfalso. apply (Hmin (j - 1)%nat); [lia|]. exists b'.
    replace (S (j - 1)) with j by lia. split; [done|lia]. }
  destruct (shift_down_loop_spec m1 (lap bs) bs p) as (bs1 & Hrun & Hlen1 & Hsh & Hrest);
    try done.
  { fold n. lia. }
  { unfold lap. fold n. lia. }
  { by exists bstop. }
  fold n in Hrun, Hlen1, Hsh, Hrest.
  exists bs1, (walk n p m1). split; [by rewrite next_nextn|].
  set (bs2 := <[walk n p m1 := mk_Bucket 0 0]> bs1).
  assert (length bs2 = n) as Hlen2 by (unfold bs2; by rewrite length_insert).
  (* the new array, read by the offset from [p] *)
  assert (∀ j b', (j < n)%nat → bs2 !! walk n p j = Some b' →
            (∃ bo, (j < m1)%nat ∧ bs !! walk n p (S j) = Some bo ∧
                   512 ≤ dist_and_fingerprint bo ∧
                   b' = mk_Bucket (dist_and_fingerprint bo - 256) (value_idx bo)) ∨
            (j = m1 ∧ b' = mk_Bucket 0 0) ∨
            ((m1 < j)%nat ∧ bs !! walk n p j = Some b')) as Hview.
  { intros j b' Hj Hb'. destruct (decide (j = m1)) as [->|Hne].
    - right; left. split; [done|]. unfold bs2 in Hb'.
      rewrite list_lookup_insert_eq in Hb'; [congruence|]. rewrite Hlen1. by apply walk_lt.
    - unfold bs2 in Hb'. rewrite list_lookup_insert_ne in Hb'.
      2:{ intros Heq. apply walk_inj in Heq; try done; lia. }
      destruct (decide (j < m1)%nat) as [Hlt|Hge].
      + left. destruct (Hsh j Hlt) as (bo & Hbo & Hbo').
        destruct (Hfar (S j)) as (bo' & Hbo2 & Hbig); [lia|]. assert (bo' = bo) as -> by congruence.
        exists bo. repeat split; try done; try lia. congruence.
      + right; right. split; [lia|]. rewrite <- Hb'. symmetry. apply Hrest.
        intros j' Hj' Heq. apply walk_inj in Heq; try done; lia. }
  assert (∀ i b', bs2 !! i = Some b' → ∃ j, (j < n)%nat ∧ walk n p j = i) as Hoff.
  { intros i b' Hi. apply walk_reach; [done|]. rewrite <- Hlen2. by eapply lookup_lt_Some. }
  (* an occupied bucket of the new array comes from one other than [p] *)
  assert (∀ j b', (j < n)%nat → bs2 !! walk n p j = Some b' →
            dist_and_fingerprint b' ≠ 0 →
            ∃ jo bo, bs !! walk n p jo = Some bo ∧ dist_and_fingerprint bo ≠ 0 ∧
                     value_idx bo = value_idx b' ∧ (1 ≤ jo < n)%nat ∧
                     ((jo = S j ∧ (j < m1)%nat ∧
                       dist_and_fingerprint b' = dist_and_fingerprint bo - 256 ∧
                       512 ≤ dist_and_fingerprint bo) ∨
                      (jo = j ∧ (m1 < j)%nat ∧ b' = bo))) as Horigin.
  { intros j b' Hj Hb' Hnz.
    destruct (Hview j b' Hj Hb') as [(bo & Hjm & Hbo & Hbig & ->)|[[-> ->]|[Hjm Hbo]]].
    - exists (S j), bo. repeat split; try done; try lia. left. repeat split; try done.
    - done.
    - exists j, b'. repeat split; try done; try lia. right. done. }
  assert (∀ jo bo, (1 ≤ jo < n)%nat → bs !! walk n p jo = Some bo →
            dist_and_fingerprint bo ≠ 0 →
            ∃ v k d, value_idx bo = Z.of_nat v ∧ keyof v = Some k ∧ v ≠ r ∧
                     (1 ≤ d < n)%nat ∧ dist_and_fingerprint bo = daf_at d k ∧
                     walk n (home s k) (d - 1) = walk n p jo) as Hother.
  { intros jo bo Hjo Hbo Hnz.
    destruct (binv_home_strict HI _ bo Hbo Hnz) as (v & k & d & Hv & Hk & Hd & Hdaf & Hw).
    exists v, k, d. repeat split; try done; try lia.
    intros ->. assert (walk n p jo = p) as Heq.
    { apply (binv_inj _ _ _ _ HI _ _ bo b); try done. congruence. }
    revert Heq. by apply walk_ne_start. }

  split.
  - rewrite Hlen2. apply (binv_size _ _ _ _ HI).
  - apply (binv_shifts _ _ _ _ HI).
  - done.
  - by rewrite Hlen2.
  - (* home *)
    intros i b' Hi Hne. rewrite Hlen2.
    destruct (Hoff i b' Hi) as (j & Hj & <-).
    destruct (Horigin j b' Hj Hi Hne)
      as (jo & bo & Hbo & Hbone & Hbov & Hjo & [(-> & Hjm & Hless & Hbig)|(-> & Hjm & ->)]).
    + destruct (Hother (S j) bo Hjo Hbo Hbone) as (v & k & d & Hv & Hk & Hvr & Hd & Hdaf & Hw).
      assert (2 ≤ d)%nat as Hd2.
      { rewrite Hdaf in Hbig. unfold daf_at in Hbig. pose proof (fingerprint_range k). lia. }
      exists v, k, (d - 1)%nat. split; [congruence|]. split; [by rewrite Hkeep|].
      split; [lia|]. split.
      * rewrite Hless, Hdaf. replace d with (S (d - 1)) at 1 by lia. rewrite daf_at_S. lia.
      * apply (nextn_inj n); [by apply walk_lt; apply (binv_home_lt HI)|by apply walk_lt|].
        change (walk n (home s k) (S (d - 1 - 1)) = walk n p (S j)).
        rewrite <- Hw. f_equal. lia.
    + destruct (Hother j bo Hjo Hbo Hbone) as (v & k & d & Hv & Hk & Hvr & Hd & Hdaf & Hw).
      exists v, k, d. split; [done|]. split; [by rewrite Hkeep|]. split; [lia|]. done.
  - (* slot *)
    intros v k Hk. assert (v ≠ r) as Hvr by (intros ->; congruence).
    rewrite Hkeep in Hk by done.
    destruct (binv_slot _ _ _ _ HI v k Hk) as (i & bo & Hbo & Hbone & Hbov).
    destruct (walk_reach n p i) as (jo & Hjo & <-); [done|by eapply lookup_lt_Some|].
    assert (1 ≤ jo)%nat.
    { destruct jo; [|lia]. simpl in Hbo. assert (bo = b) as -> by congruence. lia. }
    destruct (decide (jo ≤ m1)%nat) as [Hle|Hgt].
    + destruct (Hsh (jo - 1)%nat) as (bo' & Hbo' & Hnew); [lia|].
      replace (S (jo - 1)) with jo in Hbo' by lia. assert (bo' = bo) as -> by congruence.
      destruct (Hfar jo) as (bo' & Hbo2 & Hbig); [lia|]. assert (bo' = bo) as -> by congruence.
      exists (walk n p (jo - 1)), (mk_Bucket (dist_and_fingerprint bo - 256) (value_idx bo)).
      split; [|simpl; split; [lia|done]].
      unfold bs2. rewrite list_lookup_insert_ne; [done|].
      intros Heq. apply walk_inj in Heq; try done; lia.
    + exists (walk n p jo), bo. split; [|done].
      destruct (decide (jo = S m1)) as [->|Hne].
      * unfold bs2. rewrite list_lookup_insert_ne.
        2:{ intros Heq. apply walk_inj in Heq; try done; lia. }
        rewrite Hrest; [done|]. intros j' Hj' Heq. apply walk_inj in Heq; try done; lia.
      * unfold bs2. rewrite list_lookup_insert_ne.
        2:{ intros Heq. apply walk_inj in Heq; try done; lia. }
        rewrite Hrest; [done|]. intros j' Hj' Heq. apply walk_inj in Heq; try done; lia.
  - (* inj *)
    intros i1 i2 b1 b2 H1 H2 Hne1 Hne2 Hveq.
    destruct (Hoff i1 b1 H1) as (j1 & Hj1 & <-).
    destruct (Hoff i2 b2 H2) as (j2 & Hj2 & <-).
    destruct (Horigin j1 b1 Hj1 H1 Hne1) as (jo1 & bo1 & Ho1 & Hone1 & Hov1 & Hjo1 & Hrel1).
    destruct (Horigin j2 b2 Hj2 H2 Hne2) as (jo2 & bo2 & Ho2 & Hone2 & Hov2 & Hjo2 & Hrel2).
    assert (walk n p jo1 = walk n p jo2) as Heq.
    { apply (binv_inj _ _ _ _ HI _ _ bo1 bo2); try done. congruence. }
    apply walk_inj in Heq; try done; try lia. f_equal. lia.
  -
    (* robin-hood order *)
    intros i b0 b' Hb0 Hb' Hge. rewrite Hlen2 in Hb'.
    destruct (Hoff i b0 Hb0) as (j & Hj & <-).
    change (nextn n (walk n p j)) with (walk n p (S j)) in Hb'.
    assert (dist_and_fingerprint b' ≠ 0) as Hnz' by lia.
    assert (∀ jo bo bo', bs !! walk n p jo = Some bo → bs !! walk n p (S jo) = Some bo' →
              512 ≤ dist_and_fingerprint bo' →
              dist_and_fingerprint bo' ≤ dist_and_fingerprint bo + 256) as Hrh.
    { intros jo bo bo' Ho Ho'. by apply (binv_rh _ _ _ _ HI (walk n p jo)). }
    destruct (decide (S j = n)) as [Hwrap|Hnowrap].
    + rewrite Hwrap, walk_lap in Hb' by done.
      destruct (Horigin 0%nat b' ltac:(lia) Hb' Hnz')
        as (jo & bo & Hbo & Hbone & Hbov & Hjo & [(-> & Hjm & Hless & Hbig)|(-> & Hjm & _)]);
        [|lia].
      pose proof (Hrh 0%nat b bo Hb Hbo Hbig) as Hstep.
      destruct (Hview j b0 Hj Hb0) as [(? & ? & _)|[[? _]|[_ Hsame]]]; [lia|lia|].
      assert (bs !! walk n p (S j) = Some b) as Hb_lap by (rewrite Hwrap, walk_lap; done).
      pose proof (Hrh j b0 b Hsame Hb_lap ltac:(lia)). lia.
    + destruct (Horigin (S j) b' ltac:(lia) Hb' Hnz')
        as (jo & bo & Hbo & Hbone & Hbov & Hjo & [(-> & Hjm & Hless & Hbig)|(-> & Hjm & ->)]).
      * destruct (Hview j b0 Hj Hb0) as [(bo0 & _ & Hbo0 & _ & ->)|[[? _]|[? _]]]; [|lia|lia].
        simpl. pose proof (Hrh (S j) bo0 bo Hbo0 Hbo Hbig). lia.
      * destruct (Hview j b0 Hj Hb0) as [(? & ? & _)|[[-> ->]|[_ Hsame]]]; [lia| |].
        -- assert (bo = bstop) as -> by congruence. lia.
        -- by apply (Hrh j).
  - (* keys *)
    intros v1 v2 k H1 H2.
    assert (v1 ≠ r) by (intros ->; congruence). assert (v2 ≠ r) by (intros ->; congruence).
    rewrite Hkeep in H1, H2 by done. by apply (binv_keys _ _ _ _ HI v1 v2 k).
Qed.

(** Re-pointing the bucket of the last value position to the position [r]
    that the last value has moved to. *)
Lemma repoint_binv (s : Z) (bs : list Bucket) (keyof keyof' : nat → option Key)
    (m m' : nat) (q : nat) (b : Bucket) (r last : nat) (k : Key) :
  binv s bs keyof m →
  bs !! q = Some b → dist_and_fingerprint b ≠ 0 → value_idx b = Z.of_nat last →
  keyof last = Some k → keyof r = None →
  keyof' r = Some k → keyof' last = None →
  (∀ v, v ≠ r → v ≠ last → keyof' v = keyof v) →
  (∀ v k', keyof' v = Some k' → (v < m')%nat) → (m' < length bs)%nat →
  binv s (<[q := mk_Bucket (dist_and_fingerprint b) (Z.of_nat r)]> bs) keyof' m'.
Proof.
  intros HI Hb Hbne Hbv Hlast Hr Hr' Hlast' Hkeep Hlive' Hroom'.
  set (c := mk_Bucket (dist_and_fingerprint b) (Z.of_nat r)).
  assert (q < length bs)%nat as Hq by (by eapply lookup_lt_Some).
  assert (length (<[q:=c]> bs) = length bs) as Hlen by apply length_insert.
  assert (r ≠ last) as Hrl by (intros ->; congruence).
  assert (∀ i b', <[q:=c]> bs !! i = Some b' →
            (i = q ∧ b' = c) ∨ (i ≠ q ∧ bs !! i = Some b')) as Hview.
  { intros i b' Hi. destruct (decide (i = q)) as [->|Hne].
    - left. rewrite list_lookup_insert_eq in Hi by done. split; [done|congruence].
    - right. by rewrite list_lookup_insert_ne in Hi. }
  assert (∀ i b', i ≠ q → bs !! i = Some b' → dist_and_fingerprint b' ≠ 0 →
            ∃ v k' d, value_idx b' = Z.of_nat v ∧ keyof v = Some k' ∧ v ≠ r ∧ v ≠ last ∧
                      (1 ≤ d ≤ length bs)%nat ∧ dist_and_fingerprint b' = daf_at d k' ∧
                      walk (length bs) (home s k') (d - 1) = i) as Hother.
  { intros i b' Hne Hb' Hnz.
    destruct (binv_home _ _ _ _ HI i b' Hb' Hnz) as (v & k' & d & Hv & Hk' & Hd & Hdaf & Hw).
    exists v, k', d. repeat split; try done; try lia.
    - intros ->. congruence.
    - intros ->. apply Hne. apply (binv_inj _ _ _ _ HI _ _ b' b); try done. congruence. }
  split.
  - rewrite Hlen. apply (binv_size _ _ _ _ HI).
  - apply (binv_shifts _ _ _ _ HI).
  - done.
  - by rewrite Hlen.
  - intros i b' Hi Hnz. rewrite Hlen. destruct (Hview i b' Hi) as [[-> ->]|[Hne Hb']].
    + destruct (binv_home _ _ _ _ HI q b Hb Hbne) as (v & k' & d & Hv & Hk' & Hd & Hdaf & Hw).
      assert (v = last) as -> by lia. assert (k' = k) as -> by congruence.
      exists r, k, d. done.
    + destruct (Hother i b' Hne Hb' Hnz) as (v & k' & d & Hv & Hk' & Hvr & Hvl & Hd & Hdaf & Hw).
      exists v, k', d. split; [done|]. split; [by rewrite Hkeep|]. done.
  - intros v k' Hk'. destruct (decide (v = r)) as [->|Hvr].
    + exists q, c. split; [by apply list_lookup_insert_eq|]. done.
    + assert (v ≠ last) as Hvl by (intros ->; congruence).
      rewrite Hkeep in Hk' by done.
      destruct (binv_slot _ _ _ _ HI v k' Hk') as (i & b' & Hb' & Hnz & Hv).
      exists i, b'. split; [|done]. rewrite list_lookup_insert_ne; [done|].
      intros ->. assert (b' = b) as -> by congruence. lia.
  - intros i j bi bj Hi Hj Hnzi Hnzj Hveq.
    destruct (Hview i bi Hi) as [[-> ->]|[Hnei Hbi]];
      destruct (Hview j bj Hj) as [[-> ->]|[Hnej Hbj]]; try done.
    + destruct (Hother j bj Hnej Hbj Hnzj) as (v & _ & _ & Hv & _ & Hvr & _).
      simpl in Hveq. lia.
    + destruct (Hother i bi Hnei Hbi Hnzi) as (v & _ & _ & Hv & _ & Hvr & _).
      simpl in Hveq. lia.
    + by apply (binv_inj _ _ _ _ HI i j bi bj).
  - intros i b0 b' Hi Hi' Hge. rewrite Hlen in Hi'.
    assert (∃ bo, bs !! i = Some bo ∧ dist_and_fingerprint bo = dist_and_fingerprint b0)
      as (bo & Hbo & <-).
    { destruct (Hview i b0 Hi) as [[-> ->]|[_ ?]]; eauto. }
    assert (∃ bo', bs !! nextn (length bs) i = Some bo' ∧
                   dist_and_fingerprint bo' = dist_and_fingerprint b')
      as (bo' & Hbo' & Heq').
    { destruct (Hview _ b' Hi') as [[-> ->]|[_ ?]]; eauto. }
    rewrite <- Heq' in *. by apply (binv_rh _ _ _ _ HI i).
  - intros v1 v2 k' H1 H2.
    destruct (decide (v1 = r)) as [->|Hn1]; destruct (decide (v2 = r)) as [->|Hn2]; try done.
    + assert (v2 ≠ last) by (intros ->; congruence). rewrite Hkeep in H2 by done.
      assert (k' = k) as -> by congruence.
      by pose proof (binv_keys _ _ _ _ HI v2 last k H2 Hlast).
    + assert (v1 ≠ last) by (intros ->; congruence). rewrite Hkeep in H1 by done.
      assert (k' = k) as -> by congruence.
      by pose proof (binv_keys _ _ _ _ HI v1 last k H1 Hlast).
    + assert (v1 ≠ last) by (intros ->; congruence).
      assert (v2 ≠ last) by (intros ->; congruence).
      rewrite Hkeep in H1, H2 by done. by apply (binv_keys _ _ _ _ HI v1 v2 k').
Qed.

(** What [do_erase] leaves in the value array: the last value moved to
    position [r] and the array one shorter. *)
Definition swap_remove {A : Type} (vals : list A) (r : nat) : list A :=
  match vals !! (length vals - 1)%nat with
  | Some back => take (length vals - 1) (<[r := back]> vals)
  | None => vals
  end.

Lemma do_erase_spec (t : table) (q r : nat) (b : Bucket) :
  allocated t →
  m_buckets t !! q = Some b → dist_and_fingerprint b ≠ 0 → value_idx b = Z.of_nat r →
  ∃ t', do_erase t q = Ok t' ∧ m_values t' = swap_remove (m_values t) r ∧
        allocated t' ∧ m_shifts t' = m_shifts t ∧
        m_max_load_factor t' = m_max_load_factor t ∧
        length (m_buckets t') = length (m_buckets t).
Proof.
  intros Halloc Hb Hnz Hv. pose proof (allocated_size_bound t Halloc) as Hsmall.
  destruct Halloc as (HI & Hcap & Hsc).
  set (V := m_values t) in *. set (bs := m_buckets t) in *. set (s := m_shifts t) in *.
  destruct (binv_home _ _ _ _ HI q b Hb Hnz) as (v & k & d & Hv' & Hk & _).
  assert (v = r) as -> by lia.
  pose proof (binv_live _ _ _ _ HI r k Hk) as Hr.
  pose proof (binv_room _ _ _ _ HI) as Hroom.
  set (lst := (length V - 1)%nat).
  destruct (lookup_lt_is_Some_2 V lst) as [back Hback]; [lia|].
  assert (pop_back V = Ok (take lst V)) as Hpop.
  { unfold pop_back. destruct V eqn:EV; [simpl in Hr; lia|done]. }
  unfold do_erase, swap_remove. fold V bs s lst. rewrite Hback.
  rewrite (deref_lookup _ _ _ Hb). rsimpl. rewrite Hv.
  unfold size. fold V. rewrite u64_small by lia.
  assert (∀ bs', binv s bs' (keyof_values (take lst (<[r:=back]> V))) lst →
            allocated (set_values (set_buckets t bs') (take lst (<[r:=back]> V))) ∧
            length bs' = length bs) as Hfin.
  { intros bs' HI'.
    assert (length bs' = length bs) as Hlen.
    { pose proof (binv_size _ _ _ _ HI'). pose proof (binv_size _ _ _ _ HI). lia. }
    split; [|done]. unfold allocated. cbn [set_values set_buckets m_values m_buckets
      m_shifts m_max_bucket_capacity m_max_load_factor]. fold s.
    rewrite length_take, length_insert. fold V bs.
    replace (lst `min` length V)%nat with lst by lia.
    split; [done|]. split; [lia|done]. }
  destruct (decide (r = lst)) as [->|Hne].
  - replace (Z.of_nat lst =? Z.of_nat (length V) - 1) with true by (symmetry; apply Z.eqb_eq; lia).
    cbn [negb].
    assert (take lst (<[lst:=back]> V) = take lst V) as Htake by (by apply take_insert_ge).
    rewrite Htake in *.
    destruct (unplace_binv s bs (keyof_values V) (keyof_values (take lst V))
                (length V) lst q b lst HI Hb Hnz Hv) as (bs1 & p1 & -> & HI1).
    + unfold keyof_values. by rewrite lookup_take_ge.
    + intros v Hvne. unfold keyof_values.
      destruct (decide (v < lst)%nat); [by rewrite lookup_take_lt|].
      rewrite lookup_take_ge by lia. by rewrite lookup_ge_None_2 by lia.
    + intros v k' Hk'. apply keyof_values_Some in Hk' as [x Hx].
      apply lookup_take_Some in Hx. lia.
    + lia.
    + rsimpl. rewrite Hpop. rsimpl. destruct (Hfin _ HI1) as [Ha Hl].
      eexists. split; [done|]. done.
  - replace (Z.of_nat r =? Z.of_nat (length V) - 1) with false
      by (symmetry; apply Z.eqb_neq; lia).
    cbn [negb].
    set (keyof1 := fun v : nat => if decide (v = r) then None else keyof_values V v).
    destruct (unplace_binv s bs (keyof_values V) keyof1 (length V) (length V) q b r
                HI Hb Hnz Hv) as (bs1 & p1 & -> & HI1).
    + unfold keyof1. by rewrite decide_True.
    + intros v Hvne. unfold keyof1. by rewrite decide_False.
    + intros v k' Hk'. unfold keyof1 in Hk'. case_decide; [done|].
      by apply (binv_live _ _ _ _ HI v k').
    + lia.
    + rsimpl. set (bs2 := <[p1 := mk_Bucket 0 0]> bs1) in *.
      destruct (lookup_lt_is_Some_2 V r) as [old Hold]; [lia|].
      rewrite (at_index_lookup _ _ _ Hold). rsimpl.
      replace (Z.of_nat (length V) - 1) with (Z.of_nat lst) by lia.
      rewrite (at_index_lookup _ _ _ Hback). rsimpl.
      rewrite u32_small by lia. rewrite Nat2Z.id.
      destruct back as [kb xb]. unfold get_key. cbn [fst].
      change (bucket_from_hash t (mixed_hash kb)) with (home s kb).
      assert (keyof1 lst = Some kb) as Hkb.
      { unfold keyof1. rewrite decide_False by lia. apply keyof_values_Some. eauto. }
      destruct (seek_value_idx_loop_spec HI1 kb lst Hkb) as (q2 & b2 & -> & Hb2 & Hnz2 & Hv2).
      rsimpl. rewrite (deref_lookup _ _ _ Hb2). rsimpl.
      assert (pop_back (<[r:=(kb, xb)]> V) = Ok (take lst (<[r:=(kb, xb)]> V))) as ->.
      { unfold pop_back. rewrite length_insert. fold lst.
        destruct (<[r:=(kb, xb)]> V) eqn:EV; [|done].
        apply (f_equal length) in EV. rewrite length_insert in EV. simpl in EV. lia. }
      rsimpl.
      assert (binv s (<[q2 := mk_Bucket (dist_and_fingerprint b2) (Z.of_nat r)]> bs2)
                (keyof_values (take lst (<[r:=(kb, xb)]> V))) lst) as HI3.
      { apply (repoint_binv s bs2 keyof1 _ (length V) lst q2 b2 r lst kb HI1 Hb2 Hnz2 Hv2 Hkb).
        - unfold keyof1. by rewrite decide_True.
        - apply keyof_values_Some. exists xb. rewrite lookup_take_lt by lia.
          apply list_lookup_insert_eq. lia.
        - unfold keyof_values. by rewrite lookup_take_ge.
        - intros v Hvr Hvl. unfold keyof1, keyof_values. rewrite decide_False by done.
          destruct (decide (v < lst)%nat).
          + rewrite lookup_take_lt by done. by rewrite list_lookup_insert_ne.
          + rewrite lookup_take_ge by lia. by rewrite lookup_ge_None_2 by lia.
        - intros v k' Hk'. apply keyof_values_Some in Hk' as [x Hx].
          apply lookup_take_Some in Hx. lia.
        - pose proof (binv_room _ _ _ _ HI1). lia. }
      destruct (Hfin _ HI3) as [Ha Hl].
      eexists. split; [done|]. done.
Qed.

Lemma swap_remove_lookup {A : Type} (vals : list A) (r j : nat) (back e : A) :
  vals !! (length vals - 1)%nat = Some back → (r < length vals)%nat →
  swap_remove vals r !! j = Some e ↔
    (j < length vals - 1)%nat ∧ (if decide (j = r) then e = back else vals !! j = Some e).
Proof.
  intros Hback Hr. unfold swap_remove. rewrite Hback, lookup_take_Some.
  case_decide as Hj.
  - subst j. split.
    + intros [He Hlt]. rewrite list_lookup_insert_eq in He by lia. split; [done|congruence].
    + intros [Hlt ->]. by rewrite list_lookup_insert_eq by lia.
  - rewrite list_lookup_insert_ne by done. tauto.
Qed.

Lemma swap_remove_length {A : Type} (vals : list A) (r : nat) :
  vals ≠ [] → length (swap_remove vals r) = (length vals - 1)%nat.
Proof.
  intros Hne. unfold swap_remove.
  destruct (lookup_lt_is_Some_2 vals (length vals - 1)) as [back ->].
  { destruct vals; [done|simpl; lia]. }
  rewrite length_take, length_insert. lia.
Qed.

(** [erase(key)] on a key that the table holds. *)
Lemma erase_key_present (t : table) (i : nat) (k : Key) (x : T) :
  Inv t → m_values t !! i = Some (k, x) →
  ∃ t', erase_key t k = Ok (t', 1) ∧ m_values t' = swap_remove (m_values t) i ∧
        Inv t' ∧ m_shifts t' = m_shifts t ∧ length (m_buckets t') = length (m_buckets t) ∧
        m_max_load_factor t' = m_max_load_factor t.
Proof.
  intros [Hlf [(Hv & _)|Ha]] Hi; [by rewrite Hv in Hi|].
  pose proof Ha as (HI & _).
  unfold erase_key, do_erase_key.
  destruct (next_while_less_spec t _ _ k HI) as (d0 & q0 & -> & Hstop). rsimpl.
  destruct Hstop as (Hd0 & -> & Hle0 & Hgt0).
  set (bs := m_buckets t) in *. set (s := m_shifts t) in *. set (vals := m_values t) in *.
  set (n := length bs) in *. set (h := home s k) in *.
  assert (∀ v k0, keyof_values vals v = Some k0 → ∃ x0, vals !! v = Some (k0, x0)) as Hvals.
  { intros v k0 Hk0. by apply keyof_values_Some. }
  assert (keyof_values vals i = Some k) as Hk by (apply keyof_values_Some; eauto).
  destruct (binv_present HI i k Hk) as (d & b & Hd & Hb & Hdaf & Hbv & Hpath).
  fold n h in Hd, Hb, Hpath.
  assert (d0 ≤ d)%nat as Hdd.
  { destruct (decide (d0 ≤ d)%nat); [done|]. exfalso.
    assert (S (d - 1) < d0)%nat as Hlt by lia.
    specialize (Hgt0 (d - 1)%nat b Hlt Hb). replace (S (d - 1)) with d in Hgt0 by lia. lia. }
  pose proof (do_erase_key_loop_live HI vals Hvals k i d b Hk Hd Hb Hdaf Hbv Hpath
                _ (d0 - 1)%nat (lap bs) eq_refl) as Hrun.
  fold n h in Hrun. replace (S (d0 - 1)) with d0 in Hrun by lia.
  rewrite Hrun; [|lia|unfold lap; fold n; lia|done]. rsimpl.
  rewrite (deref_lookup _ _ _ Hb). rsimpl. rewrite Hdaf, Z.eqb_refl. cbn [negb].
  destruct (do_erase_spec t _ i b Ha Hb) as (t' & -> & Hv' & Ha' & Hs' & Hlf' & Hlen');
    [rewrite Hdaf; apply daf_at_pos; lia|done|].
  rsimpl. exists t'. split; [done|]. split; [done|]. split; [|done].
  split; [by rewrite Hlf'|by right].
Qed.

(** [erase(key)] on a key that an allocated table does not hold. *)
Lemma erase_key_absent (t : table) (k : Key) :
  allocated t → (∀ i x, m_values t !! i ≠ Some (k, x)) → erase_key t k = Ok (t, 0).
Proof.
  intros (HI & _) Hno.
  unfold erase_key, do_erase_key.
  destruct (next_while_less_spec t _ _ k HI) as (d0 & q0 & -> & Hstop). rsimpl.
  destruct Hstop as (Hd0 & -> & Hle0 & Hgt0).
  set (bs := m_buckets t) in *. set (s := m_shifts t) in *. set (vals := m_values t) in *.
  set (n := length bs) in *. set (h := home s k) in *.
  assert (∀ v k0, keyof_values vals v = Some k0 → ∃ x0, vals !! v = Some (k0, x0)) as Hvals.
  { intros v k0 Hk0. by apply keyof_values_Some. }
  assert (∀ v, keyof_values vals v ≠ Some k) as Hnokey.
  { intros v Hk. apply keyof_values_Some in Hk as [x Hx]. by apply (Hno v x). }
  destruct (do_erase_key_loop_absent HI vals Hvals k Hnokey _ (d0 - 1)%nat (lap bs) eq_refl)
    as (daf & q & b & Hrun & Hb & Hne); [fold n; lia|unfold lap; fold n; lia|].
  fold n h in Hrun. replace (S (d0 - 1)) with d0 in Hrun by lia.
  rewrite Hrun. rsimpl. rewrite (deref_lookup _ _ _ Hb). rsimpl.
  by replace (daf =? dist_and_fingerprint b) with false by (symmetry; by apply Z.eqb_neq).
Qed.

(** On a table whose metadata were never allocated [do_erase_key] reads
    through the null bucket pointer. *)
Lemma erase_key_unallocated (t : table) (k : Key) :
  m_buckets t = [] → erase_key t k = Undefined.
Proof.
  intros Hb. unfold erase_key, do_erase_key, next_while_less. rewrite Hb. reflexivity.
Qed.

(** ** Sequences of insertions

    [growable t n]: [n] more entries fit before the metadata array would
    need more than [2 ^ 23] buckets, the size up to which every distance
    fits its 24 bits. *)
Definition growable (t : table) (n : Z) : Prop :=
  ∃ c, scaled_capacity (m_max_load_factor t) 41 = Ok c ∧ size t + n ≤ c.

Lemma growable_can_grow (t : table) (n : Z) : Inv t → growable t n → 1 ≤ n → can_grow t.
Proof.
  intros [_ [(_ & _ & _ & Hs)|(HI & Hcap & Hsc)]] (c & Hc & Hle) Hn Hfull.
  - rewrite Hs. unfold INITIAL_SHIFTS. lia.
  - pose proof (binv_shifts _ _ _ _ HI) as Hs.
    destruct (decide (m_shifts t = 41)) as [Heq|]; [|lia].
    rewrite Heq in Hsc. assert (c = m_max_bucket_capacity t) as -> by congruence.
    unfold is_full in Hfull. apply Z.leb_le in Hfull. lia.
Qed.

Lemma growable_step (t t' : table) (n : Z) :
  growable t n → m_max_load_factor t' = m_max_load_factor t → size t' ≤ size t + 1 →
  growable t' (n - 1).
Proof.
  intros (c & Hc & Hle) Hlf Hsz. exists c. rewrite Hlf. split; [done|lia].
Qed.

Lemma find_appended (t : table) (vals : list (Key * T)) (k : Key) (x : T) :
  Inv t → m_values t = vals ++ [(k, x)] →
  find t k = Ok (Z.of_nat (length vals)) ∧
  at_index (m_values t) (Z.of_nat (length vals)) = Ok (k, x).
Proof.
  intros HI Hv.
  assert (m_values t !! length vals = Some (k, x)) as Hi.
  { rewrite Hv. by rewrite lookup_app_r, Nat.sub_diag. }
  split; [by apply (do_find_present t _ k x)|by apply at_index_lookup].
Qed.

(** C1, amended: [try_emplace] probes before it constructs.  On a key that
    the table holds it returns the iterator to the entry and [false] and
    leaves the value array as it was; on a key that the table does not
    hold, [try_emplace(k, v1)] followed by [try_emplace(k, v2)] leaves [k]
    mapped to [v1]: the second call returns the iterator of the first with
    [false], and [find(k)] yields the entry [(k, v1)]. *)
Theorem try_emplace_keeps_first (t : table) (k : Key) (v1 v2 : T) :
  Inv t → growable t 2 →
  (∀ i x0, m_values t !! i = Some (k, x0) →
     ∃ t', try_emplace t k v1 = Ok (t', (Z.of_nat i, false)) ∧
           m_values t' = m_values t ∧ Inv t') ∧
  ((∀ i x0, m_values t !! i ≠ Some (k, x0)) →
     ∃ t1 t2 it, try_emplace t k v1 = Ok (t1, (it, true)) ∧
                 try_emplace t1 k v2 = Ok (t2, (it, false)) ∧
                 m_values t1 = m_values t ++ [(k, v1)] ∧
                 m_values t2 = m_values t1 ∧
                 find t2 k = Ok it ∧ at_index (m_values t2) it = Ok (k, v1)).
Proof.
  intros HI Hfit. pose proof (growable_can_grow t 2 HI Hfit ltac:(lia)) as Hgrow. split.
  - intros i x0 Hi.
    destruct (try_emplace_present t i k v1 x0 HI Hgrow Hi) as (t' & Hrun & Hv & HI' & _).
    by exists t'.
  - intros Habs.
    destruct (try_emplace_absent t k v1 HI Hgrow Habs) as (t1 & Hrun1 & Hv1 & HI1 & _ & Hlf1).
    assert (m_values t1 !! length (m_values t) = Some (k, v1)) as Hi.
    { rewrite Hv1. by rewrite lookup_app_r, Nat.sub_diag. }
    assert (can_grow t1) as Hgrow1.
    { apply (growable_can_grow t1 1 HI1); [|lia].
      apply (growable_step t t1 2 Hfit Hlf1). unfold size. rewrite Hv1, length_app.
      simpl. lia. }
    destruct (try_emplace_present t1 _ k v2 v1 HI1 Hgrow1 Hi)
      as (t2 & Hrun2 & Hv2 & HI2 & _).
    exists t1, t2, (size t). split; [done|]. split; [done|]. split; [done|].
    split; [done|]. apply (find_appended t2 (m_values t) k v1 HI2). by rewrite Hv2.
Qed.

(** C2: [emplace], and [insert] which hands on to it, appends the entry to
    the value array before probing.  If the probe meets an entry whose key
    equals [k] the appended entry is popped again, the result is the
    iterator to that entry and [false], and the value array is as before;
    otherwise the entry stays at the back, its bucket is placed in the
    metadata, so that [find] reaches it, and the result is the iterator to
    the new entry and [true]. *)
Theorem emplace_spec (t : table) (k : Key) (x : T) :
  Inv t → can_grow t →
  insert t (k, x) = emplace t (k, x) ∧
  (∀ i x0, m_values t !! i = Some (k, x0) →
     ∃ t', emplace t (k, x) = Ok (t', (Z.of_nat i, false)) ∧
           m_values t' = m_values t ∧ Inv t' ∧ find t' k = Ok (Z.of_nat i)) ∧
  ((∀ i x0, m_values t !! i ≠ Some (k, x0)) →
     ∃ t', emplace t (k, x) = Ok (t', (end_ t, true)) ∧
           m_values t' = m_values t ++ [(k, x)] ∧ Inv t' ∧
           find t' k = Ok (end_ t) ∧ at_index (m_values t') (end_ t) = Ok (k, x)).
Proof.
  intros HI Hgrow. split; [done|]. split.
  - intros i x0 Hi.
    destruct (emplace_present t i k x x0 HI Hgrow Hi) as (t' & Hrun & Hv & HI' & _).
    exists t'. split; [done|]. split; [done|]. split; [done|].
    apply (do_find_present t' i k x0 HI'). by rewrite Hv.
  - intros Habs.
    destruct (emplace_absent t k x HI Hgrow Habs) as (t' & Hrun & Hv & HI' & _).
    exists t'. split; [done|]. split; [done|]. split; [done|].
    by apply (find_appended t' (m_values t) k x HI').
Qed.

Lemma swap_remove_absent (t : table) (i : nat) (k : Key) (x : T) :
  Inv t → m_values t !! i = Some (k, x) →
  ∀ j y, swap_remove (m_values t) i !! j ≠ Some (k, y).
Proof.
  intros HI Hi j y Hj.
  pose proof (lookup_lt_Some _ _ _ Hi) as Hlt.
  destruct (lookup_lt_is_Some_2 (m_values t) (length (m_values t) - 1)) as [back Hback];
    [lia|].
  apply (swap_remove_lookup _ i j back (k, y) Hback Hlt) in Hj as [Hjlt Hj].
  case_decide as Hji.
  - subst j back.
    pose proof (Inv_key_index t i _ k x y HI Hi Hback). lia.
  - by pose proof (Inv_key_index t i j k x y HI Hi Hj).
Qed.

Lemma swap_remove_others (t : table) (i j : nat) (e : Key * T) :
  (i < length (m_values t))%nat → m_values t !! j = Some e → j ≠ i →
  ∃ j', swap_remove (m_values t) i !! j' = Some e.
Proof.
  intros Hi Hj Hne. pose proof (lookup_lt_Some _ _ _ Hj) as Hlt.
  destruct (lookup_lt_is_Some_2 (m_values t) (length (m_values t) - 1)) as [back Hback];
    [lia|].
  destruct (decide (j = length (m_values t) - 1)%nat) as [->|Hnl].
  - exists i. apply (swap_remove_lookup _ i i back e Hback Hi).
    rewrite decide_True by done. split; [lia|congruence].
  - exists j. apply (swap_remove_lookup _ i j back e Hback Hi).
    rewrite decide_False by done. split; [lia|done].
Qed.

(** C3, amended: [erase(key)] returns 1 when the table holds the key, and
    afterwards [find] yields the end sentinel for it while every other
    entry is still in the value array; on a table whose metadata array is
    allocated it returns 0 and changes nothing when the key is not there.
    After [insert(k, v)] of a key that the table did not hold, [find(k)]
    yields the entry [(k, v)]. *)
Theorem erase_key_spec (t : table) (k : Key) (v : T) :
  Inv t →
  (∀ i x, m_values t !! i = Some (k, x) →
     ∃ t', erase_key t k = Ok (t', 1) ∧ Inv t' ∧ size t' = size t - 1 ∧
           find t' k = Ok (end_ t') ∧
           ∀ j e, m_values t !! j = Some e → j ≠ i → ∃ j', m_values t' !! j' = Some e) ∧
  (m_buckets t ≠ [] → (∀ i x, m_values t !! i ≠ Some (k, x)) →
     erase_key t k = Ok (t, 0) ∧ find t k = Ok (end_ t)) ∧
  (can_grow t → (∀ i x, m_values t !! i ≠ Some (k, x)) →
     ∃ t' it, insert t (k, v) = Ok (t', (it, true)) ∧ Inv t' ∧
              find t' k = Ok it ∧ at_index (m_values t') it = Ok (k, v)).
Proof.
  intros HI. split; [|split].
  - intros i x Hi.
    destruct (erase_key_present t i k x HI Hi) as (t' & Hrun & Hv & HI' & _).
    exists t'. split; [done|]. split; [done|].
    assert (m_values t ≠ []) as Hne by (by intros Hnil; rewrite Hnil in Hi).
    split; [|split].
    + unfold size. rewrite Hv, swap_remove_length by done. destruct (m_values t); [done|].
      simpl length. lia.
    + apply (do_find_absent t' k HI'). rewrite Hv. by apply (swap_remove_absent t i k x).
    + intros j e Hj Hji. rewrite Hv. apply (swap_remove_others t i j e); [|done..].
      by eapply lookup_lt_Some.
  - intros Hbs Habs.
    assert (allocated t) as Ha.
    { destruct HI as [_ [(_ & Hnil & _)|Ha]]; [done|done]. }
    split; [by apply erase_key_absent|by apply do_find_absent].
  - intros Hgrow Habs.
    destruct (emplace_absent t k v HI Hgrow Habs) as (t' & Hrun & Hv & HI' & _).
    exists t', (size t). split; [done|]. split; [done|].
    by apply (find_appended t' (m_values t) k v HI').
Qed.

(** ** Comparison *)

Variable mapped_eq : T → T → bool.

Local Abbreviation equal_entries := (equal_entries m_hash is_avalanching m_equal mapped_eq).
Local Abbreviation table_eq := (table_eq m_hash is_avalanching m_equal mapped_eq).

(** [b_entry] is found by key in [a], with an equal mapped value. *)
Definition found_in (a : table) (b_entry : Key * T) : Prop :=
  ∃ i x, m_values a !! i = Some (b_entry.1, x) ∧ mapped_eq b_entry.2 x = true.

Lemma key_present_or_absent (vals : list (Key * T)) (k : Key) :
  (∃ i x, vals !! i = Some (k, x)) ∨ (∀ i x, vals !! i ≠ Some (k, x)).
Proof.
  induction vals as [|[k0 x0] vals IH].
  - right. intros i x. by rewrite lookup_nil.
  - destruct (m_equal k k0) eqn:Heq.
    + apply m_equal_spec in Heq as <-. left. by exists 0%nat, x0.
    + destruct IH as [(i & x & Hi)|Habs].
      * left. by exists (S i), x.
      * right. intros [|i] x; simpl.
        -- intros Hx. assert (k = k0) as Hk by congruence.
           apply m_equal_spec in Hk. congruence.
        -- apply Habs.
Qed.

Lemma equal_entries_spec (a : table) (l : list (Key * T)) :
  Inv a →
  ∃ r, equal_entries a l = Ok r ∧ (r = true ↔ ∀ e, e ∈ l → found_in a e).
Proof.
  intros HI. induction l as [|[k y] l IH].
  - exists true. split; [done|]. split; [|done]. intros _ e He. by apply elem_of_nil in He.
  - cbn [equal_entries]. unfold get_key. cbn [fst snd].
    destruct (key_present_or_absent (m_values a) k) as [(i & x & Hi)|Habs].
    + unfold find. rewrite (do_find_present a i k x HI Hi). rsimpl.
      pose proof (lookup_lt_Some _ _ _ Hi) as Hlt.
      replace (end_ a =? Z.of_nat i) with false
        by (symmetry; apply Z.eqb_neq; unfold end_; lia).
      rewrite (at_index_lookup _ _ _ Hi). rsimpl. cbn [snd].
      destruct (mapped_eq y x) eqn:Heq; cbn [negb].
      * destruct IH as (r & Hrun & Hr). exists r. split; [done|]. rewrite Hr. split.
        -- intros Hall e He. apply elem_of_cons in He as [->|He]; [|by apply Hall].
           by exists i, x.
        -- intros Hall e He. apply Hall. by apply elem_of_cons; right.
      * exists false. split; [done|]. split; [done|]. intros Hall.
        destruct (Hall (k, y)) as (j & x' & Hj & Hx'); [by apply elem_of_cons; left|].
        cbn [fst snd] in *. assert (j = i) as -> by (by eapply Inv_key_index).
        congruence.
    + unfold find. rewrite (do_find_absent a k HI Habs). rsimpl.
      rewrite Z.eqb_refl. exists false. split; [done|]. split; [done|]. intros Hall.
      destruct (Hall (k, y)) as (j & x' & Hj & _); [by apply elem_of_cons; left|].
      by destruct (Habs j x').
Qed.

Lemma insert_range_spec (l : list (Key * T)) :
  ∀ t, Inv t → growable t (Z.of_nat (length l)) → NoDup (l.*1) →
       (∀ e i x, e ∈ l → m_values t !! i ≠ Some (e.1, x)) →
       ∃ t', insert_range t l = Ok t' ∧ m_values t' = m_values t ++ l ∧ Inv t' ∧
             m_max_load_factor t' = m_max_load_factor t.
Proof.
  induction l as [|[k x] l IH]; intros t HI Hfit Hnodup Hnew.
  - exists t. by rewrite app_nil_r.
  - assert (can_grow t) as Hgrow.
    { apply (growable_can_grow t _ HI Hfit). simpl length. lia. }
    destruct (emplace_absent t k x HI Hgrow) as (t1 & Hrun & Hv1 & HI1 & _ & Hlf1).
    { intros i x0. apply (Hnew (k, x)). by apply elem_of_cons; left. }
    cbn [insert_range]. unfold insert. rewrite Hrun. rsimpl.
    rewrite fmap_cons in Hnodup. apply list.NoDup_cons in Hnodup as [Hk Hnodup].
    destruct (IH t1 HI1) as (t' & Hrun' & Hv' & HI' & Hlf'); [|done| |].
    + destruct Hfit as (c & Hc & Hle). exists c. rewrite Hlf1. split; [done|].
      unfold size in *. rewrite Hv1, length_app. simpl length in *. lia.
    + intros e i x0 He Hi. rewrite Hv1 in Hi.
      destruct (decide (i < length (m_values t))%nat) as [Hlt|Hge].
      * rewrite lookup_app_l in Hi by done.
        apply (Hnew e i x0); [by apply elem_of_cons; right|done].
      * rewrite lookup_app_r in Hi by lia.
        destruct (i - length (m_values t))%nat; [|done]. simpl in Hi.
        apply Hk. cbn [fst]. assert (k = e.1) as -> by congruence.
        by apply list_elem_of_fmap_2.
    + exists t'. split; [done|]. split; [|split; [done|congruence]].
      rewrite Hv', Hv1. by rewrite <- app_assoc.
Qed.

Lemma Inv_table_ctor (c : Z) : Inv (table_ctor c).
Proof. split; [by vm_compute|]. by left. Qed.

Lemma growable_table_ctor (c n : Z) : n ≤ 6710886 → growable (table_ctor c) n.
Proof. intros Hn. exists 6710886. split; [reflexivity|].
  change (size (table_ctor c)) with 0. lia.
Qed.

(** C6: [a == b] holds exactly when the two tables have the same size and
    every entry of [b] is found by its key in [a] with an equal mapped
    value; a table compared with itself is equal.  Two tables that were
    filled from the same entries, inserted in different orders, are
    equal. *)
Theorem table_eq_spec :
  (∀ (same_object : bool) (a b : table),
     Inv a → (same_object = true → a = b ∧ ∀ y, mapped_eq y y = true) →
     ∃ r, table_eq same_object a b = Ok r ∧
          (r = true ↔ size a = size b ∧ ∀ e, e ∈ m_values b → found_in a e)) ∧
  (∀ (l1 l2 : list (Key * T)) (c1 c2 : Z),
     (∀ y, mapped_eq y y = true) → NoDup (l1.*1) → l1 ≡ₚ l2 →
     Z.of_nat (length l1) ≤ 6710886 →
     ∃ a b, insert_range (table_ctor c1) l1 = Ok a ∧
            insert_range (table_ctor c2) l2 = Ok b ∧
            table_eq false a b = Ok true ∧ table_eq false b a = Ok true).
Proof.
  assert (∀ (same_object : bool) (a b : table),
     Inv a → (same_object = true → a = b ∧ ∀ y, mapped_eq y y = true) →
     ∃ r, table_eq same_object a b = Ok r ∧
          (r = true ↔ size a = size b ∧ ∀ e, e ∈ m_values b → found_in a e)) as Hspec.
  { intros same_object a b HI Hsame. unfold table_eq. destruct same_object.
    - destruct Hsame as [<- Hrefl]; [done|]. exists true. split; [done|]. split; [|done].
      intros _. split; [done|]. intros [k y] He.
      apply list_elem_of_lookup in He as [i Hi]. by exists i, y.
    - destruct (Z.eqb_spec (size a) (size b)) as [Hsz|Hsz]; cbn [negb].
      + destruct (equal_entries_spec a (m_values b) HI) as (r & Hrun & Hr).
        exists r. split; [done|]. rewrite Hr. tauto.
      + exists false. split; [done|]. split; [done|]. by intros [? _]. }
  split; [done|].
  intros l1 l2 c1 c2 Hrefl Hnodup Hperm Hlen.
  assert (∀ (l : list (Key * T)) c, NoDup (l.*1) → Z.of_nat (length l) ≤ 6710886 →
            ∃ a, insert_range (table_ctor c) l = Ok a ∧ m_values a = l ∧ Inv a) as Hbuild.
  { intros l c Hnd Hl.
    destruct (insert_range_spec l (table_ctor c) (Inv_table_ctor c)
                (growable_table_ctor c _ Hl) Hnd) as (a & Hrun & Hv & HI & _).
    - intros e i x _. simpl. by rewrite lookup_nil.
    - by exists a. }
  assert (∀ a b : table, Inv a → m_values a ≡ₚ m_values b → table_eq false a b = Ok true)
    as Heq.
  { intros a b HI Hp.
    destruct (Hspec false a b HI) as (r & Hrun & Hr); [done|].
    rewrite Hrun. f_equal. apply Hr. split.
    - unfold size. by rewrite Hp.
    - intros [k y] He. rewrite <- Hp in He.
      apply list_elem_of_lookup in He as [i Hi]. by exists i, y. }
  destruct (Hbuild l1 c1 Hnodup Hlen) as (a & Hruna & Hva & HIa).
  destruct (Hbuild l2 c2) as (b & Hrunb & Hvb & HIb).
  { by rewrite <- Hperm. }
  { by rewrite <- Hperm. }
  exists a, b. split; [done|]. split; [done|].
  split; apply Heq; try done; by rewrite Hva, Hvb.
Qed.

(** ** No insertion path raises an exception *)

Definition no_throw {A : Type} (m : result A) : Prop := ∀ e, m ≠ Throw e.

Lemma no_throw_Ok {A : Type} (a : A) : no_throw (Ok a).
Proof. by intros e. Qed.

Lemma no_throw_Undefined {A : Type} : no_throw (@Undefined A).
Proof. by intros e. Qed.

Lemma no_throw_bind {A B : Type} (m : result A) (f : A → result B) :
  no_throw m → (∀ a, no_throw (f a)) → no_throw (m ≫= f).
Proof. intros Hm Hf e. apply bind_not_Throw; [done|]. intros a e'. apply Hf. Qed.

Lemma no_throw_deref {A : Type} (l : list A) (i : nat) : no_throw (deref l i).
Proof. intros e. apply deref_not_Throw. Qed.

Lemma no_throw_at_index {A : Type} (l : list A) (i : Z) : no_throw (at_index l i).
Proof. intros e. apply at_index_not_Throw. Qed.

Lemma no_throw_pop_back {A : Type} (l : list A) : no_throw (pop_back l).
Proof. intros e. apply pop_back_not_Throw. Qed.

Lemma no_throw_float_to_uint64 (x : dyadic) : no_throw (float_to_uint64 x).
Proof. intros e. unfold float_to_uint64. by case_match. Qed.

Create HintDb no_throw.
#[local] Hint Resolve no_throw_deref no_throw_at_index no_throw_pop_back
  no_throw_float_to_uint64 : no_throw.

Ltac no_throw_step :=
  match goal with
  | |- no_throw (Ok _) => apply no_throw_Ok
  | |- no_throw Undefined => apply no_throw_Undefined
  | |- no_throw (_ ≫= _) => apply no_throw_bind; [|intros ?]
  | |- no_throw (if ?c then _ else _) => destruct c
  | |- no_throw (match ?x with _ => _ end) => destruct x
  | |- _ => by auto with no_throw
  end.

Ltac no_throw_loop fuel :=
  induction fuel as [|fuel IH]; intros; simpl; repeat no_throw_step.

Lemma no_throw_next_while_less_loop (fuel : nat) :
  ∀ bs daf bucket, no_throw (next_while_less_loop fuel bs daf bucket).
Proof. no_throw_loop fuel. Qed.

Lemma no_throw_place_and_shift_up_loop (fuel : nat) :
  ∀ bs b place, no_throw (place_and_shift_up_loop fuel bs b place).
Proof. no_throw_loop fuel. Qed.

Lemma no_throw_bucket_holds (vals : list (Key * T)) (key : Key) (daf : Z) (b : Bucket) :
  no_throw (bucket_holds vals key daf b).
Proof. unfold bucket_holds. repeat no_throw_step. Qed.

#[local] Hint Resolve no_throw_bucket_holds : no_throw.

Lemma no_throw_probe_loop (fuel : nat) :
  ∀ (vals : list (Key * T)) bs key daf bucket, no_throw (probe_loop fuel vals bs key daf bucket).
Proof. no_throw_loop fuel. Qed.

#[local] Hint Resolve no_throw_next_while_less_loop no_throw_place_and_shift_up_loop
  no_throw_probe_loop : no_throw.

Lemma no_throw_place_and_shift_up (t : table) (b : Bucket) (place : nat) :
  no_throw (place_and_shift_up t b place).
Proof. unfold place_and_shift_up. repeat no_throw_step. Qed.

Lemma no_throw_next_while_less (t : table) (k : Key) : no_throw (next_while_less t k).
Proof. unfold next_while_less. repeat no_throw_step. Qed.

#[local] Hint Resolve no_throw_place_and_shift_up no_throw_next_while_less : no_throw.

Lemma no_throw_fill_buckets_loop (todo : nat) :
  ∀ value_idx (t : table), no_throw (fill_buckets_loop todo value_idx t).
Proof. no_throw_loop todo. Qed.

#[local] Hint Resolve no_throw_fill_buckets_loop : no_throw.

Lemma no_throw_increase_size (t : table) : no_throw (increase_size t).
Proof.
  unfold increase_size, allocate_and_clear_buckets, fill_buckets_from_values.
  repeat no_throw_step.
Qed.

#[local] Hint Resolve no_throw_increase_size : no_throw.

Lemma no_throw_emplace (t : table) (v : Key * T) : no_throw (emplace t v).
Proof. unfold emplace. repeat no_throw_step. Qed.

Lemma no_throw_try_emplace (t : table) (k : Key) (x : T) : no_throw (try_emplace t k x).
Proof. unfold try_emplace, do_try_emplace. repeat no_throw_step. Qed.

Lemma no_throw_insert_or_assign (t : table) (k : Key) (x : T) :
  no_throw (insert_or_assign t k x).
Proof.
  unfold insert_or_assign, do_insert_or_assign.
  apply no_throw_bind; [apply no_throw_try_emplace|].
  intros [t1 [it inserted]]. repeat no_throw_step.
Qed.

(** ** The size of the metadata array in reachable states *)

(** No metadata yet and the initial shift, or as many buckets as the shift
    says. *)
Definition sized (t : table) : Prop :=
  (m_buckets t = [] ∧ m_shifts t = INITIAL_SHIFTS) ∨
  (1 ≤ m_shifts t ≤ 61 ∧ bucket_count t = 2 ^ (64 - m_shifts t)).

Definition same_shape (t t' : table) : Prop :=
  m_shifts t' = m_shifts t ∧ length (m_buckets t') = length (m_buckets t).

Lemma same_shape_sized (t t' : table) : sized t → same_shape t t' → sized t'.
Proof.
  intros [[Hb Hs]|[Hs Hc]] [Hs' Hl].
  - left. split; [|congruence]. apply nil_length_inv. by rewrite Hl, Hb.
  - right. unfold bucket_count in *. by rewrite Hs', Hl.
Qed.

Lemma same_shape_refl (t : table) : same_shape t t.
Proof. done. Qed.

Lemma same_shape_trans (t1 t2 t3 : table) :
  same_shape t1 t2 → same_shape t2 t3 → same_shape t1 t3.
Proof. intros [? ?] [? ?]. split; congruence. Qed.

Lemma place_and_shift_up_loop_length (fuel : nat) :
  ∀ bs b p bs', place_and_shift_up_loop fuel bs b p = Ok bs' → length bs' = length bs.
Proof.
  induction fuel as [|fuel IH]; intros bs b p bs' H; [done|].
  cbn [place_and_shift_up_loop] in H. apply bind_Ok in H as (p0 & _ & H).
  destruct (negb _).
  - apply IH in H. by rewrite H, length_insert.
  - injection H as <-. apply length_insert.
Qed.

Lemma shift_down_loop_length (fuel : nat) :
  ∀ bs b nb bs' p', shift_down_loop fuel bs b nb = Ok (bs', p') → length bs' = length bs.
Proof.
  induction fuel as [|fuel IH]; intros bs b nb bs' p' H; [done|].
  cbn [shift_down_loop] in H. apply bind_Ok in H as (b0 & _ & H).
  destruct (_ <=? _).
  - apply IH in H. by rewrite H, length_insert.
  - by injection H as <- <-.
Qed.

Lemma place_and_shift_up_shape (t t' : table) (b : Bucket) (p : nat) :
  place_and_shift_up t b p = Ok t' → same_shape t t'.
Proof.
  unfold place_and_shift_up. intros H. apply bind_Ok in H as (bs & Hbs & H).
  injection H as <-. apply place_and_shift_up_loop_length in Hbs. by split.
Qed.

Lemma fill_buckets_loop_shape (todo : nat) :
  ∀ idx (t t' : table), fill_buckets_loop todo idx t = Ok t' → same_shape t t'.
Proof.
  induction todo as [|todo IH]; intros idx t t' H.
  - injection H as <-. apply same_shape_refl.
  - cbn [fill_buckets_loop] in H.
    apply bind_Ok in H as (vt & _ & H). apply bind_Ok in H as ([daf q] & _ & H).
    apply bind_Ok in H as (t1 & Hplace & H).
    apply place_and_shift_up_shape in Hplace. apply IH in H.
    by apply (same_shape_trans t t1 t').
Qed.

Lemma allocate_and_clear_buckets_sized (t t' : table) :
  0 ≤ m_shifts t ≤ 61 → allocate_and_clear_buckets t = Ok t' → sized t'.
Proof.
  intros Hs H. unfold allocate_and_clear_buckets in H.
  rewrite u32_small in H by lia.
  destruct (Z.ltb_spec (64 - m_shifts t) 64) as [Hlt|]; [|done].
  apply bind_Ok in H as (c & _ & H). injection H as <-. right.
  unfold bucket_count. cbn [m_shifts m_buckets]. split; [lia|].
  rewrite length_replicate, Z.shiftl_1_l.
  assert (0 < 2 ^ (64 - m_shifts t) < 2 ^ 64) as Hpow.
  { split; [apply Z.pow_pos_nonneg; lia|apply Z.pow_lt_mono_r; lia]. }
  rewrite u64_small by lia. lia.
Qed.

Lemma calc_shifts_for_size_loop_range (fuel : nat) :
  ∀ mlf shifts s r, 0 ≤ shifts ≤ 61 →
    calc_shifts_for_size_loop fuel mlf shifts s = Ok r → 0 ≤ r ≤ 61.
Proof.
  induction fuel as [|fuel IH]; intros mlf shifts s r Hs H; [done|].
  cbn [calc_shifts_for_size_loop] in H. apply bind_Ok in H as (c & _ & H).
  destruct (c <? s); [|injection H as <-; lia].
  destruct (decide (shifts = 0)) as [->|Hne].
  - destruct fuel; [done|]. by vm_compute in H.
  - apply (IH mlf (u8 (shifts - 1)) s r); [|done]. unfold u8. rewrite Z.mod_small; lia.
Qed.

Lemma rebuild_sized (t t' : table) (s : Z) :
  0 ≤ s ≤ 61 →
  (t3 ← allocate_and_clear_buckets (deallocate_buckets (set_shifts t s));
   fill_buckets_from_values t3) = Ok t' →
  sized t'.
Proof.
  intros Hs H. apply bind_Ok in H as (t3 & Halloc & H).
  apply allocate_and_clear_buckets_sized in Halloc; [|done].
  apply fill_buckets_loop_shape in H. by apply (same_shape_sized t3).
Qed.

Lemma sized_shifts (t : table) : sized t → 1 ≤ m_shifts t ≤ 61.
Proof. intros [[_ ->]|[? _]]; [by vm_compute|done]. Qed.

Lemma increase_size_sized (t t' : table) : sized t → increase_size t = Ok t' → sized t'.
Proof.
  intros Hs H. apply sized_shifts in Hs. unfold increase_size in H. cbv zeta in H.
  apply (rebuild_sized t t' (u8 (m_shifts t - 1))); [|done].
  unfold u8. rewrite Z.mod_small; lia.
Qed.

Lemma grow_if_full_sized (t t' : table) :
  sized t → (if is_full t then increase_size t else Ok t) = Ok t' → sized t'.
Proof.
  intros Hs H. destruct (is_full t); [by apply (increase_size_sized t)|].
  by injection H as <-.
Qed.

Lemma emplace_sized (t t' : table) (v : Key * T) (r : Z * bool) :
  sized t → emplace t v = Ok (t', r) → sized t'.
Proof.
  intros Hs H. unfold emplace in H. apply bind_Ok in H as (t0 & Hgrow & H).
  apply (grow_if_full_sized t t0 Hs) in Hgrow. cbv zeta in H.
  apply bind_Ok in H as (val & _ & H). apply bind_Ok in H as (p & _ & H).
  destruct p as [b|daf q].
  - apply bind_Ok in H as (vals & _ & H). injection H as <- <-.
    by apply (same_shape_sized t0).
  - apply bind_Ok in H as (t2 & Hplace & H). injection H as <- <-.
    apply place_and_shift_up_shape in Hplace. by apply (same_shape_sized t0).
Qed.

Lemma try_emplace_sized (t t' : table) (k : Key) (x : T) (r : Z * bool) :
  sized t → try_emplace t k x = Ok (t', r) → sized t'.
Proof.
  intros Hs H. unfold try_emplace, do_try_emplace in H.
  apply bind_Ok in H as (t0 & Hgrow & H).
  apply (grow_if_full_sized t t0 Hs) in Hgrow. cbv zeta in H.
  apply bind_Ok in H as (p & _ & H). destruct p as [b|daf q].
  - by injection H as <- <-.
  - apply bind_Ok in H as (t2 & Hplace & H). injection H as <- <-.
    apply place_and_shift_up_shape in Hplace. by apply (same_shape_sized t0).
Qed.

Lemma insert_or_assign_sized (t t' : table) (k : Key) (x : T) (r : Z * bool) :
  sized t → insert_or_assign t k x = Ok (t', r) → sized t'.
Proof.
  intros Hs H. unfold insert_or_assign, do_insert_or_assign in H.
  apply bind_Ok in H as ([t1 [it inserted]] & Htry & H).
  apply (try_emplace_sized t t1 k x _ Hs) in Htry.
  destruct inserted; cbn [negb] in H.
  - by injection H as <- <-.
  - apply bind_Ok in H as (vt & _ & H). injection H as <- <-.
    by apply (same_shape_sized t1).
Qed.

Lemma insert_range_sized (l : list (Key * T)) :
  ∀ t t' : table, sized t → insert_range t l = Ok t' → sized t'.
Proof.
  induction l as [|v l IH]; intros t t' Hs H.
  - by injection H as <-.
  - cbn [insert_range] in H. apply bind_Ok in H as ([t1 r] & Hins & H).
    apply (emplace_sized t t1 v r Hs) in Hins. by apply (IH t1).
Qed.

Lemma do_erase_shape (t t' : table) (q : nat) : do_erase t q = Ok t' → same_shape t t'.
Proof.
  intros H. unfold do_erase in H. cbv zeta in H.
  apply bind_Ok in H as (b & _ & H). apply bind_Ok in H as ([bs1 q1] & Hshift & H).
  apply shift_down_loop_length in Hshift. destruct (negb _).
  - apply bind_Ok in H as (old & _ & H). apply bind_Ok in H as (back & _ & H).
    apply bind_Ok in H as (q2 & _ & H). apply bind_Ok in H as (b2 & _ & H).
    apply bind_Ok in H as (vals & _ & H). injection H as <-.
    split; [done|]. cbn [set_values set_buckets m_buckets].
    by rewrite !length_insert.
  - apply bind_Ok in H as (vals & _ & H). injection H as <-.
    split; [done|]. cbn [set_values set_buckets m_buckets].
    by rewrite length_insert.
Qed.

Lemma erase_sized (t t' : table) (it r : Z) :
  sized t → erase t it = Ok (t', r) → sized t'.
Proof.
  intros Hs H. unfold erase in H. cbv zeta in H.
  apply bind_Ok in H as (vt & _ & H). apply bind_Ok in H as (q & _ & H).
  apply bind_Ok in H as (t1 & Herase & H). injection H as <- <-.
  apply do_erase_shape in Herase. by apply (same_shape_sized t).
Qed.

Lemma erase_key_sized (t t' : table) (k : Key) (n : Z) :
  sized t → erase_key t k = Ok (t', n) → sized t'.
Proof.
  intros Hs H. unfold erase_key, do_erase_key in H.
  apply bind_Ok in H as ([daf q] & _ & H). apply bind_Ok in H as ([daf' q'] & _ & H).
  apply bind_Ok in H as (b & _ & H). destruct (negb _).
  - by injection H as <- <-.
  - apply bind_Ok in H as (t1 & Herase & H). injection H as <- <-.
    apply do_erase_shape in Herase. by apply (same_shape_sized t).
Qed.

Lemma erase_range_no_result (t : table) (first last : Z) (r : table * Z) :
  erase_range t first last ≠ Ok r.
Proof.
  unfold erase_range. intros H. by apply bind_Ok in H as (t1 & _ & H).
Qed.

Lemma clear_sized (t : table) : sized t → sized (clear t).
Proof.
  intros Hs. apply (same_shape_sized t); [done|]. split; [done|].
  unfold clear, clear_buckets. cbn [set_values set_buckets m_buckets].
  apply length_replicate.
Qed.

Lemma calc_shifts_for_size_range (t : table) (s r : Z) :
  calc_shifts_for_size t s = Ok r → 0 ≤ r ≤ 61.
Proof.
  unfold calc_shifts_for_size. apply calc_shifts_for_size_loop_range.
  by vm_compute.
Qed.

Lemma rehash_sized (t t' : table) (count : Z) : sized t → rehash t count = Ok t' → sized t'.
Proof.
  intros Hs H. unfold rehash in H. apply bind_Ok in H as (shifts & Hcalc & H).
  apply calc_shifts_for_size_range in Hcalc. destruct (negb _).
  - by apply (rebuild_sized t t' shifts).
  - by injection H as <-.
Qed.

Lemma reserve_sized (t t' : table) (capa : Z) : sized t → reserve t capa = Ok t' → sized t'.
Proof.
  intros Hs H. unfold reserve in H. apply bind_Ok in H as (shifts & Hcalc & H).
  apply calc_shifts_for_size_range in Hcalc. destruct (_ <? _).
  - by apply (rebuild_sized t t' shifts).
  - by injection H as <-.
Qed.

Lemma table_copy_sized (t t' : table) : table_copy t = Ok t' → sized t'.
Proof.
  unfold table_copy, init_from_values. intros H. destruct (negb _).
  - apply bind_Ok in H as (shifts & Hcalc & H).
    apply calc_shifts_for_size_range in Hcalc.
    apply bind_Ok in H as (t1 & Halloc & H).
    apply allocate_and_clear_buckets_sized in Halloc; [|done].
    apply fill_buckets_loop_shape in H. by apply (same_shape_sized t1).
  - injection H as <-. by left.
Qed.

(** The states that the operations of the table lead to from a constructed
    table. *)
Inductive reachable : table → Prop :=
  | reach_ctor (bucket_count : Z) : reachable (table_ctor bucket_count)
  | reach_copy (t t' : table) :
      reachable t → table_copy t = Ok t' → reachable t'
  | reach_emplace (t t' : table) (v : Key * T) (r : Z * bool) :
      reachable t → emplace t v = Ok (t', r) → reachable t'
  | reach_insert (t t' : table) (v : Key * T) (r : Z * bool) :
      reachable t → insert t v = Ok (t', r) → reachable t'
  | reach_insert_range (t t' : table) (l : list (Key * T)) :
      reachable t → insert_range t l = Ok t' → reachable t'
  | reach_try_emplace (t t' : table) (k : Key) (x : T) (r : Z * bool) :
      reachable t → try_emplace t k x = Ok (t', r) → reachable t'
  | reach_insert_or_assign (t t' : table) (k : Key) (x : T) (r : Z * bool) :
      reachable t → insert_or_assign t k x = Ok (t', r) → reachable t'
  | reach_erase (t t' : table) (it r : Z) :
      reachable t → erase t it = Ok (t', r) → reachable t'
  | reach_erase_range (t t' : table) (first last r : Z) :
      reachable t → erase_range t first last = Ok (t', r) → reachable t'
  | reach_erase_key (t t' : table) (k : Key) (n : Z) :
      reachable t → erase_key t k = Ok (t', n) → reachable t'
  | reach_clear (t : table) : reachable t → reachable (clear t)
  | reach_rehash (t t' : table) (count : Z) :
      reachable t → rehash t count = Ok t' → reachable t'
  | reach_reserve (t t' : table) (capa : Z) :
      reachable t → reserve t capa = Ok t' → reachable t'.

(** C9, amended: a table starts with no metadata at all and the shift 61;
    in every reachable state the metadata array either is still that empty
    one, with the shift at 61, or holds exactly [2 ^ (64 - s)] buckets for
    the current shift [s], which lies between 1 and 61; so the bucket count
    is zero or a power of two. *)
Theorem reachable_bucket_count (t : table) :
  reachable t →
  (bucket_count t = 0 ∧ m_shifts t = 61) ∨
  (1 ≤ m_shifts t ≤ 61 ∧ bucket_count t = 2 ^ (64 - m_shifts t)).
Proof.
  intros Hreach.
  assert (sized t) as [[Hb Hs]|Hs].
  { induction Hreach.
    - by left.
    - by eapply table_copy_sized.
    - by eapply emplace_sized.
    - by eapply emplace_sized.
    - by eapply insert_range_sized.
    - by eapply try_emplace_sized.
    - by eapply insert_or_assign_sized.
    - by eapply erase_sized.
    - by destruct (erase_range_no_result t first last (t', r)).
    - by eapply erase_key_sized.
    - by apply clear_sized.
    - by eapply rehash_sized.
    - by eapply reserve_sized. }
  - left. unfold bucket_count. by rewrite Hb.
  - by right.
Qed.

(** ** Construction and lookup in an empty table *)

(** C8, amended: the constructor does not read its bucket count: whatever
    the hint, the new table has no metadata array, bucket count 0 and
    capacity 0, so nothing is reserved; it counts as full, and the first
    insertion is what allocates, 16 buckets with room for 12 entries. *)
Theorem table_ctor_ignores_bucket_count (c : Z) :
  table_ctor c = table_ctor 0 ∧
  bucket_count (table_ctor c) = 0 ∧ m_max_bucket_capacity (table_ctor c) = 0 ∧
  m_shifts (table_ctor c) = 61 ∧ is_full (table_ctor c) = true ∧
  increase_size (table_ctor c)
    = Ok (mk_table [] (replicate 16 (mk_Bucket 0 0)) 12 float_0_8 60).
Proof. repeat split. Qed.

(** C10: on a table without entries [find] returns the end sentinel at
    once, for every hash function and every metadata array, in particular
    for one that was never allocated, where reading any bucket would be
    undefined; the table that a constructor returns is such a table. *)
Theorem find_on_empty (t : table) (k : Key) (c : Z) :
  find (set_values t []) k = Ok (end_ (set_values t [])) ∧
  m_buckets (table_ctor c) = [] ∧
  find (table_ctor c) k = Ok (end_ (table_ctor c)).
Proof. repeat split. Qed.

(** ** Erasure by iterator and of a range *)

Lemma swap_remove_middle {A : Type} (l1 l2 : list A) (x y : A) :
  swap_remove (l1 ++ x :: l2 ++ [y]) (length l1) = l1 ++ y :: l2.
Proof.
  unfold swap_remove.
  assert (length (l1 ++ x :: l2 ++ [y]) - 1 = length (l1 ++ x :: l2))%nat as Hlen.
  { rewrite !length_app. simpl. rewrite length_app. simpl. lia. }
  rewrite Hlen.
  assert (l1 ++ x :: l2 ++ [y] = (l1 ++ x :: l2) ++ [y]) as Hassoc
    by (by rewrite <- app_assoc).
  rewrite Hassoc at 1. rewrite lookup_app_r, Nat.sub_diag by done. simpl.
  rewrite insert_app_r_alt, Nat.sub_diag by done. simpl.
  assert (l1 ++ y :: l2 ++ [y] = (l1 ++ y :: l2) ++ [y]) as -> by (by rewrite <- app_assoc).
  apply take_app_length'. rewrite !length_app. simpl. lia.
Qed.

Lemma swap_remove_last {A : Type} (l : list A) (x : A) :
  swap_remove (l ++ [x]) (length l) = l.
Proof.
  unfold swap_remove. rewrite length_app. simpl.
  replace (length l + 1 - 1)%nat with (length l) by lia.
  rewrite lookup_app_r, Nat.sub_diag by done. simpl.
  rewrite insert_app_r_alt, Nat.sub_diag by done. simpl. by apply take_app_length'.
Qed.

(** [erase(it)] for an iterator to an entry of the table. *)
Lemma erase_spec (t : table) (i : nat) :
  Inv t → (i < length (m_values t))%nat →
  ∃ t', erase t (Z.of_nat i) = Ok (t', Z.of_nat i) ∧
        m_values t' = swap_remove (m_values t) i ∧ Inv t'.
Proof.
  intros [Hlf [(Hv & _)|Ha]] Hi; [rewrite Hv in Hi; simpl in Hi; lia|].
  pose proof (allocated_size_bound t Ha) as Hsmall. pose proof Ha as (HI & _).
  destruct (lookup_lt_is_Some_2 (m_values t) i Hi) as [[k x] Hkx].
  unfold erase. rewrite (at_index_lookup _ _ _ Hkx). rsimpl. cbv zeta. cbn [fst].
  unfold begin_. rewrite Z.sub_0_r, u32_small by lia.
  change (bucket_from_hash t (mixed_hash k)) with (home (m_shifts t) k).
  assert (keyof_values (m_values t) i = Some k) as Hk by (apply keyof_values_Some; eauto).
  destruct (seek_value_idx_loop_spec HI k i Hk) as (q & b & -> & Hb & Hnz & Hbv). rsimpl.
  destruct (do_erase_spec t q i b Ha Hb Hnz Hbv) as (t' & -> & Hv' & Ha' & _ & Hlf' & _).
  rsimpl. exists t'. split; [done|]. split; [done|]. split; [by rewrite Hlf'|by right].
Qed.

Lemma erase_forward_loop_spec (c : nat) :
  ∀ (t : table) (A M R' B' : list (Key * T)) (fuel : nat),
    Inv t → m_values t = A ++ M ++ R' ++ B' →
    (c ≤ length R')%nat → (c ≤ length B')%nat → (c < fuel)%nat →
    ∃ t', erase_forward_loop fuel t (Z.of_nat (length (A ++ M)))
            (Z.of_nat (length (A ++ M) + c)) = Ok t' ∧
          Inv t' ∧
          m_values t' = A ++ (M ++ reverse (drop (length B' - c) B')) ++
                        drop c R' ++ take (length B' - c) B'.
Proof.
  induction c as [|c IH]; intros t A M R' B' fuel HI Hv HR HB Hfuel.
  - destruct fuel; [lia|]. cbn [erase_forward_loop].
    rewrite Nat.add_0_r, Z.eqb_refl. cbn [negb].
    exists t. split; [done|]. split; [done|].
    rewrite Nat.sub_0_r, drop_all, take_ge by done. cbn [drop reverse].
    by rewrite app_nil_r.
  - destruct fuel; [lia|]. destruct R' as [|x R'']; [simpl in HR; lia|].
    destruct B' as [|y B'' _] using rev_ind; [simpl in HB; lia|].
    cbn [erase_forward_loop].
    replace (Z.of_nat (length (A ++ M)) =? Z.of_nat (length (A ++ M) + S c)) with false
      by (symmetry; apply Z.eqb_neq; lia).
    cbn [negb].
    destruct (erase_spec t (length (A ++ M)) HI) as (t1 & -> & Hv1 & HI1).
    { rewrite Hv, !length_app. simpl. lia. }
    rsimpl.
    assert (m_values t1 = A ++ (M ++ [y]) ++ R'' ++ B'') as Hv1'.
    { rewrite Hv1, Hv.
      assert (A ++ M ++ (x :: R'') ++ B'' ++ [y] = (A ++ M) ++ x :: (R'' ++ B'') ++ [y])
        as -> by (by rewrite <- !app_assoc).
      rewrite swap_remove_middle. by rewrite <- !app_assoc. }
    rewrite length_app in HB. simpl in HB, HR.
    destruct (IH t1 A (M ++ [y]) R'' B'' fuel HI1 Hv1') as (t' & Hrun & HI' & Hv');
      [lia..|].
    replace (Z.of_nat (length (A ++ M)) + 1) with (Z.of_nat (length (A ++ M ++ [y])))
      by (rewrite !length_app; simpl; lia).
    replace (Z.of_nat (length (A ++ M) + S c))
      with (Z.of_nat (length (A ++ M ++ [y]) + c))
      by (rewrite !length_app; simpl; lia).
    exists t'. split; [done|]. split; [done|]. rewrite Hv'.
    rewrite length_app. simpl length.
    replace (length B'' + 1 - S c)%nat with (length B'' - c)%nat by lia.
    rewrite drop_app_le, take_app_le by lia. rewrite reverse_snoc. cbn [drop].
    by rewrite <- !app_assoc.
Qed.

Lemma erase_backward_loop_spec (c : nat) :
  ∀ (t : table) (A R' : list (Key * T)) (fuel : nat),
    Inv t → m_values t = A ++ R' → c = length R' → (c < fuel)%nat →
    ∃ t', erase_backward_loop fuel t (Z.of_nat (length A + c)) (Z.of_nat (length A))
            = Ok t' ∧
          Inv t' ∧ m_values t' = A.
Proof.
  induction c as [|c IH]; intros t A R' fuel HI Hv Hc Hfuel.
  - destruct fuel; [lia|]. cbn [erase_backward_loop].
    rewrite Nat.add_0_r, Z.eqb_refl. cbn [negb].
    destruct R'; [|done]. exists t. by rewrite app_nil_r in Hv.
  - destruct fuel; [lia|].
    destruct R' as [|y R'' _] using rev_ind; [done|].
    rewrite length_app in Hc. simpl in Hc.
    cbn [erase_backward_loop].
    replace (Z.of_nat (length A + S c) =? Z.of_nat (length A)) with false
      by (symmetry; apply Z.eqb_neq; lia).
    cbn [negb].
    replace (Z.of_nat (length A + S c) - 1) with (Z.of_nat (length (A ++ R'')))
      by (rewrite length_app; lia).
    destruct (erase_spec t (length (A ++ R'')) HI) as (t1 & -> & Hv1 & HI1).
    { rewrite Hv, !length_app. simpl. lia. }
    rsimpl.
    assert (m_values t1 = A ++ R'') as Hv1'.
    { rewrite Hv1, Hv, app_assoc. apply swap_remove_last. }
    destruct (IH t1 A R'' fuel HI1 Hv1') as (t' & Hrun & HI' & Hv'); [lia..|].
    replace (Z.of_nat (length (A ++ R''))) with (Z.of_nat (length A + c))
      by (rewrite length_app; lia).
    by exists t'.
Qed.

(** The statements of [erase(first, last)] remove the entries of the range
    from the value array and keep all others. *)
Lemma erase_range_statements_spec (t : table) (first last : nat) :
  Inv t → (first ≤ last ≤ length (m_values t))%nat →
  ∃ t', erase_range_statements t (Z.of_nat first) (Z.of_nat last) = Ok t' ∧ Inv t' ∧
        m_values t' ≡ₚ take first (m_values t) ++ drop last (m_values t).
Proof.
  intros HI [Hfl Hle].
  set (V := m_values t) in *.
  set (A := take first V). set (B := drop last V).
  set (R := take (last - first) (drop first V)).
  assert (V = A ++ [] ++ R ++ B) as HV.
  { unfold A, R, B. simpl.
    replace (drop last V) with (drop (last - first) (drop first V))
      by (rewrite drop_drop; f_equal; lia).
    by rewrite !take_drop. }
  assert (length A = first) as HlA by (unfold A; rewrite length_take; lia).
  assert (length B = length V - last)%nat as HlB by (unfold B; by rewrite length_drop).
  assert (length R = last - first)%nat as HlR.
  { unfold R. rewrite length_take, length_drop. lia. }
  set (c := Nat.min (length R) (length B)).
  unfold erase_range_statements. cbv zeta. unfold end_. fold V.
  replace (Z.of_nat first + Z.min (Z.of_nat last - Z.of_nat first)
                                  (Z.of_nat (length V) - Z.of_nat last))
    with (Z.of_nat (length (A ++ []) + c)) by (rewrite app_nil_r; unfold c; lia).
  replace (Z.of_nat first) with (Z.of_nat (length (A ++ [])))
    by (rewrite app_nil_r; lia).
  destruct (erase_forward_loop_spec c t A [] R B (S (length V)) HI HV)
    as (t1 & -> & HI1 & Hv1); [unfold c; lia..|].
  rsimpl. cbn [app] in Hv1.
  destruct (decide (length R ≤ length B)%nat) as [Hrb|Hrb].
  - assert (c = length R) as Hc by (unfold c; lia). rewrite Hc in *.
    cbn [erase_backward_loop].
    replace (Z.of_nat last =? Z.of_nat (length (A ++ []) + length R)) with true
      by (symmetry; apply Z.eqb_eq; rewrite app_nil_r; lia).
    cbn [negb]. exists t1. split; [done|]. split; [done|].
    rewrite Hv1, drop_all. cbn [app]. apply Permutation_app_head.
    rewrite reverse_Permutation, Permutation_app_comm. by rewrite take_drop.
  - assert (c = length B) as Hc by (unfold c; lia). rewrite Hc in *.
    rewrite Nat.sub_diag in Hv1. cbn [drop take] in Hv1. rewrite app_nil_r in Hv1.
    destruct (erase_backward_loop_spec (length R - length B) t1 (A ++ reverse B)
                (drop (length B) R) (S (length V)) HI1) as (t' & Hrun & HI' & Hv');
      [by rewrite <- app_assoc|by rewrite length_drop|lia|].
    replace (Z.of_nat last)
      with (Z.of_nat (length (A ++ reverse B) + (length R - length B)))
      by (rewrite length_app, length_reverse; lia).
    replace (Z.of_nat (length (A ++ []) + length B))
      with (Z.of_nat (length (A ++ reverse B)))
      by (rewrite !length_app, length_reverse; simpl; lia).
    exists t'. split; [done|]. split; [done|].
    rewrite Hv'. apply Permutation_app_head, reverse_Permutation.
Qed.

(** Up to its closing brace [erase(first, last)] does what is expected of
    it: afterwards [find] yields the end sentinel for the key of every
    entry of the range, and every other entry is found with its mapped
    value. *)
Theorem erase_range_statements_find (t : table) (first last : nat) :
  Inv t → (first ≤ last ≤ length (m_values t))%nat →
  ∃ t', erase_range_statements t (Z.of_nat first) (Z.of_nat last) = Ok t' ∧ Inv t' ∧
        size t' = size t - (Z.of_nat last - Z.of_nat first) ∧
        ∀ j k x, m_values t !! j = Some (k, x) →
          if decide (first ≤ j < last)%nat then find t' k = Ok (end_ t')
          else ∃ j', find t' k = Ok (Z.of_nat j') ∧ m_values t' !! j' = Some (k, x).
Proof.
  intros HI Hrange.
  destruct (erase_range_statements_spec t first last HI Hrange) as (t' & Hrun & HI' & Hperm).
  exists t'. split; [done|]. split; [done|]. split.
  - unfold size. rewrite Hperm, length_app, length_take, length_drop. lia.
  - intros j k x Hj. pose proof (lookup_lt_Some _ _ _ Hj) as Hlt. case_decide as Hin.
    + apply (do_find_absent t' k HI'). intros j' y Hj'.
      apply list_elem_of_lookup_2 in Hj'. rewrite Hperm in Hj'.
      apply elem_of_app in Hj' as [Hj'|Hj']; apply list_elem_of_lookup in Hj' as [i Hi].
      * apply lookup_take_Some in Hi as [Hi Hilt].
        pose proof (Inv_key_index t j i k x y HI Hj Hi). lia.
      * rewrite lookup_drop in Hi.
        pose proof (Inv_key_index t j _ k x y HI Hj Hi). lia.
    + assert ((k, x) ∈ m_values t') as Hel.
      { rewrite Hperm. apply elem_of_app.
        destruct (decide (j < first)%nat).
        - left. apply list_elem_of_lookup. exists j. by rewrite lookup_take_lt.
        - right. apply list_elem_of_lookup. exists (j - last)%nat.
          rewrite lookup_drop. by replace (last + (j - last))%nat with j by lia. }
      apply list_elem_of_lookup in Hel as [j' Hj']. exists j'.
      split; [by apply (do_find_present t' j' k x)|done].
Qed.

(** [rehash(0)] asks [calc_shifts_for_size] for room for no entry at all,
    whatever the table holds, and so rebuilds into 8 buckets. *)
Lemma calc_shifts_for_size_zero (t : table) :
  lf_ok (m_max_load_factor t) → calc_shifts_for_size t 0 = Ok INITIAL_SHIFTS.
Proof.
  intros Hlf. unfold calc_shifts_for_size, max_load_factor.
  cbn [calc_shifts_for_size_loop]. unfold scaled_capacity.
  change (u32 (64 - INITIAL_SHIFTS)) with 3. cbn [Z.ltb Z.compare Pos.compare Pos.compare_cont].
  destruct (float_to_uint64_scaled (m_max_load_factor t) 3 Hlf) as (c & -> & Hc); [lia|].
  rsimpl. by replace (c <? 0) with false by (symmetry; apply Z.ltb_ge; lia).
Qed.

Theorem rehash_zero_bucket_count (t t' : table) :
  lf_ok (m_max_load_factor t) → m_shifts t ≠ INITIAL_SHIFTS → rehash t 0 = Ok t' →
  bucket_count t' = 8 ∧ m_shifts t' = INITIAL_SHIFTS.
Proof.
  intros Hlf Hs H. unfold rehash in H. rewrite (calc_shifts_for_size_zero t Hlf) in H.
  cbn [mbind result_bind] in H.
  replace (INITIAL_SHIFTS =? m_shifts t) with false in H
    by (symmetry; apply Z.eqb_neq; congruence).
  cbn [negb] in H. apply bind_Ok in H as (t3 & Halloc & H).
  apply fill_buckets_loop_shape in H as [Hs' Hl'].
  unfold bucket_count. rewrite Hs', Hl'.
  unfold allocate_and_clear_buckets in Halloc.
  cbn [deallocate_buckets set_shifts m_shifts] in Halloc.
  change (u32 (64 - INITIAL_SHIFTS)) with 3 in Halloc.
  cbn [Z.ltb Z.compare Pos.compare Pos.compare_cont] in Halloc.
  apply bind_Ok in Halloc as (c & _ & Halloc). by injection Halloc as <-.
Qed.

(** Insertion order: after the insertion of entries with distinct keys into
    a new table the value array holds them in the order of insertion, and
    each is found at its place. *)
Theorem insertion_order_kept (l : list (Key * T)) (c : Z) :
  NoDup (l.*1) → Z.of_nat (length l) ≤ 6710886 →
  ∃ t, insert_range (table_ctor c) l = Ok t ∧ m_values t = l ∧
       ∀ i k x, l !! i = Some (k, x) → find t k = Ok (Z.of_nat i).
Proof.
  intros Hnodup Hlen.
  destruct (insert_range_spec l (table_ctor c) (Inv_table_ctor c)
              (growable_table_ctor c _ Hlen) Hnodup) as (t & Hrun & Hv & HI & _).
  { intros e i x _. simpl. by rewrite lookup_nil. }
  exists t. split; [done|]. split; [done|].
  intros i k x Hi. apply (do_find_present t i k x HI). by rewrite Hv.
Qed.

(** * Further operations of the table *)

Local Abbreviation equal_range := (equal_range m_hash is_avalanching m_equal).
Local Abbreviation index_op := (index_op m_hash is_avalanching m_equal).
Local Abbreviation table_ne := (table_ne m_hash is_avalanching m_equal mapped_eq).
Local Abbreviation table_from_range := (table_from_range m_hash is_avalanching m_equal).
Local Abbreviation copy_assign := (copy_assign m_hash is_avalanching).
Local Abbreviation assign_list := (assign_list m_hash is_avalanching m_equal).
Local Abbreviation erase_if_loop := (erase_if_loop m_hash is_avalanching).
Local Abbreviation erase_if := (erase_if m_hash is_avalanching).

(** ** Lookup *)

(** [find] separates the keys of the table from all others: its result is
    the end sentinel exactly for the keys that the table does not hold, and
    otherwise the iterator to the one entry with the key. *)
Theorem find_spec (t : table) (k : Key) :
  Inv t →
  ∃ it, find t k = Ok it ∧
        (it = end_ t ↔ ∀ i x, m_values t !! i ≠ Some (k, x)) ∧
        (it ≠ end_ t → ∃ i x, it = Z.of_nat i ∧ m_values t !! i = Some (k, x) ∧
                              ∀ j y, m_values t !! j = Some (k, y) → j = i).
Proof.
  intros HI. destruct (key_present_or_absent (m_values t) k) as [(i & x & Hi)|Habs].
  - exists (Z.of_nat i). split; [by apply (do_find_present t i k x)|].
    pose proof (lookup_lt_Some _ _ _ Hi) as Hlt. split.
    + split; [unfold end_; lia|]. intros Habs. by destruct (Habs i x).
    + intros _. exists i, x. split; [done|]. split; [done|].
      intros j y Hj. by apply (Inv_key_index t j i k y x).
  - exists (end_ t). split; [by apply do_find_absent|]. split; [done|]. by intros [].
Qed.

(** [at] returns the mapped value of the key, and throws [out_of_range]
    exactly when the table does not hold the key. *)
Theorem at_spec (t : table) (k : Key) :
  Inv t →
  (∀ i x, m_values t !! i = Some (k, x) → at_ t k = Ok x) ∧
  ((∀ i x, m_values t !! i ≠ Some (k, x)) →
     at_ t k = Throw (out_of_range "ankerl::unordered_dense::map::at(): key not found")) ∧
  (∀ e, at_ t k = Throw e → ∀ i x, m_values t !! i ≠ Some (k, x)).
Proof.
  intros HI.
  assert (∀ i x, m_values t !! i = Some (k, x) → at_ t k = Ok x) as Hhit.
  { intros i x Hi. unfold at_, find. rewrite (do_find_present t i k x HI Hi). rsimpl.
    pose proof (lookup_lt_Some _ _ _ Hi) as Hlt.
    replace (end_ t =? Z.of_nat i) with false
      by (symmetry; apply Z.eqb_neq; unfold end_; lia).
    cbn [negb]. by rewrite (at_index_lookup _ _ _ Hi). }
  split; [done|]. split.
  - intros Habs. unfold at_, find. rewrite (do_find_absent t k HI Habs). rsimpl.
    by rewrite Z.eqb_refl.
  - intros e He i x Hi. by rewrite (Hhit i x Hi) in He.
Qed.

(** [count] and [contains] are 1 for the keys of the table and 0 for all
    others, and [equal_range] is the range of the one entry, or the empty
    range at the end. *)
Theorem count_contains_equal_range (t : table) (k : Key) :
  Inv t →
  (∀ i x, m_values t !! i = Some (k, x) →
     count t k = Ok 1 ∧ contains t k = Ok 1 ∧
     equal_range t k = Ok (Z.of_nat i, Z.of_nat i + 1)) ∧
  ((∀ i x, m_values t !! i ≠ Some (k, x)) →
     count t k = Ok 0 ∧ contains t k = Ok 0 ∧
     equal_range t k = Ok (end_ t, end_ t)).
Proof.
  intros HI. split.
  - intros i x Hi. pose proof (lookup_lt_Some _ _ _ Hi) as Hlt.
    unfold count, contains, equal_range, find.
    rewrite (do_find_present t i k x HI Hi). rsimpl.
    by replace (Z.of_nat i =? end_ t) with false
      by (symmetry; apply Z.eqb_neq; unfold end_; lia).
  - intros Habs. unfold count, contains, equal_range, find.
    rewrite (do_find_absent t k HI Habs). rsimpl. by rewrite Z.eqb_refl.
Qed.

(** ** Assignment to the mapped value *)

Lemma binv_ext (s : Z) (bs : list Bucket) (keyof keyof' : nat → option Key) (m : nat) :
  (∀ v, keyof' v = keyof v) → binv s bs keyof m → binv s bs keyof' m.
Proof.
  intros Hext HI. split.
  - apply (binv_size _ _ _ _ HI).
  - apply (binv_shifts _ _ _ _ HI).
  - intros v k. rewrite Hext. apply (binv_live _ _ _ _ HI).
  - apply (binv_room _ _ _ _ HI).
  - intros i b Hb Hnz.
    destruct (binv_home _ _ _ _ HI i b Hb Hnz) as (v & k & d & ? & ? & ?).
    exists v, k, d. by rewrite Hext.
  - intros v k. rewrite Hext. apply (binv_slot _ _ _ _ HI).
  - apply (binv_inj _ _ _ _ HI).
  - apply (binv_rh _ _ _ _ HI).
  - intros v1 v2 k. rewrite !Hext. apply (binv_keys _ _ _ _ HI).
Qed.

(** Writing another mapped value into an entry leaves the index as it is. *)
Lemma Inv_overwrite (t : table) (i : nat) (k : Key) (x x0 : T) :
  Inv t → m_values t !! i = Some (k, x0) →
  Inv (set_values t (<[i := (k, x)]> (m_values t))).
Proof.
  intros [Hlf [(Hv & _)|(HI & Hcap & Hsc)]] Hi; [by rewrite Hv in Hi|].
  split; [done|]. right. unfold allocated.
  cbn [set_values m_values m_buckets m_shifts m_max_bucket_capacity m_max_load_factor].
  rewrite length_insert. split; [|done].
  apply (binv_ext _ _ (keyof_values (m_values t))); [|done].
  intros v. unfold keyof_values. destruct (decide (v = i)) as [->|Hne].
  - rewrite list_lookup_insert_eq by (by eapply lookup_lt_Some). by rewrite Hi.
  - by rewrite list_lookup_insert_ne.
Qed.

Lemma at_present (t : table) (i : nat) (k : Key) (x : T) :
  Inv t → m_values t !! i = Some (k, x) → at_ t k = Ok x.
Proof.
  intros HI Hi. unfold at_, find. rewrite (do_find_present t i k x HI Hi). rsimpl.
  pose proof (lookup_lt_Some _ _ _ Hi) as Hlt.
  replace (end_ t =? Z.of_nat i) with false
    by (symmetry; apply Z.eqb_neq; unfold end_; lia).
  cbn [negb]. by rewrite (at_index_lookup _ _ _ Hi).
Qed.

(** [insert_or_assign] overwrites the mapped value of a key that the table
    holds and inserts the entry otherwise; either way the key is mapped to
    the given value afterwards. *)
Theorem insert_or_assign_spec (t : table) (k : Key) (x : T) :
  Inv t → can_grow t →
  (∀ i x0, m_values t !! i = Some (k, x0) →
     ∃ t', insert_or_assign t k x = Ok (t', (Z.of_nat i, false)) ∧
           m_values t' = <[i := (k, x)]> (m_values t) ∧ Inv t' ∧
           find t' k = Ok (Z.of_nat i) ∧ at_ t' k = Ok x) ∧
  ((∀ i x0, m_values t !! i ≠ Some (k, x0)) →
     ∃ t', insert_or_assign t k x = Ok (t', (end_ t, true)) ∧
           m_values t' = m_values t ++ [(k, x)] ∧ Inv t' ∧
           find t' k = Ok (end_ t) ∧ at_ t' k = Ok x).
Proof.
  intros HI Hgrow. split.
  - intros i x0 Hi.
    destruct (try_emplace_present t i k x x0 HI Hgrow Hi) as (t1 & Hrun & Hv1 & HI1 & _).
    unfold insert_or_assign, do_insert_or_assign. rewrite Hrun. rsimpl. cbn [negb].
    rewrite <- Hv1 in Hi. rewrite (at_index_lookup _ _ _ Hi). rsimpl. cbn [fst].
    rewrite Nat2Z.id.
    pose proof (Inv_overwrite t1 i k x x0 HI1 Hi) as HI'.
    assert (m_values (set_values t1 (<[i:=(k, x)]> (m_values t1))) !! i = Some (k, x))
      as Hi'.
    { cbn [set_values m_values]. apply list_lookup_insert_eq. by eapply lookup_lt_Some. }
    eexists. split; [done|]. split; [by rewrite <- Hv1|]. split; [done|].
    split; [by apply (do_find_present _ i k x)|].
    by apply (at_present _ i k x).
  - intros Habs.
    destruct (try_emplace_absent t k x HI Hgrow Habs) as (t1 & Hrun & Hv1 & HI1 & _).
    unfold insert_or_assign, do_insert_or_assign. rewrite Hrun. rsimpl. cbn [negb].
    exists t1. split; [done|]. split; [done|]. split; [done|].
    destruct (find_appended t1 (m_values t) k x HI1 Hv1) as [Hfind Hat].
    split; [done|].
    apply (at_present t1 (length (m_values t)) k x HI1).
    rewrite Hv1. by rewrite lookup_app_r, Nat.sub_diag.
Qed.

(** [operator[]] yields the mapped value of a key that the table holds and
    changes nothing; for any other key it inserts the entry of the key and
    the value-initialised mapped value, which it yields. *)
Theorem index_op_spec (value_init : T) (t : table) (k : Key) :
  Inv t → can_grow t →
  (∀ i x, m_values t !! i = Some (k, x) →
     ∃ t', index_op value_init t k = Ok (t', x) ∧ m_values t' = m_values t ∧ Inv t') ∧
  ((∀ i x, m_values t !! i ≠ Some (k, x)) →
     ∃ t', index_op value_init t k = Ok (t', value_init) ∧
           m_values t' = m_values t ++ [(k, value_init)] ∧ Inv t' ∧
           find t' k = Ok (end_ t)).
Proof.
  intros HI Hgrow. split.
  - intros i x Hi.
    destruct (try_emplace_present t i k value_init x HI Hgrow Hi)
      as (t1 & Hrun & Hv1 & HI1 & _).
    unfold index_op. rewrite Hrun. rsimpl. rewrite <- Hv1 in Hi.
    rewrite (at_index_lookup _ _ _ Hi). rsimpl. by exists t1.
  - intros Habs.
    destruct (try_emplace_absent t k value_init HI Hgrow Habs)
      as (t1 & Hrun & Hv1 & HI1 & _).
    destruct (find_appended t1 (m_values t) k value_init HI1 Hv1) as [Hfind Hat].
    unfold index_op. rewrite Hrun. rsimpl. unfold size. rewrite Hat. rsimpl.
    by exists t1.
Qed.

(** ** Clearing and assigning *)

Lemma Inv_clear (t : table) : Inv t → Inv (clear t).
Proof.
  intros [Hlf [(Hv & Hb & Hc & Hs)|(HI & Hcap & Hsc)]]; (split; [done|]).
  - left. unfold clear, clear_buckets.
    cbn [set_values set_buckets m_values m_buckets m_max_bucket_capacity m_shifts].
    by rewrite Hb.
  - right. unfold allocated, clear, clear_buckets.
    cbn [set_values set_buckets m_values m_buckets m_max_bucket_capacity m_shifts
         m_max_load_factor length].
    rewrite length_replicate. split; [|done].
    replace (length (m_buckets t)) with (Z.to_nat (2 ^ (64 - m_shifts t)))
      by (pose proof (binv_size _ _ _ _ HI); lia).
    apply binv_replicate, (binv_shifts _ _ _ _ HI).
Qed.

(** [clear] removes every entry and keeps the metadata array, zeroed, with
    its capacity: no key is found any more, and the table is as fit for
    use as before. *)
Theorem clear_spec (t : table) :
  Inv t →
  Inv (clear t) ∧ size (clear t) = 0 ∧
  bucket_count (clear t) = bucket_count t ∧
  m_max_bucket_capacity (clear t) = m_max_bucket_capacity t ∧
  m_shifts (clear t) = m_shifts t ∧
  (∀ b, b ∈ m_buckets (clear t) → b = mk_Bucket 0 0) ∧
  ∀ k, find (clear t) k = Ok (end_ (clear t)).
Proof.
  intros HI. split; [by apply Inv_clear|]. split; [done|]. split.
  { unfold bucket_count, clear, clear_buckets. cbn [set_buckets m_buckets set_values].
    by rewrite length_replicate. }
  split; [done|]. split; [done|]. split; [|done].
  intros b Hb. unfold clear, clear_buckets in Hb. cbn [set_buckets m_buckets] in Hb.
  by apply elem_of_replicate in Hb as [-> _].
Qed.

(** Assignment of a list of entries with distinct keys: whatever the table
    held, afterwards it holds the entries of the list, in their order. *)
Theorem assign_list_spec (t : table) (l : list (Key * T)) :
  Inv t → growable (clear t) (Z.of_nat (length l)) → NoDup (l.*1) →
  ∃ t', assign_list t l = Ok t' ∧ m_values t' = l ∧ Inv t' ∧
        ∀ i k x, l !! i = Some (k, x) → find t' k = Ok (Z.of_nat i).
Proof.
  intros HI Hfit Hnodup.
  destruct (insert_range_spec l (clear t) (Inv_clear t HI) Hfit Hnodup)
    as (t' & Hrun & Hv & HI' & _).
  { intros e i x _. simpl. by rewrite lookup_nil. }
  exists t'. split; [done|]. split; [done|]. split; [done|].
  intros i k x Hi. apply (do_find_present t' i k x HI'). by rewrite Hv.
Qed.

(** ** Erasure by iterator *)

(** [erase(it)] for an iterator to an entry removes the entry, moves the
    last entry into its place, unless it was the last itself, leaves all
    other entries where they are and returns the iterator it was given;
    for anything but an iterator to an entry, the end iterator too, it is
    undefined. *)
Theorem erase_iterator_spec (t : table) (i : nat) (k : Key) (x : T) :
  Inv t → m_values t !! i = Some (k, x) →
  (∃ t', erase t (Z.of_nat i) = Ok (t', Z.of_nat i) ∧ Inv t' ∧
         size t' = size t - 1 ∧ find t' k = Ok (end_ t') ∧
         ∀ j, (j < length (m_values t) - 1)%nat →
              m_values t' !! j =
                if decide (j = i) then m_values t !! (length (m_values t) - 1)%nat
                else m_values t !! j) ∧
  (∀ it, ¬ (0 ≤ it < size t) → erase t it = Undefined).
Proof.
  intros HI Hi. pose proof (lookup_lt_Some _ _ _ Hi) as Hlt. split.
  - destruct (erase_spec t i HI Hlt) as (t' & Hrun & Hv & HI').
    assert (m_values t ≠ []) as Hne by (by intros Hnil; rewrite Hnil in Hi).
    exists t'. split; [done|]. split; [done|]. split; [|split].
    + unfold size. rewrite Hv, swap_remove_length by done. lia.
    + apply (do_find_absent t' k HI'). rewrite Hv. by apply (swap_remove_absent t i k x).
    + intros j Hj. rewrite Hv.
      destruct (lookup_lt_is_Some_2 (m_values t) (length (m_values t) - 1))
        as [back Hback]; [lia|].
      destruct (lookup_lt_is_Some_2 (m_values t) j) as [e He]; [lia|].
      case_decide as Hji.
      * rewrite Hback. apply (swap_remove_lookup _ i j back back Hback Hlt).
        by rewrite decide_True.
      * rewrite He. apply (swap_remove_lookup _ i j back e Hback Hlt).
        by rewrite decide_False.
  - intros it Hit. unfold erase, at_index. unfold size in Hit.
    destruct (Z.ltb_spec it 0) as [|Hge]; [done|].
    unfold deref. by rewrite lookup_ge_None_2 by lia.
Qed.

(** ** Sizing: [calc_shifts_for_size], [reserve], [rehash] and copies *)

Lemma scaled_capacity_Ok (mlf : dyadic) (s : Z) :
  lf_ok mlf → 1 ≤ s ≤ 61 →
  ∃ c, scaled_capacity mlf s = Ok c ∧ 0 ≤ c < 2 ^ (64 - s).
Proof.
  intros Hlf Hs. unfold scaled_capacity. rewrite u32_small by lia.
  destruct (Z.ltb_spec (64 - s) 64); [|lia].
  apply (float_to_uint64_scaled mlf (64 - s) Hlf). lia.
Qed.

Lemma calc_shifts_for_size_loop_spec (mlf : dyadic) (n s0 c0 : Z) :
  lf_ok mlf → 1 ≤ s0 → scaled_capacity mlf s0 = Ok c0 → n ≤ c0 →
  ∀ (k : nat) (sh : Z) (fuel : nat),
    sh = s0 + Z.of_nat k → sh ≤ 61 → (k < fuel)%nat →
    ∃ r, calc_shifts_for_size_loop fuel mlf sh n = Ok r ∧ s0 ≤ r ≤ sh ∧
         (∃ c, scaled_capacity mlf r = Ok c ∧ n ≤ c) ∧
         ∀ r', r < r' ≤ sh → ∃ c', scaled_capacity mlf r' = Ok c' ∧ c' < n.
Proof.
  intros Hlf Hs0 Hc0 Hn. induction k as [|k IH]; intros sh fuel Hsh Hle Hfuel.
  - destruct fuel; [lia|]. assert (sh = s0) as -> by lia.
    cbn [calc_shifts_for_size_loop]. rewrite Hc0. rsimpl.
    replace (c0 <? n) with false by (symmetry; apply Z.ltb_ge; lia).
    exists s0. split; [done|]. split; [lia|]. split; [by exists c0|]. intros r' Hr'. lia.
  - destruct fuel; [lia|].
    destruct (scaled_capacity_Ok mlf sh Hlf) as (c & Hc & Hcr); [lia|].
    cbn [calc_shifts_for_size_loop]. rewrite Hc. rsimpl.
    destruct (Z.ltb_spec c n) as [Hlt|Hge].
    + replace (u8 (sh - 1)) with (sh - 1) by (unfold u8; rewrite Z.mod_small; lia).
      destruct (IH (sh - 1) fuel) as (r & Hrun & Hr & Hcap & Hmin); [lia..|].
      exists r. split; [done|]. split; [lia|]. split; [done|].
      intros r' Hr'. destruct (decide (r' = sh)) as [->|]; [by exists c|].
      apply Hmin. lia.
    + exists sh. split; [done|]. split; [lia|]. split; [by exists c|].
      intros r' Hr'. lia.
Qed.

Lemma calc_shifts_for_size_largest (t : table) (n s0 c0 : Z) :
  lf_ok (m_max_load_factor t) → 1 ≤ s0 ≤ 61 →
  scaled_capacity (m_max_load_factor t) s0 = Ok c0 → n ≤ c0 →
  ∃ r, calc_shifts_for_size t n = Ok r ∧ s0 ≤ r ≤ 61 ∧
       (∃ c, scaled_capacity (m_max_load_factor t) r = Ok c ∧ n ≤ c) ∧
       ∀ r', r < r' ≤ 61 →
             ∃ c', scaled_capacity (m_max_load_factor t) r' = Ok c' ∧ c' < n.
Proof.
  intros Hlf Hs0 Hc0 Hn. unfold calc_shifts_for_size, max_load_factor.
  apply (calc_shifts_for_size_loop_spec _ n s0 c0 Hlf ltac:(lia) Hc0 Hn
           (Z.to_nat (61 - s0)) INITIAL_SHIFTS 62); unfold INITIAL_SHIFTS; lia.
Qed.

(** [calc_shifts_for_size(n)] is the largest shift up to 61, so the
    smallest array of at least 8 buckets, whose capacity reaches [n];
    [s0] is any shift whose capacity does. *)
Theorem calc_shifts_for_size_spec (t : table) (n s0 c0 : Z) :
  lf_ok (m_max_load_factor t) → 1 ≤ s0 ≤ 61 →
  scaled_capacity (m_max_load_factor t) s0 = Ok c0 → n ≤ c0 →
  ∃ r, calc_shifts_for_size t n = Ok r ∧ s0 ≤ r ≤ 61 ∧
       (∃ c, scaled_capacity (m_max_load_factor t) r = Ok c ∧ n ≤ c) ∧
       ∀ r', r < r' ≤ 61 →
             ∃ c', scaled_capacity (m_max_load_factor t) r' = Ok c' ∧ c' < n.
Proof. apply calc_shifts_for_size_largest. Qed.

Lemma scaled_capacity_mono (mlf : dyadic) (s1 s2 c1 c2 : Z) :
  lf_ok mlf → 1 ≤ s1 ≤ s2 → s2 ≤ 61 →
  scaled_capacity mlf s1 = Ok c1 → scaled_capacity mlf s2 = Ok c2 → c2 ≤ c1.
Proof.
  intros (Hm & He & Hlt) Hs1 Hs2. unfold scaled_capacity.
  rewrite !u32_small by lia.
  destruct (Z.ltb_spec (64 - s1) 64); [|lia]. destruct (Z.ltb_spec (64 - s2) 64); [|lia].
  unfold float_to_uint64, mul_pow2. cbn [mantissa binexp].
  set (M := mantissa mlf) in *. set (e := binexp mlf) in *.
  set (v1 := if 0 <=? e + (64 - s1) then _ else _).
  set (v2 := if 0 <=? e + (64 - s2) then _ else _).
  assert (v2 ≤ v1) as Hv.
  { unfold v1, v2.
    destruct (Z.leb_spec 0 (e + (64 - s1))) as [H1|H1];
      destruct (Z.leb_spec 0 (e + (64 - s2))) as [H2|H2]; try lia.
    - apply Z.mul_le_mono_nonneg_l; [done|]. apply Z.pow_le_mono_r; lia.
    - rewrite Z.quot_div_nonneg by (try apply Z.pow_pos_nonneg; lia).
      assert (0 < 2 ^ (- (e + (64 - s2)))) by (apply Z.pow_pos_nonneg; lia).
      assert (0 < 2 ^ (e + (64 - s1))) by (apply Z.pow_pos_nonneg; lia).
      assert (M / 2 ^ (- (e + (64 - s2))) ≤ M) by (apply Z.div_le_upper_bound; nia).
      nia.
    - rewrite !Z.quot_div_nonneg by (try apply Z.pow_pos_nonneg; lia).
      apply Z.div_le_compat_l; [done|]. split; [apply Z.pow_pos_nonneg; lia|].
      apply Z.pow_le_mono_r; lia. }
  destruct ((0 <=? v1) && (v1 <? 2 ^ 64)); [|done].
  destruct ((0 <=? v2) && (v2 <? 2 ^ 64)); [|done].
  intros [= <-] [= <-]. done.
Qed.

Lemma find_same_values (t t' : table) :
  Inv t → Inv t' → m_values t' = m_values t → ∀ k, find t' k = find t k.
Proof.
  intros HI HI' Hv k. unfold find.
  destruct (key_present_or_absent (m_values t) k) as [(i & x & Hi)|Habs].
  - rewrite (do_find_present t i k x HI Hi). apply (do_find_present t' i k x HI').
    by rewrite Hv.
  - rewrite (do_find_absent t k HI Habs), (do_find_absent t' k HI'); [|by rewrite Hv].
    unfold end_. by rewrite Hv.
Qed.

(** Rebuilding the metadata for another shift keeps the entries. *)
Lemma resize_keeps (t : table) (r : Z) :
  Inv t → 41 ≤ r ≤ 61 → size t < 2 ^ (64 - r) →
  ∃ t', (t3 ← allocate_and_clear_buckets (deallocate_buckets (set_shifts t r));
         fill_buckets_from_values t3) = Ok t' ∧
        m_values t' = m_values t ∧ m_shifts t' = r ∧
        m_max_load_factor t' = m_max_load_factor t ∧
        bucket_count t' = 2 ^ (64 - r) ∧ allocated t' ∧ Inv t'.
Proof.
  intros HI Hr Hsize.
  destruct (rebuild_spec t r (proj1 HI) Hr Hsize (Inv_values_unique t HI))
    as (t' & Hrun & Hv & Hs & Hlf & Hlen & Ha).
  exists t'. do 5 (split; [done|]). split; [done|].
  split; [rewrite Hlf; apply HI|by right].
Qed.

Lemma allocated_capacity (t : table) (c : Z) :
  Inv t → m_buckets t ≠ [] →
  scaled_capacity (m_max_load_factor t) (m_shifts t) = Ok c →
  m_max_bucket_capacity t = c ∧ bucket_count t = 2 ^ (64 - m_shifts t).
Proof.
  intros [_ [(_ & Hb & _)|(HI & _ & Hsc)]] Hne Hc; [done|].
  split; [congruence|]. apply (binv_size _ _ _ _ HI).
Qed.

Lemma rehash_keeps (t : table) (count c41 : Z) :
  Inv t → scaled_capacity (m_max_load_factor t) 41 = Ok c41 →
  size t ≤ count → count ≤ c41 →
  ∃ t', rehash t count = Ok t' ∧ m_values t' = m_values t ∧ Inv t' ∧
        (∀ k, find t' k = find t k) ∧
        (∃ c, scaled_capacity (m_max_load_factor t) (m_shifts t') = Ok c ∧ count ≤ c) ∧
        (∀ r', m_shifts t' < r' ≤ 61 →
               ∃ c', scaled_capacity (m_max_load_factor t) r' = Ok c' ∧ c' < count) ∧
        (m_buckets t' ≠ [] →
           bucket_count t' = 2 ^ (64 - m_shifts t') ∧ count ≤ m_max_bucket_capacity t').
Proof.
  intros HI Hc41 Hsize Hcount.
  destruct (calc_shifts_for_size_largest t count 41 c41 (proj1 HI) ltac:(lia) Hc41 Hcount)
    as (r & Hcalc & Hr & (c & Hc & Hcc) & Hmin).
  destruct (scaled_capacity_Ok _ r (proj1 HI)) as (c' & Hc' & Hcr); [lia|].
  assert (c' = c) as -> by congruence.
  unfold rehash. rewrite Hcalc. rsimpl.
  destruct (Z.eqb_spec r (m_shifts t)) as [Heq|Hne]; cbn [negb].
  - exists t. subst r. split; [done|]. split; [done|]. split; [done|].
    split; [done|]. split; [by exists c|]. split; [done|].
    intros Hb. destruct (allocated_capacity t c HI Hb Hc) as [-> ->]. done.
  - destruct (resize_keeps t r HI) as (t' & Hrun & Hv & Hs & Hlf & Hbc & Ha & HI');
      [lia..|].
    exists t'. split; [done|]. split; [done|]. split; [done|].
    split; [by apply find_same_values|]. rewrite Hs.
    split; [by exists c|]. split; [done|]. intros _. split; [done|].
    destruct Ha as (_ & _ & Hsc). rewrite Hlf, Hs in Hsc. congruence.
Qed.

(** [rehash(count)] with a count that is not below the number of entries
    keeps every entry where it is and leaves the table with the largest
    shift up to 61, so the fewest buckets from 8 on, whose capacity reaches
    [count]: it grows or shrinks the metadata array to that size. *)
Theorem rehash_fitting (t : table) (count c41 : Z) :
  Inv t → scaled_capacity (m_max_load_factor t) 41 = Ok c41 →
  size t ≤ count → count ≤ c41 →
  ∃ t', rehash t count = Ok t' ∧ m_values t' = m_values t ∧ Inv t' ∧
        (∀ k, find t' k = find t k) ∧
        (∃ c, scaled_capacity (m_max_load_factor t) (m_shifts t') = Ok c ∧ count ≤ c) ∧
        (∀ r', m_shifts t' < r' ≤ 61 →
               ∃ c', scaled_capacity (m_max_load_factor t) r' = Ok c' ∧ c' < count) ∧
        (m_buckets t' ≠ [] →
           bucket_count t' = 2 ^ (64 - m_shifts t') ∧ count ≤ m_max_bucket_capacity t').
Proof. apply rehash_keeps. Qed.

Lemma reserve_keeps (t : table) (capa c41 : Z) :
  Inv t → scaled_capacity (m_max_load_factor t) 41 = Ok c41 → capa ≤ c41 →
  ∃ t', reserve t capa = Ok t' ∧ m_values t' = m_values t ∧ Inv t' ∧
        (∀ k, find t' k = find t k) ∧
        m_shifts t' ≤ m_shifts t ∧ bucket_count t ≤ bucket_count t' ∧
        (m_buckets t' ≠ [] → capa ≤ m_max_bucket_capacity t').
Proof.
  intros HI Hc41 Hcapa.
  destruct (calc_shifts_for_size_largest t capa 41 c41 (proj1 HI) ltac:(lia) Hc41 Hcapa)
    as (r & Hcalc & Hr & (c & Hc & Hcc) & Hmin).
  unfold reserve. rewrite Hcalc. rsimpl.
  destruct (Z.ltb_spec r (m_shifts t)) as [Hlt|Hge].
  - assert (size t < 2 ^ (64 - r) ∧ bucket_count t ≤ 2 ^ (64 - r)) as [Hsize Hbc0].
    { destruct HI as [_ [(Hv & Hb & _)|(HI & _)]].
      - unfold size, bucket_count. rewrite Hv, Hb. simpl.
        assert (0 < 2 ^ (64 - r)) by (apply Z.pow_pos_nonneg; lia). lia.
      - pose proof (binv_size _ _ _ _ HI) as Hlen. pose proof (binv_room _ _ _ _ HI).
        assert (2 ^ (64 - m_shifts t) ≤ 2 ^ (64 - r)) by (apply Z.pow_le_mono_r; lia).
        unfold size, bucket_count. lia. }
    destruct (resize_keeps t r HI) as (t' & Hrun & Hv & Hs & Hlf & Hbc & Ha & HI');
      [lia..|].
    exists t'. split; [done|]. split; [done|]. split; [done|].
    split; [by apply find_same_values|]. split; [lia|]. split; [lia|].
    intros _. destruct Ha as (_ & _ & Hsc). rewrite Hlf, Hs in Hsc. congruence.
  - exists t. split; [done|]. split; [done|]. split; [done|]. split; [done|].
    split; [lia|]. split; [lia|]. intros Hb.
    assert (1 ≤ m_shifts t ≤ r) as Hst.
    { destruct HI as [_ [(_ & Hnil & _)|(HI & _)]]; [done|].
      pose proof (binv_shifts _ _ _ _ HI). lia. }
    destruct (scaled_capacity_Ok _ (m_shifts t) (proj1 HI)) as (ct & Hct & _); [lia|].
    destruct (allocated_capacity t ct HI Hb Hct) as [-> _].
    pose proof (scaled_capacity_mono _ _ _ _ _ (proj1 HI) Hst ltac:(lia) Hct Hc). lia.
Qed.

(** [reserve(capa)] keeps every entry where it is, never makes the metadata
    array smaller, and afterwards an allocated table has room for [capa]
    entries. *)
Theorem reserve_spec (t : table) (capa c41 : Z) :
  Inv t → scaled_capacity (m_max_load_factor t) 41 = Ok c41 → capa ≤ c41 →
  ∃ t', reserve t capa = Ok t' ∧ m_values t' = m_values t ∧ Inv t' ∧
        (∀ k, find t' k = find t k) ∧
        m_shifts t' ≤ m_shifts t ∧ bucket_count t ≤ bucket_count t' ∧
        (m_buckets t' ≠ [] → capa ≤ m_max_bucket_capacity t').
Proof. apply reserve_keeps. Qed.

Lemma copy_keeps (t other : table) (c41 : Z) :
  Inv other → scaled_capacity (m_max_load_factor other) 41 = Ok c41 →
  size other ≤ c41 →
  ∃ t', table_copy other = Ok t' ∧ copy_assign false t other = Ok t' ∧
        m_values t' = m_values other ∧
        m_max_load_factor t' = m_max_load_factor other ∧ Inv t' ∧
        (∀ k, find t' k = find other k) ∧
        (m_values other = [] → m_buckets t' = []) ∧
        (m_values other ≠ [] →
           bucket_count t' = 2 ^ (64 - m_shifts t') ∧
           size other ≤ m_max_bucket_capacity t' ∧
           ∀ r', m_shifts t' < r' ≤ 61 →
                 ∃ c', scaled_capacity (m_max_load_factor other) r' = Ok c' ∧
                       c' < size other).
Proof.
  intros HI Hc41 Hsize.
  change (copy_assign false t other) with (table_copy other).
  unfold table_copy, init_from_values, empty. cbn [m_values].
  set (t0 := mk_table (m_values other) [] 0 (m_max_load_factor other) INITIAL_SHIFTS).
  case_bool_decide as Hnil; cbn [negb].
  - assert (Inv t0) as HI0 by (split; [apply HI|by left]).
    exists t0. do 4 (split; [done|]). split; [done|].
    split; [by apply find_same_values|]. split; [done|]. by intros [].
  - destruct (calc_shifts_for_size_largest t0 (size other) 41 c41 (proj1 HI) ltac:(lia)
                Hc41 Hsize) as (r & Hcalc & Hr & (c & Hc & Hcc) & Hmin).
    change (size t0) with (size other). rewrite Hcalc. rsimpl.
    change (m_max_load_factor t0) with (m_max_load_factor other) in Hc, Hmin.
    destruct (scaled_capacity_Ok _ r (proj1 HI)) as (c' & Hc' & Hcr); [lia|].
    assert (c' = c) as -> by congruence.
    change (set_shifts t0 r) with (deallocate_buckets (set_shifts t0 r)).
    destruct (rebuild_spec t0 r (proj1 HI)) as (t' & Hrun & Hv & Hs & Hlf & Hlen & Ha);
      [lia| |apply (Inv_values_unique other HI)|].
    { change (m_values t0) with (m_values other). unfold size in Hcc. lia. }
    assert (Inv t') as HI' by (split; [rewrite Hlf; apply HI|by right]).
    exists t'. do 4 (split; [done|]). split; [done|].
    split; [by apply find_same_values|]. split; [done|]. intros _.
    rewrite Hs. split; [done|]. split; [|done].
    destruct Ha as (_ & _ & Hsc). rewrite Hlf, Hs in Hsc.
    change (m_max_load_factor t0) with (m_max_load_factor other) in Hsc. congruence.
Qed.

(** The copy constructor and the copy assignment give a table with the
    entries of the other one, in their order and found like there, its
    load factor, and metadata of the fewest buckets from 8 on whose capacity
    holds them; of a table without entries they give one without
    metadata. *)
Theorem copy_spec (t other : table) (c41 : Z) :
  Inv other → scaled_capacity (m_max_load_factor other) 41 = Ok c41 →
  size other ≤ c41 →
  ∃ t', table_copy other = Ok t' ∧ copy_assign false t other = Ok t' ∧
        m_values t' = m_values other ∧
        m_max_load_factor t' = m_max_load_factor other ∧ Inv t' ∧
        (∀ k, find t' k = find other k) ∧
        (m_values other = [] → m_buckets t' = []) ∧
        (m_values other ≠ [] →
           bucket_count t' = 2 ^ (64 - m_shifts t') ∧
           size other ≤ m_max_bucket_capacity t' ∧
           ∀ r', m_shifts t' < r' ≤ 61 →
                 ∃ c', scaled_capacity (m_max_load_factor other) r' = Ok c' ∧
                       c' < size other).
Proof. apply copy_keeps. Qed.

(** ** [std::erase_if] *)

Lemma erase_if_loop_spec (pred : Key * T → bool) (V0 : list (Key * T)) (i : nat) :
  ∀ (t : table) (K : list (Key * T)) (fuel : nat),
    Inv t → m_values t = take i V0 ++ K → (i ≤ length V0)%nat →
    K ≡ₚ filter (λ e, pred e = false) (drop i V0) → (i < fuel)%nat →
    ∃ t', erase_if_loop fuel pred t (Z.of_nat i) = Ok t' ∧ Inv t' ∧
          m_values t' ≡ₚ filter (λ e, pred e = false) V0.
Proof.
  induction i as [|i IH]; intros t K fuel HI Hv Hi HK Hfuel.
  - destruct fuel; [lia|]. cbn [erase_if_loop]. unfold begin_. cbn [Z.of_nat Z.eqb negb].
    exists t. split; [done|]. split; [done|]. by rewrite Hv, take_0, HK, drop_0.
  - destruct fuel; [lia|]. cbn [erase_if_loop]. unfold begin_.
    replace (0 =? Z.of_nat (S i)) with false by (symmetry; apply Z.eqb_neq; lia).
    cbn [negb]. replace (Z.of_nat (S i) - 1) with (Z.of_nat i) by lia.
    destruct (lookup_lt_is_Some_2 V0 i) as [x Hx]; [lia|].
    rewrite (take_S_r _ _ _ Hx), <- app_assoc in Hv. cbn [app] in Hv.
    assert (length (take i V0) = i) as Hlen by (rewrite length_take; lia).
    assert (m_values t !! i = Some x) as Hix.
    { rewrite Hv, lookup_app_r by lia. by rewrite Hlen, Nat.sub_diag. }
    rewrite (at_index_lookup _ _ _ Hix). rsimpl.
    destruct (pred x) eqn:Hpx.
    + destruct (erase_spec t i HI) as (t1 & -> & Hv1 & HI1); [by eapply lookup_lt_Some|].
      rsimpl.
      assert (∃ K1, m_values t1 = take i V0 ++ K1 ∧ K1 ≡ₚ K) as (K1 & Hv1' & HK1).
      { rewrite Hv1, Hv. destruct K as [|y K' _] using rev_ind.
        - exists []. split; [|done]. rewrite app_nil_r, <- Hlen at 1.
          rewrite Hlen at 1. rewrite <- Hlen at 2. by rewrite swap_remove_last.
        - exists (y :: K'). split.
          + rewrite <- Hlen at 2. by rewrite swap_remove_middle.
          + by rewrite Permutation_app_comm. }
      apply (IH t1 K1 fuel HI1 Hv1'); [lia| |lia].
      rewrite (drop_S _ _ _ Hx), filter_cons_False by (by rewrite Hpx). by rewrite HK1.
    + apply (IH t (x :: K) fuel HI Hv); [lia| |lia].
      rewrite (drop_S _ _ _ Hx), filter_cons_True by done. by rewrite HK.
Qed.

(** [std::erase_if] removes exactly the entries that satisfy the predicate.
    What it returns is the new size minus the old one in [size_t]: 0 when
    nothing was removed, and [2 ^ 64] minus the number of removed entries
    otherwise. *)
Theorem erase_if_spec (t : table) (pred : Key * T → bool) :
  Inv t →
  ∃ t' r, erase_if t pred = Ok (t', r) ∧ Inv t' ∧
          m_values t' ≡ₚ filter (λ e, pred e = false) (m_values t) ∧
          (∀ k x, (k, x) ∈ m_values t →
                  if pred (k, x) then find t' k = Ok (end_ t')
                  else ∃ j, find t' k = Ok (Z.of_nat j) ∧ m_values t' !! j = Some (k, x)) ∧
          r = (2 ^ 64 - (size t - size t')) mod 2 ^ 64 ∧ 0 ≤ size t - size t'.
Proof.
  intros HI. unfold erase_if. cbv zeta.
  destruct (erase_if_loop_spec pred (m_values t) (length (m_values t)) t []
              (S (length (m_values t))) HI) as (t' & Hrun & HI' & Hperm);
    [by rewrite take_ge, app_nil_r|done|by rewrite drop_all|lia|].
  unfold end_. rewrite Hrun. rsimpl.
  assert (size t' ≤ size t) as Hle.
  { unfold size. rewrite Hperm. pose proof (length_filter (λ e, pred e = false) (m_values t)).
    lia. }
  exists t', (u64 (size t' - size t)). split; [done|]. split; [done|]. split; [done|].
  split; [|split; [|lia]].
  - intros k x Hel. destruct (pred (k, x)) eqn:Hp.
    + apply (do_find_absent t' k HI'). intros j y Hj.
      apply list_elem_of_lookup_2 in Hj. rewrite Hperm in Hj.
      apply list_elem_of_filter in Hj as [Hpy Hy].
      apply list_elem_of_lookup in Hel as [i Hi]. apply list_elem_of_lookup in Hy as [i' Hi'].
      pose proof (Inv_key_index t i i' k x y HI Hi Hi') as <-.
      assert (x = y) as <- by congruence. congruence.
    + assert ((k, x) ∈ m_values t') as Hel'.
      { rewrite Hperm. by apply list_elem_of_filter. }
      apply list_elem_of_lookup in Hel' as [j Hj]. exists j.
      split; [by apply (do_find_present t' j k x)|done].
  - unfold u64. replace (2 ^ 64 - (size t - size t')) with (size t' - size t + 1 * 2 ^ 64)
      by lia.
    by rewrite Z.mod_add.
Qed.

(** * The invariants along the runs of a table *)

(** A load factor of at least one half. *)
Definition half_or_more (mlf : dyadic) : Prop := 2 ^ (- binexp mlf - 1) ≤ mantissa mlf.

Lemma scaled_capacity_half (mlf : dyadic) (s c : Z) :
  lf_ok mlf → half_or_more mlf → 1 ≤ s ≤ 61 →
  scaled_capacity mlf s = Ok c → 2 ^ (63 - s) ≤ c.
Proof.
  intros (Hm & He & Hlt) Hhalf Hs. unfold half_or_more in Hhalf. unfold scaled_capacity.
  rewrite u32_small by lia. destruct (Z.ltb_spec (64 - s) 64); [|lia].
  unfold float_to_uint64, mul_pow2. cbn [mantissa binexp].
  set (M := mantissa mlf) in *. set (e := binexp mlf) in *.
  set (v := if 0 <=? e + (64 - s) then _ else _).
  assert (2 ^ (63 - s) ≤ v) as Hv.
  { unfold v. destruct (Z.leb_spec 0 (e + (64 - s))) as [H1|H1].
    - assert (2 ^ (- e - 1) * 2 ^ (e + (64 - s)) = 2 ^ (63 - s)) as <-.
      { rewrite <- Z.pow_add_r by lia. f_equal. lia. }
      apply Z.mul_le_mono_nonneg_r; [apply Z.pow_nonneg; lia|done].
    - assert (0 < 2 ^ (- (e + (64 - s)))) by (apply Z.pow_pos_nonneg; lia).
      rewrite Z.quot_div_nonneg by lia. apply Z.div_le_lower_bound; [done|].
      assert (2 ^ (- (e + (64 - s))) * 2 ^ (63 - s) = 2 ^ (- e - 1)) as ->; [|done].
      rewrite <- Z.pow_add_r by lia. f_equal. lia. }
  destruct ((0 <=? v) && (v <? 2 ^ 64)); [|done]. by intros [= <-].
Qed.

(** The growth before an insertion leaves room for the new entry. *)
Lemma grow_if_full_capacity (t : table) :
  Inv t → half_or_more (m_max_load_factor t) → can_grow t →
  ∃ t0, (if is_full t then increase_size t else Ok t) = Ok t0 ∧
        m_values t0 = m_values t ∧ m_max_load_factor t0 = m_max_load_factor t ∧
        size t < m_max_bucket_capacity t0.
Proof.
  intros [Hlf Hst] Hhalf Hgrow. unfold can_grow in Hgrow.
  destruct (is_full t) eqn:Hfull.
  - specialize (Hgrow eq_refl).
    assert (m_shifts t ≤ 61 ∧
            Z.of_nat (length (m_values t)) + 1 ≤ 2 ^ (64 - m_shifts t)) as [Hs Hsz].
    { destruct Hst as [(Hv & _ & _ & Hs)|[HI _]].
      - rewrite Hv, Hs. unfold INITIAL_SHIFTS. simpl. lia.
      - pose proof (binv_shifts _ _ _ _ HI). pose proof (binv_room _ _ _ _ HI).
        pose proof (binv_size _ _ _ _ HI). lia. }
    unfold increase_size. rewrite u8_small by lia.
    assert (2 ^ (64 - (m_shifts t - 1)) = 2 * 2 ^ (64 - m_shifts t)) as Hdbl.
    { replace (64 - (m_shifts t - 1)) with (64 - m_shifts t + 1) by lia.
      apply pow2_double. lia. }
    destruct (rebuild_spec t (m_shifts t - 1)) as (t' & -> & Hv' & Hs' & Hlf' & Hn' & Ha');
      [done|lia|lia|by apply Inv_values_unique|].
    exists t'. do 3 (split; [done|]).
    destruct Ha' as (_ & _ & Hsc). rewrite Hlf', Hs' in Hsc.
    pose proof (scaled_capacity_half (m_max_load_factor t) (m_shifts t - 1) _ Hlf Hhalf
                  ltac:(lia) Hsc) as Hc.
    replace (63 - (m_shifts t - 1)) with (64 - m_shifts t) in Hc by lia.
    unfold size. lia.
  - exists t. do 3 (split; [done|]). unfold is_full in Hfull. by apply Z.leb_gt in Hfull.
Qed.

(** What an insertion or an erasure leaves of the sizing of the table. *)
Definition same_policy (t t' : table) : Prop :=
  m_shifts t' = m_shifts t ∧ m_max_load_factor t' = m_max_load_factor t ∧
  m_max_bucket_capacity t' = m_max_bucket_capacity t.

Lemma place_and_shift_up_policy (t t' : table) (b : Bucket) (p : nat) :
  place_and_shift_up t b p = Ok t' → same_policy t t' ∧ m_values t' = m_values t.
Proof.
  unfold place_and_shift_up. intros H. apply bind_Ok in H as (bs & _ & H).
  by injection H as <-.
Qed.

Lemma do_erase_policy (t t' : table) (q : nat) : do_erase t q = Ok t' → same_policy t t'.
Proof.
  intros H. unfold do_erase in H. cbv zeta in H.
  apply bind_Ok in H as (b & _ & H). apply bind_Ok in H as ([bs1 q1] & _ & H).
  destruct (negb _).
  - apply bind_Ok in H as (old & _ & H). apply bind_Ok in H as (back & _ & H).
    apply bind_Ok in H as (q2 & _ & H). apply bind_Ok in H as (b2 & _ & H).
    apply bind_Ok in H as (vals & _ & H). by injection H as <-.
  - apply bind_Ok in H as (vals & _ & H). by injection H as <-.
Qed.

Lemma erase_policy (t t' : table) (it r : Z) : erase t it = Ok (t', r) → same_policy t t'.
Proof.
  intros H. unfold erase in H. cbv zeta in H.
  apply bind_Ok in H as (vt & _ & H). apply bind_Ok in H as (q & _ & H).
  apply bind_Ok in H as (t1 & Herase & H). injection H as <- <-.
  by apply do_erase_policy in Herase.
Qed.

Lemma erase_key_policy (t t' : table) (k : Key) (n : Z) :
  erase_key t k = Ok (t', n) → same_policy t t'.
Proof.
  intros H. unfold erase_key, do_erase_key in H.
  apply bind_Ok in H as ([daf q] & _ & H). apply bind_Ok in H as ([daf' q'] & _ & H).
  apply bind_Ok in H as (b & _ & H). destruct (negb _).
  - by injection H as <- <-.
  - apply bind_Ok in H as (t1 & Herase & H). injection H as <- <-.
    by apply do_erase_policy in Herase.
Qed.

Lemma erase_if_loop_policy (pred : Key * T → bool) (fuel : nat) :
  ∀ (t t' : table) (it : Z), erase_if_loop fuel pred t it = Ok t' → same_policy t t'.
Proof.
  induction fuel as [|fuel IH]; intros t t' it H; [done|].
  cbn [erase_if_loop] in H. destruct (negb _); [|by injection H as <-].
  cbv zeta in H. apply bind_Ok in H as (vt & _ & H). destruct (pred vt).
  - apply bind_Ok in H as ([t1 r] & Herase & H). apply erase_policy in Herase.
    apply IH in H. destruct Herase as (? & ? & ?), H as (? & ? & ?).
    repeat split; congruence.
  - by apply IH in H.
Qed.

(** The state of a table with the load factor it is constructed with: the
    index invariant holds and the entries are within the capacity. *)
Definition healthy (t : table) : Prop :=
  Inv t ∧ m_max_load_factor t = float_0_8 ∧ size t ≤ m_max_bucket_capacity t.

Lemma half_or_more_float_0_8 : half_or_more float_0_8.
Proof. by vm_compute. Qed.

Lemma scaled_capacity_float_0_8 : scaled_capacity float_0_8 41 = Ok 6710886.
Proof. reflexivity. Qed.

Lemma healthy_growable (t : table) (n : Z) :
  healthy t → size t + n ≤ 6710886 → growable t n.
Proof.
  intros (_ & Hlf & _) Hn. exists 6710886. rewrite Hlf. split; [reflexivity|done].
Qed.

Lemma healthy_can_grow (t : table) : healthy t → size t < 6710886 → can_grow t.
Proof.
  intros Hh Hn. apply (growable_can_grow t 1); [apply Hh| |lia].
  apply healthy_growable; [done|lia].
Qed.

Lemma healthy_half (t : table) : healthy t → half_or_more (m_max_load_factor t).
Proof. intros (_ & -> & _). apply half_or_more_float_0_8. Qed.

Lemma emplace_capacity (t t' : table) (v : Key * T) (r : Z * bool) :
  Inv t → half_or_more (m_max_load_factor t) → can_grow t →
  emplace t v = Ok (t', r) → size t' ≤ m_max_bucket_capacity t'.
Proof.
  intros HI Hhalf Hgrow H.
  destruct (grow_if_full_capacity t HI Hhalf Hgrow) as (t0 & Hrun & Hv0 & _ & Hcap).
  unfold emplace in H. rewrite Hrun in H. cbn [mbind result_bind] in H. cbv zeta in H.
  apply bind_Ok in H as (val & _ & H). apply bind_Ok in H as (p & _ & H).
  destruct p as [b|daf q].
  - cbn [set_values m_values] in H. rewrite pop_back_app in H.
    cbn [mbind result_bind] in H. injection H as <- _.
    unfold size in *. cbn [set_values m_values m_max_bucket_capacity]. rewrite Hv0. lia.
  - apply bind_Ok in H as (t2 & Hplace & H). injection H as <- _.
    apply place_and_shift_up_policy in Hplace as [(_ & _ & Hc2) Hv2].
    unfold size in *. rewrite Hc2, Hv2. cbn [set_values m_values m_max_bucket_capacity].
    rewrite length_app, Hv0. simpl. lia.
Qed.

Lemma try_emplace_capacity (t t' : table) (k : Key) (x : T) (r : Z * bool) :
  Inv t → half_or_more (m_max_load_factor t) → can_grow t →
  try_emplace t k x = Ok (t', r) → size t' ≤ m_max_bucket_capacity t'.
Proof.
  intros HI Hhalf Hgrow H.
  destruct (grow_if_full_capacity t HI Hhalf Hgrow) as (t0 & Hrun & Hv0 & _ & Hcap).
  unfold try_emplace, do_try_emplace in H. rewrite Hrun in H.
  cbn [mbind result_bind] in H. cbv zeta in H.
  apply bind_Ok in H as (p & _ & H). destruct p as [b|daf q].
  - injection H as <- _. unfold size in *. rewrite Hv0. lia.
  - apply bind_Ok in H as (t2 & Hplace & H). injection H as <- _.
    apply place_and_shift_up_policy in Hplace as [(_ & _ & Hc2) Hv2].
    unfold size in *. rewrite Hc2, Hv2. cbn [set_values m_values m_max_bucket_capacity].
    rewrite length_app, Hv0. simpl. lia.
Qed.

Lemma emplace_healthy (t t' : table) (v : Key * T) (r : Z * bool) :
  healthy t → size t < 6710886 → emplace t v = Ok (t', r) → healthy t'.
Proof.
  intros Hh Hn H. pose proof (healthy_can_grow t Hh Hn) as Hgrow.
  pose proof (healthy_half t Hh) as Hhalf. destruct Hh as (HI & Hlf & _).
  pose proof (emplace_capacity t t' v r HI Hhalf Hgrow H) as Hcap.
  destruct v as [k x].
  destruct (key_present_or_absent (m_values t) k) as [(i & x0 & Hi)|Habs].
  - destruct (emplace_present t i k x x0 HI Hgrow Hi) as (t1 & Hrun & _ & HI1 & _ & Hlf1).
    rewrite Hrun in H. injection H as <- _. split; [done|]. split; [congruence|done].
  - destruct (emplace_absent t k x HI Hgrow Habs) as (t1 & Hrun & _ & HI1 & _ & Hlf1).
    rewrite Hrun in H. injection H as <- _. split; [done|]. split; [congruence|done].
Qed.

Lemma try_emplace_healthy (t t' : table) (k : Key) (x : T) (r : Z * bool) :
  healthy t → size t < 6710886 → try_emplace t k x = Ok (t', r) → healthy t'.
Proof.
  intros Hh Hn H. pose proof (healthy_can_grow t Hh Hn) as Hgrow.
  pose proof (healthy_half t Hh) as Hhalf. destruct Hh as (HI & Hlf & _).
  pose proof (try_emplace_capacity t t' k x r HI Hhalf Hgrow H) as Hcap.
  destruct (key_present_or_absent (m_values t) k) as [(i & x0 & Hi)|Habs].
  - destruct (try_emplace_present t i k x x0 HI Hgrow Hi)
      as (t1 & Hrun & _ & HI1 & _ & Hlf1).
    rewrite Hrun in H. injection H as <- _. split; [done|]. split; [congruence|done].
  - destruct (try_emplace_absent t k x HI Hgrow Habs) as (t1 & Hrun & _ & HI1 & _ & Hlf1).
    rewrite Hrun in H. injection H as <- _. split; [done|]. split; [congruence|done].
Qed.

Lemma insert_or_assign_healthy (t t' : table) (k : Key) (x : T) (r : Z * bool) :
  healthy t → size t < 6710886 → insert_or_assign t k x = Ok (t', r) → healthy t'.
Proof.
  intros Hh Hn H. unfold insert_or_assign, do_insert_or_assign in H.
  apply bind_Ok in H as ([t1 [it inserted]] & Htry & H).
  pose proof (try_emplace_healthy t t1 k x _ Hh Hn Htry) as (HI1 & Hlf1 & Hcap1).
  destruct inserted; cbn [negb] in H; [by injection H as <- _|].
  apply bind_Ok in H as ([k0 x0] & Hat & H). injection H as <- _. cbn [fst].
  apply at_index_Ok in Hat as [Hit Hat].
  split; [|split; [done|]].
  - pose proof (healthy_can_grow t Hh Hn) as Hgrow.
    destruct (key_present_or_absent (m_values t) k) as [(i & x1 & Hi)|Habs].
    + destruct (try_emplace_present t i k x x1 (proj1 Hh) Hgrow Hi)
        as (t2 & Hrun & Hv2 & _).
      rewrite Hrun in Htry. injection Htry as -> <-. rewrite Nat2Z.id in *.
      assert (k0 = k) as -> by (rewrite Hv2 in Hat; congruence).
      by apply (Inv_overwrite t1 i k x x0).
    + destruct (try_emplace_absent t k x (proj1 Hh) Hgrow Habs) as (t2 & Hrun & _).
      rewrite Hrun in Htry. by injection Htry.
  - unfold size in *. cbn [set_values m_values m_max_bucket_capacity].
    by rewrite length_insert.
Qed.

Lemma index_op_healthy (value_init : T) (t t' : table) (k : Key) (y : T) :
  healthy t → size t < 6710886 → index_op value_init t k = Ok (t', y) → healthy t'.
Proof.
  intros Hh Hn H. unfold index_op in H.
  apply bind_Ok in H as ([t1 [it inserted]] & Htry & H).
  apply bind_Ok in H as (vt & _ & H). injection H as <- _.
  by apply (try_emplace_healthy t t1 k value_init (it, inserted) Hh Hn).
Qed.

Lemma Inv_capacity_nonneg (t : table) : Inv t → 0 ≤ m_max_bucket_capacity t.
Proof. intros [_ [(_ & _ & -> & _)|(_ & Hc & _)]]; lia. Qed.

Lemma healthy_table_ctor (c : Z) : healthy (table_ctor c).
Proof. split; [apply Inv_table_ctor|]. by split. Qed.

Lemma insert_range_healthy (l : list (Key * T)) :
  ∀ t t' : table, healthy t → size t + Z.of_nat (length l) ≤ 6710886 →
    insert_range t l = Ok t' → healthy t'.
Proof.
  induction l as [|v l IH]; intros t t' Hh Hn H.
  - by injection H as <-.
  - cbn [insert_range] in H. apply bind_Ok in H as ([t1 r] & Hins & H).
    simpl length in Hn.
    pose proof (emplace_healthy t t1 v r Hh ltac:(lia) Hins) as Hh1.
    assert (size t1 ≤ size t + 1) as Hsz.
    { assert (can_grow t) as Hgrow by (apply healthy_can_grow; [done|lia]).
      destruct v as [k x].
      destruct (key_present_or_absent (m_values t) k) as [(i & x0 & Hi)|Habs].
      - destruct (emplace_present t i k x x0 (proj1 Hh) Hgrow Hi) as (t2 & Hrun & Hv & _).
        unfold insert in Hins. rewrite Hrun in Hins. injection Hins as <- _.
        unfold size. rewrite Hv. lia.
      - destruct (emplace_absent t k x (proj1 Hh) Hgrow Habs) as (t2 & Hrun & Hv & _).
        unfold insert in Hins. rewrite Hrun in Hins. injection Hins as <- _.
        unfold size. rewrite Hv, length_app. simpl. lia. }
    apply (IH t1 t' Hh1); [lia|done].
Qed.

Lemma erase_healthy (t t' : table) (it r : Z) :
  healthy t → erase t it = Ok (t', r) → healthy t'.
Proof.
  intros (HI & Hlf & Hcap) H. pose proof (erase_policy t t' it r H) as (_ & Hlf' & Hcap').
  assert (∃ i, it = Z.of_nat i ∧ (i < length (m_values t))%nat) as (i & -> & Hi).
  { unfold erase in H. apply bind_Ok in H as (vt & Hat & _).
    apply at_index_Ok in Hat as [Hit Hat]. exists (Z.to_nat it).
    split; [lia|by eapply lookup_lt_Some]. }
  destruct (erase_spec t i HI Hi) as (t1 & Hrun & Hv & HI1).
  rewrite Hrun in H. injection H as <- _.
  split; [done|]. split; [congruence|]. rewrite Hcap'. unfold size in *.
  rewrite Hv, swap_remove_length; [lia|]. intros Hnil. rewrite Hnil in Hi. simpl in Hi. lia.
Qed.

Lemma erase_key_healthy (t t' : table) (k : Key) (n : Z) :
  healthy t → erase_key t k = Ok (t', n) → healthy t'.
Proof.
  intros (HI & Hlf & Hcap) H.
  pose proof (erase_key_policy t t' k n H) as (_ & Hlf' & Hcap').
  destruct (key_present_or_absent (m_values t) k) as [(i & x & Hi)|Habs].
  - destruct (erase_key_present t i k x HI Hi) as (t1 & Hrun & Hv & HI1 & _).
    rewrite Hrun in H. injection H as <- _.
    split; [done|]. split; [congruence|]. rewrite Hcap'. unfold size in *.
    rewrite Hv, swap_remove_length; [lia|]. intros Hnil. by rewrite Hnil in Hi.
  - destruct HI as [Hlfok [(_ & Hb & _)|Ha]].
    + unfold erase_key, do_erase_key, next_while_less in H. rewrite Hb in H. done.
    + rewrite (erase_key_absent t k Ha Habs) in H. injection H as <- _.
      split; [by split; [|right]|]. by split.
Qed.

Lemma erase_if_healthy (t t' : table) (pred : Key * T → bool) (r : Z) :
  healthy t → erase_if t pred = Ok (t', r) → healthy t'.
Proof.
  intros (HI & Hlf & Hcap) H. unfold erase_if in H. cbv zeta in H.
  apply bind_Ok in H as (t1 & Hloop & H). injection H as <- _.
  pose proof (erase_if_loop_policy pred _ _ _ _ Hloop) as (_ & Hlf' & Hcap').
  destruct (erase_if_loop_spec pred (m_values t) (length (m_values t)) t []
              (S (length (m_values t))) HI) as (t2 & Hrun & HI2 & Hperm);
    [by rewrite take_ge, app_nil_r|done|by rewrite drop_all|lia|].
  unfold end_ in Hloop. rewrite Hrun in Hloop. injection Hloop as <-.
  split; [done|]. split; [congruence|]. rewrite Hcap'. unfold size in *. rewrite Hperm.
  pose proof (length_filter (λ e, pred e = false) (m_values t)). lia.
Qed.

Lemma clear_healthy (t : table) : healthy t → healthy (clear t).
Proof.
  intros (HI & Hlf & Hcap). split; [by apply Inv_clear|]. split; [done|].
  change (size (clear t)) with 0.
  change (m_max_bucket_capacity (clear t)) with (m_max_bucket_capacity t).
  by apply Inv_capacity_nonneg.
Qed.

Lemma rehash_healthy (t t' : table) (count : Z) :
  healthy t → size t ≤ count → count ≤ 6710886 → rehash t count = Ok t' → healthy t'.
Proof.
  intros (HI & Hlf & Hcap) Hsize Hcount H.
  destruct (rehash_keeps t count 6710886 HI) as (t1 & Hrun & Hv & HI1 & _ & _ & _ & Hc);
    [by rewrite Hlf|done..|].
  rewrite Hrun in H. injection H as <-.
  assert (m_max_load_factor t1 = float_0_8) as Hlf1.
  { unfold rehash in Hrun. apply bind_Ok in Hrun as (sh & _ & Hrun). destruct (negb _).
    - apply bind_Ok in Hrun as (t3 & Halloc & Hfill).
      unfold allocate_and_clear_buckets in Halloc. destruct (_ <? 64); [|done].
      apply bind_Ok in Halloc as (c & _ & Halloc). injection Halloc as <-.
      unfold fill_buckets_from_values in Hfill.
      assert (∀ todo idx (a b : table), fill_buckets_loop todo idx a = Ok b →
                m_max_load_factor b = m_max_load_factor a) as Hfl.
      { induction todo as [|todo IH]; intros idx a b Hab; [by injection Hab as <-|].
        cbn [fill_buckets_loop] in Hab.
        apply bind_Ok in Hab as (vt & _ & Hab). apply bind_Ok in Hab as ([d q] & _ & Hab).
        apply bind_Ok in Hab as (a1 & Hplace & Hab).
        apply place_and_shift_up_policy in Hplace as [(_ & Hl & _) _].
        apply IH in Hab. congruence. }
      apply Hfl in Hfill. by rewrite Hfill.
    - by injection Hrun as <-. }
  split; [done|]. split; [done|].
  destruct (decide (m_buckets t1 = [])) as [Hnil|Hne].
  - destruct HI1 as [_ [(Hv1 & _ & Hc1 & _)|(HIb & Hcb & _)]].
    + unfold size. rewrite Hv1, Hc1. done.
    + rewrite Hnil in Hcb. simpl in Hcb. lia.
  - destruct (Hc Hne) as [_ Hcc]. unfold size in *. rewrite Hv. lia.
Qed.

Lemma fill_buckets_loop_policy (todo : nat) :
  ∀ idx (a b : table), fill_buckets_loop todo idx a = Ok b →
    same_policy a b ∧ m_values b = m_values a.
Proof.
  induction todo as [|todo IH]; intros idx a b Hab; [by injection Hab as <-|].
  cbn [fill_buckets_loop] in Hab.
  apply bind_Ok in Hab as (vt & _ & Hab). apply bind_Ok in Hab as ([d q] & _ & Hab).
  apply bind_Ok in Hab as (a1 & Hplace & Hab).
  apply place_and_shift_up_policy in Hplace as [(? & ? & ?) ?].
  apply IH in Hab as [(? & ? & ?) ?]. repeat split; congruence.
Qed.

Lemma reserve_healthy (t t' : table) (capa : Z) :
  healthy t → capa ≤ 6710886 → reserve t capa = Ok t' → healthy t'.
Proof.
  intros (HI & Hlf & Hcap) Hcapa H.
  destruct (reserve_keeps t capa 6710886 HI) as (t1 & Hrun & Hv & HI1 & _ & Hs & Hbc & _);
    [by rewrite Hlf|done|].
  rewrite Hrun in H. injection H as <-.
  assert (m_max_load_factor t1 = float_0_8 ∧
          (m_shifts t1 = m_shifts t → m_max_bucket_capacity t1 = m_max_bucket_capacity t))
    as [Hlf1 Hsame].
  { unfold reserve in Hrun. apply bind_Ok in Hrun as (sh & _ & Hrun).
    destruct (Z.ltb_spec sh (m_shifts t)).
    - apply bind_Ok in Hrun as (t3 & Halloc & Hfill).
      unfold allocate_and_clear_buckets in Halloc. destruct (_ <? 64); [|done].
      apply bind_Ok in Halloc as (c & _ & Halloc). injection Halloc as <-.
      apply fill_buckets_loop_policy in Hfill as [(Hs3 & Hl3 & _) _].
      cbn [m_shifts m_max_load_factor deallocate_buckets set_shifts] in Hs3, Hl3.
      split; [congruence|]. intros Heq. lia.
    - by injection Hrun as <-. }
  split; [done|]. split; [done|]. unfold size in *. rewrite Hv.
  destruct (decide (m_shifts t1 = m_shifts t)) as [Heq|Hne]; [rewrite (Hsame Heq); lia|].
  destruct HI1 as [Hlfok [(Hv1 & _ & Hc1 & _)|(HIb & Hcb & Hsc1)]].
  { by rewrite <- Hv, Hv1, Hc1. }
  destruct HI as [_ [(Hv0 & _)|(HIa & Hca & Hsc0)]].
  { rewrite Hv0. simpl. lia. }
  rewrite Hlf1 in Hsc1. rewrite Hlf in Hsc0.
  pose proof (binv_shifts _ _ _ _ HIb). pose proof (binv_shifts _ _ _ _ HIa).
  assert (lf_ok float_0_8) as Hok by (by rewrite <- Hlf1).
  pose proof (scaled_capacity_mono float_0_8 (m_shifts t1) (m_shifts t) _ _ Hok
                ltac:(lia) ltac:(lia) Hsc1 Hsc0). lia.
Qed.

Lemma table_copy_healthy (other t' : table) :
  healthy other → size other ≤ 6710886 → table_copy other = Ok t' → healthy t'.
Proof.
  intros (HI & Hlf & Hcap) Hsize H.
  destruct (copy_keeps other other 6710886 HI)
    as (t1 & Hrun & _ & Hv & Hlf1 & HI1 & _ & Hempty & Hfull); [by rewrite Hlf|done|].
  rewrite Hrun in H. injection H as <-.
  split; [done|]. split; [congruence|].
  destruct (decide (m_values other = [])) as [Hnil|Hne].
  - unfold size. rewrite Hv, Hnil. simpl. by apply Inv_capacity_nonneg.
  - destruct (Hfull Hne) as (_ & Hc & _). unfold size in *. rewrite Hv. lia.
Qed.

(** The runs of a table: the states that the operations lead to from a
    constructed table while it holds no more than 6710886 entries, the
    capacity of [2 ^ 23] buckets, and [rehash] is not asked for less than
    the table holds. *)
Inductive run : table → Prop :=
  | run_ctor (bucket_count : Z) : run (table_ctor bucket_count)
  | run_from_range (l : list (Key * T)) (bucket_count : Z) (t' : table) :
      Z.of_nat (length l) ≤ 6710886 →
      table_from_range l bucket_count = Ok t' → run t'
  | run_copy (t t' : table) :
      run t → size t ≤ 6710886 → table_copy t = Ok t' → run t'
  | run_copy_assign (same_object : bool) (t other t' : table) :
      run t → run other → (same_object = true → t = other) → size other ≤ 6710886 →
      copy_assign same_object t other = Ok t' → run t'
  | run_assign_list (t t' : table) (l : list (Key * T)) :
      run t → Z.of_nat (length l) ≤ 6710886 → assign_list t l = Ok t' → run t'
  | run_emplace (t t' : table) (v : Key * T) (r : Z * bool) :
      run t → size t < 6710886 → emplace t v = Ok (t', r) → run t'
  | run_insert (t t' : table) (v : Key * T) (r : Z * bool) :
      run t → size t < 6710886 → insert t v = Ok (t', r) → run t'
  | run_insert_range (t t' : table) (l : list (Key * T)) :
      run t → size t + Z.of_nat (length l) ≤ 6710886 →
      insert_range t l = Ok t' → run t'
  | run_try_emplace (t t' : table) (k : Key) (x : T) (r : Z * bool) :
      run t → size t < 6710886 → try_emplace t k x = Ok (t', r) → run t'
  | run_insert_or_assign (t t' : table) (k : Key) (x : T) (r : Z * bool) :
      run t → size t < 6710886 → insert_or_assign t k x = Ok (t', r) → run t'
  | run_index_op (value_init : T) (t t' : table) (k : Key) (y : T) :
      run t → size t < 6710886 → index_op value_init t k = Ok (t', y) → run t'
  | run_erase (t t' : table) (it r : Z) :
      run t → erase t it = Ok (t', r) → run t'
  | run_erase_key (t t' : table) (k : Key) (n : Z) :
      run t → erase_key t k = Ok (t', n) → run t'
  | run_erase_if (t t' : table) (pred : Key * T → bool) (r : Z) :
      run t → erase_if t pred = Ok (t', r) → run t'
  | run_clear (t : table) : run t → run (clear t)
  | run_reserve (t t' : table) (capa : Z) :
      run t → capa ≤ 6710886 → reserve t capa = Ok t' → run t'
  | run_rehash (t t' : table) (count : Z) :
      run t → size t ≤ count → count ≤ 6710886 → rehash t count = Ok t' → run t'.

Lemma run_healthy (t : table) : run t → healthy t.
Proof.
  induction 1 as [c|l c t' Hl H|t t' _ IH Hn H|same t other t' _ IHt _ IHo Hsame Hn H
                  |t t' l _ IH Hl H|t t' v r _ IH Hn H|t t' v r _ IH Hn H
                  |t t' l _ IH Hl H|t t' k x r _ IH Hn H|t t' k x r _ IH Hn H
                  |vi t t' k y _ IH Hn H|t t' it r _ IH H|t t' k n _ IH H
                  |t t' pred r _ IH H|t _ IH|t t' capa _ IH Hc H|t t' count _ IH Hs Hc H].
  - apply healthy_table_ctor.
  - apply (insert_range_healthy l (table_ctor c) t' (healthy_table_ctor c)); [|done].
    change (size (table_ctor c)) with 0. lia.
  - by apply (table_copy_healthy t).
  - destruct same.
    + unfold copy_assign in H. cbn [negb] in H. by injection H as <-.
    + by apply (table_copy_healthy other).
  - apply (insert_range_healthy l (clear t) t' (clear_healthy t IH)); [|done].
    change (size (clear t)) with 0. lia.
  - by apply (emplace_healthy t t' v r).
  - by apply (emplace_healthy t t' v r).
  - by apply (insert_range_healthy l t t').
  - by apply (try_emplace_healthy t t' k x r).
  - by apply (insert_or_assign_healthy t t' k x r).
  - by apply (index_op_healthy vi t t' k y).
  - by apply (erase_healthy t t' it r).
  - by apply (erase_key_healthy t t' k n).
  - by apply (erase_if_healthy t t' pred r).
  - by apply clear_healthy.
  - by apply (reserve_healthy t t' capa).
  - by apply (rehash_healthy t t' count).
Qed.

(** In every state of a run no key occurs twice, [find] yields each entry
    at its place, each entry has its one bucket, each bucket that is not
    empty holds the place of an entry, the distance from the home bucket
    of its key, counted from 1, and the low byte of the mixed hash, the
    distances along the array fall by at most one step from a bucket to
    the next if that is not at home, the entries are within the capacity,
    and an allocated metadata array has [2 ^ (64 - m_shifts)] buckets, more
    than there are entries. *)
Theorem run_invariants (t : table) :
  run t →
  (∀ i j k x y, m_values t !! i = Some (k, x) → m_values t !! j = Some (k, y) → i = j) ∧
  (∀ i k x, m_values t !! i = Some (k, x) → find t k = Ok (Z.of_nat i)) ∧
  (∀ i k x, m_values t !! i = Some (k, x) →
     ∃ q b, m_buckets t !! q = Some b ∧ dist_and_fingerprint b ≠ 0 ∧
            value_idx b = Z.of_nat i ∧
            ∀ q' b', m_buckets t !! q' = Some b' → dist_and_fingerprint b' ≠ 0 →
                     value_idx b' = Z.of_nat i → q' = q) ∧
  (∀ q b, m_buckets t !! q = Some b → dist_and_fingerprint b ≠ 0 →
     ∃ i k x d, value_idx b = Z.of_nat i ∧ m_values t !! i = Some (k, x) ∧
                (1 ≤ d ≤ length (m_buckets t))%nat ∧
                dist_and_fingerprint b = 256 * Z.of_nat d + mixed_hash k mod 256 ∧
                walk (length (m_buckets t)) (bucket_from_hash t (mixed_hash k)) (d - 1)
                  = q) ∧
  (∀ q b b', m_buckets t !! q = Some b → m_buckets t !! next (m_buckets t) q = Some b' →
     512 ≤ dist_and_fingerprint b' →
     dist_and_fingerprint b' ≤ dist_and_fingerprint b + 256) ∧
  size t ≤ m_max_bucket_capacity t ∧
  (m_buckets t = [] ∨
   (size t < bucket_count t ∧ bucket_count t = 2 ^ (64 - m_shifts t))).
Proof.
  intros Hrun. destruct (run_healthy t Hrun) as (HI & _ & Hcap).
  split; [intros i j k x y; by apply Inv_key_index|].
  split; [intros i k x; by apply do_find_present|].
  destruct HI as [_ [(Hv & Hb & _)|(HI & _)]].
  - rewrite Hv, Hb. split; [intros i k x Hi; by rewrite lookup_nil in Hi|].
    split; [intros q b Hq; by rewrite lookup_nil in Hq|].
    split; [intros q b b' Hq; by rewrite lookup_nil in Hq|].
    split; [done|by left].
  - split; [|split; [|split; [|split; [done|right]]]].
    + intros i k x Hi.
      assert (keyof_values (m_values t) i = Some k) as Hk
        by (apply keyof_values_Some; eauto).
      destruct (binv_slot _ _ _ _ HI i k Hk) as (q & b & Hq & Hnz & Hvi).
      exists q, b. do 3 (split; [done|]). intros q' b' Hq' Hnz' Hvi'.
      apply (binv_inj _ _ _ _ HI q' q b' b); try done. congruence.
    + intros q b Hq Hnz.
      destruct (binv_home _ _ _ _ HI q b Hq Hnz) as (i & k & d & Hvi & Hk & Hd & Hdaf & Hw).
      apply keyof_values_Some in Hk as [x Hx]. by exists i, k, x, d.
    + intros q b b' Hq Hq' Hbig. rewrite next_nextn in Hq'.
      by apply (binv_rh _ _ _ _ HI q b b').
    + pose proof (binv_room _ _ _ _ HI). split; [unfold size, bucket_count; lia|].
      apply (binv_size _ _ _ _ HI).
Qed.

(** * Only [at] raises an exception *)

Lemma no_throw_do_find_loop (fuel : nat) :
  ∀ (vals : list (Key * T)) bs key daf bucket,
    no_throw (do_find_loop fuel vals bs key daf bucket).
Proof. no_throw_loop fuel. Qed.

Lemma no_throw_find (t : table) (k : Key) : no_throw (find t k).
Proof.
  pose proof no_throw_do_find_loop. unfold find, do_find. repeat no_throw_step.
Qed.

Lemma no_throw_shift_down_loop (fuel : nat) :
  ∀ bs bucket next_bucket, no_throw (shift_down_loop fuel bs bucket next_bucket).
Proof. no_throw_loop fuel. Qed.

Lemma no_throw_seek_value_idx_loop (fuel : nat) :
  ∀ bs idx bucket, no_throw (seek_value_idx_loop fuel bs idx bucket).
Proof. no_throw_loop fuel. Qed.

Lemma no_throw_do_erase (t : table) (q : nat) : no_throw (do_erase t q).
Proof.
  pose proof no_throw_shift_down_loop. pose proof no_throw_seek_value_idx_loop.
  unfold do_erase. repeat no_throw_step.
Qed.

Lemma no_throw_erase (t : table) (it : Z) : no_throw (erase t it).
Proof.
  pose proof no_throw_do_erase. pose proof no_throw_seek_value_idx_loop.
  unfold erase. repeat no_throw_step.
Qed.

Lemma no_throw_do_erase_key_loop (fuel : nat) :
  ∀ (vals : list (Key * T)) bs key daf bucket,
    no_throw (do_erase_key_loop fuel vals bs key daf bucket).
Proof. no_throw_loop fuel. Qed.

Lemma no_throw_erase_key (t : table) (k : Key) : no_throw (erase_key t k).
Proof.
  pose proof no_throw_do_erase. pose proof no_throw_do_erase_key_loop.
  unfold erase_key, do_erase_key. repeat no_throw_step.
Qed.

Lemma no_throw_erase_if_loop (pred : Key * T → bool) (fuel : nat) :
  ∀ (t : table) it, no_throw (erase_if_loop fuel pred t it).
Proof. pose proof no_throw_erase. no_throw_loop fuel. Qed.

Lemma no_throw_calc_shifts_for_size_loop (fuel : nat) :
  ∀ mlf shifts s, no_throw (calc_shifts_for_size_loop fuel mlf shifts s).
Proof.
  induction fuel as [|fuel IH]; intros; simpl; unfold scaled_capacity; repeat no_throw_step.
Qed.

Lemma no_throw_allocate_and_clear_buckets (t : table) :
  no_throw (allocate_and_clear_buckets t).
Proof. unfold allocate_and_clear_buckets. repeat no_throw_step. Qed.

Lemma no_throw_fill_buckets_from_values (t : table) :
  no_throw (fill_buckets_from_values t).
Proof. unfold fill_buckets_from_values. repeat no_throw_step. Qed.

Lemma no_throw_insert_range (l : list (Key * T)) :
  ∀ t : table, no_throw (insert_range t l).
Proof.
  pose proof no_throw_emplace.
  induction l as [|v l IH]; intros t; cbn [insert_range]; unfold insert;
    repeat no_throw_step.
Qed.

Lemma no_throw_rehash (t : table) (n : Z) : no_throw (rehash t n).
Proof.
  pose proof no_throw_calc_shifts_for_size_loop.
  pose proof no_throw_allocate_and_clear_buckets.
  pose proof no_throw_fill_buckets_from_values.
  unfold rehash, calc_shifts_for_size. cbv zeta. repeat no_throw_step.
Qed.

Lemma no_throw_reserve (t : table) (n : Z) : no_throw (reserve t n).
Proof.
  pose proof no_throw_calc_shifts_for_size_loop.
  pose proof no_throw_allocate_and_clear_buckets.
  pose proof no_throw_fill_buckets_from_values.
  unfold reserve, calc_shifts_for_size. cbv zeta. repeat no_throw_step.
Qed.

Lemma no_throw_init_from_values (t : table) : no_throw (init_from_values t).
Proof.
  pose proof no_throw_calc_shifts_for_size_loop.
  pose proof no_throw_allocate_and_clear_buckets.
  pose proof no_throw_fill_buckets_from_values.
  unfold init_from_values, calc_shifts_for_size. cbv zeta. repeat no_throw_step.
Qed.

Lemma no_throw_equal_entries (a : table) (l : list (Key * T)) :
  no_throw (equal_entries a l).
Proof.
  pose proof no_throw_find.
  induction l as [|v l IH]; cbn [equal_entries]; repeat no_throw_step.
Qed.

(** Nothing but [at] raises an exception: neither the lookups nor the
    erasures, nor the operations that rebuild the metadata, nor the
    comparison, the copies or [operator[]], in any state of the table. *)
Theorem only_at_raises (t other : table) (k : Key) (it n : Z)
    (pred : Key * T → bool) (l : list (Key * T)) (value_init : T)
    (same_object : bool) (e : exception) :
  find t k ≠ Throw e ∧ count t k ≠ Throw e ∧ contains t k ≠ Throw e ∧
  equal_range t k ≠ Throw e ∧ index_op value_init t k ≠ Throw e ∧
  erase t it ≠ Throw e ∧ erase_key t k ≠ Throw e ∧ erase_if t pred ≠ Throw e ∧
  rehash t n ≠ Throw e ∧ reserve t n ≠ Throw e ∧
  table_copy other ≠ Throw e ∧ copy_assign same_object t other ≠ Throw e ∧
  insert_range t l ≠ Throw e ∧ assign_list t l ≠ Throw e ∧
  table_eq same_object t other ≠ Throw e ∧ table_ne same_object t other ≠ Throw e.
Proof.
  pose proof no_throw_find as Hfind. pose proof no_throw_try_emplace as Htry.
  pose proof no_throw_erase_if_loop as Hloop.
  pose proof no_throw_init_from_values as Hinit.
  pose proof no_throw_equal_entries as Heq.
  pose proof no_throw_insert_range as Hins.
  assert (no_throw (count t k)) as H1 by (unfold count; repeat no_throw_step).
  assert (no_throw (contains t k)) as H2 by (unfold contains; repeat no_throw_step).
  assert (no_throw (equal_range t k)) as H3.
  { unfold equal_range. apply no_throw_bind; [apply no_throw_find|].
    intros ?. apply no_throw_Ok. }
  assert (no_throw (index_op value_init t k)) as H4.
  { unfold index_op. apply no_throw_bind; [apply Htry|].
    intros [t1 [i ins]]. repeat no_throw_step. }
  assert (no_throw (erase_if t pred)) as H5
    by (unfold erase_if; cbv zeta; repeat no_throw_step).
  assert (no_throw (copy_assign same_object t other)) as H6.
  { unfold copy_assign. destruct (negb same_object); [apply Hinit|apply no_throw_Ok]. }
  assert (no_throw (table_eq same_object t other)) as H7
    by (unfold table_eq; repeat no_throw_step).
  assert (no_throw (table_ne same_object t other)) as H8
    by (unfold table_ne; repeat no_throw_step).
  split; [apply Hfind|]. split; [apply H1|]. split; [apply H2|]. split; [apply H3|].
  split; [apply H4|]. split; [apply no_throw_erase|]. split; [apply no_throw_erase_key|].
  split; [apply H5|]. split; [apply no_throw_rehash|]. split; [apply no_throw_reserve|].
  split; [apply Hinit|]. split; [apply H6|]. split; [apply Hins|]. split; [apply Hins|].
  split; [apply H7|apply H8].
Qed.

(** * Tables without collisions, up to [2 ^ 32] entries *)

(** The invariant [Inv] stops at [2 ^ 23] buckets, where the distance field
    cannot overflow whatever the hash.  A table in which every entry lies
    in the home bucket of its key needs no such bound: no distance exceeds
    one.  This is the shape in which a table is followed here up to the
    largest index that a bucket holds. *)

(** The first [m] entries of [vals] lie in the home buckets of their keys
    and every other bucket of [bs] is empty. *)
Record laid (s : Z) (vals : list (Key * T)) (m : nat) (bs : list Bucket) : Prop := {
  laid_length : Z.of_nat (length bs) = 2 ^ (64 - s);
  laid_entry : ∀ i k x, (i < m)%nat → vals !! i = Some (k, x) →
    bs !! home s k =
      Some (mk_Bucket (dist_and_fingerprint_from_hash (mixed_hash k)) (Z.of_nat i));
  laid_free : ∀ j, (j < length bs)%nat →
    (∀ i k x, (i < m)%nat → vals !! i = Some (k, x) → home s k ≠ j) →
    bs !! j = Some (mk_Bucket 0 0)
}.

(** No two entries share a home bucket under the shift [s]. *)
Definition apart (s : Z) (vals : list (Key * T)) : Prop :=
  ∀ i j k k' x x', vals !! i = Some (k, x) → vals !! j = Some (k', x') →
                   home s k = home s k' → i = j.

Definition at_home (t : table) : Prop :=
  1 ≤ m_shifts t ≤ 61 ∧ lf_ok (m_max_load_factor t) ∧
  laid (m_shifts t) (m_values t) (length (m_values t)) (m_buckets t).

Lemma home_bucket_from_hash (t : table) (k : Key) :
  bucket_from_hash t (mixed_hash k) = home (m_shifts t) k.
Proof. reflexivity. Qed.

Lemma home_finer (s s' : Z) (k k' : Key) :
  0 ≤ s' ≤ s → home s' k = home s' k' → home s k = home s k'.
Proof.
  intros Hs. unfold home. intros Heq.
  pose proof (mixed_hash_range k) as Hh. pose proof (mixed_hash_range k') as Hh'.
  apply Z2Nat.inj in Heq; [|apply Z.shiftr_nonneg; lia..].
  replace s with (s' + (s - s')) by lia.
  rewrite <- !Z.shiftr_shiftr by lia. by rewrite Heq.
Qed.

Lemma apart_finer (s s' : Z) (vals : list (Key * T)) :
  0 ≤ s' ≤ s → apart s vals → apart s' vals.
Proof.
  intros Hs Hap i j k k' x x' Hi Hj Heq.
  apply (Hap i j k k' x x' Hi Hj). by apply (home_finer s s').
Qed.

Lemma laid_apart (s : Z) (vals : list (Key * T)) (bs : list Bucket) :
  laid s vals (length vals) bs → apart s vals.
Proof.
  intros HL i j k k' x x' Hi Hj Heq.
  pose proof (laid_entry _ _ _ _ HL i k x (lookup_lt_Some _ _ _ Hi) Hi) as Hbi.
  pose proof (laid_entry _ _ _ _ HL j k' x' (lookup_lt_Some _ _ _ Hj) Hj) as Hbj.
  rewrite Heq, Hbj in Hbi. injection Hbi as _ Hij. lia.
Qed.

Lemma laid_replicate (s : Z) (vals : list (Key * T)) :
  1 ≤ s ≤ 61 → laid s vals 0 (replicate (Z.to_nat (2 ^ (64 - s))) (mk_Bucket 0 0)).
Proof.
  intros Hs. split.
  - rewrite length_replicate. apply pow2_to_nat. lia.
  - intros i k x Hi. lia.
  - intros j Hj _. rewrite length_replicate in Hj. by apply lookup_replicate_2.
Qed.

Lemma laid_insert (s : Z) (vals : list (Key * T)) (m : nat) (bs : list Bucket)
    (k : Key) (x : T) :
  1 ≤ s ≤ 61 → laid s vals m bs → vals !! m = Some (k, x) →
  (∀ i k' x', (i < m)%nat → vals !! i = Some (k', x') → home s k' ≠ home s k) →
  laid s vals (S m)
    (<[home s k :=
         mk_Bucket (dist_and_fingerprint_from_hash (mixed_hash k)) (Z.of_nat m)]> bs).
Proof.
  intros Hs HL Hm Hfree.
  pose proof (home_lt s (length bs) k ltac:(lia) (laid_length _ _ _ _ HL)) as Hlt.
  split.
  - rewrite length_insert. apply (laid_length _ _ _ _ HL).
  - intros i k' x' Hi Hv. destruct (decide (i = m)) as [->|Hne].
    + assert (k' = k) as -> by congruence.
      by apply list_lookup_insert_eq.
    + rewrite list_lookup_insert_ne by (apply not_eq_sym, (Hfree i k' x'); [lia|done]).
      apply (laid_entry _ _ _ _ HL i k' x'); [lia|done].
  - intros j Hj Hoff. rewrite length_insert in Hj.
    rewrite list_lookup_insert_ne by (apply (Hoff m k x); [lia|done]).
    apply (laid_free _ _ _ _ HL j Hj). intros i k' x' Hi Hv.
    apply (Hoff i k' x'); [lia|done].
Qed.

Lemma laid_app (s : Z) (vals : list (Key * T)) (v : Key * T) (bs : list Bucket) :
  laid s vals (length vals) bs → laid s (vals ++ [v]) (length vals) bs.
Proof.
  intros HL. split.
  - apply (laid_length _ _ _ _ HL).
  - intros i k x Hi Hv. rewrite lookup_app_l in Hv by done.
    by apply (laid_entry _ _ _ _ HL i k x).
  - intros j Hj Hoff. apply (laid_free _ _ _ _ HL j Hj). intros i k x Hi Hv.
    apply (Hoff i k x Hi). by rewrite lookup_app_l.
Qed.

Lemma daf_from_hash_pos (h : Z) : 0 < dist_and_fingerprint_from_hash h.
Proof.
  rewrite dist_and_fingerprint_from_hash_val.
  pose proof (Z.mod_pos_bound h 256 ltac:(lia)). lia.
Qed.

(** The three loops at an empty bucket. *)
Lemma next_while_less_loop_free (fuel : nat) (bs : list Bucket) (daf : Z) (j : nat) :
  bs !! j = Some (mk_Bucket 0 0) → 0 < daf →
  next_while_less_loop (S fuel) bs daf j = Ok (daf, j).
Proof.
  intros Hj Hd. cbn [next_while_less_loop]. rewrite (deref_lookup _ _ _ Hj). rsimpl.
  cbn [dist_and_fingerprint]. by replace (daf <? 0) with false by (symmetry; apply Z.ltb_ge; lia).
Qed.

Lemma probe_loop_free (fuel : nat) (vals : list (Key * T)) (bs : list Bucket)
    (key : Key) (daf : Z) (j : nat) :
  bs !! j = Some (mk_Bucket 0 0) → 0 < daf →
  probe_loop (S fuel) vals bs key daf j = Ok (Vacant daf j).
Proof.
  intros Hj Hd. cbn [probe_loop]. rewrite (deref_lookup _ _ _ Hj). rsimpl.
  cbn [dist_and_fingerprint]. by replace (daf <=? 0) with false by (symmetry; apply Z.leb_gt; lia).
Qed.

Lemma place_and_shift_up_loop_free (fuel : nat) (bs : list Bucket) (b : Bucket) (j : nat) :
  bs !! j = Some (mk_Bucket 0 0) →
  place_and_shift_up_loop (S fuel) bs b j = Ok (<[j := b]> bs).
Proof.
  intros Hj. cbn [place_and_shift_up_loop]. by rewrite (deref_lookup _ _ _ Hj).
Qed.

(** Filling an array in which the homes are apart puts each entry into its
    home bucket. *)
Lemma fill_buckets_loop_apart (todo : nat) :
  ∀ (m : nat) (t : table),
    1 ≤ m_shifts t ≤ 61 → apart (m_shifts t) (m_values t) →
    laid (m_shifts t) (m_values t) m (m_buckets t) →
    (m + todo ≤ length (m_values t))%nat → Z.of_nat (length (m_values t)) < 2 ^ 32 →
    ∃ bs, fill_buckets_loop todo (Z.of_nat m) t = Ok (set_buckets t bs) ∧
          laid (m_shifts t) (m_values t) (m + todo) bs.
Proof.
  induction todo as [|todo IH]; intros m t Hs Hap HL Hm Hsize.
  - exists (m_buckets t). rewrite Nat.add_0_r. split; [|done]. by destruct t.
  - destruct (lookup_lt_is_Some_2 (m_values t) m) as [[k x] Hv]; [lia|].
    assert (∀ i k' x', (i < m)%nat → m_values t !! i = Some (k', x') →
                       home (m_shifts t) k' ≠ home (m_shifts t) k) as Hfree.
    { intros i k' x' Hi Hv' Heq. pose proof (Hap i m k' k x' x Hv' Hv Heq). lia. }
    assert (m_buckets t !! home (m_shifts t) k = Some (mk_Bucket 0 0)) as Hempty.
    { apply (laid_free _ _ _ _ HL).
      - apply (home_lt (m_shifts t)); [lia|apply (laid_length _ _ _ _ HL)].
      - intros i k' x' Hi Hv'. by apply (Hfree i k' x'). }
    cbn [fill_buckets_loop]. rewrite (at_index_lookup _ _ _ Hv). rsimpl.
    unfold next_while_less, lap. cbv zeta. cbn [get_key fst].
    rewrite home_bucket_from_hash.
    rewrite (next_while_less_loop_free _ _ _ _ Hempty (daf_from_hash_pos _)). rsimpl.
    unfold place_and_shift_up, lap.
    rewrite (place_and_shift_up_loop_free _ _ _ _ Hempty). rsimpl.
    rewrite u32_small by lia. replace (Z.of_nat m + 1) with (Z.of_nat (S m)) by lia.
    pose proof (laid_insert _ _ _ _ k x Hs HL Hv Hfree) as HL'.
    destruct (IH (S m) (set_buckets t _) Hs Hap HL' ltac:(cbn [set_buckets m_values]; lia)
                Hsize) as (bs & Hrun & HLbs).
    exists bs. split; [exact Hrun|].
    by replace (m + S todo)%nat with (S m + todo)%nat by lia.
Qed.

(** Rebuilding the metadata under a shift that holds the homes apart. *)
Lemma rebuild_apart (t : table) (s : Z) :
  lf_ok (m_max_load_factor t) → 1 ≤ s ≤ 61 → apart s (m_values t) → size t < 2 ^ 32 →
  ∃ t' c, (t1 ← allocate_and_clear_buckets (deallocate_buckets (set_shifts t s));
           fill_buckets_from_values t1) = Ok t' ∧
          m_values t' = m_values t ∧ m_shifts t' = s ∧
          m_max_load_factor t' = m_max_load_factor t ∧
          scaled_capacity (m_max_load_factor t) s = Ok c ∧
          m_max_bucket_capacity t' = u32 c ∧ at_home t'.
Proof.
  intros Hlf Hs Hap Hsize. unfold size in Hsize.
  destruct (allocate_and_clear_buckets_spec (deallocate_buckets (set_shifts t s)))
    as (c & -> & Hexact & Hc); [done|simpl; lia|].
  rsimpl. cbn [deallocate_buckets set_shifts m_values m_max_load_factor m_shifts]
    in Hc, Hexact |- *.
  unfold fill_buckets_from_values, size. cbn [m_values].
  rewrite u32_small by lia. rewrite Nat2Z.id.
  set (t0 := mk_table _ _ _ _ _).
  destruct (fill_buckets_loop_apart (length (m_values t)) 0 t0) as (bs & Hrun & HL).
  - done.
  - done.
  - by apply laid_replicate.
  - cbn [t0 m_values]. lia.
  - done.
  - change (Z.of_nat 0) with 0 in Hrun. rewrite Hrun.
    exists (set_buckets t0 bs), c. split; [done|]. split; [done|]. split; [done|].
    split; [done|]. split; [done|]. split; [done|]. split; [done|]. split; [done|].
    exact HL.
Qed.

(** The growth that an insertion starts with. *)
Lemma grow_at_home (t : table) :
  at_home t → size t < 2 ^ 32 → 2 ≤ m_shifts t →
  ∃ u, (if is_full t then increase_size t else Ok t) = Ok u ∧
       m_values u = m_values t ∧ at_home u ∧
       m_max_load_factor u = m_max_load_factor t ∧
       m_shifts t - 1 ≤ m_shifts u ≤ m_shifts t ∧
       (is_full t = false → u = t) ∧
       (is_full t = true →
        m_shifts u = m_shifts t - 1 ∧
        ∃ c, scaled_capacity (m_max_load_factor t) (m_shifts t - 1) = Ok c ∧
             m_max_bucket_capacity u = u32 c).
Proof.
  intros (Hs & Hlf & HL) Hsize Hs2. destruct (is_full t) eqn:Hfull.
  - unfold increase_size. cbv zeta. rewrite u8_small by lia.
    destruct (rebuild_apart t (m_shifts t - 1) Hlf) as (u & c & -> & Hv & Hsu & Hlfu & Hc & Hcap & Hu).
    + lia.
    + apply (apart_finer (m_shifts t)); [lia|]. by apply (laid_apart _ _ (m_buckets t)).
    + done.
    + exists u. split; [done|]. split; [done|]. split; [done|]. split; [done|].
      split; [lia|]. split; [done|]. intros _. split; [done|]. by exists c.
  - exists t. split; [done|]. split; [done|]. split; [done|]. split; [done|].
    split; [lia|]. split; [done|]. done.
Qed.

Lemma index_of_last (n : nat) :
  Z.of_nat n < 2 ^ 32 → u32 (u32 (Z.of_nat (S n)) - 1) = Z.of_nat n.
Proof.
  intros Hn. unfold u32. rewrite Zminus_mod_idemp_l.
  replace (Z.of_nat (S n) - 1) with (Z.of_nat n) by lia. apply Z.mod_small. lia.
Qed.

(** What the insertion of [(k, x)] writes: the entry at the end of the
    values and its bucket at the home of [k]. *)
Definition with_entry (u : table) (k : Key) (x : T) : table :=
  set_buckets (set_values u (m_values u ++ [(k, x)]))
    (<[home (m_shifts u) k :=
         mk_Bucket (dist_and_fingerprint_from_hash (mixed_hash k)) (size u)]> (m_buckets u)).

Lemma with_entry_at_home (u : table) (k : Key) (x : T) :
  at_home u →
  (∀ i k' x', m_values u !! i = Some (k', x') → home (m_shifts u) k' ≠ home (m_shifts u) k) →
  at_home (with_entry u k x).
Proof.
  intros (Hs & Hlf & HL) Hfree. split; [done|]. split; [done|].
  unfold with_entry. cbn [set_buckets set_values m_values m_buckets m_shifts].
  rewrite length_app. cbn [length]. rewrite Nat.add_1_r. unfold size.
  apply (laid_insert _ _ _ _ k x).
  - done.
  - by apply laid_app.
  - by apply list_lookup_middle.
  - intros i k' x' Hi Hv. rewrite lookup_app_l in Hv by done. by apply (Hfree i k' x').
Qed.

Lemma home_empty (u : table) (k : Key) :
  at_home u →
  (∀ i k' x', m_values u !! i = Some (k', x') → home (m_shifts u) k' ≠ home (m_shifts u) k) →
  m_buckets u !! home (m_shifts u) k = Some (mk_Bucket 0 0).
Proof.
  intros (Hs & Hlf & HL) Hfree. apply (laid_free _ _ _ _ HL).
  - apply (home_lt (m_shifts u)); [lia|apply (laid_length _ _ _ _ HL)].
  - intros i k' x' _ Hv. by apply (Hfree i k' x').
Qed.

Lemma free_after_growth (t u : table) (k : Key) :
  0 ≤ m_shifts u ≤ m_shifts t → m_values u = m_values t →
  (∀ i k' x', m_values t !! i = Some (k', x') → home (m_shifts t) k' ≠ home (m_shifts t) k) →
  ∀ i k' x', m_values u !! i = Some (k', x') → home (m_shifts u) k' ≠ home (m_shifts u) k.
Proof.
  intros Hs Hv Hfree i k' x' Hi Heq. rewrite Hv in Hi.
  apply (Hfree i k' x' Hi). by apply (home_finer _ (m_shifts u)).
Qed.

(** [emplace] of a key whose home bucket is free. *)
Lemma emplace_at_home (t : table) (k : Key) (x : T) :
  at_home t → size t < 2 ^ 32 → 2 ≤ m_shifts t →
  (∀ i k' x', m_values t !! i = Some (k', x') → home (m_shifts t) k' ≠ home (m_shifts t) k) →
  ∃ u, (if is_full t then increase_size t else Ok t) = Ok u ∧
       emplace t (k, x) = Ok (with_entry u k x, (size t, true)) ∧
       try_emplace t k x = Ok (with_entry u k x, (size t, true)) ∧
       insert_or_assign t k x = Ok (with_entry u k x, (size t, true)) ∧
       m_values u = m_values t ∧ at_home (with_entry u k x).
Proof.
  intros Ht Hsize Hs2 Hfree.
  destruct (grow_at_home t Ht Hsize Hs2) as (u & Hgrow & Hv & Hu & Hlf & Hsu & _).
  pose proof (free_after_growth t u k ltac:(lia) Hv Hfree) as Hfree'.
  pose proof (home_empty u k Hu Hfree') as Hempty.
  assert (size u = size t) as Hsz by (unfold size; by rewrite Hv).
  assert (u32 (u32 (size (set_values u (m_values u ++ [(k, x)]))) - 1) = size u) as Hidx.
  { unfold size. cbn [set_values m_values]. rewrite length_app. cbn [length].
    rewrite Nat.add_1_r. apply index_of_last. unfold size in Hsz, Hsize. lia. }
  exists u. split; [done|].
  assert (try_emplace t k x = Ok (with_entry u k x, (size t, true))) as Htry.
  { unfold try_emplace, do_try_emplace. rewrite Hgrow. rsimpl. cbv zeta.
    rewrite home_bucket_from_hash. unfold lap.
    rewrite (probe_loop_free _ _ _ _ _ _ Hempty (daf_from_hash_pos _)). rsimpl.
    unfold place_and_shift_up, lap. cbn [set_values m_buckets].
    rewrite (place_and_shift_up_loop_free _ _ _ _ Hempty). rsimpl.
    rewrite !Hidx. unfold begin_, with_entry. by rewrite Z.add_0_l, Hsz. }
  split; [|split; [done|]]; [| split; [| split; [done|by apply with_entry_at_home]]].
  - assert (size (set_values u (m_values u ++ [(k, x)])) - 1 =
            Z.of_nat (length (m_values u))) as Hlast.
    { unfold size. cbn [set_values m_values]. rewrite length_app. cbn [length]. lia. }
    unfold emplace. rewrite Hgrow. rsimpl. cbv zeta. rewrite Hlast.
    cbn [set_values m_values].
    rewrite (at_index_lookup _ _ (k, x)) by (by apply list_lookup_middle). rsimpl.
    cbn [get_key fst]. unfold lap. cbn [set_values m_buckets].
    change (bucket_from_hash _ (mixed_hash k)) with (home (m_shifts u) k).
    rewrite (probe_loop_free _ _ _ _ _ _ Hempty (daf_from_hash_pos _)). rsimpl.
    unfold place_and_shift_up, lap. cbn [set_values m_buckets].
    rewrite (place_and_shift_up_loop_free _ _ _ _ Hempty). rsimpl.
    rewrite !Hidx. unfold begin_, with_entry. by rewrite Z.add_0_l, Hsz.
  - unfold insert_or_assign, do_insert_or_assign. rewrite Htry. by rsimpl.
Qed.

(** [rehash] to a shift that holds the homes apart. *)
Lemma rehash_at_home (t : table) (count s : Z) :
  at_home t → size t < 2 ^ 32 → calc_shifts_for_size t count = Ok s → 1 ≤ s ≤ 61 →
  apart s (m_values t) →
  ∃ t', rehash t count = Ok t' ∧ m_values t' = m_values t ∧ m_shifts t' = s ∧
        m_max_load_factor t' = m_max_load_factor t ∧ at_home t' ∧
        (s = m_shifts t → t' = t) ∧
        (s ≠ m_shifts t →
         ∃ c, scaled_capacity (m_max_load_factor t) s = Ok c ∧
              m_max_bucket_capacity t' = u32 c).
Proof.
  intros Ht Hsize Hcalc Hs Hap. pose proof Ht as (_ & Hlf & _).
  unfold rehash. rewrite Hcalc. rsimpl.
  destruct (Z.eqb_spec s (m_shifts t)) as [->|Hne]; cbn [negb].
  - exists t. split; [done|]. split; [done|]. split; [done|]. split; [done|].
    split; [done|]. split; [done|]. intros Hne. by destruct Hne.
  - cbv zeta.
    destruct (rebuild_apart t s Hlf Hs Hap Hsize)
      as (t' & c & -> & Hv & Hst & Hlft & Hc & Hcap & Ht').
    exists t'. split; [done|]. split; [done|]. split; [done|]. split; [done|].
    split; [done|]. split; [done|]. intros _. by exists c.
Qed.

(** C7, amended: the insertion of a [2 ^ 32]-th entry is neither checked
    nor reported.  In a table of [2 ^ 32 - 1] entries that lie each in the
    home bucket of its key, [emplace], [insert], [try_emplace] and
    [insert_or_assign] of a key whose home bucket is free return: the entry
    is appended as the [2 ^ 32]-th, at the index [2 ^ 32 - 1], with the
    result [(iterator to it, true)].  And in no state does one of the four
    report an error of its own. *)
Theorem insertion_at_max_size (t : table) (k : Key) (x : T) :
  at_home t → size t = 2 ^ 32 - 1 → 2 ≤ m_shifts t →
  (∀ i k' x', m_values t !! i = Some (k', x') →
              home (m_shifts t) k' ≠ home (m_shifts t) k) →
  (∃ t', emplace t (k, x) = Ok (t', (2 ^ 32 - 1, true)) ∧
         insert t (k, x) = Ok (t', (2 ^ 32 - 1, true)) ∧
         try_emplace t k x = Ok (t', (2 ^ 32 - 1, true)) ∧
         insert_or_assign t k x = Ok (t', (2 ^ 32 - 1, true)) ∧
         m_values t' = m_values t ++ [(k, x)] ∧ size t' = 2 ^ 32 ∧ at_home t') ∧
  ∀ (u : table) (k' : Key) (x' : T) (e : exception),
    emplace u (k', x') ≠ Throw e ∧ insert u (k', x') ≠ Throw e ∧
    try_emplace u k' x' ≠ Throw e ∧ insert_or_assign u k' x' ≠ Throw e.
Proof.
  intros Ht Hsize Hs Hfree. split.
  - destruct (emplace_at_home t k x Ht ltac:(lia) Hs Hfree)
      as (u & _ & Hem & Htry & Hioa & Hv & Hu).
    rewrite Hsize in Hem, Htry, Hioa.
    exists (with_entry u k x). split; [exact Hem|]. split; [exact Hem|].
    split; [exact Htry|]. split; [exact Hioa|].
    assert (m_values (with_entry u k x) = m_values t ++ [(k, x)]) as Hv'
      by (unfold with_entry; cbn [set_buckets set_values m_values]; by rewrite Hv).
    split; [exact Hv'|]. split; [|exact Hu].
    unfold size in *. rewrite Hv', length_app. cbn [length]. lia.
  - intros u k' x' e.
    split; [apply no_throw_emplace|]. split; [apply no_throw_emplace|].
    split; [apply no_throw_try_emplace|apply no_throw_insert_or_assign].
Qed.

End index.

(** * A map from [int] to [int]

    The table with the hash of the standard library for [int], which
    returns its argument and is not marked as avalanching, and [==] on
    keys and on mapped values. *)

Definition int_hash (k : Z) : Z := k.

Lemma int_equal_spec (x y : Z) : (x =? y) = true ↔ x = y.
Proof. apply Z.eqb_eq. Qed.

Definition int_map : Type := @table Z Z.

Definition int_insert_range : int_map → list (Z * Z) → result int_map :=
  insert_range int_hash false Z.eqb.
Definition int_find : int_map → Z → result Z := find int_hash false Z.eqb.
Definition int_try_emplace : int_map → Z → Z → result (int_map * (Z * bool)) :=
  try_emplace int_hash false Z.eqb.
Definition int_insert : int_map → Z * Z → result (int_map * (Z * bool)) :=
  insert int_hash false Z.eqb.
Definition int_emplace : int_map → Z * Z → result (int_map * (Z * bool)) :=
  emplace int_hash false Z.eqb.
Definition int_erase_key : int_map → Z → result (int_map * Z) :=
  erase_key int_hash false Z.eqb.
Definition int_Inv : int_map → Prop := Inv int_hash false.

(** The table after [insert] of each entry of [l] into a new table. *)
Definition filled (l : list (Z * Z)) : int_map :=
  match int_insert_range (table_ctor 0) l with
  | Ok t => t
  | _ => table_ctor 0
  end.

Definition one_entry : int_map := Eval vm_compute in filled [(1, 10)].
Definition three_entries : int_map := Eval vm_compute in filled [(1, 10); (2, 20); (3, 30)].

Definition seven_keys : list (Z * Z) :=
  [(1, 10); (2, 20); (3, 30); (4, 40); (5, 50); (6, 60); (7, 70)].
Definition seven_entries : int_map := Eval vm_compute in filled seven_keys.
Definition nine_entries : int_map :=
  Eval vm_compute in filled (seven_keys ++ [(8, 80); (9, 90)]).

Lemma int_Inv_filled (l : list (Z * Z)) (t : int_map) :
  NoDup (l.*1) → Z.of_nat (length l) ≤ 6710886 →
  int_insert_range (table_ctor 0) l = Ok t → int_Inv t ∧ m_values t = l.
Proof.
  intros Hnodup Hlen Hrun.
  destruct (insert_range_spec int_hash false Z.eqb int_equal_spec l (table_ctor 0))
    as (t' & Hrun' & Hv & HI & _).
  - apply Inv_table_ctor.
  - by apply growable_table_ctor.
  - done.
  - intros e i x _. simpl. by rewrite lookup_nil.
  - unfold int_insert_range in Hrun. rewrite Hrun in Hrun'. by injection Hrun' as <-.
Qed.

Lemma int_Inv_one_entry : int_Inv one_entry.
Proof.
  apply (int_Inv_filled [(1, 10)]); [|by vm_compute|by vm_compute].
  apply NoDup_singleton.
Qed.

Lemma int_Inv_three_entries : int_Inv three_entries.
Proof.
  apply (int_Inv_filled [(1, 10); (2, 20); (3, 30)]); [|by vm_compute|by vm_compute].
  compute_done.
Qed.

Lemma can_grow_one_entry : can_grow one_entry.
Proof. intros Hfull. by vm_compute in Hfull. Qed.

(** ** A table of [2 ^ 32 - 1] entries

    The hash that sends the key [k] to [k * 2 ^ 31] and is marked as
    avalanching puts the keys [0], [1], [2], ... into buckets of their own
    in an array of [2 ^ 33] buckets.  [rehash(2 ^ 32)] asks for that array:
    its capacity [13421773 * 2 ^ 9] leaves the [uint32_t] that holds it as
    2576980480.  From that many entries on every insertion finds the table
    full and doubles the array, and the next [rehash(2 ^ 32)] halves it
    again. *)

Definition spread_hash (k : Z) : Z := Z.shiftl k 31.

(** [rehash(2 ^ 32)] on a new table, and then [n] times the insertion of
    the next key with [emplace], each followed by [rehash(2 ^ 32)]. *)
Fixpoint spread_run (n : nat) : result int_map :=
  match n with
  | O => rehash spread_hash true (table_ctor 0) (2 ^ 32)
  | S n' =>
      t ← spread_run n';
      '(t1, _) ← emplace spread_hash true Z.eqb t (Z.of_nat n', 0);
      rehash spread_hash true t1 (2 ^ 32)
  end.

Definition keys_upto (n : nat) : list (Z * Z) := (λ i, (Z.of_nat i, 0)) <$> seq 0 n.

Lemma keys_upto_S (n : nat) : keys_upto (S n) = keys_upto n ++ [(Z.of_nat n, 0)].
Proof. unfold keys_upto. by rewrite seq_S, fmap_app. Qed.

Lemma keys_upto_length (n : nat) : length (keys_upto n) = n.
Proof. unfold keys_upto. by rewrite length_fmap, length_seq. Qed.

Lemma keys_upto_lookup (n i : nat) (k x : Z) :
  keys_upto n !! i = Some (k, x) → k = Z.of_nat i ∧ (i < n)%nat.
Proof.
  unfold keys_upto. rewrite list_lookup_fmap. intros H.
  destruct (seq 0 n !! i) as [j|] eqn:Hj; [|discriminate].
  apply lookup_seq in Hj as [-> Hlt]. by injection H as <- _.
Qed.

Lemma spread_home (k : Z) :
  0 ≤ k < 2 ^ 32 → home spread_hash true 31 k = Z.to_nat k.
Proof.
  intros Hk. unfold home, mixed_hash, spread_hash.
  rewrite Z.shiftl_mul_pow2 by lia. rewrite u64_small by lia.
  rewrite Z.shiftr_div_pow2 by lia. by rewrite Z.div_mul by lia.
Qed.

Lemma spread_apart (n : nat) :
  Z.of_nat n ≤ 2 ^ 32 → apart spread_hash true 31 (keys_upto n).
Proof.
  intros Hn i j k k' x x' Hi Hj Heq.
  apply keys_upto_lookup in Hi as [-> Hi]. apply keys_upto_lookup in Hj as [-> Hj].
  rewrite !spread_home in Heq by lia. lia.
Qed.

Lemma spread_free (n : nat) (i : nat) (k x : Z) :
  Z.of_nat n < 2 ^ 32 → keys_upto n !! i = Some (k, x) →
  home spread_hash true 31 k ≠ home spread_hash true 31 (Z.of_nat n).
Proof.
  intros Hn Hi. apply keys_upto_lookup in Hi as [-> Hi].
  rewrite !spread_home by lia. lia.
Qed.

Lemma lf_ok_float_0_8 : lf_ok float_0_8.
Proof. by vm_compute. Qed.

Lemma spread_calc_shifts (t : int_map) :
  m_max_load_factor t = float_0_8 → calc_shifts_for_size t (2 ^ 32) = Ok 31.
Proof.
  intros Hlf. unfold calc_shifts_for_size, max_load_factor. rewrite Hlf. by vm_compute.
Qed.

Lemma spread_capacity (c : Z) :
  scaled_capacity float_0_8 31 = Ok c → u32 c = 2576980480.
Proof. intros H. vm_compute in H. by injection H as <-. Qed.

(** The states of the run: [n] entries in their home buckets among
    [2 ^ 33]. *)
Definition spread_state (n : nat) (t : int_map) : Prop :=
  at_home spread_hash true t ∧ m_shifts t = 31 ∧ m_max_load_factor t = float_0_8 ∧
  m_max_bucket_capacity t = 2576980480 ∧ m_values t = keys_upto n.

Lemma spread_rehash (n : nat) (t : int_map) :
  Z.of_nat n < 2 ^ 32 → at_home spread_hash true t → m_values t = keys_upto n →
  m_max_load_factor t = float_0_8 →
  (m_shifts t = 31 → m_max_bucket_capacity t = 2576980480) →
  ∃ t', rehash spread_hash true t (2 ^ 32) = Ok t' ∧ spread_state n t'.
Proof.
  intros Hn Ht Hv Hlf Hcap.
  destruct (rehash_at_home spread_hash true t (2 ^ 32) 31 Ht) as
    (t' & Hrun & Hv' & Hs' & Hlf' & Ht' & Hsame & Hnew).
  - unfold size. rewrite Hv, keys_upto_length. lia.
  - by apply spread_calc_shifts.
  - lia.
  - rewrite Hv. apply spread_apart. lia.
  - exists t'. split; [exact Hrun|]. split; [exact Ht'|]. split; [exact Hs'|].
    split; [congruence|]. split; [|congruence].
    destruct (decide (31 = m_shifts t)) as [Heq|Hne].
    + rewrite (Hsame Heq). by apply Hcap.
    + destruct (Hnew Hne) as (c & Hc & ->). rewrite Hlf in Hc. by apply spread_capacity.
Qed.

Lemma spread_emplace (n : nat) (t : int_map) :
  Z.of_nat n < 2 ^ 32 → spread_state n t →
  ∃ t1, emplace spread_hash true Z.eqb t (Z.of_nat n, 0) = Ok (t1, (Z.of_nat n, true)) ∧
        at_home spread_hash true t1 ∧ m_values t1 = keys_upto (S n) ∧
        m_max_load_factor t1 = float_0_8 ∧
        (m_shifts t1 = 31 → m_max_bucket_capacity t1 = 2576980480).
Proof.
  intros Hn (Ht & Hs & Hlf & Hcap & Hv).
  destruct (emplace_at_home spread_hash true Z.eqb t (Z.of_nat n) 0 Ht)
    as (u & Hgrow & Hem & _ & _ & Hvu & Hu).
  - unfold size. rewrite Hv, keys_upto_length. lia.
  - lia.
  - intros i k x Hi. rewrite Hs. rewrite Hv in Hi. by apply (spread_free n i k x).
  - assert (size t = Z.of_nat n) as Hsz by (unfold size; by rewrite Hv, keys_upto_length).
    rewrite Hsz in Hem. eexists. split; [exact Hem|]. split; [exact Hu|].
    unfold with_entry. cbn [set_buckets set_values m_values m_max_load_factor m_shifts
                              m_max_bucket_capacity].
    split; [by rewrite Hvu, Hv, keys_upto_S|].
    destruct (grow_at_home spread_hash true t Ht ltac:(lia) ltac:(lia))
      as (u' & Hgrow' & _ & _ & Hlfu & _ & Hkeep & Hgrown).
    assert (u' = u) as -> by congruence.
    split; [congruence|]. intros Hsu.
    destruct (is_full t) eqn:Hfull.
    + destruct (Hgrown eq_refl) as [Hs' _]. lia.
    + by rewrite (Hkeep eq_refl).
Qed.

Lemma spread_run_spec (n : nat) :
  Z.of_nat n < 2 ^ 32 →
  ∃ t, spread_run n = Ok t ∧ reachable spread_hash true Z.eqb t ∧ spread_state n t.
Proof.
  induction n as [|n IH]; intros Hn.
  - assert (∃ t, rehash spread_hash true (@table_ctor Z Z 0) (2 ^ 32) = Ok t ∧
                 spread_state 0 t) as (t & Hrun & Ht).
    { unfold rehash. rewrite spread_calc_shifts by done. cbn [mbind result_bind].
      change (negb (31 =? m_shifts (@table_ctor Z Z 0))) with true. cbv iota zeta.
      destruct (rebuild_apart spread_hash true (@table_ctor Z Z 0) 31 lf_ok_float_0_8)
        as (t & c & Hrun & Hv & Hs & Hlf & Hc & Hcap & Ht).
      - lia.
      - intros i j k k' x x' Hi. simpl in Hi. by rewrite lookup_nil in Hi.
      - by vm_compute.
      - exists t. split; [exact Hrun|]. split; [exact Ht|]. split; [exact Hs|].
        split; [exact Hlf|]. split; [|exact Hv].
        rewrite Hcap. by apply spread_capacity. }
    exists t. split; [exact Hrun|]. split; [|exact Ht].
    by apply (reach_rehash spread_hash true Z.eqb (table_ctor 0) t (2 ^ 32)); [apply reach_ctor|].
  - destruct IH as (t & Hrun & Hreach & Ht); [lia|].
    destruct (spread_emplace n t ltac:(lia) Ht) as (t1 & Hem & Ht1 & Hv1 & Hlf1 & Hcap1).
    destruct (spread_rehash (S n) t1 Hn Ht1 Hv1 Hlf1 Hcap1) as (t2 & Hre & Ht2).
    exists t2. split.
    + cbn [spread_run]. rewrite Hrun. cbn [mbind result_bind]. rewrite Hem.
      cbn [mbind result_bind]. exact Hre.
    + split; [|exact Ht2].
      apply (reach_rehash spread_hash true Z.eqb t1 t2 (2 ^ 32)); [|exact Hre].
      by apply (reach_emplace spread_hash true Z.eqb t t1 (Z.of_nat n, 0) (Z.of_nat n, true)).
Qed.

Lemma spread_state_free (n : nat) (t : int_map) :
  Z.of_nat n < 2 ^ 32 → spread_state n t →
  ∀ i k x, m_values t !! i = Some (k, x) →
           home spread_hash true (m_shifts t) k ≠
           home spread_hash true (m_shifts t) (Z.of_nat n).
Proof.
  intros Hn (_ & Hs & _ & _ & Hv) i k x Hi. rewrite Hs. rewrite Hv in Hi.
  by apply (spread_free n i k x).
Qed.

(** ** The theorems at these tables *)

Lemma try_emplace_keeps_first_witness :
  (∃ t', int_try_emplace one_entry 1 20 = Ok (t', (0, false)) ∧
         m_values t' = m_values one_entry ∧ int_Inv t') ∧
  (∃ t1 t2 it, int_try_emplace (table_ctor 0) 1 20 = Ok (t1, (it, true)) ∧
               int_try_emplace t1 1 30 = Ok (t2, (it, false)) ∧
               m_values t1 = [(1, 20)] ∧ m_values t2 = m_values t1 ∧
               int_find t2 1 = Ok it ∧ at_index (m_values t2) it = Ok (1, 20)).
Proof.
  split.
  - apply (proj1 (try_emplace_keeps_first int_hash false Z.eqb int_equal_spec
                    one_entry 1 20 30 int_Inv_one_entry
                    ltac:(exists 6710886; split; [reflexivity|by vm_compute]))
             0%nat 10 eq_refl).
  - apply (proj2 (try_emplace_keeps_first int_hash false Z.eqb int_equal_spec
                    (table_ctor 0) 1 20 30 (Inv_table_ctor int_hash false 0)
                    (growable_table_ctor 0 2 ltac:(lia)))).
    intros i x0. simpl. by rewrite lookup_nil.
Defined.

Lemma emplace_spec_witness :
  ∃ t', int_emplace one_entry (1, 20) = Ok (t', (0, false)) ∧
        m_values t' = m_values one_entry ∧ int_Inv t' ∧ int_find t' 1 = Ok 0.
Proof.
  exact (proj1 (proj2 (emplace_spec int_hash false Z.eqb int_equal_spec one_entry 1 20
                         int_Inv_one_entry can_grow_one_entry)) 0%nat 10 eq_refl).
Defined.

Lemma insertion_at_max_size_witness :
  ∃ t t' : int_map,
    spread_run (Z.to_nat (2 ^ 32 - 1)) = Ok t ∧ size t = 2 ^ 32 - 1 ∧
    emplace spread_hash true Z.eqb t (2 ^ 32 - 1, 0) = Ok (t', (2 ^ 32 - 1, true)) ∧
    insert spread_hash true Z.eqb t (2 ^ 32 - 1, 0) = Ok (t', (2 ^ 32 - 1, true)) ∧
    try_emplace spread_hash true Z.eqb t (2 ^ 32 - 1) 0 = Ok (t', (2 ^ 32 - 1, true)) ∧
    insert_or_assign spread_hash true Z.eqb t (2 ^ 32 - 1) 0 =
      Ok (t', (2 ^ 32 - 1, true)) ∧
    m_values t' = m_values t ++ [(2 ^ 32 - 1, 0)] ∧ size t' = 2 ^ 32.
Proof.
  set (n := Z.to_nat (2 ^ 32 - 1)).
  assert (Z.of_nat n = 2 ^ 32 - 1) as Hn by (unfold n; lia).
  destruct (spread_run_spec n) as (t & Hrun & _ & Ht); [lia|].
  assert (size t = 2 ^ 32 - 1) as Hsize.
  { destruct Ht as (_ & _ & _ & _ & Hv). unfold size. by rewrite Hv, keys_upto_length. }
  pose proof (spread_state_free n t ltac:(lia) Ht) as Hfree. rewrite Hn in Hfree.
  destruct (proj1 (insertion_at_max_size spread_hash true Z.eqb t (2 ^ 32 - 1) 0
                     (proj1 Ht) Hsize
                     ltac:(rewrite (proj1 (proj2 Ht)); lia) Hfree))
    as (t' & Hem & Hins & Htry & Hioa & Hv' & Hsize' & _).
  exists t, t'. split; [exact Hrun|]. split; [exact Hsize|]. split; [exact Hem|].
  split; [exact Hins|]. split; [exact Htry|]. split; [exact Hioa|].
  split; [exact Hv'|exact Hsize'].
Defined.

Lemma erase_key_spec_witness :
  ∃ t', int_erase_key three_entries 2 = Ok (t', 1) ∧ int_Inv t' ∧
        size t' = size three_entries - 1 ∧ int_find t' 2 = Ok (end_ t') ∧
        ∀ j e, m_values three_entries !! j = Some e → j ≠ 1%nat →
               ∃ j', m_values t' !! j' = Some e.
Proof.
  exact (proj1 (erase_key_spec int_hash false Z.eqb int_equal_spec three_entries 2 0
                  int_Inv_three_entries) 1%nat 20 eq_refl).
Defined.

Lemma table_eq_spec_witness :
  ∃ a b : int_map,
    int_insert_range (table_ctor 0) [(1, 10); (2, 20); (3, 30)] = Ok a ∧
    int_insert_range (table_ctor 0) [(2, 20); (1, 10); (3, 30)] = Ok b ∧
    table_eq int_hash false Z.eqb Z.eqb false a b = Ok true ∧
    table_eq int_hash false Z.eqb Z.eqb false b a = Ok true.
Proof.
  apply (proj2 (table_eq_spec int_hash false Z.eqb int_equal_spec Z.eqb)
           [(1, 10); (2, 20); (3, 30)] [(2, 20); (1, 10); (3, 30)] 0 0).
  - apply Z.eqb_refl.
  - compute_done.
  - apply Permutation_swap.
  - by vm_compute.
Defined.

Lemma reachable_bucket_count_witness :
  (bucket_count three_entries = 0 ∧ m_shifts three_entries = 61) ∨
  (1 ≤ m_shifts three_entries ≤ 61 ∧
   bucket_count three_entries = 2 ^ (64 - m_shifts three_entries)).
Proof.
  apply (reachable_bucket_count int_hash false Z.eqb three_entries).
  apply (reach_insert_range int_hash false Z.eqb (table_ctor 0) three_entries
           [(1, 10); (2, 20); (3, 30)]); [apply reach_ctor|by vm_compute].
Defined.

Definition seven_rehashed : int_map :=
  Eval vm_compute in
    match rehash int_hash false seven_entries 0 with
    | Ok t => t
    | _ => table_ctor 0
    end.

Lemma erase_key_on_new_table : int_erase_key (table_ctor 0) 1 = Undefined.
Proof.
  exact (erase_key_unallocated int_hash false Z.eqb (table_ctor 0) 1 eq_refl).
Defined.

Lemma erase_range_statements_find_witness :
  ∃ t', erase_range_statements int_hash false three_entries 0 1 = Ok t' ∧ int_Inv t' ∧
        size t' = 2 ∧ int_find t' 1 = Ok (end_ t') ∧
        (∃ j', int_find t' 3 = Ok (Z.of_nat j') ∧ m_values t' !! j' = Some (3, 30)).
Proof.
  destruct (erase_range_statements_find int_hash false Z.eqb int_equal_spec
              three_entries 0 1 int_Inv_three_entries) as (t' & Hrun & HI & Hsize & Hfind).
  - simpl. lia.
  - exists t'. split; [done|]. split; [done|]. split; [done|].
    split; [exact (Hfind 0%nat 1 10 eq_refl)|exact (Hfind 2%nat 3 30 eq_refl)].
Defined.

Lemma rehash_zero_bucket_count_witness :
  bucket_count seven_rehashed = 8 ∧ m_shifts seven_rehashed = INITIAL_SHIFTS.
Proof.
  apply (rehash_zero_bucket_count int_hash false seven_entries seven_rehashed);
    by vm_compute.
Defined.

Lemma insertion_order_kept_witness :
  ∃ t, int_insert_range (table_ctor 0) [(1, 10); (2, 20); (3, 30)] = Ok t ∧
       m_values t = [(1, 10); (2, 20); (3, 30)] ∧
       ∀ i k x, [(1, 10); (2, 20); (3, 30)] !! i = Some (k, x) →
                int_find t k = Ok (Z.of_nat i).
Proof.
  apply (insertion_order_kept int_hash false Z.eqb int_equal_spec
           [(1, 10); (2, 20); (3, 30)] 0); [compute_done|by vm_compute].
Defined.

Lemma int_Inv_seven_entries : int_Inv seven_entries.
Proof.
  apply (int_Inv_filled seven_keys); [|by vm_compute|by vm_compute].
  compute_done.
Qed.

Lemma no_nine (i : nat) (x : Z) : m_values three_entries !! i ≠ Some (9, x).
Proof. destruct i as [|[|[|i]]]; by intros [=]. Qed.

Lemma find_spec_witness :
  ∃ it, int_find three_entries 2 = Ok it ∧
        (it = end_ three_entries ↔ ∀ i x, m_values three_entries !! i ≠ Some (2, x)) ∧
        (it ≠ end_ three_entries →
         ∃ i x, it = Z.of_nat i ∧ m_values three_entries !! i = Some (2, x) ∧
                ∀ j y, m_values three_entries !! j = Some (2, y) → j = i).
Proof.
  exact (find_spec int_hash false Z.eqb int_equal_spec three_entries 2
           int_Inv_three_entries).
Defined.

Lemma at_spec_witness :
  at_ int_hash false Z.eqb three_entries 2 = Ok 20 ∧
  at_ int_hash false Z.eqb three_entries 9 =
    Throw (out_of_range "ankerl::unordered_dense::map::at(): key not found").
Proof.
  split.
  - exact (proj1 (at_spec int_hash false Z.eqb int_equal_spec three_entries 2
                    int_Inv_three_entries) 1%nat 20 eq_refl).
  - exact (proj1 (proj2 (at_spec int_hash false Z.eqb int_equal_spec three_entries 9
                           int_Inv_three_entries)) no_nine).
Defined.

Lemma count_contains_equal_range_witness :
  (count int_hash false Z.eqb three_entries 2 = Ok 1 ∧
   contains int_hash false Z.eqb three_entries 2 = Ok 1 ∧
   equal_range int_hash false Z.eqb three_entries 2 = Ok (1, 2)) ∧
  (count int_hash false Z.eqb three_entries 9 = Ok 0 ∧
   contains int_hash false Z.eqb three_entries 9 = Ok 0 ∧
   equal_range int_hash false Z.eqb three_entries 9 = Ok (3, 3)).
Proof.
  split.
  - exact (proj1 (count_contains_equal_range int_hash false Z.eqb int_equal_spec
                    three_entries 2 int_Inv_three_entries) 1%nat 20 eq_refl).
  - exact (proj2 (count_contains_equal_range int_hash false Z.eqb int_equal_spec
                    three_entries 9 int_Inv_three_entries) no_nine).
Defined.

Lemma insert_or_assign_spec_witness :
  ∃ t', insert_or_assign int_hash false Z.eqb one_entry 1 20 = Ok (t', (0, false)) ∧
        m_values t' = [(1, 20)] ∧ int_Inv t' ∧ int_find t' 1 = Ok 0 ∧
        at_ int_hash false Z.eqb t' 1 = Ok 20.
Proof.
  exact (proj1 (insert_or_assign_spec int_hash false Z.eqb int_equal_spec one_entry 1 20
                  int_Inv_one_entry can_grow_one_entry) 0%nat 10 eq_refl).
Defined.

Lemma index_op_spec_witness :
  (∃ t', index_op int_hash false Z.eqb 0 one_entry 1 = Ok (t', 10) ∧
         m_values t' = [(1, 10)] ∧ int_Inv t') ∧
  (∃ t', index_op int_hash false Z.eqb 0 (table_ctor 0) 1 = Ok (t', 0) ∧
         m_values t' = [(1, 0)] ∧ int_Inv t' ∧ int_find t' 1 = Ok 0).
Proof.
  split.
  - exact (proj1 (index_op_spec int_hash false Z.eqb int_equal_spec 0 one_entry 1
                    int_Inv_one_entry can_grow_one_entry) 0%nat 10 eq_refl).
  - apply (proj2 (index_op_spec int_hash false Z.eqb int_equal_spec 0 (table_ctor 0) 1
                    (Inv_table_ctor int_hash false 0) ltac:(by intros _))).
    intros i x. simpl. by rewrite lookup_nil.
Defined.

Lemma clear_spec_witness :
  int_Inv (clear three_entries) ∧ size (clear three_entries) = 0 ∧
  bucket_count (clear three_entries) = 16 ∧
  m_max_bucket_capacity (clear three_entries) = 12 ∧
  m_shifts (clear three_entries) = 60 ∧
  (∀ b, b ∈ m_buckets (clear three_entries) → b = mk_Bucket 0 0) ∧
  ∀ k, int_find (clear three_entries) k = Ok (end_ (clear three_entries)).
Proof.
  exact (clear_spec int_hash false Z.eqb three_entries int_Inv_three_entries).
Defined.

Lemma assign_list_spec_witness :
  ∃ t', assign_list int_hash false Z.eqb three_entries [(4, 40); (5, 50)] = Ok t' ∧
        m_values t' = [(4, 40); (5, 50)] ∧ int_Inv t' ∧
        ∀ i k x, [(4, 40); (5, 50)] !! i = Some (k, x) → int_find t' k = Ok (Z.of_nat i).
Proof.
  apply (assign_list_spec int_hash false Z.eqb int_equal_spec three_entries
           [(4, 40); (5, 50)] int_Inv_three_entries).
  - exists 6710886. split; [reflexivity | by vm_compute].
  - compute_done.
Defined.

Lemma erase_iterator_spec_witness :
  (∃ t', erase int_hash false three_entries 0 = Ok (t', 0) ∧ int_Inv t' ∧
         size t' = 2 ∧ int_find t' 1 = Ok (end_ t') ∧
         ∀ j, (j < 2)%nat →
              m_values t' !! j =
                if decide (j = 0%nat) then Some (3, 30) else m_values three_entries !! j) ∧
  ∀ it, ¬ (0 ≤ it < 3) → erase int_hash false three_entries it = Undefined.
Proof.
  exact (erase_iterator_spec int_hash false Z.eqb int_equal_spec three_entries 0 1 10
           int_Inv_three_entries eq_refl).
Defined.

Lemma calc_shifts_for_size_spec_witness :
  ∃ r, calc_shifts_for_size (@table_ctor Z Z 0) 7 = Ok r ∧ 41 ≤ r ≤ 61 ∧
       (∃ c, scaled_capacity float_0_8 r = Ok c ∧ 7 ≤ c) ∧
       ∀ r', r < r' ≤ 61 → ∃ c', scaled_capacity float_0_8 r' = Ok c' ∧ c' < 7.
Proof.
  apply (calc_shifts_for_size_spec (@table_ctor Z Z 0) 7 41 6710886).
  - by vm_compute.
  - lia.
  - reflexivity.
  - lia.
Defined.

Lemma rehash_fitting_witness :
  ∃ t', rehash int_hash false seven_entries 7 = Ok t' ∧
        m_values t' = m_values seven_entries ∧ int_Inv t' ∧
        (∀ k, int_find t' k = int_find seven_entries k) ∧
        (∃ c, scaled_capacity float_0_8 (m_shifts t') = Ok c ∧ 7 ≤ c) ∧
        (∀ r', m_shifts t' < r' ≤ 61 →
               ∃ c', scaled_capacity float_0_8 r' = Ok c' ∧ c' < 7) ∧
        (m_buckets t' ≠ [] →
         bucket_count t' = 2 ^ (64 - m_shifts t') ∧ 7 ≤ m_max_bucket_capacity t').
Proof.
  apply (rehash_fitting int_hash false Z.eqb int_equal_spec seven_entries 7 6710886
           int_Inv_seven_entries).
  - reflexivity.
  - by vm_compute.
  - lia.
Defined.

Lemma reserve_spec_witness :
  ∃ t', reserve int_hash false three_entries 100 = Ok t' ∧
        m_values t' = m_values three_entries ∧ int_Inv t' ∧
        (∀ k, int_find t' k = int_find three_entries k) ∧
        m_shifts t' ≤ 60 ∧ 16 ≤ bucket_count t' ∧
        (m_buckets t' ≠ [] → 100 ≤ m_max_bucket_capacity t').
Proof.
  apply (reserve_spec int_hash false Z.eqb int_equal_spec three_entries 100 6710886
           int_Inv_three_entries).
  - reflexivity.
  - lia.
Defined.

Lemma copy_spec_witness :
  ∃ t', table_copy int_hash false three_entries = Ok t' ∧
        copy_assign int_hash false false one_entry three_entries = Ok t' ∧
        m_values t' = m_values three_entries ∧
        m_max_load_factor t' = float_0_8 ∧ int_Inv t' ∧
        (∀ k, int_find t' k = int_find three_entries k) ∧
        (m_values three_entries = [] → m_buckets t' = []) ∧
        (m_values three_entries ≠ [] →
         bucket_count t' = 2 ^ (64 - m_shifts t') ∧ 3 ≤ m_max_bucket_capacity t' ∧
         ∀ r', m_shifts t' < r' ≤ 61 →
               ∃ c', scaled_capacity float_0_8 r' = Ok c' ∧ c' < 3).
Proof.
  apply (copy_spec int_hash false Z.eqb int_equal_spec one_entry three_entries 6710886
           int_Inv_three_entries).
  - reflexivity.
  - by vm_compute.
Defined.

(** The predicate that holds of the entries with key 2. *)
Definition key_is_two (e : Z * Z) : bool := e.1 =? 2.

Lemma erase_if_spec_witness :
  ∃ t' r, erase_if int_hash false three_entries key_is_two = Ok (t', r) ∧ int_Inv t' ∧
          m_values t' ≡ₚ filter (λ e, key_is_two e = false) (m_values three_entries) ∧
          (∀ k x, (k, x) ∈ m_values three_entries →
                  if key_is_two (k, x) then int_find t' k = Ok (end_ t')
                  else ∃ j, int_find t' k = Ok (Z.of_nat j) ∧ m_values t' !! j = Some (k, x)) ∧
          r = (2 ^ 64 - (3 - size t')) mod 2 ^ 64 ∧ 0 ≤ 3 - size t'.
Proof.
  exact (erase_if_spec int_hash false Z.eqb int_equal_spec three_entries key_is_two
           int_Inv_three_entries).
Defined.

Lemma run_three_entries : run int_hash false Z.eqb three_entries.
Proof.
  apply (run_from_range int_hash false Z.eqb [(1, 10); (2, 20); (3, 30)] 0); by vm_compute.
Qed.

Lemma run_invariants_witness :
  (∀ i j k x y, m_values three_entries !! i = Some (k, x) →
                m_values three_entries !! j = Some (k, y) → i = j) ∧
  (∀ i k x, m_values three_entries !! i = Some (k, x) →
            int_find three_entries k = Ok (Z.of_nat i)) ∧
  (∀ i k x, m_values three_entries !! i = Some (k, x) →
            ∃ q b, m_buckets three_entries !! q = Some b ∧ dist_and_fingerprint b ≠ 0 ∧
                   value_idx b = Z.of_nat i ∧
                   ∀ q' b', m_buckets three_entries !! q' = Some b' →
                            dist_and_fingerprint b' ≠ 0 → value_idx b' = Z.of_nat i →
                            q' = q) ∧
  (∀ q b, m_buckets three_entries !! q = Some b → dist_and_fingerprint b ≠ 0 →
          ∃ i k x d, value_idx b = Z.of_nat i ∧ m_values three_entries !! i = Some (k, x) ∧
                     (1 ≤ d ≤ 16)%nat ∧
                     dist_and_fingerprint b =
                       256 * Z.of_nat d + mixed_hash int_hash false k mod 256 ∧
                     walk 16 (bucket_from_hash three_entries (mixed_hash int_hash false k))
                       (d - 1) = q) ∧
  (∀ q b b', m_buckets three_entries !! q = Some b →
             m_buckets three_entries !! next (m_buckets three_entries) q = Some b' →
             512 ≤ dist_and_fingerprint b' →
             dist_and_fingerprint b' ≤ dist_and_fingerprint b + 256) ∧
  3 ≤ 12 ∧
  (m_buckets three_entries = [] ∨ (3 < 16 ∧ 16 = 2 ^ (64 - 60))).
Proof.
  exact (run_invariants int_hash false Z.eqb int_equal_spec three_entries
           run_three_entries).
Defined.

Lemma mum_portable_mum_witness :
  wyhash.mum_portable (2 ^ 64 - 1) 0xe7037ed1a0b428db =
  wyhash.mum (2 ^ 64 - 1) 0xe7037ed1a0b428db.
Proof. apply mum_portable_mum; lia. Defined.

(** The bytes of the string [hello]. *)
Definition hello : list Z := [104; 101; 108; 108; 111].

Lemma hash_portable_witness :
  wyhash.hash wyhash.mix_portable hello = wyhash.hash wyhash.mix hello.
Proof.
  apply hash_portable.
  - unfold wyhash.bytes, hello. repeat (constructor; [lia|]). constructor.
  - simpl. lia.
Defined.

(** ** What the code does where a claim of the specification fails *)

(** C1: on a key that the table holds already [try_emplace] keeps the old
    mapped value, so after [try_emplace(1, 20)] and [try_emplace(1, 30)] on
    the table of [(1, 10)], [find(1)] yields 10 and not 20. *)
Lemma try_emplace_on_held_key :
  int_insert_range (table_ctor 0) [(1, 10)] = Ok one_entry ∧
  int_try_emplace one_entry 1 20 = Ok (one_entry, (0, false)) ∧
  int_try_emplace one_entry 1 30 = Ok (one_entry, (0, false)) ∧
  int_find one_entry 1 = Ok 0 ∧
  at_index (m_values one_entry) 0 = Ok (1, 10) ∧
  at_index (m_values one_entry) 0 ≠ Ok (1, 20).
Proof. by vm_compute. Qed.

(** C3: [insert(1, 20)] into the table of [(1, 10)] inserts nothing, and
    [find(1)] yields [(1, 10)] afterwards. *)
Lemma insert_on_held_key :
  int_insert_range (table_ctor 0) [(1, 10)] = Ok one_entry ∧
  int_insert one_entry (1, 20) = Ok (one_entry, (0, false)) ∧
  int_find one_entry 1 = Ok 0 ∧
  at_index (m_values one_entry) 0 = Ok (1, 10) ∧
  at_index (m_values one_entry) 0 ≠ Ok (1, 20).
Proof. by vm_compute. Qed.


(** C7: the table of the keys [0] to [2 ^ 32 - 2] that the run above ends
    in holds [2 ^ 32 - 1] entries, and [emplace] of the key [2 ^ 32 - 1]
    reports nothing: it returns, the entry is the [2 ^ 32]-th, at the index
    [2 ^ 32 - 1], and the table then holds more than [max_size()]
    entries. *)
Lemma insertion_at_max_size_proceeds :
  ∃ t t' : int_map,
    spread_run (Z.to_nat (2 ^ 32 - 1)) = Ok t ∧
    reachable spread_hash true Z.eqb t ∧ size t = 2 ^ 32 - 1 ∧
    emplace spread_hash true Z.eqb t (2 ^ 32 - 1, 0) = Ok (t', (2 ^ 32 - 1, true)) ∧
    size t' = 2 ^ 32 ∧ max_size t < size t' ∧
    ∀ e, emplace spread_hash true Z.eqb t (2 ^ 32 - 1, 0) ≠ Throw e.
Proof.
  set (n := Z.to_nat (2 ^ 32 - 1)).
  assert (Z.of_nat n = 2 ^ 32 - 1) as Hn by (unfold n; lia).
  destruct (spread_run_spec n) as (t & Hrun & Hreach & Ht); [lia|].
  destruct (spread_emplace n t ltac:(lia) Ht) as (t' & Hem & _ & Hv' & _).
  rewrite Hn in Hem.
  assert (size t = 2 ^ 32 - 1) as Hsize.
  { destruct Ht as (_ & _ & _ & _ & Hv). unfold size. by rewrite Hv, keys_upto_length. }
  assert (size t' = 2 ^ 32) as Hsize'.
  { unfold size. rewrite Hv', keys_upto_length. lia. }
  exists t, t'. split; [exact Hrun|]. split; [exact Hreach|]. split; [exact Hsize|].
  split; [exact Hem|]. split; [exact Hsize'|]. split; [unfold max_size; lia|].
  intros e. by rewrite Hem.
Qed.

(** C8: the table constructed with the hint 5 has no bucket. *)
Lemma table_ctor_hint_five :
  bucket_count (@table_ctor Z Z 5) = 0 ∧
  m_max_bucket_capacity (@table_ctor Z Z 5) = 0 ∧
  ¬ (∃ n, 0 ≤ n ∧ bucket_count (@table_ctor Z Z 5) = 2 ^ n ∧
          5 ≤ m_max_bucket_capacity (@table_ctor Z Z 5)).
Proof. split; [done|]. split; [done|]. intros (n & _ & _ & H). by vm_compute in H. Qed.

(** C9: a new table is reachable, its shift is 61 and it has no bucket, not
    eight. *)
Lemma new_table_has_no_bucket :
  reachable int_hash false Z.eqb (@table_ctor Z Z 0) ∧
  m_shifts (@table_ctor Z Z 0) = 61 ∧
  bucket_count (@table_ctor Z Z 0) = 0 ∧
  bucket_count (@table_ctor Z Z 0) ≠ 2 ^ (64 - m_shifts (@table_ctor Z Z 0)).
Proof. split; [apply reach_ctor|]. by vm_compute. Qed.

(** C4: [erase(first, last)] on the first entry of the table of
    [(1, 10)], [(2, 20)] and [(3, 30)]: the statements of the function
    leave [(3, 30)] and [(2, 20)], and then the function, which is to
    return an iterator, ends without a [return]. *)
Example erase_range_of_first_entry :
  int_insert_range (table_ctor 0) [(1, 10); (2, 20); (3, 30)] = Ok three_entries ∧
  (∃ t', erase_range_statements int_hash false three_entries 0 1 = Ok t' ∧
         m_values t' = [(3, 30); (2, 20)]) ∧
  erase_range int_hash false three_entries 0 1 = Undefined ∧
  erase_range int_hash false three_entries 0 0 = Undefined.
Proof.
  split; [by vm_compute|]. split; [|by vm_compute].
  eexists. split; [by vm_compute|done].
Qed.

(** C5: [rehash(0)] after seven insertions takes the table from 16 buckets
    to 8, whose capacity is 6, below the seven entries it holds, where 16
    buckets with capacity 12 are the least that hold them; after nine
    insertions the rebuild into 8 buckets finds no empty bucket for the
    ninth entry within a lap around the array. *)
Example rehash_zero_after_seven :
  int_insert_range (table_ctor 0) seven_keys = Ok seven_entries ∧
  bucket_count seven_entries = 16 ∧ m_max_bucket_capacity seven_entries = 12 ∧
  (∃ t', rehash int_hash false seven_entries 0 = Ok t' ∧
         bucket_count t' = 8 ∧ m_max_bucket_capacity t' = 6 ∧ size t' = 7) ∧
  int_insert_range (table_ctor 0) (seven_keys ++ [(8, 80); (9, 90)]) = Ok nine_entries ∧
  rehash int_hash false nine_entries 0 = Undefined.
Proof.
  split; [by vm_compute|]. split; [by vm_compute|]. split; [by vm_compute|].
  split; [|by vm_compute]. eexists. split; [by vm_compute|]. by vm_compute.
Qed.
